(** * The launcher's update orchestrator and binary domain patcher

    A shallow embedding of
    - [backend/services/versionManager]   (version resolution, checksums),
    - [backend/core/config]               (the installed-version record),
    - [backend/managers/differentialUpdateManager] (acquire / deploy / update),
    - [backend/utils/clientPatcher]       (byte-level domain patching),
    followed by the properties of these functions.

    Conventions of the embedding.
    - A JavaScript string is the list of its UTF-16 code units ([jsstring]);
      a nullable string is an [option jsstring]; a value is truthy when it is
      neither [null] nor the empty string.
    - A JavaScript number that holds an integer is a [Z]; this is exact for
      magnitudes below 2^53, which is where build numbers live.
    - A [Buffer] is the list of its bytes, each a [Z] in [0, 256); an indexed
      store keeps the low eight bits and is ignored out of range, as for any
      typed array.
    - Effects are explicit: functions that touch the file system, the network,
      the configuration store or a subprocess take a world and return a
      result (a value or a thrown error) together with the world after. *)

From Stdlib Require Import ZArith Ascii String Lia Bool.
From stdpp Require Import base option list gmap sorting.

Local Open Scope Z_scope.

(** ** JavaScript values *)

Module JS.

Abbreviation jsstring := (list Z).

(** A string literal of the source, as code units. *)
Definition lit (s : string) : jsstring :=
  map (fun a => Z.of_N (N_of_ascii a)) (list_ascii_of_string s).

(** [!!v] for a nullable string. *)
Definition truthy (v : option jsstring) : bool :=
  match v with
  | Some (_ :: _) => true
  | _ => false
  end.

Definition str_eqb (a b : jsstring) : bool := bool_decide (a = b).

Fixpoint isPrefix (p s : list Z) : bool :=
  match p, s with
  | [], _ => true
  | _ :: _, [] => false
  | x :: p', y :: s' => (x =? y) && isPrefix p' s'
  end.

(** [s.includes(p)] on strings. *)
Fixpoint includes (s p : list Z) : bool :=
  isPrefix p s || match s with
                  | [] => false
                  | _ :: s' => includes s' p
                  end.

Fixpoint skipWhile (f : Z -> bool) (s : jsstring) : jsstring :=
  match s with
  | c :: r => if f c then skipWhile f r else s
  | [] => []
  end.

Definition isDigit (c : Z) : bool := (48 <=? c) && (c <=? 57).

(** [StrWhiteSpaceChar] of ECMAScript: white space and line terminators. *)
Definition isWhiteSpace (c : Z) : bool :=
  existsb (Z.eqb c)
    [9; 10; 11; 12; 13; 32; 160; 5760; 8232; 8233; 8239; 8287; 12288; 65279]
  || ((8192 <=? c) && (c <=? 8202)).

Definition digitValue (radix c : Z) : option Z :=
  let v := if isDigit c then Some (c - 48)
           else if (97 <=? c) && (c <=? 122) then Some (c - 87)
           else if (65 <=? c) && (c <=? 90) then Some (c - 55)
           else None in
  match v with
  | Some d => if d <? radix then Some d else None
  | None => None
  end.

(** The longest prefix of radix digits, as a number; [None] when it is
    empty. *)
Fixpoint accumulate (radix : Z) (s : jsstring) (acc : option Z) : option Z :=
  match s with
  | [] => acc
  | c :: rest =>
      match digitValue radix c with
      | Some d => accumulate radix rest (Some (default 0 acc * radix + d))
      | None => acc
      end
  end.

(** [parseInt(s)] with no radix argument; [None] is [NaN]. *)
Definition parseInt (s : jsstring) : option Z :=
  let s1 := skipWhile isWhiteSpace s in
  let '(sign, s2) :=
    match s1 with
    | c :: r => if c =? 45 then (-1, r) else if c =? 43 then (1, r) else (1, s1)
    | [] => (1, s1)
    end in
  let '(radix, s3) :=
    match s2 with
    | c :: x :: r =>
        if (c =? 48) && ((x =? 120) || (x =? 88)) then (16, r) else (10, s2)
    | _ => (10, s2)
    end in
  match accumulate radix s3 None with
  | Some n => Some (sign * n)
  | None => None
  end.

(** [Number.MAX_SAFE_INTEGER]: up to here integers are exact. *)
Definition MAX_SAFE_INTEGER : Z := 2 ^ 53 - 1.

(** Appending the digit [d] to the decimal number [acc]. *)
Definition decimal (acc d : Z) : Z := acc * 10 + (d - 48).

(** Decimal digits of a non-negative integer, most significant first. *)
Fixpoint digitsOf (fuel : nat) (n : Z) (acc : jsstring) : jsstring :=
  match fuel with
  | O => acc
  | S f =>
      let acc' := (48 + n mod 10) :: acc in
      if n <? 10 then acc' else digitsOf f (n / 10) acc'
  end.

(** [String(n)] for an integer [n] (the template literal [`${n}`]). *)
Definition numberToString (n : Z) : jsstring :=
  if n <? 0 then 45 :: digitsOf (S (Z.to_nat (Z.log2 (- n)))) (- n) []
  else digitsOf (S (Z.to_nat (Z.log2 n))) n [].

End JS.

Import JS.

(** ** Worlds, errors and the effect monad *)

Module Effects.

(** The errors the modelled functions create, one constructor per [throw]
    or rejection site, carrying what the message interpolates. *)
Inductive Err :=
| UnsupportedPlatform
    (* 'Hytale x86_64 Intel Mac Support has not been released yet...' *)
| DownloadFailed (downloadUrl targetPath cause : list Z)
    (* 'Archive download failed: ${cause}' *)
| CorruptedDownload
    (* 'Downloaded archive is corrupted or invalid. Please retry' *)
| FileUnreadable (path : list Z)
    (* a read or stat of a file that does not exist *)
| ArchiveNotFound (archivePath : list Z)
    (* 'Archive not found: ${archivePath}' *)
| ButlerInstallFailed (cause : list Z)
    (* rejection of installButler *)
| DeploymentFailed (message : list Z)
    (* the classified message of a failed apply *)
| DeploymentToolFailed (cause : list Z)
    (* 'Failed to execute deployment tool: ${cause}', of the listener that
       runs after the promise is settled *)
| ConfigSaveFailed (cause : list Z)
    (* 'Failed to save config: ${cause}' *)
| RequestFailed (cause : list Z)
    (* rejection of axios.get *)
| InvalidInfosResponse
    (* 'Invalid /infos response structure' *)
| NoInfosData (platformKey branch : list Z)
    (* 'No /infos data for platform ${platformKey} branch ${branch}' *)
| ConfigUnavailable.
    (* the config module cannot be loaded or read *)

Inductive Res (A : Type) :=
| Ok (a : A)
| Throw (e : Err).
Arguments Ok {A} a.
Arguments Throw {A} e.

(** Calls observed during a run, oldest first. *)
Inductive Event :=
| EvAcquire (downloadUrl targetPath : list Z) (checksum : option (list Z))
| EvDigest (filePath : list Z)
| EvDownload (downloadUrl targetPath : list Z) (allowRetry : bool)
| EvUnlink (path : list Z)
| EvDeploy (archivePath : list Z) (isDifferential : bool)
| EvDeployed (archivePath : list Z) (isDifferential : bool)
| EvSaved (versionClient : list Z).

(** One platform entry of the [/infos] document. *)
Record BranchData := {
  newest : option Z;
  buildVersion : option (list Z)
}.

(** The [/infos] document: platform key, then branch. *)
Definition Infos := list Z -> option (list Z -> option BranchData).

Record World := {
  version_client : option (list Z);   (* config.version_client *)
  files : gmap (list Z) (list Z);     (* regular files, by path *)
  infosCache : option Infos;          (* module variable of versionManager *)
  infosCacheTime : Z;
  events : list Event;
  tick : nat                          (* number of calls made to the host *)
}.

Definition setVersionClient (v : option (list Z)) (w : World) : World :=
  {| version_client := v; files := files w; infosCache := infosCache w;
     infosCacheTime := infosCacheTime w; events := events w; tick := tick w |}.

Definition setFiles (f : gmap (list Z) (list Z)) (w : World) : World :=
  {| version_client := version_client w; files := f; infosCache := infosCache w;
     infosCacheTime := infosCacheTime w; events := events w; tick := tick w |}.

Definition setInfosCache (c : option Infos) (t : Z) (w : World) : World :=
  {| version_client := version_client w; files := files w; infosCache := c;
     infosCacheTime := t; events := events w; tick := tick w |}.

Definition addEvent (e : Event) (w : World) : World :=
  {| version_client := version_client w; files := files w;
     infosCache := infosCache w; infosCacheTime := infosCacheTime w;
     events := events w ++ [e]; tick := tick w |}.

Definition nextTick (w : World) : World :=
  {| version_client := version_client w; files := files w;
     infosCache := infosCache w; infosCacheTime := infosCacheTime w;
     events := events w; tick := S (tick w) |}.

Inductive DownloadOutcome :=
| Downloaded (content : list Z)
| DownloadError (message : list Z).

(** What the callback of [execFile] receives. A tool that cannot be
    started reaches the callback too, as an error: the callback settles
    the promise before the listener of the child's [error] event runs. *)
Inductive ExecOutcome :=
| ExecOk
| ExecError (errorText : list Z).  (* (stderr + ' ' + error.message).toLowerCase() *)

Inductive AxiosOutcome :=
| AxiosResponse (data : option Infos)   (* [None]: falsy or not an object *)
| AxiosError (message : list Z).

(** What the functions under study call but do not define: the platform,
    Node's [path] and [crypto], the download helpers of [fileManager], the
    deployment tool, the disk under the configuration file, the HTTP client
    and the clock.  Outcomes that can differ from call to call are indexed by
    the number of host calls made so far. *)
Record Host := {
  getOS : list Z;
  getArch : list Z;
  path_join : list Z -> list Z -> list Z;
  path_basename : list Z -> list Z;
  sha256_hex : list Z -> list Z;
  retryDownload : nat -> list Z -> list Z -> DownloadOutcome;
  downloadFile : nat -> list Z -> list Z -> DownloadOutcome;
  installButler : nat -> list Z -> list Z + list Z;   (* path, or failure *)
  execButler : nat -> list Z -> list Z -> ExecOutcome;
  configWriteError : nat -> option (list Z);
  axiosGetInfos : nat -> AxiosOutcome;
  dateNow : nat -> Z
}.

Definition M (A : Type) : Type := World -> Res A * World.

Definition ret {A} (a : A) : M A := fun w => (Ok a, w).

Definition throw {A} (e : Err) : M A := fun w => (Throw e, w).

Definition bind {A B} (m : M A) (k : A -> M B) : M B :=
  fun w =>
    match m w with
    | (Ok a, w') => k a w'
    | (Throw e, w') => (Throw e, w')
    end.

(** [try { m } catch (e) { handler e }]: effects of [m] are kept. *)
Definition catch {A} (m : M A) (handler : Err -> M A) : M A :=
  fun w =>
    match m w with
    | (Ok a, w') => (Ok a, w')
    | (Throw e, w') => handler e w'
    end.

Definition get : M World := fun w => (Ok w, w).

Definition modify (f : World -> World) : M unit := fun w => (Ok tt, f w).

Definition emit (e : Event) : M unit := modify (addEvent e).

(** Ask the host, consuming one tick. *)
Definition ask {A} (f : nat -> A) : M A :=
  fun w => (Ok (f (tick w)), nextTick w).

Declare Scope eff_scope.
Delimit Scope eff_scope with eff.
Notation "'let*' x ':=' c1 'in' c2" := (bind c1 (fun x => c2))
  (at level 10, x name, c1 at level 100, c2 at level 200) : eff_scope.
Notation "'do' c1 'then' c2" := (bind c1 (fun _ => c2))
  (at level 10, c1 at level 100, c2 at level 200) : eff_scope.

(** [fs.existsSync], [fs.unlinkSync] and a whole-file write. *)
Definition existsSync (p : list Z) : M bool :=
  fun w => (Ok (bool_decide (is_Some (files w !! p))), w).

Definition unlinkSync (p : list Z) : M unit :=
  bind (emit (EvUnlink p)) (fun _ => modify (fun w => setFiles (delete p (files w)) w)).

Definition writeFile (p content : list Z) : M unit :=
  modify (fun w => setFiles (<[p := content]> (files w)) w).

Definition readFile (p : list Z) : M (list Z) :=
  fun w =>
    match files w !! p with
    | Some b => (Ok b, w)
    | None => (Throw (FileUnreadable p), w)
    end.

End Effects.

Import Effects.

(** ** core/config: the installed-version record *)

Module Config.

Section WithHost.
Variable h : Host.

Local Open Scope eff_scope.

(** [saveConfig(update)] for an update of [version_client]: up to three
    attempts, the write of each may fail; the record changes only when an
    attempt succeeds, and the last failure is thrown after the third. *)
Fixpoint saveConfigAttempts (attempts : nat) (lastError : list Z)
  (versionClient : list Z) : M unit :=
  match attempts with
  | O => throw (ConfigSaveFailed lastError)
  | S k =>
      let* failure := ask (configWriteError h) in
      match failure with
      | None => modify (setVersionClient (Some versionClient))
      | Some message => saveConfigAttempts k message versionClient
      end
  end.

Definition saveVersionClient (versionClient : list Z) : M unit :=
  do saveConfigAttempts 3 [] versionClient then
  emit (EvSaved versionClient).

(** [config.version_client !== undefined ? config.version_client : null] *)
Definition loadVersionClient : M (option (list Z)) :=
  let* w := get in ret (version_client w).

End WithHost.

End Config.

(** ** versionManager *)

Module VersionManager.

Definition BASE_PATCH_URL : jsstring := lit "https://game.authbp.xyz/dl".

Fixpoint takeDigits (s : jsstring) : jsstring :=
  match s with
  | c :: r => if isDigit c then c :: takeDigits r else []
  | [] => []
  end.

Definition nonEmpty (s : jsstring) : bool :=
  match s with [] => false | _ :: _ => true end.

(** Capture group of [version.match(/v(\d+)/)]: the leftmost [v] that is
    followed by a digit, and the digits after it. *)
Fixpoint match_v_digits (s : jsstring) : option jsstring :=
  match s with
  | [] => None
  | c :: r =>
      if (c =? 118) && nonEmpty (takeDigits r) then Some (takeDigits r)
      else match_v_digits r
  end.

(** Capture group of [version.match(/(\d+)\.pwr/)]: the leftmost position
    where a run of digits is followed by [.pwr]. *)
Fixpoint match_digits_pwr (s : jsstring) : option jsstring :=
  match s with
  | [] => None
  | _ :: r =>
      let ds := takeDigits s in
      if nonEmpty ds && isPrefix (lit ".pwr") (drop (length ds) s) then Some ds
      else match_digits_pwr r
  end.

(** [isNaN(num) ? 0 : num]. *)
Definition orZero (n : option Z) : Z := default 0 n.

(** Build numbers are exact integers here and doubles in the source: the
    two agree up to [MAX_SAFE_INTEGER] in absolute value, the range in
    which the properties of the loops over builds are stated. *)
Definition extractVersionNumber (version : option jsstring) : Z :=
  match version with
  | None => 0
  | Some [] => 0
  | Some v =>
      match match_v_digits v with
      | Some ds => orZero (parseInt ds)
      | None =>
          match match_digits_pwr v with
          | Some ds => orZero (parseInt ds)
          | None => orZero (parseInt v)
          end
      end
  end.

(** [`${n}.pwr`] *)
Definition pwr (n : Z) : jsstring := numberToString n ++ lit ".pwr".

(** The [for] loop of [needsIntermediatePatches]; [fuel] bounds the number
    of iterations. *)
Fixpoint pushVersions (fuel : nat) (i target : Z) (intermediates : list jsstring)
  : list jsstring :=
  match fuel with
  | O => intermediates
  | S f =>
      if i <=? target
      then pushVersions f (i + 1) target
             (intermediates ++ [pwr i])
      else intermediates
  end.

(** The loop variable runs from [current + 1] to [target], so
    [target - current] iterations exhaust it, for builds within the exact
    integer range; beyond [MAX_SAFE_INTEGER] the source's [i++] no longer
    changes [i]. *)
Definition needsIntermediatePatches (currentVersion targetVersion : option jsstring)
  : list jsstring :=
  if truthy currentVersion then
    let current := extractVersionNumber currentVersion in
    let target := extractVersionNumber targetVersion in
    pushVersions (Z.to_nat (target - current)) (current + 1) target []
  else [].

Record VersionDetails := {
  version : option jsstring;
  buildNumber : Z;
  buildName : jsstring;
  fullUrl : jsstring;
  differentialUrl : option jsstring;
  checksum : option jsstring;
  sourceVersion : option jsstring;
  isDifferential : bool;
  releaseNotes : option jsstring
}.

Definition canUseDifferentialUpdate (currentVersion : option jsstring)
  (targetDetails : option VersionDetails) : bool :=
  match targetDetails with
  | None => false
  | Some details =>
      if negb (truthy (differentialUrl details)) then false
      else if negb (isDifferential details) then false
      else if negb (truthy currentVersion) then false
      else
        let currentBuild := extractVersionNumber currentVersion in
        let expectedSource := extractVersionNumber (sourceVersion details) in
        currentBuild =? expectedSource
  end.

(** Differential eligibility, as the specification words it: a
    differential URL exists, it is flagged as a true differential, and its
    declared source version is the installed one (versions being build
    numbers). *)
Definition differentialEligible (installed : option jsstring)
  (details : VersionDetails) : Prop :=
  truthy (differentialUrl details) = true
  /\ isDifferential details = true
  /\ extractVersionNumber (sourceVersion details)
     = extractVersionNumber installed.

Section WithHost.
Variable h : Host.

Local Open Scope eff_scope.

Definition buildArchiveUrl (buildNumber : Z) (branch : jsstring) : jsstring :=
  BASE_PATCH_URL ++ lit "/" ++ getOS h ++ lit "/" ++ getArch h ++ lit "/"
    ++ branch ++ lit "/0/" ++ pwr buildNumber.

Definition extractVersionDetails (targetVersion : option jsstring)
  (branch : jsstring) : VersionDetails :=
  let buildNumber := extractVersionNumber targetVersion in
  let previousBuild := buildNumber - 1 in
  let sourceVersion :=
    if 0 <? previousBuild
    then Some (pwr previousBuild) else None in
  let fullUrl := buildArchiveUrl buildNumber branch in
  {| version := targetVersion;
     buildNumber := buildNumber;
     buildName := lit "HYTALE-Build-" ++ numberToString buildNumber;
     fullUrl := fullUrl;
     differentialUrl := None;
     checksum := None;
     sourceVersion := sourceVersion;
     isDifferential := false;
     releaseNotes := None |}.

(** The digest of a file; reading a missing file rejects. *)
Definition computeFileChecksum (filePath : jsstring) : M jsstring :=
  do emit (EvDigest filePath) then
  let* content := readFile filePath in
  ret (sha256_hex h content).

Definition validateChecksum (filePath : jsstring)
  (expectedChecksum : option jsstring) : M bool :=
  match expectedChecksum with
  | Some (c :: cs) =>
      let* actualChecksum := computeFileChecksum filePath in
      ret (str_eqb actualChecksum (c :: cs))
  | _ => ret true
  end.

(** [try { return loadVersionClient() } catch { return null }] *)
Definition getInstalledClientVersion : M (option jsstring) :=
  catch Config.loadVersionClient (fun _ => ret None).

Definition API_CACHE_DURATION : Z := 60000.

Definition platformKey : jsstring := getOS h ++ lit "-" ++ getArch h.

(** [`${branchData.newest}.pwr`] *)
Definition newestPwr (b : BranchData) : jsstring :=
  match newest b with
  | Some n => pwr n
  | None => lit "undefined.pwr"
  end.

(** [fetchNewAPI(branch).client_version] together with the cache update. *)
Definition fetchNewAPI (branch : jsstring) : M jsstring :=
  let* now := ask (dateNow h) in
  let* w := get in
  let fresh :=
    match infosCache w with
    | Some _ => now - infosCacheTime w <? API_CACHE_DURATION
    | None => false
    end in
  do (if fresh then ret tt
      else
        catch
          (let* response := ask (axiosGetInfos h) in
           match response with
           | AxiosError message => throw (RequestFailed message)
           | AxiosResponse None => throw InvalidInfosResponse
           | AxiosResponse (Some data) => modify (setInfosCache (Some data) now)
           end)
          (fun error =>
             let* w' := get in
             match infosCache w' with
             | None => throw error
             | Some _ => ret tt
             end)) then
  let* w1 := get in
  match infosCache w1 with
  | None => throw (NoInfosData platformKey branch)
  | Some infos =>
      match infos platformKey with
      | None => throw (NoInfosData platformKey branch)
      | Some platformData =>
          match platformData branch with
          | None => throw (NoInfosData platformKey branch)
          | Some branchData => ret (newestPwr branchData)
          end
      end
  end.

Definition getLatestVersionFromNewAPI (branch : jsstring) : M jsstring :=
  catch (fetchNewAPI branch) (fun error => throw error).

(** [branchData && branchData.newest] *)
Definition newestTruthy (b : BranchData) : bool :=
  match newest b with
  | Some n => negb (n =? 0)
  | None => false
  end.

(** The [catch] block of [getLatestClientVersion]: one direct retry of
    [/infos], and "9.pwr" when that gives no usable answer. *)
Definition infosFallback (branch : jsstring) : M jsstring :=
  catch
    (let* response := ask (axiosGetInfos h) in
     match response with
     | AxiosError message => throw (RequestFailed message)
     | AxiosResponse data =>
         let branchData :=
           match data with
           | Some infos =>
               match infos platformKey with
               | Some platformData => platformData branch
               | None => None
               end
           | None => None
           end in
         match branchData with
         | Some b =>
             if newestTruthy b then ret (newestPwr b) else ret (lit "9.pwr")
         | None => ret (lit "9.pwr")
         end
     end)
    (fun _ => ret (lit "9.pwr")).

Definition getLatestClientVersion (branch : jsstring) : M jsstring :=
  catch (getLatestVersionFromNewAPI branch) (fun _ => infosFallback branch).

End WithHost.

End VersionManager.

Import VersionManager.

(** ** differentialUpdateManager *)

Module UpdateManager.

Section WithHost.
Variable h : Host.

Local Open Scope eff_scope.

Definition fileSize (content : list Z) : Z := Z.of_nat (length content).

(** [osName === 'darwin' && arch === 'amd64'] *)
Definition unsupportedPlatform : bool :=
  str_eqb (getOS h) (lit "darwin") && str_eqb (getArch h) (lit "amd64").

(** The cache check of [acquireGameArchive]: whether a valid archive is
    already at [targetPath]; a large cached file that fails validation is
    deleted. *)
Definition reuseCached (targetPath : jsstring) (checksum : option jsstring)
  : M bool :=
  let* w := get in
  match files w !! targetPath with
  | Some content =>
      if 1024 * 1024 <? fileSize content then
        let* isValid := validateChecksum h targetPath checksum in
        if isValid then ret true
        else do unlinkSync targetPath then ret false
      else ret false
  | None => ret false
  end.

(** The download of [acquireGameArchive] and the validation after it. *)
Definition downloadAndValidate (downloadUrl targetPath : jsstring)
  (checksum : option jsstring) (allowRetry : bool) : M jsstring :=
  do emit (EvDownload downloadUrl targetPath allowRetry) then
  let* outcome :=
    ask (fun t => if allowRetry then retryDownload h t downloadUrl targetPath
                  else downloadFile h t downloadUrl targetPath) in
  match outcome with
  | DownloadError message =>
      throw (DownloadFailed downloadUrl targetPath message)
  | Downloaded content =>
      do writeFile targetPath content then
      let* stats := readFile targetPath in
      let* isValid := validateChecksum h targetPath checksum in
      if negb isValid then
        do unlinkSync targetPath then throw CorruptedDownload
      else ret targetPath
  end.

Definition acquireGameArchive (downloadUrl targetPath : jsstring)
  (checksum : option jsstring) (allowRetry : bool) : M jsstring :=
  do emit (EvAcquire downloadUrl targetPath checksum) then
  if unsupportedPlatform
  then throw UnsupportedPlatform
  else
    let* cached := reuseCached targetPath checksum in
    if cached then ret targetPath
    else downloadAndValidate downloadUrl targetPath checksum allowRetry.

(** Whether the cache holds an archive that [acquireGameArchive] reuses:
    larger than one mebibyte, with the expected digest. *)
Definition cacheHit (w : World) (targetPath expected : jsstring) : bool :=
  match files w !! targetPath with
  | Some content =>
      (1024 * 1024 <? fileSize content)
      && str_eqb (sha256_hex h content) expected
  | None => false
  end.

(** The outcome of the download [acquireGameArchive] performs in [w]. *)
Definition downloadOutcome (w : World) (downloadUrl targetPath : jsstring)
  (allowRetry : bool) : DownloadOutcome :=
  if allowRetry then retryDownload h (tick w) downloadUrl targetPath
  else downloadFile h (tick w) downloadUrl targetPath.

(** The message chosen for a failed apply, and whether the archive is
    deleted. *)
Definition classifyDeployError (errorText : jsstring) : jsstring * bool :=
  if includes errorText (lit "unexpected eof")
  then (lit "Corrupted archive detected. Please retry download.", true)
  else if includes errorText (lit "permission denied")
  then (lit "Permission denied. Check file permissions and try again.", false)
  else if includes errorText (lit "no space left")
          || includes errorText (lit "device full")
  then (lit "Insufficient disk space. Free up space and try again.", false)
  else (lit "Game deployment failed", false).

(** The staging directory lives inside the game directory, whose content
    is the tool's business and is not part of the world. *)
Definition deployGameArchive (archivePath destinationDir toolsDir : jsstring)
  (isDifferential : bool) : M unit :=
  do emit (EvDeploy archivePath isDifferential) then
  let* present := existsSync archivePath in
  if negb (nonEmpty archivePath) || negb present
  then throw (ArchiveNotFound archivePath)
  else
    let* butler := ask (fun t => installButler h t toolsDir) in
    match butler with
    | inr cause => throw (ButlerInstallFailed cause)
    | inl butlerPath =>
        let* outcome := ask (fun t => execButler h t butlerPath archivePath) in
        match outcome with
        | ExecError errorText =>
            let '(message, removeArchive) := classifyDeployError errorText in
            do (if removeArchive then
                  let* still := existsSync archivePath in
                  if still then unlinkSync archivePath else ret tt
                else ret tt) then
            throw (DeploymentFailed message)
        | ExecOk => emit (EvDeployed archivePath isDifferential)
        end
    end.

(** The orchestrator is stated over the resolver it awaits, so that steps
    with and without a usable differential are both covered;
    [performIntelligentUpdate] below instantiates it with
    [extractVersionDetails]. *)
Section WithResolver.
Variable resolve : option jsstring -> jsstring -> VersionDetails.

Definition fullArchivePath (cacheDir branch : jsstring) (d : VersionDetails)
  : jsstring :=
  path_join h cacheDir (branch ++ lit "_" ++ path_basename h (fullUrl d)).

Definition patchArchivePath (cacheDir branch : jsstring) (d : VersionDetails)
  : jsstring :=
  path_join h cacheDir
    (branch ++ lit "_patch_" ++ path_basename h (default [] (differentialUrl d))).

(** The archives a step for [version] may deploy: its full archive, not
    differentially, or its patch archive, differentially. *)
Definition stepArchive (cacheDir branch version archivePath : jsstring)
  (isDifferential : bool) : Prop :=
  let details := resolve (Some version) branch in
  (archivePath = fullArchivePath cacheDir branch details
   /\ isDifferential = false)
  \/ (archivePath = patchArchivePath cacheDir branch details
      /\ isDifferential = true).

(** Download and deploy the full archive of [targetVersion], then record
    it: the body shared by the pre-release and first-install paths. *)
Definition fullInstall (targetVersion branch gameDir cacheDir toolsDir : jsstring)
  : M unit :=
  let versionDetails := resolve (Some targetVersion) branch in
  let archivePath := fullArchivePath cacheDir branch versionDetails in
  do acquireGameArchive (fullUrl versionDetails) archivePath None true then
  do deployGameArchive archivePath gameDir toolsDir false then
  Config.saveVersionClient h targetVersion.

(** One iteration of the patch loop. *)
Definition applyPatch (branch gameDir cacheDir toolsDir : jsstring)
  (patchVersion : jsstring) : M unit :=
  let versionDetails := resolve (Some patchVersion) branch in
  let* installed := getInstalledClientVersion in
  let canDifferential :=
    canUseDifferentialUpdate installed (Some versionDetails) in
  do (if negb canDifferential || negb (truthy (differentialUrl versionDetails))
      then
        let archivePath := fullArchivePath cacheDir branch versionDetails in
        do acquireGameArchive (fullUrl versionDetails) archivePath None true then
        deployGameArchive archivePath gameDir toolsDir false
      else
        let archivePath := patchArchivePath cacheDir branch versionDetails in
        do acquireGameArchive (default [] (differentialUrl versionDetails))
             archivePath (checksum versionDetails) true then
        do deployGameArchive archivePath gameDir toolsDir true then
        let* present := existsSync archivePath in
        if present then unlinkSync archivePath else ret tt) then
  Config.saveVersionClient h patchVersion.

Fixpoint applyPatches (branch gameDir cacheDir toolsDir : jsstring)
  (patchesToApply : list jsstring) : M unit :=
  match patchesToApply with
  | [] => ret tt
  | patchVersion :: rest =>
      do applyPatch branch gameDir cacheDir toolsDir patchVersion then
      applyPatches branch gameDir cacheDir toolsDir rest
  end.

(** The update plan, as the specification words it: a single full install
    of the target off the release branch or without an installed version,
    the intermediate versions otherwise. *)
Definition updatePlan (currentVersion : option jsstring)
  (targetVersion branch : jsstring) : list jsstring :=
  if negb (str_eqb branch (lit "release")) then [targetVersion]
  else if negb (truthy currentVersion) then [targetVersion]
  else needsIntermediatePatches currentVersion (Some targetVersion).

Definition performIntelligentUpdateWith
  (targetVersion branch gameDir cacheDir toolsDir : jsstring) : M unit :=
  let* currentVersion := getInstalledClientVersion in
  if negb (str_eqb branch (lit "release")) then
    fullInstall targetVersion branch gameDir cacheDir toolsDir
  else if negb (truthy currentVersion) then
    fullInstall targetVersion branch gameDir cacheDir toolsDir
  else
    let patchesToApply :=
      needsIntermediatePatches currentVersion (Some targetVersion) in
    applyPatches branch gameDir cacheDir toolsDir patchesToApply.

End WithResolver.

Definition performIntelligentUpdate
  (targetVersion branch gameDir cacheDir toolsDir : jsstring) : M unit :=
  performIntelligentUpdateWith (extractVersionDetails h)
    targetVersion branch gameDir cacheDir toolsDir.

End WithHost.

End UpdateManager.

(** ** clientPatcher *)

Module ClientPatcher.

Definition ORIGINAL_DOMAIN : jsstring := lit "hytale.com".
Definition MIN_DOMAIN_LENGTH : Z := 4.
Definition MAX_DOMAIN_LENGTH : Z := 16.
Definition DEFAULT_NEW_DOMAIN : jsstring := lit "auth.sanasol.ws".
Definition DEFAULT_AUTH_DOMAIN : jsstring := lit "auth.sanasol.ws".

Inductive ConfigOutcome :=
| ConfigThrows
| ConfigLoaded (authDomain : option jsstring).

(** What the patcher reads from its surroundings: the environment
    variable, the configuration module and the clock. *)
Record PatcherHost := {
  HYTALE_AUTH_DOMAIN : option jsstring;
  loadConfig : ConfigOutcome;
  isoNow : jsstring
}.

(** [getAuthDomain] of core/config. *)
Definition getAuthDomain (host : PatcherHost) : Res jsstring :=
  if truthy (HYTALE_AUTH_DOMAIN host)
  then Ok (default [] (HYTALE_AUTH_DOMAIN host))
  else
    match loadConfig host with
    | ConfigThrows => Throw ConfigUnavailable
    | ConfigLoaded authDomain =>
        if truthy authDomain then Ok (default [] authDomain)
        else Ok DEFAULT_AUTH_DOMAIN
    end.

Definition getTargetDomain (host : PatcherHost) : jsstring :=
  if truthy (HYTALE_AUTH_DOMAIN host)
  then default [] (HYTALE_AUTH_DOMAIN host)
  else
    match getAuthDomain host with
    | Ok domain => domain
    | Throw _ => lit "auth.sanasol.ws"
    end.

Definition strLength (s : jsstring) : Z := Z.of_nat (length s).

Definition getNewDomain (host : PatcherHost) : jsstring :=
  let domain := getTargetDomain host in
  if strLength domain <? MIN_DOMAIN_LENGTH then DEFAULT_NEW_DOMAIN
  else if MAX_DOMAIN_LENGTH <? strLength domain then DEFAULT_NEW_DOMAIN
  else domain.

Inductive Mode := direct | split.

Record Strategy := {
  mode : Mode;
  mainDomain : jsstring;
  subdomainPrefix : jsstring
}.

Definition getDomainStrategy (domain : jsstring) : Strategy :=
  if strLength domain <=? 10 then
    {| mode := direct; mainDomain := domain; subdomainPrefix := [] |}
  else
    let prefix := take 6 domain in
    let suffix := drop 6 domain in
    {| mode := split; mainDomain := suffix; subdomainPrefix := prefix |}.

(** *** Buffers *)

Definition Buffer_alloc (size : Z) : list Z := repeat 0 (Z.to_nat size).

(** [buffer[i] = v] *)
Definition store (buffer : list Z) (i : nat) (v : Z) : list Z :=
  <[i := v mod 256]> buffer.

(** The [for] loop of [stringToLengthPrefixed], from character [i]. *)
Fixpoint fillLengthPrefixed (chars : jsstring) (length i : Z) (pos : nat)
  (result : list Z) : list Z :=
  match chars with
  | [] => result
  | c :: rest =>
      let result1 := store result pos c in
      if i <? length - 1
      then fillLengthPrefixed rest length (i + 1) (S (S pos))
             (store result1 (S pos) 0)
      else fillLengthPrefixed rest length (i + 1) (S pos) result1
  end.

Definition stringToLengthPrefixed (str : jsstring) : list Z :=
  let length := strLength str in
  let result := Buffer_alloc (4 + length + (length - 1)) in
  let result := store result 0 length in
  let result := store result 1 0 in
  let result := store result 2 0 in
  let result := store result 3 0 in
  fillLengthPrefixed str length 0 4 result.

(** [buf.writeUInt16LE(value, offset)] *)
Definition writeUInt16LE (buf : list Z) (value : Z) (offset : nat) : list Z :=
  store (store buf offset value) (S offset) (value / 256).

Fixpoint fillUtf16LE (chars : jsstring) (i : nat) (buf : list Z) : list Z :=
  match chars with
  | [] => buf
  | c :: rest => fillUtf16LE rest (S i) (writeUInt16LE buf c (i * 2))
  end.

Definition stringToUtf16LE (str : jsstring) : list Z :=
  fillUtf16LE str 0 (Buffer_alloc (strLength str * 2)).

(** [buffer.indexOf(pattern, pos)], on the part of the buffer from [pos]. *)
Fixpoint indexOfFrom (rest pattern : list Z) (pos : nat) : option nat :=
  match rest with
  | [] => match pattern with [] => Some pos | _ :: _ => None end
  | _ :: rest' =>
      if isPrefix pattern rest then Some pos
      else indexOfFrom rest' pattern (S pos)
  end.

Definition indexOf (buffer pattern : list Z) (pos : nat) : option nat :=
  indexOfFrom (drop pos buffer) pattern pos.

(** The [while] loop of [findAllOccurrences]; [pos] grows at every turn,
    so the length of the buffer bounds the number of turns. *)
Fixpoint findFrom (fuel : nat) (buffer pattern : list Z) (pos : nat)
  (positions : list nat) : list nat :=
  match fuel with
  | O => positions
  | S f =>
      if (pos <? length buffer)%nat then
        match indexOf buffer pattern pos with
        | None => positions
        | Some index =>
            findFrom f buffer pattern (index + 1)%nat (positions ++ [index])
        end
      else positions
  end.

Definition findAllOccurrences (buffer pattern : list Z) : list nat :=
  findFrom (length buffer) buffer pattern 0 [].

(** [source.copy(target, targetStart)]: bytes past the end of the target
    are dropped. *)
Fixpoint copy (source target : list Z) (targetStart : nat) : list Z :=
  match source with
  | [] => target
  | b :: rest => copy rest (<[targetStart := b]> target) (S targetStart)
  end.

Definition replaceBytes (buffer oldBytes newBytes : list Z) : list Z * Z :=
  let result := buffer in
  if (length oldBytes <? length newBytes)%nat then (result, 0)
  else
    let positions := findAllOccurrences result oldBytes in
    fold_left (fun '(result, count) pos => (copy newBytes result pos, count + 1))
      positions (result, 0).

(** [str.slice(0, -1)] and [str.charCodeAt(str.length - 1)] ([None] is
    [NaN]). *)
Definition sliceNoLast (s : jsstring) : jsstring := take (length s - 1)%nat s.
Definition lastCharCode (s : jsstring) : option Z := last s.

Definition findAndReplaceDomainSmart (data : list Z) (oldDomain newDomain : jsstring)
  : list Z * Z :=
  let result := data in
  let oldUtf16NoLast := stringToUtf16LE (sliceNoLast oldDomain) in
  let newUtf16NoLast := stringToUtf16LE (sliceNoLast newDomain) in
  let oldLastCharByte := lastCharCode oldDomain in
  let newLastCharByte := lastCharCode newDomain in
  let positions := findAllOccurrences result oldUtf16NoLast in
  fold_left
    (fun '(result, count) pos =>
       let lastCharPos := (pos + length oldUtf16NoLast)%nat in
       if (length result <? lastCharPos + 1)%nat then (result, count)
       else
         let lastCharFirstByte := result !! lastCharPos in
         if bool_decide (is_Some oldLastCharByte
                         /\ lastCharFirstByte = oldLastCharByte)
         then
           let result1 := copy newUtf16NoLast result pos in
           (store result1 lastCharPos (default 0 newLastCharByte), count + 1)
         else (result, count))
    positions (result, 0).

Definition oldSentry : jsstring :=
  lit "https://ca900df42fcf57d4dd8401a86ddd7da2@sentry.hytale.com/2".

Definition subdomains : list jsstring :=
  [lit "https://tools."; lit "https://sessions.";
   lit "https://account-data."; lit "https://telemetry."].

Definition applyDomainPatches (data : list Z) (domain protocol : jsstring)
  : list Z * Z :=
  let result := data in
  let totalCount := 0 in
  let strategy := getDomainStrategy domain in
  let newSentry := protocol ++ lit "t@" ++ domain ++ lit "/2" in
  let sentryResult :=
    replaceBytes result (stringToLengthPrefixed oldSentry)
      (stringToLengthPrefixed newSentry) in
  let result := fst sentryResult in
  let totalCount :=
    if 0 <? snd sentryResult then totalCount + snd sentryResult else totalCount in
  let domainResult :=
    replaceBytes result (stringToLengthPrefixed ORIGINAL_DOMAIN)
      (stringToLengthPrefixed (mainDomain strategy)) in
  let result := fst domainResult in
  let totalCount :=
    if 0 <? snd domainResult then totalCount + snd domainResult else totalCount in
  let newSubdomainPrefix := protocol ++ subdomainPrefix strategy in
  fold_left
    (fun '(result, totalCount) sub =>
       let subResult :=
         replaceBytes result (stringToLengthPrefixed sub)
           (stringToLengthPrefixed newSubdomainPrefix) in
       (fst subResult,
        if 0 <? snd subResult then totalCount + snd subResult else totalCount))
    subdomains (result, totalCount).

Definition patchDiscordUrl (data : list Z) : list Z * Z :=
  let result := data in
  let oldUrl := lit ".gg/hytale" in
  let newUrl := lit ".gg/hf2pdc" in
  let lpResult :=
    replaceBytes result (stringToLengthPrefixed oldUrl)
      (stringToLengthPrefixed newUrl) in
  if 0 <? snd lpResult then lpResult
  else
    let oldUtf16 := stringToUtf16LE oldUrl in
    let newUtf16 := stringToUtf16LE newUrl in
    let positions := findAllOccurrences result oldUtf16 in
    fold_left (fun '(result, count) pos => (copy newUtf16 result pos, count + 1))
      positions (result, 0).

(** *** The binary and its sibling files *)

Record PatchRecord := {
  patchedAt : jsstring;
  originalDomain : jsstring;
  targetDomain : option jsstring;   (* [None]: key absent *)
  patchMode : Mode;
  recordMainDomain : jsstring;
  recordSubdomainPrefix : jsstring;
  patcherVersion : jsstring;
  verified : jsstring
}.

Inductive FlagContent :=
| FlagCorrupt                       (* JSON.parse throws *)
| FlagJson (flagData : PatchRecord).

(** The files of one client path: the binary, [<binary>.patched_custom],
    [<binary>.original], the archived backups, and the number of times the
    binary was written. *)
Record Install := {
  client : option (list Z);
  flagFile : option FlagContent;
  backup : option (list Z);
  archivedBackups : list (list Z);
  clientWrites : nat
}.

Record PatchStatus := {
  patched : bool;
  currentDomain : option jsstring;
  needsRestore : bool
}.

Definition notPatched : PatchStatus :=
  {| patched := false; currentDomain := None; needsRestore := false |}.

Definition getPatchStatus (host : PatcherHost) (fs : Install) : PatchStatus :=
  let newDomain := getNewDomain host in
  match flagFile fs with
  | Some (FlagJson flagData) =>
      let currentDomain := targetDomain flagData in
      if bool_decide (currentDomain = Some newDomain) then
        match client fs with
        | Some data =>
            let strategy := getDomainStrategy newDomain in
            let domainPattern := stringToLengthPrefixed (mainDomain strategy) in
            if includes data domainPattern
            then {| patched := true; currentDomain := currentDomain;
                    needsRestore := false |}
            else notPatched
        | None => notPatched
        end
      else {| patched := false; currentDomain := currentDomain;
              needsRestore := true |}
  | Some FlagCorrupt => notPatched
  | None => notPatched
  end.

Definition restoreFromBackup (fs : Install) : bool * Install :=
  match backup fs with
  | Some original =>
      (true, {| client := Some original; flagFile := None;
                backup := backup fs; archivedBackups := archivedBackups fs;
                clientWrites := S (clientWrites fs) |})
  | None => (false, fs)
  end.

Definition markAsPatched (host : PatcherHost) (fs : Install) : Install :=
  let newDomain := getNewDomain host in
  let strategy := getDomainStrategy newDomain in
  let flagData :=
    {| patchedAt := isoNow host;
       originalDomain := ORIGINAL_DOMAIN;
       targetDomain := Some newDomain;
       patchMode := mode strategy;
       recordMainDomain := mainDomain strategy;
       recordSubdomainPrefix := subdomainPrefix strategy;
       patcherVersion := lit "2.1.0";
       verified := lit "binary_contents" |} in
  {| client := client fs; flagFile := Some (FlagJson flagData);
     backup := backup fs; archivedBackups := archivedBackups fs;
     clientWrites := clientWrites fs |}.

(** Returns whether a backup path is reported ([null] when copying
    throws, here when there is no binary to copy).  An archived backup is
    named by the second it is made in, so that an archive made in the same
    second as an earlier one takes its place on disk; the list records
    every archiving in order, and only its last entry, the archive just
    made, is read in what follows. *)
Definition backupClient (fs : Install) : bool * Install :=
  match client fs with
  | None => (false, fs)
  | Some current =>
      match backup fs with
      | None =>
          (true, {| client := client fs; flagFile := flagFile fs;
                    backup := Some current;
                    archivedBackups := archivedBackups fs;
                    clientWrites := clientWrites fs |})
      | Some original =>
          if bool_decide (length current = length original) then (true, fs)
          else
            (true, {| client := client fs; flagFile := flagFile fs;
                      backup := Some current;
                      archivedBackups := archivedBackups fs ++ [original];
                      clientWrites := clientWrites fs |})
      end
  end.

(** [fs.writeFileSync(clientPath, data)] *)
Definition writeClient (data : list Z) (fs : Install) : Install :=
  {| client := Some data; flagFile := flagFile fs; backup := backup fs;
     archivedBackups := archivedBackups fs;
     clientWrites := S (clientWrites fs) |}.

(** The objects [patchClient] resolves to. *)
Inductive PatchResult :=
| BinaryNotFound                    (* { success: false, error } *)
| AlreadyPatched                    (* { success: true, alreadyPatched: true, patchCount: 0 } *)
| PatchedLegacy (patchCount : Z)    (* { success: true, patchCount, format: 'legacy' } *)
| NoOccurrences                     (* { success: true, patchCount: 0, warning } *)
| Patched (patchCount : Z).         (* { success: true, patchCount } *)

(** The in-memory part of [patchClient]: the result to report and the
    bytes to write, or [None] when no occurrence is found in either
    format. *)
Definition patchBytes (host : PatcherHost) (data : list Z)
  : option (PatchResult * list Z) :=
  let newDomain := getNewDomain host in
  let strategy := getDomainStrategy newDomain in
  let '(patchedData, count) :=
    applyDomainPatches data newDomain (lit "https://") in
  let '(finalData, discordCount) := patchDiscordUrl patchedData in
  if (count =? 0) && (discordCount =? 0) then
    let legacyResult :=
      findAndReplaceDomainSmart data ORIGINAL_DOMAIN (mainDomain strategy) in
    if 0 <? snd legacyResult
    then Some (PatchedLegacy (snd legacyResult), fst legacyResult)
    else None
  else Some (Patched (count + discordCount), finalData).

(** The file handling of [patchClient] before the binary is read: the
    restore when the patch record names another domain, then the backup. *)
Definition prepareClient (host : PatcherHost) (fs : Install) : Install :=
  let patchStatus := getPatchStatus host fs in
  let fs1 :=
    if needsRestore patchStatus then snd (restoreFromBackup fs) else fs in
  snd (backupClient fs1).

Definition patchClient (host : PatcherHost) (fs : Install)
  : PatchResult * Install :=
  match client fs with
  | None => (BinaryNotFound, fs)
  | Some _ =>
      let patchStatus := getPatchStatus host fs in
      if patched patchStatus then (AlreadyPatched, fs)
      else
        let fs2 := prepareClient host fs in
        let data := default [] (client fs2) in
        match patchBytes host data with
        | Some (result, bytes) =>
            (result, markAsPatched host (writeClient bytes fs2))
        | None => (NoOccurrences, fs2)
        end
  end.

(** The pattern [getPatchStatus] looks for in the binary. *)
Definition mainPattern (host : PatcherHost) : list Z :=
  stringToLengthPrefixed (mainDomain (getDomainStrategy (getNewDomain host))).

(** The results that say the binary now carries the patch. *)
Definition reportsPatched (r : PatchResult) : bool :=
  match r with
  | AlreadyPatched | PatchedLegacy _ | Patched _ => true
  | BinaryNotFound | NoOccurrences => false
  end.

End ClientPatcher.

(** ** The record format, as the specification words it *)

Module RecordFormat.

(** A 32-bit little-endian integer. *)
Definition u32le (n : Z) : list Z :=
  [n mod 256; (n / 256) mod 256; (n / 65536) mod 256; (n / 16777216) mod 256].

(** Every byte followed by a zero, except the last one. *)
Fixpoint interleaved (bytes : list Z) : list Z :=
  match bytes with
  | [] => []
  | [b] => [b]
  | b :: rest => b :: 0 :: interleaved rest
  end.

End RecordFormat.

(** ** Regions of a buffer and the patterns written over it *)

Module Regions.

(** What is known of each byte of a region is a test per byte, the shape
    of the region.  [bytes] has the shape: every byte passes the test at
    its place. *)
Definition fits (shape : list (Z -> bool)) (bytes : list Z) : Prop :=
  Forall2 (fun test b => test b = true) shape bytes.

(** The shape that only [bytes] has. *)
Definition exactly (bytes : list Z) : list (Z -> bool) := map Z.eqb bytes.

(** Whether a pattern laid over a region from its first byte meets a byte
    of the region that cannot be one of its own. *)
Fixpoint clash (pattern : list Z) (shape : list (Z -> bool)) : bool :=
  match pattern, shape with
  | b :: pattern', test :: shape' => negb (test b) || clash pattern' shape'
  | _, _ => false
  end.

(** Whether [new] equals [old] as far as both reach into the region. *)
Fixpoint agree {A} (new old : list Z) (region : list A) : bool :=
  match new, region with
  | n :: new', _ :: region' =>
      match old with
      | o :: old' => (n =? o) && agree new' old' region'
      | [] => false
      end
  | _, _ => true
  end.

(** Rewriting the occurrences of [old] by [new] leaves a region of the
    given shape as it is: wherever an occurrence of [old] could overlap
    the region, starting inside it or before it, the two clash, or [new]
    puts back the bytes of [old] there.  With no [new] given, every
    overlap must clash. *)
Definition settled (old : list Z) (new : option (list Z)) (shape : list (Z -> bool))
  : bool :=
  forallb (fun d =>
             clash old (drop d shape)
             || match new with
                | Some bytes => agree bytes old (drop d shape)
                | None => false
                end)
    (seq 0 (length shape))
  && forallb (fun d =>
                clash (drop d old) shape
                || match new with
                   | Some bytes => agree (drop d bytes) (drop d old) shape
                   | None => false
                   end)
       (seq 1 (length old - 1)).

(** No two occurrences of the pattern overlap. *)
Definition selfApart (pattern : list Z) : bool :=
  forallb (fun d => negb (isPrefix (drop d pattern) pattern))
    (seq 1 (length pattern - 1)).

(** A printable ASCII character other than the slash. *)
Definition domainByte (b : Z) : bool :=
  (33 <=? b) && (b <=? 126) && negb (b =? 47).

Fixpoint interleavedShape (char : Z -> bool) (n : nat) : list (Z -> bool) :=
  match n with
  | O => []
  | S O => [char]
  | S m => char :: Z.eqb 0 :: interleavedShape char m
  end.

(** The shape of the length-prefixed form of a string of [n] characters
    that pass [char]. *)
Definition lengthPrefixedShape (char : Z -> bool) (n : nat) : list (Z -> bool) :=
  [Z.eqb (Z.of_nat n); Z.eqb 0; Z.eqb 0; Z.eqb 0] ++ interleavedShape char n.

End Regions.

(** ** Reading the event log *)

Module Trace.

Definition isSaved (e : Event) : bool :=
  match e with EvSaved _ => true | _ => false end.

Definition isDeployed (e : Event) : bool :=
  match e with EvDeployed _ _ => true | _ => false end.

Definition isDigest (e : Event) : bool :=
  match e with EvDigest _ => true | _ => false end.

(** The events of file handling: digests, downloads and deletions. *)
Definition fileEvent (e : Event) : Prop :=
  match e with
  | EvDigest _ | EvDownload _ _ _ | EvUnlink _ => True
  | _ => False
  end.

(** No further acquisition, and no deployment call but that of
    [archivePath] with the flag [isDifferential]. *)
Definition deploysOnly (archivePath : jsstring) (isDifferential : bool)
  (e : Event) : Prop :=
  match e with
  | EvAcquire _ _ _ => False
  | EvDeploy p d => p = archivePath /\ d = isDifferential
  | _ => True
  end.

(** An event that neither completes a deployment nor writes the record. *)
Definition quiet (e : Event) : Prop := isSaved e = false /\ isDeployed e = false.

Definition notSaved (e : Event) : Prop := isSaved e = false.

(** An acquisition that passes no checksum, or any event that is neither
    an acquisition nor a digest computation. *)
Definition unchecked (e : Event) : Prop :=
  match e with
  | EvAcquire _ _ checksum => checksum = None
  | EvDigest _ => False
  | _ => True
  end.

Definition isSaveFailure (e : Err) : bool :=
  match e with ConfigSaveFailed _ => true | _ => false end.

(** An error other than the failure to write the configuration. *)
Definition harmless (e : Err) : Prop := isSaveFailure e = false.

(** The run did not end in a failure to write the configuration. *)
Definition notSaveFailure {A} (r : Res A) : Prop :=
  match r with
  | Ok _ => True
  | Throw e => isSaveFailure e = false
  end.

(** The world relation "the installed-version record is as before". *)
Definition sameRecord (w w' : World) : Prop :=
  version_client w' = version_client w.

(** The world relation "the log grew by events that satisfy [P]". *)
Definition logged (P : Event -> Prop) (w w' : World) : Prop :=
  exists evs, events w' = events w ++ evs /\ Forall P evs.

(** [m] relates every world to the world it leaves, also when it throws. *)
Definition along (R : World -> World -> Prop) {A} (m : M A) : Prop :=
  forall w, R w (snd (m w)).

(** [m] throws only errors that satisfy [Q]. *)
Definition raises (Q : Err -> Prop) {A} (m : M A) : Prop :=
  forall w e, fst (m w) = Throw e -> Q e.

(** Nothing was saved and no deployment completed. *)
Definition calm (w w' : World) : Prop := sameRecord w w' /\ logged quiet w w'.

(** [m] completes one deployment of an archive of [version] and does not
    touch the record; when it throws, no deployment completed and the
    error is not a failure to save. *)
Definition DeploysOnce (archiveOf : jsstring -> jsstring -> bool -> Prop)
  (version : jsstring) (m : M unit) : Prop :=
  forall w,
    sameRecord w (snd (m w))
    /\ match fst (m w) with
       | Ok _ =>
           exists front archivePath isDifferential cleanup,
             events (snd (m w))
             = events w ++ front ++ EvDeployed archivePath isDifferential :: cleanup
             /\ Forall quiet front /\ Forall quiet cleanup
             /\ archiveOf version archivePath isDifferential
       | Throw e => isSaveFailure e = false /\ logged quiet w (snd (m w))
       end.

(** The events of one completed step for [version]: the deployment of one
    of the step's archives completes, then the version is saved, with
    nothing in between but clean-up. *)
Inductive StepDone (archiveOf : jsstring -> jsstring -> bool -> Prop)
  (version : jsstring) : list Event -> Prop :=
| step_done front archivePath isDifferential cleanup :
    Forall quiet front ->
    Forall quiet cleanup ->
    archiveOf version archivePath isDifferential ->
    StepDone archiveOf version
      (front ++ EvDeployed archivePath isDifferential :: cleanup
         ++ [EvSaved version]).

(** The events of a sequence of completed steps, one per version. *)
Inductive StepsDone (archiveOf : jsstring -> jsstring -> bool -> Prop)
  : list jsstring -> list Event -> Prop :=
| steps_nil : StepsDone archiveOf [] []
| steps_cons version evs versions rest :
    StepDone archiveOf version evs ->
    StepsDone archiveOf versions rest ->
    StepsDone archiveOf (version :: versions) (evs ++ rest).

(** The record after the versions [persisted] were saved in turn. *)
Definition recordAfter (before : option jsstring) (persisted : list jsstring)
  : option jsstring :=
  match last persisted with
  | Some v => Some v
  | None => before
  end.

(** [m] is one step for [version]: when it returns, the step's events are
    those of a completed step and the record holds [version]; when it
    throws, nothing was saved and the record is as before, and unless the
    failure is that of saving, no deployment completed either. *)
Definition Step (archiveOf : jsstring -> jsstring -> bool -> Prop)
  (version : jsstring) (m : M unit) : Prop :=
  forall w,
    match fst (m w) with
    | Ok _ =>
        version_client (snd (m w)) = Some version
        /\ exists evs, events (snd (m w)) = events w ++ evs
                       /\ StepDone archiveOf version evs
    | Throw e =>
        version_client (snd (m w)) = version_client w
        /\ exists evs, events (snd (m w)) = events w ++ evs
                       /\ Forall notSaved evs
                       /\ if isSaveFailure e then True else Forall quiet evs
    end.

(** [m], started in [w], works through [plan]: it completes the steps of
    a prefix [persisted] of the plan, in order, then possibly fails in the
    next one. *)
Definition RunAt (archiveOf : jsstring -> jsstring -> bool -> Prop)
  (plan : list jsstring) (m : M unit) (w : World) : Prop :=
  exists persisted evs partial,
    events (snd (m w)) = events w ++ evs ++ partial
    /\ StepsDone archiveOf persisted evs
    /\ persisted `prefix_of` plan
    /\ version_client (snd (m w)) = recordAfter (version_client w) persisted
    /\ Forall notSaved partial
    /\ match fst (m w) with
       | Ok _ => persisted = plan /\ partial = []
       | Throw e => if isSaveFailure e then True else Forall quiet partial
       end.

End Trace.

(** ** Sample hosts and installations *)

Module Samples.

Import ClientPatcher.

(** No environment variable, an empty configuration: the target domain is
    the default one, patched in split mode. *)
Definition defaultPatcherHost : PatcherHost :=
  {| HYTALE_AUTH_DOMAIN := None;
     loadConfig := ConfigLoaded None;
     isoNow := lit "2026-01-01T00:00:00.000Z" |}.

(** No environment variable and a configuration module that throws. *)
Definition failingConfigHost : PatcherHost :=
  {| HYTALE_AUTH_DOMAIN := None;
     loadConfig := ConfigThrows;
     isoNow := lit "2026-01-01T00:00:00.000Z" |}.

Definition freshInstall (binary : list Z) : Install :=
  {| client := Some binary; flagFile := None; backup := None;
     archivedBackups := []; clientWrites := 0 |}.

(** A binary that stores the domain only as UTF-16LE text. *)
Definition legacyBinary : list Z := stringToUtf16LE (lit "hytale.com").

(** A binary without any of the patterns. *)
Definition plainBinary : list Z := [77; 90; 144; 0; 3; 0; 0; 0].

(** A configured domain of ten characters that starts with a line feed and
    a NUL, and a binary that holds the original domain as UTF-16LE text
    followed by the bytes "o" 00 "m". *)
Definition oddDomainHost : PatcherHost :=
  {| HYTALE_AUTH_DOMAIN := None;
     loadConfig := ConfigLoaded (Some ([10; 0] ++ lit "hytale.c"));
     isoNow := lit "2026-01-01T00:00:00.000Z" |}.

Definition oddBinary : list Z :=
  stringToUtf16LE (lit "hytale.com") ++ [111; 0; 109].

(** A binary with one length-prefixed occurrence of the domain. *)
Definition modernBinary : list Z :=
  [1; 2; 3] ++ stringToLengthPrefixed (lit "hytale.com") ++ [4; 5].

(** A binary that holds the Sentry address and no other pattern. *)
Definition sentryBinary : list Z :=
  [1; 2; 3] ++ stringToLengthPrefixed oldSentry ++ [4; 5].

(** A stand-in for SHA-256 that can be computed: the sum of the bytes,
    in decimal. *)
Definition sampleDigest (content : list Z) : jsstring :=
  numberToString (fold_left Z.add content 0).

(** A Windows host on which every download delivers the three bytes
    1 2 3, the deployment tool succeeds, the configuration can be
    written and the version-info endpoint is unreachable. *)
Definition sampleHost : Host :=
  {| getOS := lit "windows";
     getArch := lit "amd64";
     path_join := fun a b => a ++ lit "/" ++ b;
     path_basename := fun p => p;
     sha256_hex := sampleDigest;
     retryDownload := fun _ _ _ => Downloaded [1; 2; 3];
     downloadFile := fun _ _ _ => Downloaded [1; 2; 3];
     installButler := fun _ toolsDir => inl (toolsDir ++ lit "/butler");
     execButler := fun _ _ _ => ExecOk;
     configWriteError := fun _ => None;
     axiosGetInfos := fun _ => AxiosError (lit "ENOTFOUND");
     dateNow := fun _ => 0 |}.

(** The same host with a deployment tool that always fails. *)
Definition brokenToolHost : Host :=
  {| getOS := lit "windows";
     getArch := lit "amd64";
     path_join := fun a b => a ++ lit "/" ++ b;
     path_basename := fun p => p;
     sha256_hex := sampleDigest;
     retryDownload := fun _ _ _ => Downloaded [1; 2; 3];
     downloadFile := fun _ _ _ => Downloaded [1; 2; 3];
     installButler := fun _ toolsDir => inl (toolsDir ++ lit "/butler");
     execButler := fun _ _ _ => ExecError (lit "exit status 1");
     configWriteError := fun _ => None;
     axiosGetInfos := fun _ => AxiosError (lit "ENOTFOUND");
     dateNow := fun _ => 0 |}.

(** The same host with a deployment tool that works for the first step
    of a run and then reports a truncated archive. *)
Definition secondStepFailsHost : Host :=
  {| getOS := lit "windows";
     getArch := lit "amd64";
     path_join := fun a b => a ++ lit "/" ++ b;
     path_basename := fun p => p;
     sha256_hex := sampleDigest;
     retryDownload := fun _ _ _ => Downloaded [1; 2; 3];
     downloadFile := fun _ _ _ => Downloaded [1; 2; 3];
     installButler := fun _ toolsDir => inl (toolsDir ++ lit "/butler");
     execButler := fun t _ _ =>
                     if (t <? 6)%nat then ExecOk
                     else ExecError (lit "apply: unexpected eof");
     configWriteError := fun _ => None;
     axiosGetInfos := fun _ => AxiosError (lit "ENOTFOUND");
     dateNow := fun _ => 0 |}.

(** A resolver that offers a differential archive for build 7, from
    build 6, and full archives only for every other build. *)
Definition diffResolver (targetVersion : option jsstring) (branch : jsstring)
  : VersionDetails :=
  let details := extractVersionDetails sampleHost targetVersion branch in
  if bool_decide (targetVersion = Some (lit "7.pwr")) then
    {| version := version details;
       buildNumber := buildNumber details;
       buildName := buildName details;
       fullUrl := fullUrl details;
       differentialUrl := Some (lit "https://game.authbp.xyz/dl/patch/6-7.pwr");
       checksum := Some (lit "6");
       sourceVersion := sourceVersion details;
       isDifferential := true;
       releaseNotes := None |}
  else details.

(** A world with the given installed version and nothing else. *)
Definition worldWith (installed : option jsstring) : World :=
  {| version_client := installed; files := ∅; infosCache := None;
     infosCacheTime := 0; events := []; tick := 0 |}.

End Samples.

(** ** versionManager: the remaining functions *)

Module Discovery.

(** What [axios.head] gives: a response with its status, or a rejection. *)
Inductive HeadOutcome :=
| HeadResponse (status : Z)
| HeadError (message : list Z).

(** The end of [fetchNewAPI]: the client version read from an [/infos]
    document for this platform and [branch]. *)
Definition branchAnswer (h : Host) (infos : Infos) (branch : jsstring)
  : Res jsstring :=
  match infos (platformKey h) with
  | None => Throw (NoInfosData (platformKey h) branch)
  | Some platformData =>
      match platformData branch with
      | None => Throw (NoInfosData (platformKey h) branch)
      | Some branchData => Ok (newestPwr branchData)
      end
  end.

Section WithHost.
Variable h : Host.
Variable axiosHead : nat -> jsstring -> HeadOutcome.

Local Open Scope eff_scope.

(** The source version is not used: the URL is that of the full archive. *)
Definition getPWRUrlFromNewAPI (branch : jsstring)
  (version sourceVersion : option jsstring) : jsstring :=
  let buildNumber := extractVersionNumber version in
  buildArchiveUrl h buildNumber branch.

Definition checkArchiveExists (buildNumber : Z) (branch : jsstring) : M bool :=
  let url := buildArchiveUrl h buildNumber branch in
  catch
    (let* response := ask (fun t => axiosHead t url) in
     match response with
     | HeadResponse status => ret (status =? 200)
     | HeadError message => throw (RequestFailed message)
     end)
    (fun _ => ret false).

(** The [for] loop of [discoverAvailableVersions], from [i] downwards. *)
Fixpoint probeFrom (fuel : nat) (i lowest : Z) (branch : jsstring)
  (available : list jsstring) : M (list jsstring) :=
  match fuel with
  | O => ret available
  | S f =>
      if lowest <=? i then
        let* found := checkArchiveExists i branch in
        probeFrom f (i - 1) lowest branch
          (if found then available ++ [pwr i] else available)
      else ret available
  end.

(** [i] runs from [latest] down to [Math.max(1, latest - maxProbe)], so
    that many iterations exhaust the loop, for a latest build within the
    exact integer range; beyond [MAX_SAFE_INTEGER] the source's [i--] no
    longer changes [i]. *)
Definition discoverAvailableVersions (latestKnown : option jsstring)
  (branch : jsstring) (maxProbe : Z) : M (list jsstring) :=
  let latest := extractVersionNumber latestKnown in
  let lowest := Z.max 1 (latest - maxProbe) in
  probeFrom (Z.to_nat (latest - lowest + 1)) latest lowest branch [].

(** Whether the probe of build [i], made as host call number [t], is
    answered with status 200. *)
Definition answers200 (branch : jsstring) (t : nat) (i : Z) : bool :=
  match axiosHead t (buildArchiveUrl h i branch) with
  | HeadResponse status => status =? 200
  | HeadError _ => false
  end.

End WithHost.

(** The builds from [latest] downwards, [count] of them, each with the
    number of the host call that probes it. *)
Fixpoint probes (count : nat) (t : nat) (latest : Z) : list (nat * Z) :=
  match count with
  | O => []
  | S c => (t, latest) :: probes c (S t) (latest - 1)
  end.

End Discovery.

(** ** differentialUpdateManager: the entry point *)

Module Launcher.

Section WithHost.
Variable h : Host.
(** [findClientPath] of core/paths, which looks for the client binary
    under the game directory. *)
Variable findClientPath : World -> jsstring -> option jsstring.

Local Open Scope eff_scope.

Definition ensureGameInstalled
  (targetVersion branch gameDir cacheDir toolsDir : jsstring) : M unit :=
  let* w := get in
  let clientPath := findClientPath w gameDir in
  let* installed :=
    if truthy clientPath then
      let* currentVersion := getInstalledClientVersion in
      ret (bool_decide (currentVersion = Some targetVersion))
    else ret false in
  if installed then ret tt
  else
    UpdateManager.performIntelligentUpdate h targetVersion branch gameDir
      cacheDir toolsDir.

End WithHost.

End Launcher.

(** ** clientPatcher: restoring, and the DualAuth agent *)

Module Agent.

Import ClientPatcher.

(** [isPatchedAlready(clientPath)] *)
Definition isPatchedAlready (host : PatcherHost) (fs : Install) : bool :=
  patched (getPatchStatus host fs).

(** [restoreClient(clientPath)]: copy the backup over the binary and
    delete the patch record; [false] when there is no backup. *)
Definition restoreClient (fs : Install) : bool * Install :=
  match backup fs with
  | Some original =>
      (true, {| client := Some original; flagFile := None;
                backup := backup fs; archivedBackups := archivedBackups fs;
                clientWrites := S (clientWrites fs) |})
  | None => (false, fs)
  end.

Definition DUALAUTH_AGENT_URL : jsstring :=
  lit "https://github.com/sanasol/hytale-auth-server/releases/latest/download/dualauth-agent.jar".
Definition DUALAUTH_AGENT_FILENAME : jsstring := lit "dualauth-agent.jar".

(** What the request and the piping of its stream into the temporary
    file give.  [fs.createWriteStream(tmpPath)] is called before the
    request and opens the file by itself, some time later:
    [StreamFinished content] is a download piped to its end;
    [StreamFailed (Some part) message] is a failure after the file was
    opened and [part] written to it; [StreamFailed None message] is a
    request rejected before the file was opened. *)
Inductive StreamOutcome :=
| StreamFinished (content : list Z)
| StreamFailed (written : option (list Z)) (message : list Z).

Inductive AgentError :=
| DownloadTooSmall   (* 'Downloaded agent too small (corrupt or failed download)' *)
| Caught (e : Err).  (* downloadError.message *)

(** The objects [ensureAgentAvailable] resolves to. *)
Inductive AgentResult :=
| AgentReady (agentPath : jsstring) (alreadyExists : bool)
    (* { success: true, agentPath, alreadyExists } *)
| AgentFailed (error : AgentError).
    (* { success: false, error } *)

Section WithHost.
Variable h : Host.
(** [smartDownloadStream] of proxyClient, piped into the temporary file. *)
Variable smartDownloadStream : nat -> jsstring -> StreamOutcome.

Local Open Scope eff_scope.

Definition getAgentPath (dir : jsstring) : jsstring :=
  path_join h dir DUALAUTH_AGENT_FILENAME.

(** [fs.renameSync(oldPath, newPath)] *)
Definition renameSync (oldPath newPath : jsstring) : M unit :=
  let* content := readFile oldPath in
  modify (fun w => setFiles (<[newPath := content]> (delete oldPath (files w))) w).

(** The [try] block of [ensureAgentAvailable] from the point where the
    request has settled with [outcome], and its [catch] block. *)
Definition installDownloaded (outcome : StreamOutcome) (agentPath : jsstring)
  : M AgentResult :=
  let tmpPath := agentPath ++ lit ".tmp" in
  catch
    (do (match outcome with
         | StreamFinished content => writeFile tmpPath content
         | StreamFailed written message =>
             do (match written with
                 | Some part => writeFile tmpPath part
                 | None => ret tt
                 end) then
             throw (RequestFailed message)
         end) then
     let* stats := readFile tmpPath in
     if UpdateManager.fileSize stats <? 1024 then
       do unlinkSync tmpPath then ret (AgentFailed DownloadTooSmall)
     else
       let* old := existsSync agentPath in
       do (if old then unlinkSync agentPath else ret tt) then
       do renameSync tmpPath agentPath then
       ret (AgentReady agentPath false))
    (fun downloadError =>
       let* left := existsSync tmpPath in
       do (if left then unlinkSync tmpPath else ret tt) then
       ret (AgentFailed (Caught downloadError))).

(** The server directory itself is not part of the world: creating it
    leaves the files as they are.  When the request is rejected before
    the write stream has opened the temporary file, the clean-up of the
    [catch] block comes first and the open that follows leaves an empty
    temporary file. *)
Definition ensureAgentAvailable (serverDir : jsstring) : M AgentResult :=
  let agentPath := getAgentPath serverDir in
  let tmpPath := agentPath ++ lit ".tmp" in
  let* present := existsSync agentPath in
  let* ready :=
    if present then
      catch
        (let* stats := readFile agentPath in
         if 1024 <? UpdateManager.fileSize stats then ret true
         else do unlinkSync agentPath then ret false)
        (fun _ => ret false)
    else ret false in
  if ready then ret (AgentReady agentPath true)
  else
    let* outcome := ask (fun t => smartDownloadStream t DUALAUTH_AGENT_URL) in
    let* result := installDownloaded outcome agentPath in
    do (match outcome with
        | StreamFailed None _ => writeFile tmpPath []
        | _ => ret tt
        end) then
    ret result.

End WithHost.

End Agent.

(** ** More sample hosts and worlds *)

Module Fixtures.

Import ClientPatcher Discovery Agent.

(** An Intel Mac, the platform [acquireGameArchive] refuses. *)
Definition intelMacHost : Host :=
  {| getOS := lit "darwin";
     getArch := lit "amd64";
     path_join := fun a b => a ++ lit "/" ++ b;
     path_basename := fun p => p;
     sha256_hex := Samples.sampleDigest;
     retryDownload := fun _ _ _ => Downloaded [1; 2; 3];
     downloadFile := fun _ _ _ => Downloaded [1; 2; 3];
     installButler := fun _ toolsDir => inl (toolsDir ++ lit "/butler");
     execButler := fun _ _ _ => ExecOk;
     configWriteError := fun _ => None;
     axiosGetInfos := fun _ => AxiosError (lit "ENOTFOUND");
     dateNow := fun _ => 0 |}.

(** A world with an installed version, one file and a number of host
    calls already made. *)
Definition worldWithFile (installed : option jsstring) (path content : list Z)
  (calls : nat) : World :=
  {| version_client := installed; files := {[ path := content ]};
     infosCache := None; infosCacheTime := 0; events := []; tick := calls |}.

(** An [/infos] document that knows build 9 of the release branch for
    Windows. *)
Definition sampleInfos : Infos :=
  fun key =>
    if bool_decide (key = lit "windows-amd64") then
      Some (fun branch =>
              if bool_decide (branch = lit "release")
              then Some {| newest := Some 9; buildVersion := None |}
              else None)
    else None.

(** A world whose [/infos] cache was filled at time [cachedAt]. *)
Definition worldWithCache (cachedAt : Z) : World :=
  {| version_client := None; files := ∅; infosCache := Some sampleInfos;
     infosCacheTime := cachedAt; events := []; tick := 0 |}.

(** The Windows host with a clock that shows [now] and a version-info
    endpoint that answers with [sampleInfos]. *)
Definition infosHost (now : Z) : Host :=
  {| getOS := lit "windows";
     getArch := lit "amd64";
     path_join := fun a b => a ++ lit "/" ++ b;
     path_basename := fun p => p;
     sha256_hex := Samples.sampleDigest;
     retryDownload := fun _ _ _ => Downloaded [1; 2; 3];
     downloadFile := fun _ _ _ => Downloaded [1; 2; 3];
     installButler := fun _ toolsDir => inl (toolsDir ++ lit "/butler");
     execButler := fun _ _ _ => ExecOk;
     configWriteError := fun _ => None;
     axiosGetInfos := fun _ => AxiosResponse (Some sampleInfos);
     dateNow := fun _ => now |}.

(** A binary patched for another domain, with its patch record and the
    backup of the original. *)
Definition retargetedInstall : Install :=
  {| client := Some (fst (applyDomainPatches Samples.modernBinary
                            (lit "other.example") (lit "https://")));
     flagFile :=
       Some (FlagJson
               {| patchedAt := lit "2025-12-31T00:00:00.000Z";
                  originalDomain := ORIGINAL_DOMAIN;
                  targetDomain := Some (lit "other.example");
                  patchMode := split;
                  recordMainDomain := lit "example";
                  recordSubdomainPrefix := lit "other.";
                  patcherVersion := lit "2.1.0";
                  verified := lit "binary_contents" |});
     backup := Some Samples.modernBinary;
     archivedBackups := [];
     clientWrites := 1 |}.

(** A download stream that delivers [size] zero bytes. *)
Definition zeroStream (size : nat) : nat -> jsstring -> StreamOutcome :=
  fun _ _ => StreamFinished (repeat 0 size).

End Fixtures.

(** ** core/config: the configuration file, user names and UUIDs *)

Module ConfigStore.

(** [str.trim()] *)
Definition trim (s : jsstring) : jsstring :=
  reverse (skipWhile isWhiteSpace (reverse (skipWhile isWhiteSpace s))).

(** The value under [username]: absent, a string, or of another type. *)
Inductive UsernameField :=
| NameUndefined
| NameString (name : jsstring)
| NameOther.

(** The value under [userUuids]: absent, [null], an object used as a map
    from user names to UUIDs (its entries in the order of insertion), or a
    value that is not an object. *)
Inductive UuidsField :=
| UuidsUndefined
| UuidsNull
| UuidsMap (entries : list (jsstring * jsstring))
| UuidsOther.

(** The configuration object, by the keys the functions below read or
    write; [rest] holds every other key with the JSON text of its value.
    For [version_client], [Some None] is [null]. *)
Record Config := {
  username : UsernameField;
  userUuids : UuidsField;
  version_client : option (option jsstring);
  version_branch : option jsstring;
  rest : gmap jsstring jsstring
}.

(** [{}] *)
Definition emptyConfig : Config :=
  {| username := NameUndefined; userUuids := UuidsUndefined;
     version_client := None; version_branch := None; rest := ∅ |}.

(** The object literal passed to [saveConfig]: the keys it sets. *)
Record Update := {
  set_username : option UsernameField;
  set_userUuids : option UuidsField;
  set_version_client : option (option (option jsstring));
  set_version_branch : option (option jsstring)
}.

Definition noUpdate : Update :=
  {| set_username := None; set_userUuids := None;
     set_version_client := None; set_version_branch := None |}.

(** [{ ...currentConfig, ...update }] *)
Definition merge (currentConfig : Config) (update : Update) : Config :=
  {| username := default (username currentConfig) (set_username update);
     userUuids := default (userUuids currentConfig) (set_userUuids update);
     version_client :=
       default (version_client currentConfig) (set_version_client update);
     version_branch :=
       default (version_branch currentConfig) (set_version_branch update);
     rest := rest currentConfig |}.

(** What [JSON.parse] gives for a text that parses: a value that is not
    an object ([null], a number, a string, a boolean), or an object. *)
Inductive Parsed :=
| NotAnObject
| Object (config : Config).

(** The text of a file: only white space, a text that [JSON.parse]
    rejects, or the JSON text of a value. *)
Inductive FileText :=
| Blank
| Garbage
| Json (value : Parsed).

(** The three files of the configuration, and the number of calls made to
    the host. *)
Record Store := {
  CONFIG_FILE : option FileText;
  CONFIG_BACKUP : option FileText;
  CONFIG_TEMP : option FileText;
  calls : nat
}.

Definition setConfigFile (t : option FileText) (st : Store) : Store :=
  {| CONFIG_FILE := t; CONFIG_BACKUP := CONFIG_BACKUP st;
     CONFIG_TEMP := CONFIG_TEMP st; calls := calls st |}.

Definition setConfigBackup (t : option FileText) (st : Store) : Store :=
  {| CONFIG_FILE := CONFIG_FILE st; CONFIG_BACKUP := t;
     CONFIG_TEMP := CONFIG_TEMP st; calls := calls st |}.

Definition setConfigTemp (t : option FileText) (st : Store) : Store :=
  {| CONFIG_FILE := CONFIG_FILE st; CONFIG_BACKUP := CONFIG_BACKUP st;
     CONFIG_TEMP := t; calls := calls st |}.

Definition nextCall (st : Store) : Store :=
  {| CONFIG_FILE := CONFIG_FILE st; CONFIG_BACKUP := CONFIG_BACKUP st;
     CONFIG_TEMP := CONFIG_TEMP st; calls := S (calls st) |}.

(** What the module calls but does not define: [String.prototype.toLowerCase],
    the [uuid] package, and the disk.  An attempt of [saveConfig] is known
    by the number of host calls made before it: for that number,
    [writeFileError] is the failure of the write of the temporary file,
    [backupCopyFails] tells whether the copy of the current file to the
    backup fails, [renameError] is the failure of the rename, and
    [unlinkFails] tells whether the clean-up after the attempt fails to
    delete the temporary file.  Reading a file that exists and the restore
    of the primary file from the backup succeed. *)
Record ConfigHost := {
  toLowerCase : jsstring -> jsstring;
  uuidv4 : nat -> jsstring;
  validateUuid : jsstring -> bool;
  writeFileError : nat -> option jsstring;
  backupCopyFails : nat -> bool;
  renameError : nat -> option jsstring;
  unlinkFails : nat -> bool
}.

(** A result, or a thrown [Error] with its message. *)
Inductive Outcome (A : Type) :=
| Returns (a : A)
| Throws (message : jsstring).
Arguments Returns {A} a.
Arguments Throws {A} message.

Definition Cfg (A : Type) : Type := Store -> Outcome A * Store.

Definition ret {A} (a : A) : Cfg A := fun st => (Returns a, st).

Definition throw {A} (message : jsstring) : Cfg A := fun st => (Throws message, st).

Definition bind {A B} (m : Cfg A) (k : A -> Cfg B) : Cfg B :=
  fun st =>
    match m st with
    | (Returns a, st') => k a st'
    | (Throws message, st') => (Throws message, st')
    end.

Definition catch {A} (m : Cfg A) (handler : jsstring -> Cfg A) : Cfg A :=
  fun st =>
    match m st with
    | (Returns a, st') => (Returns a, st')
    | (Throws message, st') => handler message st'
    end.

Definition modify (f : Store -> Store) : Cfg unit := fun st => (Returns tt, f st).

Definition ask {A} (f : nat -> A) : Cfg A :=
  fun st => (Returns (f (calls st)), nextCall st).

(** The number of host calls made so far. *)
Definition called : Cfg nat := fun st => (Returns (calls st), st).

Declare Scope store_scope.
Delimit Scope store_scope with store.
Notation "'let*' x ':=' c1 'in' c2" := (bind c1 (fun x => c2))
  (at level 10, x name, c1 at level 100, c2 at level 200) : store_scope.
Notation "'do' c1 'then' c2" := (bind c1 (fun _ => c2))
  (at level 10, c1 at level 100, c2 at level 200) : store_scope.

Local Open Scope store_scope.

Definition validateConfig (config : Parsed) : bool :=
  match config with
  | NotAnObject => false
  | Object c =>
      match userUuids c with
      | UuidsOther => false
      | _ =>
          match username c with
          | NameOther => false
          | _ => true
          end
      end
  end.

(** One of the two [try] blocks of [loadConfig]: the configuration read
    from a file, [None] when the file is missing, blank, rejected by
    [JSON.parse] or by [validateConfig]. *)
Definition readConfig (file : option FileText) : option Config :=
  match file with
  | Some (Json (Object c)) =>
      if validateConfig (Object c) then Some c else None
  | _ => None
  end.

Definition loadConfig : Cfg Config :=
  fun st =>
    match readConfig (CONFIG_FILE st) with
    | Some config => (Returns config, st)
    | None =>
        match readConfig (CONFIG_BACKUP st) with
        | Some config =>
            (Returns config, setConfigFile (CONFIG_BACKUP st) st)
        | None => (Returns emptyConfig, st)
        end
    end.

(** The configuration [loadConfig] returns in a store, and the store it
    leaves. *)
Definition loaded (st : Store) : Config :=
  match fst (loadConfig st) with
  | Returns config => config
  | Throws _ => emptyConfig
  end.

Definition healed (st : Store) : Store := snd (loadConfig st).

(** The backup once step 3 of [saveConfig] has run: the text of the
    current file, unless that is missing or blank. *)
Definition backedUp (current backup : option FileText) : option FileText :=
  match current with
  | Some Blank | None => backup
  | Some currentData => Some currentData
  end.

(** A store in which [saveConfig], called in [st], makes one of its
    attempts: it reads as [st] does, and its backup is that of [st] or a
    copy of the primary file made by an earlier attempt. *)
Definition retrying (st sk : Store) : Prop :=
  loaded sk = loaded st
  /\ CONFIG_FILE (healed sk) = CONFIG_FILE (healed st)
  /\ (CONFIG_BACKUP sk = CONFIG_BACKUP st
      \/ CONFIG_BACKUP sk
         = backedUp (CONFIG_FILE (healed st)) (CONFIG_BACKUP st)).

(** Step 3 of [saveConfig]: the current file, unless missing or blank, is
    copied to the backup. *)
Definition backupCurrent : Cfg unit :=
  modify (fun st =>
            match CONFIG_FILE st with
            | Some Blank | None => st
            | Some currentData => setConfigBackup (Some currentData) st
            end).

Section WithHost.
Variable host : ConfigHost.

(** The [try] block of one attempt of [saveConfig]; a failed copy to the
    backup is caught on the spot and the attempt goes on. *)
Definition saveAttempt (attempt : nat) (update : Update) : Cfg unit :=
  let* currentConfig := loadConfig in
  let newConfig := merge currentConfig update in
  let* failure := ask (writeFileError host) in
  match failure with
  | Some message => throw message
  | None =>
      do modify (setConfigTemp (Some (Json (Object newConfig)))) then
      if negb (validateConfig (Object newConfig))
      then throw (lit "Config validation failed after write")
      else
        do (if backupCopyFails host attempt then ret tt
            else backupCurrent) then
        match renameError host attempt with
        | Some message => throw message
        | None =>
            modify (fun st =>
                      setConfigTemp None (setConfigFile (CONFIG_TEMP st) st))
        end
  end.

(** The clean-up of the [catch] block, whose own failure is ignored. *)
Definition cleanTemp (attempt : nat) : Cfg unit :=
  modify (fun st =>
            if unlinkFails host attempt then st else setConfigTemp None st).

(** The retry loop of [saveConfig], with [attempts] attempts left. *)
Fixpoint saveConfigFrom (attempts : nat) (lastError : jsstring)
  (update : Update) : Cfg unit :=
  match attempts with
  | O => throw (lit "Failed to save config: " ++ lastError)
  | S remaining =>
      let* attempt := called in
      catch (saveAttempt attempt update)
        (fun message =>
           do cleanTemp attempt then
           saveConfigFrom remaining message update)
  end.

Definition saveConfig (update : Update) : Cfg unit := saveConfigFrom 3 [] update.

Definition saveVersionClient (versionClient : jsstring) : Cfg unit :=
  saveConfig {| set_username := None; set_userUuids := None;
                set_version_client := Some (Some (Some versionClient));
                set_version_branch := None |}.

Definition loadVersionClient : Cfg (option jsstring) :=
  let* config := loadConfig in
  ret match version_client config with
      | Some versionClient => versionClient
      | None => None
      end.

Definition saveVersionBranch (versionBranch : option jsstring) : Cfg unit :=
  let branch := if truthy versionBranch then default [] versionBranch
                else lit "release" in
  if negb (str_eqb branch (lit "release"))
     && negb (str_eqb branch (lit "pre-release"))
  then saveConfig {| set_username := None; set_userUuids := None;
                     set_version_client := None;
                     set_version_branch := Some (Some (lit "release")) |}
  else saveConfig {| set_username := None; set_userUuids := None;
                     set_version_client := None;
                     set_version_branch := Some (Some branch) |}.

Definition loadVersionBranch : Cfg jsstring :=
  let* config := loadConfig in
  ret (if truthy (version_branch config)
       then default [] (version_branch config) else lit "release").

(** *** Objects used as maps *)

(** The array index a property key denotes: a canonical decimal numeral
    up to 2^32 - 2. *)
Definition arrayIndex (key : jsstring) : option Z :=
  match key with
  | [] => None
  | c :: more =>
      if forallb isDigit key && (negb (c =? 48) || negb (nonEmpty more))
      then
        let n := fold_left decimal key 0 in
        if n <=? 4294967294 then Some n else None
      else None
  end.

Fixpoint insertIndex (i : Z) (key : jsstring) (sorted : list (Z * jsstring))
  : list (Z * jsstring) :=
  match sorted with
  | [] => [(i, key)]
  | (j, k) :: more =>
      if i <? j then (i, key) :: sorted else (j, k) :: insertIndex i key more
  end.

(** [Object.keys(o)]: the array-index keys in ascending order, then the
    other keys in the order of insertion. *)
Definition ownKeys (entries : list (jsstring * jsstring)) : list jsstring :=
  let keys := map fst entries in
  map snd
    (foldr (fun key sorted =>
              match arrayIndex key with
              | Some i => insertIndex i key sorted
              | None => sorted
              end) [] keys)
  ++ List.filter (fun key => negb (bool_decide (is_Some (arrayIndex key)))) keys.

(** [o[key]] for an own key. *)
Definition objGet (entries : list (jsstring * jsstring)) (key : jsstring)
  : option jsstring :=
  snd <$> List.find (fun e => str_eqb (fst e) key) entries.

(** [delete o[key]] *)
Definition objDelete (entries : list (jsstring * jsstring)) (key : jsstring)
  : list (jsstring * jsstring) :=
  List.filter (fun e => negb (str_eqb (fst e) key)) entries.

(** [o[key] = value] for a string value: an own key keeps its place, a new
    key goes last; the key [__proto__], unless it is an own key, reaches
    the setter of [Object.prototype], which ignores a string. *)
Definition objSet (entries : list (jsstring * jsstring)) (key value : jsstring)
  : list (jsstring * jsstring) :=
  if existsb (fun e => str_eqb (fst e) key) entries then
    map (fun e => if str_eqb (fst e) key then (key, value) else e) entries
  else if str_eqb key (lit "__proto__") then entries
  else entries ++ [(key, value)].

(** [config.userUuids || {}], for a configuration that passed
    [validateConfig]. *)
Definition uuidsOf (config : Config) : list (jsstring * jsstring) :=
  match userUuids config with
  | UuidsMap entries => entries
  | _ => []
  end.

(** [Object.keys(userUuids).find(k => k.toLowerCase() === normalized)] *)
Definition findKey (entries : list (jsstring * jsstring)) (normalized : jsstring)
  : option jsstring :=
  List.find (fun k => str_eqb (toLowerCase host k) normalized) (ownKeys entries).

(** *** User names *)

(** [saveConfig({ userUuids })] *)
Definition saveUuids (entries : list (jsstring * jsstring)) : Cfg unit :=
  saveConfig {| set_username := None; set_userUuids := Some (UuidsMap entries);
                set_version_client := None; set_version_branch := None |}.

(** [config.username ? config.username.trim() : null] *)
Definition currentNameOf (config : Config) : option jsstring :=
  match username config with
  | NameString (c :: more) => Some (trim (c :: more))
  | _ => None
  end.

(** The map [saveUsername] saves: the UUID of the current name moved to
    the new name on a rename, unless the new name has one; the key
    re-cased when only the case changes. *)
Definition renamedUuids (userUuids : list (jsstring * jsstring))
  (currentName : option jsstring) (newName : jsstring)
  : list (jsstring * jsstring) :=
  let current := default [] currentName in
  let isRename :=
    truthy currentName
    && negb (str_eqb (toLowerCase host current) (toLowerCase host newName)) in
  if isRename then
    match findKey userUuids (toLowerCase host current) with
    | Some currentKey =>
        if nonEmpty currentKey && truthy (objGet userUuids currentKey) then
          match findKey userUuids (toLowerCase host newName) with
          | Some (_ :: _) => userUuids
          | _ =>
              let uuid := default [] (objGet userUuids currentKey) in
              objSet (objDelete userUuids currentKey) newName uuid
          end
        else userUuids
    | None => userUuids
    end
  else if truthy currentName && negb (str_eqb current newName) then
    match findKey userUuids (toLowerCase host current) with
    | Some currentKey =>
        if nonEmpty currentKey && negb (str_eqb currentKey newName) then
          let uuid := default [] (objGet userUuids currentKey) in
          objSet (objDelete userUuids currentKey) newName uuid
        else userUuids
    | None => userUuids
    end
  else userUuids.

(** [username] is the argument when it is a string, [None] otherwise. *)
Definition saveUsername (username : option jsstring) : Cfg jsstring :=
  if negb (truthy username)
  then throw (lit "Invalid username: must be a non-empty string")
  else
    let newName := trim (default [] username) in
    if negb (nonEmpty newName)
    then throw (lit "Invalid username: cannot be empty or whitespace")
    else if 16 <? Z.of_nat (length newName)
    then throw (lit "Invalid username: must be 16 characters or less")
    else
      let* config := loadConfig in
      let userUuids := renamedUuids (uuidsOf config) (currentNameOf config) newName in
      do saveConfig {| set_username := Some (NameString newName);
                       set_userUuids := Some (UuidsMap userUuids);
                       set_version_client := None;
                       set_version_branch := None |} then
      ret newName.

Definition loadUsername : Cfg (option jsstring) :=
  let* config := loadConfig in
  ret match username config with
      | NameString (c :: more) =>
          if nonEmpty (trim (c :: more)) then Some (trim (c :: more)) else None
      | _ => None
      end.

Definition loadUsernameWithDefault : Cfg jsstring :=
  let* name := loadUsername in
  ret (if truthy name then default [] name else lit "Player").

Definition hasUsername : Cfg bool :=
  let* name := loadUsername in
  ret (bool_decide (name <> None)).

Definition normalizeUsername (username : option jsstring) : option jsstring :=
  if negb (truthy username) then None
  else Some (toLowerCase host (trim (default [] username))).

(** *** UUIDs *)

Definition getUuidForUser (username : option jsstring) : Cfg jsstring :=
  if negb (truthy username) || negb (nonEmpty (trim (default [] username)))
  then throw (lit "Cannot get UUID: username is required")
  else
    let displayName := trim (default [] username) in
    let normalizedLookup := toLowerCase host displayName in
    let* config := loadConfig in
    let userUuids := uuidsOf config in
    match findKey userUuids normalizedLookup with
    | Some (c :: more) =>
        let existingKey := c :: more in
        let existingUuid := default [] (objGet userUuids existingKey) in
        do (if negb (str_eqb existingKey displayName)
            then saveUuids (objSet (objDelete userUuids existingKey)
                              displayName existingUuid)
            else ret tt) then
        ret existingUuid
    | _ =>
        let* newUuid := ask (uuidv4 host) in
        do saveUuids (objSet userUuids displayName newUuid) then
        ret newUuid
    end.

Definition getCurrentUuid : Cfg jsstring :=
  let* username := loadUsername in
  if negb (truthy username)
  then throw (lit "Cannot get current UUID: no username configured")
  else getUuidForUser username.

(** [config.userUuids || {}] *)
Definition getAllUuidMappings : Cfg (list (jsstring * jsstring)) :=
  let* config := loadConfig in ret (uuidsOf config).

Definition setUuidForUser (username : option jsstring) (uuid : jsstring)
  : Cfg jsstring :=
  if negb (truthy username) || negb (nonEmpty (trim (default [] username)))
  then throw (lit "Invalid username")
  else if negb (validateUuid host uuid)
  then throw (lit "Invalid UUID format")
  else
    let displayName := trim (default [] username) in
    let normalizedLookup := toLowerCase host displayName in
    let* config := loadConfig in
    let userUuids := uuidsOf config in
    let userUuids :=
      match findKey userUuids normalizedLookup with
      | Some (c :: more) => objDelete userUuids (c :: more)
      | _ => userUuids
      end in
    do saveUuids (objSet userUuids displayName uuid) then
    ret uuid.

Definition generateNewUuid : Cfg jsstring := ask (uuidv4 host).

Definition deleteUuidForUser (username : option jsstring) : Cfg bool :=
  if negb (truthy username) then throw (lit "Invalid username")
  else
    let normalizedLookup := toLowerCase host (trim (default [] username)) in
    let* config := loadConfig in
    let userUuids := uuidsOf config in
    match findKey userUuids normalizedLookup with
    | Some (c :: more) =>
        do saveUuids (objDelete userUuids (c :: more)) then
        ret true
    | _ => ret false
    end.

Definition resetCurrentUserUuid : Cfg jsstring :=
  let* username := loadUsername in
  if negb (truthy username)
  then throw (lit "Cannot reset UUID: no username configured")
  else
    let* newUuid := ask (uuidv4 host) in
    setUuidForUser username newUuid.

(** No two keys of the map are the same name up to case: what the
    functions above keep true of [userUuids]. *)
Definition caseDistinct (entries : list (jsstring * jsstring)) : Prop :=
  NoDup (map (fun e => toLowerCase host (fst e)) entries).

End WithHost.

(** A host for examples: lower case for ASCII letters, UUIDs that count
    the calls, every string of 36 characters a valid UUID, and a disk that
    can always be written. *)
Definition asciiLower (s : jsstring) : jsstring :=
  map (fun c => if (65 <=? c) && (c <=? 90) then c + 32 else c) s.

Definition sampleConfigHost : ConfigHost :=
  {| toLowerCase := asciiLower;
     uuidv4 := fun t =>
       lit "00000000-0000-4000-8000-00000000000" ++ [48 + Z.of_nat t];
     validateUuid := fun uuid => bool_decide (length uuid = 36%nat);
     writeFileError := fun _ => None;
     backupCopyFails := fun _ => false;
     renameError := fun _ => None;
     unlinkFails := fun _ => false |}.

(** The same host with a disk that cannot be written. *)
Definition readOnlyConfigHost : ConfigHost :=
  {| toLowerCase := asciiLower;
     uuidv4 := fun t =>
       lit "00000000-0000-4000-8000-00000000000" ++ [48 + Z.of_nat t];
     validateUuid := fun uuid => bool_decide (length uuid = 36%nat);
     writeFileError := fun _ => Some (lit "EACCES: permission denied");
     backupCopyFails := fun _ => true;
     renameError := fun _ => Some (lit "EACCES: permission denied");
     unlinkFails := fun _ => true |}.

(** A store with the given primary file and nothing else. *)
Definition storeWith (file : option FileText) : Store :=
  {| CONFIG_FILE := file; CONFIG_BACKUP := None; CONFIG_TEMP := None;
     calls := 0 |}.

(** A configuration with a user name and its UUID. *)
Definition sampleConfig : Config :=
  {| username := NameString (lit "Steve");
     userUuids :=
       UuidsMap [(lit "Steve", lit "11111111-1111-4111-8111-111111111111")];
     version_client := Some (Some (lit "7.pwr"));
     version_branch := None;
     rest := ∅ |}.

End ConfigStore.

(** * Properties *)

(** ** Buffers and the length-prefixed record *)

Module PatcherFacts.

Import ClientPatcher RecordFormat.

Lemma length_store (buffer : list Z) i v :
  length (store buffer i v) = length buffer.
Proof. apply length_insert. Qed.

Lemma length_copy (source : list Z) : forall (target : list Z) start,
  length (copy source target start) = length target.
Proof.
  induction source as [|b rest IH]; intros target start; simpl.
  - reflexivity.
  - rewrite IH. apply length_insert.
Qed.

Lemma length_Buffer_alloc n : length (Buffer_alloc n) = Z.to_nat n.
Proof. apply repeat_length. Qed.

Lemma length_interleaved (bytes : list Z) :
  bytes <> [] -> length (interleaved bytes) = (2 * length bytes - 1)%nat.
Proof.
  induction bytes as [|b rest IH]; [congruence|].
  intros _. destruct rest as [|b' rest']; [reflexivity|].
  change (interleaved (b :: b' :: rest')) with (b :: 0 :: interleaved (b' :: rest')).
  cbn [length]. rewrite IH by congruence. cbn [length]. lia.
Qed.

Lemma interleaved_even (bytes : list Z) : forall i,
  interleaved bytes !! (2 * i)%nat = bytes !! i.
Proof.
  induction bytes as [|b rest IH]; intros i.
  - reflexivity.
  - destruct rest as [|b' rest'].
    + destruct i as [|i]; [reflexivity|].
      replace (2 * S i)%nat with (S (S (2 * i))) by lia. reflexivity.
    + change (interleaved (b :: b' :: rest'))
        with (b :: 0 :: interleaved (b' :: rest')).
      destruct i as [|i]; [reflexivity|].
      replace (2 * S i)%nat with (S (S (2 * i))) by lia.
      cbn [lookup list_lookup]. apply IH.
Qed.

Lemma interleaved_odd (bytes : list Z) : forall i,
  (i + 1 < length bytes)%nat ->
  interleaved bytes !! (2 * i + 1)%nat = Some 0.
Proof.
  induction bytes as [|b rest IH]; intros i Hi.
  - simpl in Hi. lia.
  - destruct rest as [|b' rest'].
    + simpl in Hi. lia.
    + change (interleaved (b :: b' :: rest'))
        with (b :: 0 :: interleaved (b' :: rest')).
      destruct i as [|i]; [reflexivity|].
      replace (2 * S i + 1)%nat with (S (S (2 * i + 1))) by lia.
      cbn [lookup list_lookup]. apply IH. simpl in Hi |- *. lia.
Qed.

(** One store into the middle of a buffer. *)
Lemma store_middle (front : list Z) x (back : list Z) v :
  store (front ++ x :: back) (length front) v = front ++ (v mod 256) :: back.
Proof.
  unfold store. rewrite insert_app_r_alt by lia.
  replace (length front - length front)%nat with 0%nat by lia. reflexivity.
Qed.

Lemma fillLengthPrefixed_cons c (rest : jsstring) len i pos result :
  fillLengthPrefixed (c :: rest) len i pos result
  = if i <? len - 1
    then fillLengthPrefixed rest len (i + 1) (S (S pos))
           (store (store result pos c) (S pos) 0)
    else fillLengthPrefixed rest len (i + 1) (S pos) (store result pos c).
Proof. reflexivity. Qed.

(** The loop writes the interleaved form of the remaining characters at
    [pos] and leaves the rest of the buffer alone. *)
Lemma fillLengthPrefixed_spec (chars : jsstring) :
  forall (len i : Z) (front hole back : list Z),
    chars <> [] ->
    i + strLength chars = len ->
    length hole = (2 * length chars - 1)%nat ->
    fillLengthPrefixed chars len i (length front) (front ++ hole ++ back)
    = front ++ interleaved (map (fun c => c mod 256) chars) ++ back.
Proof.
  induction chars as [|c rest IH]; intros len i front hole back Hne Hlen Hhole;
    [congruence|].
  unfold strLength in Hlen. cbn [length] in Hlen, Hhole.
  destruct rest as [|c' rest'].
  - rewrite fillLengthPrefixed_cons.
    destruct hole as [|x [|y hole']]; simpl in Hhole; try lia.
    replace (i <? len - 1) with false by (symmetry; apply Z.ltb_ge; simpl in Hlen; lia).
    cbn [fillLengthPrefixed app]. rewrite store_middle. reflexivity.
  - rewrite fillLengthPrefixed_cons.
    replace (i <? len - 1) with true
      by (symmetry; apply Z.ltb_lt; cbn [length] in Hlen; lia).
    destruct hole as [|x [|y hole']]; cbn [length] in Hhole; try lia.
    cbn [app]. rewrite store_middle.
    replace (front ++ c mod 256 :: y :: hole' ++ back)
      with ((front ++ [c mod 256]) ++ y :: hole' ++ back)
      by (rewrite <- app_assoc; reflexivity).
    replace (S (length front)) with (length (front ++ [c mod 256]))
      by (rewrite length_app; simpl; lia).
    rewrite store_middle.
    replace ((front ++ [c mod 256]) ++ 0 mod 256 :: hole' ++ back)
      with ((front ++ [c mod 256; 0]) ++ hole' ++ back)
      by (rewrite <- !app_assoc; reflexivity).
    replace (S (length (front ++ [c mod 256])))
      with (length (front ++ [c mod 256; 0]))
      by (rewrite !length_app; simpl; lia).
    rewrite (IH len (i + 1) (front ++ [c mod 256; 0]) hole' back).
    + rewrite <- app_assoc. reflexivity.
    + congruence.
    + unfold strLength. cbn [length] in *. lia.
    + cbn [length] in *. lia.
Qed.

(** The whole record, for a non-empty string. *)
Lemma stringToLengthPrefixed_eq (str : jsstring) :
  str <> [] ->
  stringToLengthPrefixed str
  = [strLength str mod 256; 0; 0; 0]
      ++ interleaved (map (fun c => c mod 256) str).
Proof.
  intros Hne. unfold stringToLengthPrefixed.
  assert (Hn : (1 <= length str)%nat) by (destruct str; [congruence | simpl; lia]).
  unfold Buffer_alloc, strLength.
  replace (Z.to_nat (4 + Z.of_nat (length str) + (Z.of_nat (length str) - 1)))
    with (4 + (2 * length str - 1))%nat by lia.
  rewrite repeat_app.
  change (repeat 0 4) with [0; 0; 0; 0].
  set (hole := repeat 0 (2 * length str - 1)).
  change (store (store (store (store ([0; 0; 0; 0] ++ hole) 0
            (Z.of_nat (length str))) 1 0) 2 0) 3 0)
    with ([Z.of_nat (length str) mod 256; 0; 0; 0] ++ hole).
  pose proof (fillLengthPrefixed_spec str (Z.of_nat (length str)) 0
                [Z.of_nat (length str) mod 256; 0; 0; 0] hole []) as H.
  rewrite !app_nil_r in H. apply H.
  - exact Hne.
  - unfold strLength. lia.
  - subst hole. apply repeat_length.
Qed.

(** C7 (amended). For a string of 1 to 255 characters the record has
    4 + |s| + (|s| - 1) bytes, starts with |s| as a 32-bit little-endian
    integer, holds the low byte of the i-th character at payload offset 2i
    (the character itself when it fits one byte) and a zero after every
    character but the last. *)
Theorem stringToLengthPrefixed_layout (s : jsstring) :
  (1 <= length s <= 255)%nat ->
  Z.of_nat (length (stringToLengthPrefixed s))
    = 4 + strLength s + (strLength s - 1)
  /\ take 4 (stringToLengthPrefixed s) = u32le (strLength s)
  /\ (forall i c, s !! i = Some c ->
        stringToLengthPrefixed s !! (4 + 2 * i)%nat = Some (c mod 256))
  /\ (forall i c, s !! i = Some c -> 0 <= c < 256 ->
        stringToLengthPrefixed s !! (4 + 2 * i)%nat = Some c)
  /\ (forall i, (i + 1 < length s)%nat ->
        stringToLengthPrefixed s !! (4 + 2 * i + 1)%nat = Some 0).
Proof.
  intros [Hlo Hhi].
  assert (Hne : s <> []) by (destruct s; [simpl in Hlo; lia | congruence]).
  assert (Hmap : map (fun c => c mod 256) s <> [])
    by (destruct s; [congruence | discriminate]).
  rewrite (stringToLengthPrefixed_eq s Hne).
  assert (Heven : forall i c, s !! i = Some c ->
            ([strLength s mod 256; 0; 0; 0]
               ++ interleaved (map (fun c => c mod 256) s)) !! (4 + 2 * i)%nat
            = Some (c mod 256)).
  { intros i c Hi.
    change (4 + 2 * i)%nat with (S (S (S (S (2 * i))))).
    cbn [app lookup list_lookup].
    rewrite interleaved_even, list_lookup_fmap, Hi. reflexivity. }
  repeat split.
  - rewrite length_app, length_interleaved by exact Hmap.
    rewrite length_map. unfold strLength. cbn [length]. lia.
  - unfold u32le, strLength. cbn [app take]. f_equal.
    rewrite !Z.div_small by lia. reflexivity.
  - exact Heven.
  - intros i c Hi Hc. rewrite (Heven i c Hi). f_equal. apply Z.mod_small. lia.
  - intros i Hi.
    change (4 + 2 * i + 1)%nat with (S (S (S (S (2 * i + 1))))).
    cbn [app lookup list_lookup].
    apply interleaved_odd. rewrite length_map. exact Hi.
Qed.

Lemma stringToLengthPrefixed_layout_witness :
  (1 <= length (lit "hytale.com") <= 255)%nat
  /\ take 4 (stringToLengthPrefixed (lit "hytale.com")) = u32le 10.
Proof.
  assert (H : (1 <= length (lit "hytale.com") <= 255)%nat)
    by (vm_compute; lia).
  split; [exact H|].
  exact (proj1 (proj2 (stringToLengthPrefixed_layout (lit "hytale.com") H))).
Defined.

(** C7 as stated fails for long strings and wide characters: only the low
    byte of the length is stored, so a string of 256 characters gets the
    prefix 00 00 00 00 instead of 00 01 00 00; and a character above 255
    leaves only its low byte at its offset. *)
Lemma stringToLengthPrefixed_prefix_counterexample :
  repeat 97 256 <> []
  /\ take 4 (stringToLengthPrefixed (repeat 97 256)) = [0; 0; 0; 0]
  /\ u32le (strLength (repeat 97 256)) = [0; 1; 0; 0]
  /\ take 4 (stringToLengthPrefixed (repeat 97 256))
       <> u32le (strLength (repeat 97 256))
  /\ stringToLengthPrefixed [321] !! 4%nat <> Some 321.
Proof.
  repeat split; vm_compute; congruence.
Qed.

(** C8. Domains of at most 10 characters are patched directly, longer ones
    are split after the sixth character, and a configured domain shorter
    than 4 or longer than 16 characters is replaced by the default. *)
Theorem domain_length_boundaries :
  (forall domain : jsstring, (length domain <= 10)%nat ->
     getDomainStrategy domain
     = {| mode := direct; mainDomain := domain; subdomainPrefix := [] |})
  /\ (forall domain : jsstring, (11 <= length domain <= 16)%nat ->
        getDomainStrategy domain
        = {| mode := split; mainDomain := drop 6 domain;
             subdomainPrefix := take 6 domain |}
        /\ length (take 6 domain) = 6%nat)
  /\ (forall host : PatcherHost,
        (length (getTargetDomain host) < 4)%nat
        \/ (16 < length (getTargetDomain host))%nat ->
        getNewDomain host = DEFAULT_NEW_DOMAIN).
Proof.
  repeat split.
  - intros domain H. unfold getDomainStrategy, strLength.
    replace (Z.of_nat (length domain) <=? 10) with true
      by (symmetry; apply Z.leb_le; lia).
    reflexivity.
  - unfold getDomainStrategy, strLength.
    replace (Z.of_nat (length domain) <=? 10) with false
      by (symmetry; apply Z.leb_gt; lia).
    reflexivity.
  - rewrite length_take. lia.
  - intros host H. unfold getNewDomain, strLength, MIN_DOMAIN_LENGTH,
      MAX_DOMAIN_LENGTH.
    destruct (Z.ltb_spec (Z.of_nat (length (getTargetDomain host))) 4);
      [reflexivity|].
    destruct (Z.ltb_spec 16 (Z.of_nat (length (getTargetDomain host))));
      [reflexivity|].
    lia.
Qed.

Lemma domain_length_boundaries_witness :
  ((length (lit "hytale.com") <= 10)%nat
   /\ getDomainStrategy (lit "hytale.com")
      = {| mode := direct; mainDomain := lit "hytale.com";
           subdomainPrefix := [] |})
  /\ ((11 <= length (lit "abcdefghijk") <= 16)%nat
      /\ getDomainStrategy (lit "abcdefghijk")
         = {| mode := split; mainDomain := lit "ghijk";
              subdomainPrefix := lit "abcdef" |})
  /\ ((length (getTargetDomain
                 {| HYTALE_AUTH_DOMAIN := Some (lit "abc");
                    loadConfig := ConfigThrows; isoNow := [] |}) < 4)%nat
      /\ getNewDomain {| HYTALE_AUTH_DOMAIN := Some (lit "abc");
                         loadConfig := ConfigThrows; isoNow := [] |}
         = DEFAULT_NEW_DOMAIN)
  /\ ((16 < length (getTargetDomain
                      {| HYTALE_AUTH_DOMAIN := None;
                         loadConfig := ConfigLoaded (Some (lit "abcdefghijklmnopq"));
                         isoNow := [] |}))%nat
      /\ getNewDomain {| HYTALE_AUTH_DOMAIN := None;
                         loadConfig := ConfigLoaded (Some (lit "abcdefghijklmnopq"));
                         isoNow := [] |}
         = DEFAULT_NEW_DOMAIN).
Proof.
  destruct domain_length_boundaries as (Hdirect & Hsplit & Hreject).
  split; [|split; [|split]]; (split; [vm_compute; lia|]).
  - apply (Hdirect (lit "hytale.com")). vm_compute; lia.
  - apply (Hsplit (lit "abcdefghijk")). vm_compute; lia.
  - apply Hreject. left. vm_compute; lia.
  - apply Hreject. right. vm_compute; lia.
Defined.

(** *** In-place replacement never changes the size of the buffer *)

Lemma fold_left_length {A} (step : list Z * Z -> A -> list Z * Z) (items : list A) :
  (forall acc x, length (fst (step acc x)) = length (fst acc)) ->
  forall acc, length (fst (fold_left step items acc)) = length (fst acc).
Proof.
  intros Hstep. induction items as [|x rest IH]; intros acc; simpl.
  - reflexivity.
  - rewrite IH. apply Hstep.
Qed.

Lemma length_replaceBytes (buffer oldBytes newBytes : list Z) :
  length (fst (replaceBytes buffer oldBytes newBytes)) = length buffer.
Proof.
  unfold replaceBytes.
  destruct (length oldBytes <? length newBytes)%nat; [reflexivity|].
  rewrite fold_left_length; [reflexivity|].
  intros [result count] pos. cbn [fst]. apply length_copy.
Qed.

Lemma replaceBytes_skips_longer (buffer oldBytes newBytes : list Z) :
  (length oldBytes < length newBytes)%nat ->
  replaceBytes buffer oldBytes newBytes = (buffer, 0).
Proof.
  intros H. unfold replaceBytes.
  replace (length oldBytes <? length newBytes)%nat with true
    by (symmetry; apply Nat.ltb_lt; exact H).
  reflexivity.
Qed.

Lemma length_findAndReplaceDomainSmart (data : list Z) (oldDomain newDomain : jsstring) :
  length (fst (findAndReplaceDomainSmart data oldDomain newDomain)) = length data.
Proof.
  unfold findAndReplaceDomainSmart.
  rewrite fold_left_length; [reflexivity|].
  intros [result count] pos. cbn beta iota.
  destruct (length result <? _)%nat; [reflexivity|].
  destruct (bool_decide _); [|reflexivity].
  cbn [fst]. rewrite length_store. apply length_copy.
Qed.

Lemma length_applyDomainPatches (data : list Z) (domain protocol : jsstring) :
  length (fst (applyDomainPatches data domain protocol)) = length data.
Proof.
  unfold applyDomainPatches. cbv zeta.
  rewrite fold_left_length.
  - cbn [fst]. rewrite !length_replaceBytes. reflexivity.
  - intros [result count] sub. cbn [fst]. apply length_replaceBytes.
Qed.

Lemma length_patchDiscordUrl (data : list Z) :
  length (fst (patchDiscordUrl data)) = length data.
Proof.
  unfold patchDiscordUrl. cbv zeta.
  destruct (0 <? _).
  - apply length_replaceBytes.
  - rewrite fold_left_length; [reflexivity|].
    intros [result count] pos. cbn [fst]. apply length_copy.
Qed.

(** C9. Each of the four patching functions returns a buffer as long as
    its input, and a replacement longer than the pattern it replaces is
    skipped with count 0 and the bytes unchanged. *)
Theorem patching_preserves_length :
  (forall buffer oldBytes newBytes : list Z,
     length (fst (replaceBytes buffer oldBytes newBytes)) = length buffer)
  /\ (forall (data : list Z) (oldDomain newDomain : jsstring),
        length (fst (findAndReplaceDomainSmart data oldDomain newDomain))
        = length data)
  /\ (forall (data : list Z) (domain protocol : jsstring),
        length (fst (applyDomainPatches data domain protocol)) = length data)
  /\ (forall data : list Z, length (fst (patchDiscordUrl data)) = length data)
  /\ (forall buffer oldBytes newBytes : list Z,
        (length oldBytes < length newBytes)%nat ->
        replaceBytes buffer oldBytes newBytes = (buffer, 0)).
Proof.
  split; [exact length_replaceBytes|].
  split; [exact length_findAndReplaceDomainSmart|].
  split; [exact length_applyDomainPatches|].
  split; [exact length_patchDiscordUrl|].
  exact replaceBytes_skips_longer.
Qed.

Lemma patching_preserves_length_witness :
  (length [1; 2] < length [7; 8; 9])%nat
  /\ replaceBytes [1; 2; 3; 1; 2] [1; 2] [7; 8; 9] = ([1; 2; 3; 1; 2], 0).
Proof.
  split; [vm_compute; lia|].
  apply (proj2 (proj2 (proj2 (proj2 patching_preserves_length)))).
  vm_compute; lia.
Defined.

(** *** The paths through [patchClient] *)

Lemma getPatchStatus_marked (host : PatcherHost) (data : list Z) (fs : Install) :
  includes data (mainPattern host) = true ->
  patched (getPatchStatus host (markAsPatched host (writeClient data fs))) = true.
Proof.
  intros Hincl. unfold getPatchStatus, markAsPatched, writeClient.
  cbn [flagFile client targetDomain].
  rewrite bool_decide_eq_true_2 by reflexivity.
  unfold mainPattern in Hincl. rewrite Hincl. reflexivity.
Qed.

Lemma patchClient_already (host : PatcherHost) (fs : Install) :
  is_Some (client fs) ->
  patched (getPatchStatus host fs) = true ->
  patchClient host fs = (AlreadyPatched, fs).
Proof.
  intros [data Hdata] Hp. unfold patchClient. rewrite Hdata, Hp. reflexivity.
Qed.

Lemma patchBytes_reports (host : PatcherHost) data result bytes :
  patchBytes host data = Some (result, bytes) -> reportsPatched result = true.
Proof.
  unfold patchBytes.
  destruct (applyDomainPatches _ _ _) as [patchedData count].
  destruct (patchDiscordUrl patchedData) as [finalData discordCount].
  destruct ((count =? 0) && (discordCount =? 0)).
  - destruct (0 <? snd (findAndReplaceDomainSmart _ _ _)); [|discriminate].
    intros [= <- <-]. reflexivity.
  - intros [= <- <-]. reflexivity.
Qed.

(** A call that reports the patch either found it in place or has just
    written the binary and its patch record. *)
Lemma patchClient_reports (host : PatcherHost) (fs : Install) r fs' :
  patchClient host fs = (r, fs') ->
  reportsPatched r = true ->
  (fs' = fs /\ is_Some (client fs) /\ patched (getPatchStatus host fs) = true)
  \/ (exists data fs2, fs' = markAsPatched host (writeClient data fs2)).
Proof.
  unfold patchClient.
  destruct (client fs) as [binary|] eqn:Hclient;
    [|intros [= <- <-]; discriminate].
  destruct (patched (getPatchStatus host fs)) eqn:Hp.
  - intros [= <- <-] _. left. split; [reflexivity|]. split; eauto.
  - destruct (patchBytes host _) as [[result bytes]|].
    + intros [= <- <-] _. right. eauto.
    + intros [= <- <-]; discriminate.
Qed.

Lemma patchClient_unpatched (host : PatcherHost) (fs : Install) binary :
  client fs = Some binary ->
  patched (getPatchStatus host fs) = false ->
  patchClient host fs
  = match patchBytes host (default [] (client (prepareClient host fs))) with
    | Some (result, bytes) =>
        (result, markAsPatched host (writeClient bytes (prepareClient host fs)))
    | None => (NoOccurrences, prepareClient host fs)
    end.
Proof. intros Hc Hp. unfold patchClient. rewrite Hc, Hp. reflexivity. Qed.

(** Preparing an unpatched binary leaves an unpatched binary, and
    preparing it again does not change its bytes. *)
Lemma prepareClient_stable (host : PatcherHost) (fs : Install) binary :
  client fs = Some binary ->
  patched (getPatchStatus host fs) = false ->
  is_Some (client (prepareClient host fs))
  /\ patched (getPatchStatus host (prepareClient host fs)) = false
  /\ client (prepareClient host (prepareClient host fs))
     = client (prepareClient host fs).
Proof.
  destruct fs as [cl fl bk ar wr]. cbn [client]. intros -> Hp.
  unfold prepareClient, getPatchStatus in *.
  cbn [flagFile client] in *.
  destruct fl as [[|r]|]; cbn [needsRestore notPatched patched] in *.
  all: try (destruct (bool_decide (targetDomain r = Some (getNewDomain host)))
              eqn:Hdom;
            [destruct (includes binary _) eqn:Hinc; [discriminate|]|]);
       cbn [needsRestore notPatched patched] in *.
  all: unfold restoreFromBackup, backupClient;
       cbn [backup client snd flagFile archivedBackups clientWrites].
  all: destruct bk as [orig|];
       cbn [backup client snd flagFile archivedBackups clientWrites].
  all: repeat (case_bool_decide;
               cbn [backup client snd flagFile archivedBackups clientWrites
                    needsRestore notPatched patched]).
  all: try rewrite ?Hdom, ?Hinc;
       cbn [backup client snd flagFile archivedBackups clientWrites
            needsRestore notPatched patched].
  all: try (split; [eauto|split; reflexivity]).
  all: try congruence.
  all: split; [eauto|split; [reflexivity|]]; destruct (bool_decide _);
       reflexivity.
Qed.

End PatcherFacts.

(** ** The effect monad *)

Module EffectFacts.

Import Trace.

Section Along.
Context (R : World -> World -> Prop).
Hypothesis R_refl : forall w, R w w.
Hypothesis R_trans : forall w1 w2 w3, R w1 w2 -> R w2 w3 -> R w1 w3.

Lemma along_ret {A} (a : A) : along R (ret a).
Proof. intros w. apply R_refl. Qed.

Lemma along_throw {A} e : along R (@throw A e).
Proof. intros w. apply R_refl. Qed.

Lemma along_get : along R get.
Proof. intros w. apply R_refl. Qed.

Lemma along_bind {A B} (m : M A) (k : A -> M B) :
  along R m -> (forall a, along R (k a)) -> along R (bind m k).
Proof.
  intros Hm Hk w. unfold bind. specialize (Hm w).
  destruct (m w) as [[a|e] w1]; cbn [snd] in *.
  - eapply R_trans; [exact Hm | apply Hk].
  - exact Hm.
Qed.

Lemma along_catch {A} (m : M A) (handler : Err -> M A) :
  along R m -> (forall e, along R (handler e)) -> along R (catch m handler).
Proof.
  intros Hm Hk w. unfold catch. specialize (Hm w).
  destruct (m w) as [[a|e] w1]; cbn [snd] in *.
  - exact Hm.
  - eapply R_trans; [exact Hm | apply Hk].
Qed.

Lemma along_modify (f : World -> World) :
  (forall w, R w (f w)) -> along R (modify f).
Proof. intros Hf w. apply Hf. Qed.

Lemma along_ask {A} (f : nat -> A) :
  (forall w, R w (nextTick w)) -> along R (ask f).
Proof. intros Hf w. apply Hf. Qed.

End Along.

Lemma bind_assoc {A B C} (m : M A) (k1 : A -> M B) (k2 : B -> M C) w :
  bind (bind m k1) k2 w = bind m (fun a => bind (k1 a) k2) w.
Proof. unfold bind. destruct (m w) as [[a|e] w1]; reflexivity. Qed.

Lemma bind_ok {A B} (m : M A) (k : A -> M B) w a w1 :
  m w = (Ok a, w1) -> bind m k w = k a w1.
Proof. intros H. unfold bind. rewrite H. reflexivity. Qed.

Lemma bind_throw {A B} (m : M A) (k : A -> M B) w e w1 :
  m w = (Throw e, w1) -> bind m k w = (Throw e, w1).
Proof. intros H. unfold bind. rewrite H. reflexivity. Qed.

Lemma sameRecord_refl w : sameRecord w w.
Proof. reflexivity. Qed.

Lemma sameRecord_trans w1 w2 w3 :
  sameRecord w1 w2 -> sameRecord w2 w3 -> sameRecord w1 w3.
Proof. unfold sameRecord. congruence. Qed.

Lemma logged_refl P w : logged P w w.
Proof. exists []. split; [symmetry; apply app_nil_r | constructor]. Qed.

Lemma logged_same P w w' : events w' = events w -> logged P w w'.
Proof.
  intros H. exists []. split; [rewrite app_nil_r; exact H | constructor].
Qed.

Lemma logged_trans P w1 w2 w3 :
  logged P w1 w2 -> logged P w2 w3 -> logged P w1 w3.
Proof.
  intros (evs1 & H1 & F1) (evs2 & H2 & F2). exists (evs1 ++ evs2).
  split; [rewrite H2, H1, app_assoc; reflexivity | apply Forall_app; auto].
Qed.

Lemma logged_weaken (P Q : Event -> Prop) w w' :
  (forall e, P e -> Q e) -> logged P w w' -> logged Q w w'.
Proof.
  intros HPQ (evs & H & F). exists evs. split; [exact H|].
  eapply Forall_impl; eauto.
Qed.

Lemma logged_event (P : Event -> Prop) e w : P e -> logged P w (addEvent e w).
Proof. intros He. exists [e]. split; [reflexivity | repeat constructor; exact He]. Qed.

Lemma raises_ret Q {A} (a : A) : raises Q (ret a).
Proof. intros w e. discriminate. Qed.

Lemma raises_throw (Q : Err -> Prop) {A} e : Q e -> raises Q (@throw A e).
Proof. intros He w e' [= <-]. exact He. Qed.

Lemma raises_bind Q {A B} (m : M A) (k : A -> M B) :
  raises Q m -> (forall a, raises Q (k a)) -> raises Q (bind m k).
Proof.
  intros Hm Hk w e. unfold bind. specialize (Hm w).
  destruct (m w) as [[a|e1] w1]; cbn [fst] in *.
  - apply Hk.
  - intros [= <-]. apply Hm. reflexivity.
Qed.

Lemma raises_total Q {A} (m : M A) :
  (forall w, exists a, fst (m w) = Ok a) -> raises Q m.
Proof. intros H w e He. destruct (H w) as [a Ha]. congruence. Qed.

End EffectFacts.

(** ** Version numbers and the plan *)

Module VersionFacts.

Lemma isDigit_range c : isDigit c = true <-> 48 <= c <= 57.
Proof. unfold isDigit. rewrite andb_true_iff, !Z.leb_le. tauto. Qed.

Lemma digitValue_digit c : isDigit c = true -> digitValue 10 c = Some (c - 48).
Proof.
  intros H. unfold digitValue. rewrite H.
  apply isDigit_range in H.
  replace (c - 48 <? 10) with true by (symmetry; apply Z.ltb_lt; lia).
  reflexivity.
Qed.

(** On a string of digits, [accumulate] is the decimal value. *)
Lemma accumulate_digits ds : forall acc,
  Forall (fun c => isDigit c = true) ds ->
  ds <> [] ->
  accumulate 10 ds acc = Some (fold_left decimal ds (default 0 acc)).
Proof.
  induction ds as [|d rest IH]; intros acc Hall Hne; [congruence|].
  inversion Hall as [|? ? Hd Hrest]; subst.
  cbn [accumulate]. rewrite (digitValue_digit d Hd).
  destruct rest as [|d' rest'].
  - reflexivity.
  - rewrite IH by (auto; congruence). reflexivity.
Qed.

Lemma digit_not_space d : 48 <= d <= 57 -> isWhiteSpace d = false.
Proof.
  intros H. unfold isWhiteSpace. cbn [existsb].
  rewrite !orb_false_iff, andb_false_iff, !Z.eqb_neq, Z.leb_gt.
  repeat split; lia.
Qed.

Lemma parseInt_digits ds :
  Forall (fun c => isDigit c = true) ds ->
  ds <> [] ->
  parseInt ds = Some (fold_left decimal ds 0).
Proof.
  intros Hall Hne. destruct ds as [|d rest]; [congruence|].
  inversion Hall as [|? ? Hd Hrest]; subst.
  pose proof (proj1 (isDigit_range d) Hd) as Hrange.
  unfold parseInt. cbn [skipWhile].
  rewrite (digit_not_space d Hrange).
  replace (d =? 45) with false by (symmetry; apply Z.eqb_neq; lia).
  replace (d =? 43) with false by (symmetry; apply Z.eqb_neq; lia).
  assert (Hradix :
    match d :: rest with
    | c :: x :: r =>
        if (c =? 48) && ((x =? 120) || (x =? 88)) then (16, r) else (10, d :: rest)
    | _ => (10, d :: rest)
    end = (10, d :: rest)).
  { destruct rest as [|x r]; [reflexivity|].
    inversion Hrest as [|? ? Hx _]; subst. apply isDigit_range in Hx.
    replace (x =? 120) with false by (symmetry; apply Z.eqb_neq; lia).
    replace (x =? 88) with false by (symmetry; apply Z.eqb_neq; lia).
    rewrite andb_false_r. reflexivity. }
  rewrite Hradix.
  rewrite (accumulate_digits (d :: rest) None Hall Hne).
  cbn [default]. f_equal. lia.
Qed.

Lemma digitsOf_all_digits fuel : forall n acc,
  0 <= n ->
  Forall (fun c => isDigit c = true) acc ->
  Forall (fun c => isDigit c = true) (digitsOf fuel n acc).
Proof.
  induction fuel as [|f IH]; intros n acc Hn Hacc; cbn [digitsOf]; [exact Hacc|].
  assert (Hd : isDigit (48 + n mod 10) = true).
  { apply isDigit_range. pose proof (Z.mod_pos_bound n 10). lia. }
  destruct (n <? 10).
  - constructor; assumption.
  - apply IH; [apply Z.div_pos; lia | constructor; assumption].
Qed.

Lemma digitsOf_keeps fuel : forall n acc, acc <> [] -> digitsOf fuel n acc <> [].
Proof.
  induction fuel as [|f IH]; intros n acc Hne; cbn [digitsOf]; [exact Hne|].
  destruct (n <? 10); [discriminate|]. apply IH. discriminate.
Qed.

Lemma digitsOf_nonempty fuel n acc : digitsOf (S fuel) n acc <> [].
Proof.
  cbn [digitsOf]. destruct (n <? 10); [discriminate|].
  apply digitsOf_keeps. discriminate.
Qed.

(** With enough fuel the digits spell the number. *)
Lemma digitsOf_value fuel : forall n acc,
  0 <= n < 2 ^ Z.of_nat fuel ->
  fold_left decimal (digitsOf fuel n acc) 0 = fold_left decimal acc n.
Proof.
  induction fuel as [|f IH]; intros n acc Hn.
  - cbn [digitsOf]. change (2 ^ Z.of_nat 0) with 1 in Hn.
    replace n with 0 by lia. reflexivity.
  - cbn [digitsOf]. destruct (Z.ltb_spec n 10) as [Hlt|Hge].
    + cbn [fold_left]. unfold decimal at 2.
      rewrite Z.mod_small by lia. f_equal. lia.
    + rewrite IH.
      * cbn [fold_left]. f_equal. unfold decimal.
        pose proof (Z.div_mod n 10). lia.
      * rewrite Nat2Z.inj_succ, Z.pow_succ_r in Hn by lia.
        split; [apply Z.div_pos; lia|].
        apply Z.div_lt_upper_bound; lia.
Qed.

Lemma numberToString_value n :
  0 <= n ->
  Forall (fun c => isDigit c = true) (numberToString n)
  /\ numberToString n <> []
  /\ fold_left decimal (numberToString n) 0 = n.
Proof.
  intros Hn. unfold numberToString.
  replace (n <? 0) with false by (symmetry; apply Z.ltb_ge; lia).
  split; [apply digitsOf_all_digits; [lia | constructor]|].
  split; [apply digitsOf_nonempty|].
  rewrite digitsOf_value; [reflexivity|].
  split; [lia|].
  destruct (Z.eq_dec n 0) as [->|Hnz]; [reflexivity|].
  rewrite Nat2Z.inj_succ, Z2Nat.id by apply Z.log2_nonneg.
  apply Z.log2_spec. lia.
Qed.

Lemma takeDigits_app ds rest :
  Forall (fun c => isDigit c = true) ds ->
  takeDigits rest = [] ->
  takeDigits (ds ++ rest) = ds.
Proof.
  intros Hall Hrest. induction Hall as [|d ds Hd _ IH]; [exact Hrest|].
  cbn [app takeDigits]. rewrite Hd, IH. reflexivity.
Qed.

Lemma match_v_digits_none s :
  Forall (fun c => c <> 118) s -> match_v_digits s = None.
Proof.
  induction 1 as [|c s Hc _ IH]; [reflexivity|].
  cbn [match_v_digits].
  replace (c =? 118) with false by (symmetry; apply Z.eqb_neq; exact Hc).
  exact IH.
Qed.

(** A printed build number reads back as itself. *)
Lemma extractVersionNumber_pwr n :
  0 <= n -> extractVersionNumber (Some (pwr n)) = n.
Proof.
  intros Hn. unfold pwr.
  destruct (numberToString_value n Hn) as (Hall & Hne & Hval).
  destruct (numberToString n) as [|d ds] eqn:Hds; [congruence|].
  unfold extractVersionNumber. cbn [app].
  change (d :: ds ++ lit ".pwr") with ((d :: ds) ++ lit ".pwr").
  rewrite match_v_digits_none.
  2:{ apply Forall_app. split.
      - eapply Forall_impl; [exact Hall|]. intros c Hc.
        apply isDigit_range in Hc. lia.
      - vm_compute. repeat constructor; discriminate. }
  cbn [app match_digits_pwr].
  change (d :: ds ++ lit ".pwr") with ((d :: ds) ++ lit ".pwr").
  rewrite (takeDigits_app (d :: ds) (lit ".pwr") Hall) by reflexivity.
  rewrite drop_app_length. cbn [nonEmpty andb].
  change (isPrefix (lit ".pwr") (lit ".pwr")) with true. cbn iota.
  rewrite (parseInt_digits (d :: ds) Hall Hne). exact Hval.
Qed.

Lemma pwr_nonempty n : pwr n <> [].
Proof.
  unfold pwr. intros H. apply app_eq_nil in H. destruct H as [_ H].
  discriminate.
Qed.

(** The loop appends the builds from [i] to [target]. *)
Lemma pushVersions_spec fuel : forall i target acc,
  target - i + 1 <= Z.of_nat fuel ->
  pushVersions fuel i target acc = acc ++ map pwr (seqZ i (target - i + 1)).
Proof.
  induction fuel as [|f IH]; intros i target acc Hfuel.
  - cbn [pushVersions]. rewrite seqZ_nil by lia. cbn. rewrite app_nil_r.
    reflexivity.
  - cbn [pushVersions]. destruct (Z.leb_spec i target) as [Hle|Hgt].
    + rewrite IH by lia.
      rewrite (seqZ_cons i (target - i + 1)) by lia.
      cbn [map]. rewrite <- app_assoc. cbn [app].
      replace (Z.succ i) with (i + 1) by lia.
      replace (Z.pred (target - i + 1)) with (target - (i + 1) + 1) by lia.
      reflexivity.
    + rewrite seqZ_nil by lia. cbn. rewrite app_nil_r. reflexivity.
Qed.

Lemma needsIntermediatePatches_range currentVersion targetVersion :
  truthy currentVersion = true ->
  needsIntermediatePatches currentVersion targetVersion
  = map pwr (seqZ (extractVersionNumber currentVersion + 1)
               (extractVersionNumber targetVersion
                - extractVersionNumber currentVersion)).
Proof.
  intros Htruthy. unfold needsIntermediatePatches. rewrite Htruthy.
  rewrite pushVersions_spec by lia. cbn [app]. f_equal. f_equal. lia.
Qed.

(** More fuel than the loop needs changes nothing. *)
Lemma pushVersions_fuel fuel fuel' i target acc :
  target - i + 1 <= Z.of_nat fuel ->
  target - i + 1 <= Z.of_nat fuel' ->
  pushVersions fuel i target acc = pushVersions fuel' i target acc.
Proof. intros H1 H2. rewrite !pushVersions_spec by assumption. reflexivity. Qed.

Lemma plan_entries_nonempty currentVersion targetVersion :
  Forall (fun v => v <> []) (needsIntermediatePatches currentVersion targetVersion).
Proof.
  unfold needsIntermediatePatches. destruct (truthy currentVersion); [|constructor].
  rewrite pushVersions_spec by lia. cbn [app].
  apply Forall_fmap, Forall_forall. intros n _. apply pwr_nonempty.
Qed.

End VersionFacts.

(** ** Acquiring, deploying and saving *)

Module UpdateFacts.

Import Trace EffectFacts UpdateManager.

Lemma calm_refl w : calm w w.
Proof. split; [apply sameRecord_refl | apply logged_refl]. Qed.

Lemma calm_trans w1 w2 w3 : calm w1 w2 -> calm w2 w3 -> calm w1 w3.
Proof.
  intros [S1 L1] [S2 L2].
  split; [eapply sameRecord_trans | eapply logged_trans]; eauto.
Qed.

Lemma calm_event e w : quiet e -> calm w (addEvent e w).
Proof. intros He. split; [reflexivity | apply logged_event; exact He]. Qed.

Lemma calm_setFiles f w : calm w (setFiles f w).
Proof. split; [reflexivity | apply logged_same; reflexivity]. Qed.

Lemma calm_nextTick w : calm w (nextTick w).
Proof. split; [reflexivity | apply logged_same; reflexivity]. Qed.

(** Walks through a computation, leaving the goals that concern the
    events it emits. *)
Ltac along_with refl trans :=
  repeat match goal with
    | |- along _ (ret _) => apply (along_ret _ refl)
    | |- along _ (throw _) => apply (along_throw _ refl)
    | |- along _ get => apply (along_get _ refl)
    | |- along _ (bind _ _) => apply (along_bind _ trans); [| intros ?]
    | |- along _ (catch _ _) => apply (along_catch _ trans); [| intros ?]
    | |- along _ (ask _) => apply along_ask; intros ?
    | |- along _ (modify _) => apply along_modify; intros ?
    | |- along _ (emit _) => apply along_modify; intros ?
    | |- along _ (if ?b then _ else _) => destruct b
    | |- along _ (match ?x with _ => _ end) => destruct x
    end.

Section WithHost.
Variable h : Host.

Lemma existsSync_calm p : along calm (existsSync p).
Proof. intros w. apply calm_refl. Qed.

Lemma readFile_calm p : along calm (readFile p).
Proof. intros w. unfold readFile. destruct (files w !! p); apply calm_refl. Qed.

Lemma emit_calm e : quiet e -> along calm (emit e).
Proof. intros He w. apply calm_event. exact He. Qed.

Lemma unlinkSync_calm p : along calm (unlinkSync p).
Proof.
  unfold unlinkSync. along_with calm_refl calm_trans.
  - apply calm_event. split; reflexivity.
  - apply calm_setFiles.
Qed.

Lemma writeFile_calm p content : along calm (writeFile p content).
Proof. unfold writeFile. along_with calm_refl calm_trans. apply calm_setFiles. Qed.

Lemma validateChecksum_calm p expected :
  along calm (validateChecksum h p expected).
Proof.
  unfold validateChecksum, computeFileChecksum.
  along_with calm_refl calm_trans.
  - apply calm_event. split; reflexivity.
  - apply readFile_calm.
Qed.

Ltac calm_leaf :=
  first [ apply validateChecksum_calm | apply unlinkSync_calm
        | apply writeFile_calm | apply readFile_calm | apply existsSync_calm
        | apply calm_nextTick | apply calm_setFiles
        | apply calm_event; split; reflexivity ].

(** Acquiring an archive neither saves a version nor completes a
    deployment. *)
Lemma acquireGameArchive_calm url path expected allowRetry :
  along calm (acquireGameArchive h url path expected allowRetry).
Proof.
  unfold acquireGameArchive, reuseCached, downloadAndValidate.
  along_with calm_refl calm_trans; calm_leaf.
Qed.

Ltac raises_with :=
  repeat match goal with
    | |- raises _ (ret _) => apply raises_ret
    | |- raises _ (throw _) => apply raises_throw; reflexivity
    | |- raises _ (bind _ _) => apply raises_bind; [| intros ?]
    | |- raises _ get => apply raises_total; intros ?; eexists; reflexivity
    | |- raises _ (ask _) => apply raises_total; intros ?; eexists; reflexivity
    | |- raises _ (modify _) => apply raises_total; intros ?; eexists; reflexivity
    | |- raises _ (emit _) => apply raises_total; intros ?; eexists; reflexivity
    | |- raises _ (existsSync _) =>
        apply raises_total; intros ?; eexists; reflexivity
    | |- raises _ (if ?b then _ else _) => destruct b
    | |- raises _ (match ?x with _ => _ end) => destruct x
    end.

Lemma readFile_raises p : raises harmless (readFile p).
Proof.
  intros w e. unfold readFile. destruct (files w !! p); [discriminate|].
  intros [= <-]. reflexivity.
Qed.

Lemma unlinkSync_raises p : raises harmless (unlinkSync p).
Proof. unfold unlinkSync. raises_with. Qed.

Lemma writeFile_raises p content : raises harmless (writeFile p content).
Proof. unfold writeFile. raises_with. Qed.

Lemma validateChecksum_raises p expected :
  raises harmless (validateChecksum h p expected).
Proof.
  unfold validateChecksum, computeFileChecksum. raises_with.
  apply readFile_raises.
Qed.

Lemma acquireGameArchive_raises url path expected allowRetry :
  raises harmless (acquireGameArchive h url path expected allowRetry).
Proof.
  unfold acquireGameArchive, reuseCached, downloadAndValidate.
  raises_with;
    first [ apply validateChecksum_raises | apply unlinkSync_raises
          | apply writeFile_raises | apply readFile_raises ].
Qed.

(** A deployment either completes, logging the call and its completion,
    or throws without completing; the record is not touched. *)
Lemma deployGameArchive_spec archivePath destinationDir toolsDir isDifferential w :
  sameRecord w
    (snd (deployGameArchive h archivePath destinationDir toolsDir isDifferential w))
  /\ match fst (deployGameArchive h archivePath destinationDir toolsDir
                  isDifferential w) with
     | Ok _ =>
         events (snd (deployGameArchive h archivePath destinationDir toolsDir
                        isDifferential w))
         = events w ++ [EvDeploy archivePath isDifferential;
                        EvDeployed archivePath isDifferential]
     | Throw e =>
         harmless e
         /\ logged quiet w
              (snd (deployGameArchive h archivePath destinationDir toolsDir
                      isDifferential w))
     end.
Proof.
  assert (Hq : forall p d, quiet (EvDeploy p d)) by (intros; split; reflexivity).
  assert (Hu : forall p, quiet (EvUnlink p)) by (intros; split; reflexivity).
  assert (Hone : forall p d, Forall quiet [EvDeploy p d])
    by (intros; constructor; [apply Hq | constructor]).
  unfold deployGameArchive, bind, emit, modify, existsSync, ask, throw,
    unlinkSync, ret.
  cbn.
  destruct (negb (nonEmpty archivePath) || negb (bool_decide _)); cbn.
  { split; [reflexivity|]. split; [reflexivity|]. eexists; split; [reflexivity|apply Hone]. }
  match goal with
  | |- context [installButler h ?t ?d] => destruct (installButler h t d)
  end; cbn.
  2:{ split; [reflexivity|]. split; [reflexivity|]. eexists; split; [reflexivity|apply Hone]. }
  match goal with
  | |- context [execButler h ?t ?b ?a] => destruct (execButler h t b a)
  end; cbn.
  - split; [reflexivity|]. rewrite <- app_assoc. reflexivity.
  - destruct (classifyDeployError errorText) as [message [|]]; cbn.
    + destruct (bool_decide _); cbn.
      * split; [reflexivity|]. split; [reflexivity|].
        exists [EvDeploy archivePath isDifferential; EvUnlink archivePath].
        split; [unfold setFiles, addEvent, nextTick; cbn [events];
                rewrite <- app_assoc; reflexivity|].
        constructor; [apply Hq | constructor; [apply Hu | constructor]].
      * split; [reflexivity|]. split; [reflexivity|].
        eexists; split; [reflexivity|apply Hone].
    + split; [reflexivity|]. split; [reflexivity|].
      eexists; split; [reflexivity|apply Hone].
Qed.

Lemma saveConfigAttempts_spec attempts : forall lastError v w,
  events (snd (Config.saveConfigAttempts h attempts lastError v w)) = events w
  /\ match fst (Config.saveConfigAttempts h attempts lastError v w) with
     | Ok _ =>
         version_client (snd (Config.saveConfigAttempts h attempts lastError v w))
         = Some v
     | Throw e =>
         isSaveFailure e = true
         /\ version_client
              (snd (Config.saveConfigAttempts h attempts lastError v w))
            = version_client w
     end.
Proof.
  induction attempts as [|k IH]; intros lastError v w.
  - cbn. auto.
  - cbn [Config.saveConfigAttempts]. unfold bind, ask. cbn [fst snd].
    destruct (configWriteError h (tick w)) as [message|].
    + destruct (IH message v (nextTick w)) as [Hev Hres].
      split; [exact Hev|]. exact Hres.
    + cbn. auto.
Qed.

(** Saving either records the version and logs it, or fails to save and
    changes nothing. *)
Lemma saveVersionClient_spec v w :
  match fst (Config.saveVersionClient h v w) with
  | Ok _ =>
      version_client (snd (Config.saveVersionClient h v w)) = Some v
      /\ events (snd (Config.saveVersionClient h v w)) = events w ++ [EvSaved v]
  | Throw e =>
      isSaveFailure e = true
      /\ version_client (snd (Config.saveVersionClient h v w)) = version_client w
      /\ events (snd (Config.saveVersionClient h v w)) = events w
  end.
Proof.
  unfold Config.saveVersionClient, bind.
  destruct (saveConfigAttempts_spec 3 [] v w) as [Hev Hres].
  destruct (Config.saveConfigAttempts h 3 [] v w) as [[[]|e] w1];
    cbn [fst snd] in *.
  - unfold emit, modify. cbn [fst snd]. unfold addEvent at 1 2.
    cbn [version_client events]. rewrite Hev. auto.
  - destruct Hres as [He Hrec]. auto.
Qed.

Section Steps.
Variable archiveOf : jsstring -> jsstring -> bool -> Prop.

Lemma deploysOnce_after (version : jsstring) {A} (m1 : M A) (m2 : M unit) :
  along calm m1 -> raises harmless m1 ->
  DeploysOnce archiveOf version m2 ->
  DeploysOnce archiveOf version (bind m1 (fun _ => m2)).
Proof.
  intros Hcalm Hraise H2 w. unfold bind.
  specialize (Hcalm w). specialize (Hraise w).
  destruct (m1 w) as [[a|e] w1]; cbn [fst snd] in *.
  - destruct Hcalm as [Hrec (evs1 & Hev1 & Hq1)].
    destruct (H2 w1) as [Hrec2 Hres].
    split; [eapply sameRecord_trans; eauto|].
    destruct (fst (m2 w1)).
    + destruct Hres as (front & p & d & cleanup & Hev & Hf & Hc & Harch).
      exists (evs1 ++ front), p, d, cleanup.
      split; [rewrite Hev, Hev1, <- !app_assoc; reflexivity|].
      split; [apply Forall_app; auto|]. auto.
    + destruct Hres as [He Hlog]. split; [exact He|].
      eapply logged_trans; [|exact Hlog]. exists evs1. auto.
  - split; [apply Hcalm|]. split; [apply Hraise; reflexivity | apply Hcalm].
Qed.

Lemma deploysOnce_before (version : jsstring) (m1 : M unit) (m2 : M unit) :
  DeploysOnce archiveOf version m1 ->
  along calm m2 -> (forall w, exists a, fst (m2 w) = Ok a) ->
  DeploysOnce archiveOf version (bind m1 (fun _ => m2)).
Proof.
  intros H1 Hcalm Htotal w. unfold bind.
  destruct (H1 w) as [Hrec Hres].
  destruct (m1 w) as [[[]|e] w1]; cbn [fst snd] in *.
  - destruct (Hcalm w1) as [Hrec2 (evs2 & Hev2 & Hq2)].
    destruct (Htotal w1) as [a Ha].
    split; [eapply sameRecord_trans; eauto|].
    rewrite Ha.
    destruct Hres as (front & p & d & cleanup & Hev & Hf & Hc & Harch).
    exists front, p, d, (cleanup ++ evs2).
    split; [rewrite Hev2, Hev, <- !app_assoc; reflexivity|].
    split; [exact Hf|]. split; [apply Forall_app; auto | exact Harch].
  - split; [exact Hrec | exact Hres].
Qed.

Lemma deploysOnce_deploy version archivePath destinationDir toolsDir isDifferential :
  archiveOf version archivePath isDifferential ->
  DeploysOnce archiveOf version
    (deployGameArchive h archivePath destinationDir toolsDir isDifferential).
Proof.
  intros Harch w.
  destruct (deployGameArchive_spec archivePath destinationDir toolsDir
              isDifferential w) as [Hrec Hres].
  split; [exact Hrec|].
  destruct (fst (deployGameArchive h archivePath destinationDir toolsDir
                   isDifferential w)).
  - exists [EvDeploy archivePath isDifferential], archivePath, isDifferential, [].
    split; [rewrite Hres; reflexivity|].
    split; [constructor; [split; reflexivity | constructor]|].
    split; [constructor | exact Harch].
  - exact Hres.
Qed.

(** A body that deploys once, followed by the save, is a step. *)
Lemma step_of_body version (body : M unit) :
  DeploysOnce archiveOf version body ->
  Step archiveOf version (bind body (fun _ => Config.saveVersionClient h version)).
Proof.
  intros Hbody w. unfold bind.
  destruct (Hbody w) as [Hrec Hres].
  destruct (body w) as [[[]|e] w1]; cbn [fst snd] in *.
  - destruct Hres as (front & p & d & cleanup & Hev & Hf & Hc & Harch).
    pose proof (saveVersionClient_spec version w1) as Hsave.
    destruct (fst (Config.saveVersionClient h version w1)) as [[]|e].
    + destruct Hsave as [Hv Hev2]. split; [exact Hv|].
      exists (front ++ EvDeployed p d :: cleanup ++ [EvSaved version]).
      split.
      * rewrite Hev2, Hev, <- !app_assoc. reflexivity.
      * constructor; assumption.
    + destruct Hsave as (He & Hv & Hev2).
      split; [rewrite Hv; exact Hrec|].
      exists (front ++ EvDeployed p d :: cleanup).
      split; [rewrite Hev2; exact Hev|].
      rewrite He. split; [|exact I].
      apply Forall_app. split.
      * eapply Forall_impl; [exact Hf|]. intros x [Hx _]. exact Hx.
      * constructor; [reflexivity|].
        eapply Forall_impl; [exact Hc|]. intros x [Hx _]. exact Hx.
  - destruct Hres as [He (evs & Hev & Hq)].
    split; [exact Hrec|]. exists evs. split; [exact Hev|].
    unfold harmless in He. rewrite He. split; [|exact Hq].
    eapply Forall_impl; [exact Hq|]. intros x [Hx _]. exact Hx.
Qed.

Lemma recordAfter_cons before v persisted :
  recordAfter (Some v) persisted = recordAfter before (v :: persisted).
Proof.
  unfold recordAfter. destruct persisted as [|v' rest]; [reflexivity|].
  change (last (v :: v' :: rest)) with (last (v' :: rest)).
  destruct (last (v' :: rest)) eqn:Hlast; [reflexivity|].
  apply last_None in Hlast. discriminate.
Qed.

Lemma runAt_nil w : RunAt archiveOf [] (ret tt) w.
Proof.
  exists [], [], [].
  split; [cbn; rewrite app_nil_r; reflexivity|].
  split; [apply steps_nil|]. split; [reflexivity|]. split; [reflexivity|].
  split; [constructor|]. cbn. auto.
Qed.

Lemma runAt_fail plan (m : M unit) w e partial :
  fst (m w) = Throw e ->
  version_client (snd (m w)) = version_client w ->
  events (snd (m w)) = events w ++ partial ->
  Forall notSaved partial ->
  (if isSaveFailure e then True else Forall quiet partial) ->
  RunAt archiveOf plan m w.
Proof.
  intros Hr Hrec Hev Hns Hq. exists [], [], partial.
  split; [exact Hev|]. split; [constructor|].
  split; [apply prefix_nil|]. split; [exact Hrec|]. split; [exact Hns|].
  rewrite Hr. exact Hq.
Qed.

Lemma runAt_step version plan (m1 m2 : M unit) w :
  Step archiveOf version m1 ->
  (forall w1, RunAt archiveOf plan m2 w1) ->
  RunAt archiveOf (version :: plan) (bind m1 (fun _ => m2)) w.
Proof.
  intros Hstep Hrest. specialize (Hstep w).
  destruct (m1 w) as [[[]|e] w1] eqn:Hm1; cbn [fst snd] in Hstep.
  - destruct Hstep as (Hrec & evs1 & Hev1 & Hdone).
    destruct (Hrest w1) as (persisted & evs & partial & Hev & Hsteps & Hpre
                            & Hrec2 & Hns & Hres).
    assert (Hbind : bind m1 (fun _ => m2) w = m2 w1)
      by (unfold bind; rewrite Hm1; reflexivity).
    exists (version :: persisted), (evs1 ++ evs), partial.
    rewrite Hbind.
    split; [rewrite Hev, Hev1, <- !app_assoc; reflexivity|].
    split; [constructor; assumption|].
    split; [apply prefix_cons; exact Hpre|].
    split; [rewrite Hrec2, Hrec; apply recordAfter_cons|].
    split; [exact Hns|].
    destruct (fst (m2 w1)); [|exact Hres].
    destruct Hres as [-> ->]. auto.
  - destruct Hstep as (Hrec & evs1 & Hev1 & Hns & Hq).
    assert (Hbind : bind m1 (fun _ => m2) w = (Throw e, w1))
      by (unfold bind; rewrite Hm1; reflexivity).
    apply (runAt_fail (version :: plan) (bind m1 (fun _ => m2)) w e evs1);
      try rewrite Hbind; auto.
Qed.

Lemma runAt_single version (m : M unit) w :
  Step archiveOf version m -> RunAt archiveOf [version] m w.
Proof.
  intros Hstep. specialize (Hstep w).
  destruct (fst (m w)) as [[]|e] eqn:Hr.
  - destruct Hstep as (Hrec & evs1 & Hev1 & Hdone).
    exists [version], evs1, [].
    split; [rewrite app_nil_r; exact Hev1|].
    split; [rewrite <- (app_nil_r evs1); apply steps_cons;
            [exact Hdone | apply steps_nil]|].
    split; [reflexivity|]. split; [exact Hrec|]. split; [constructor|].
    rewrite Hr. auto.
  - destruct Hstep as (Hrec & evs1 & Hev1 & Hns & Hq).
    apply (runAt_fail _ _ _ e evs1); auto.
Qed.

Lemma runAt_ext plan (m m' : M unit) w :
  m w = m' w -> RunAt archiveOf plan m' w -> RunAt archiveOf plan m w.
Proof. unfold RunAt. intros ->. auto. Qed.

Lemma step_ext version (m m' : M unit) :
  (forall w, m w = m' w) -> Step archiveOf version m -> Step archiveOf version m'.
Proof. intros Heq Hstep w. rewrite <- Heq. apply Hstep. Qed.

End Steps.

(** *** The orchestrator *)

Section WithResolver.
Variable resolve : option jsstring -> jsstring -> VersionDetails.
Variables branch gameDir cacheDir toolsDir : jsstring.

Lemma getInstalledClientVersion_eq w :
  getInstalledClientVersion w = (Ok (version_client w), w).
Proof. reflexivity. Qed.

Lemma cleanup_calm archivePath :
  along calm
    (bind (existsSync archivePath)
       (fun present => if present then unlinkSync archivePath else ret tt)).
Proof. along_with calm_refl calm_trans; calm_leaf. Qed.

Lemma cleanup_total archivePath w :
  exists a,
    fst (bind (existsSync archivePath)
           (fun present : bool => if present then unlinkSync archivePath else ret tt)
           w) = Ok a.
Proof.
  unfold bind, existsSync. cbn [fst snd].
  destruct (bool_decide _); eexists; reflexivity.
Qed.

Lemma fullInstall_step targetVersion :
  Step (stepArchive h resolve cacheDir branch) targetVersion
    (fullInstall h resolve targetVersion branch gameDir cacheDir toolsDir).
Proof.
  unfold fullInstall.
  eapply step_ext; [intros w; apply bind_assoc|].
  apply step_of_body.
  apply deploysOnce_after.
  - apply acquireGameArchive_calm.
  - apply acquireGameArchive_raises.
  - apply deploysOnce_deploy. left. split; reflexivity.
Qed.

Lemma applyPatch_body installed patchVersion :
  DeploysOnce (stepArchive h resolve cacheDir branch) patchVersion
    (let versionDetails := resolve (Some patchVersion) branch in
     if negb (canUseDifferentialUpdate installed (Some versionDetails))
        || negb (truthy (differentialUrl versionDetails))
     then
       bind (acquireGameArchive h (fullUrl versionDetails)
               (fullArchivePath h cacheDir branch versionDetails) None true)
         (fun _ => deployGameArchive h
                     (fullArchivePath h cacheDir branch versionDetails)
                     gameDir toolsDir false)
     else
       bind (acquireGameArchive h (default [] (differentialUrl versionDetails))
               (patchArchivePath h cacheDir branch versionDetails)
               (checksum versionDetails) true)
         (fun _ =>
            bind (deployGameArchive h
                    (patchArchivePath h cacheDir branch versionDetails)
                    gameDir toolsDir true)
              (fun _ =>
                 bind (existsSync (patchArchivePath h cacheDir branch versionDetails))
                   (fun present =>
                      if present
                      then unlinkSync
                             (patchArchivePath h cacheDir branch versionDetails)
                      else ret tt)))).
Proof.
  cbv zeta. destruct (negb _ || negb _).
  - apply deploysOnce_after.
    + apply acquireGameArchive_calm.
    + apply acquireGameArchive_raises.
    + apply deploysOnce_deploy. left. split; reflexivity.
  - apply deploysOnce_after.
    + apply acquireGameArchive_calm.
    + apply acquireGameArchive_raises.
    + apply deploysOnce_before.
      * apply deploysOnce_deploy. right. split; reflexivity.
      * apply cleanup_calm.
      * apply cleanup_total.
Qed.

Lemma applyPatch_step patchVersion :
  Step (stepArchive h resolve cacheDir branch) patchVersion
    (applyPatch h resolve branch gameDir cacheDir toolsDir patchVersion).
Proof.
  intros w.
  pose proof (step_of_body (stepArchive h resolve cacheDir branch) patchVersion _
                (applyPatch_body (version_client w) patchVersion) w) as H.
  exact H.
Qed.

Lemma applyPatches_run plan : forall w,
  RunAt (stepArchive h resolve cacheDir branch) plan
    (applyPatches h resolve branch gameDir cacheDir toolsDir plan) w.
Proof.
  induction plan as [|v rest IH]; intros w.
  - apply runAt_nil.
  - cbn [applyPatches]. apply runAt_step; [apply applyPatch_step | exact IH].
Qed.

(** Every run of the orchestrator works through the update plan of the
    version it finds installed. *)
Lemma performIntelligentUpdateWith_run targetVersion w :
  RunAt (stepArchive h resolve cacheDir branch) (updatePlan (version_client w) targetVersion branch)
    (performIntelligentUpdateWith h resolve targetVersion branch gameDir
       cacheDir toolsDir) w.
Proof.
  unfold updatePlan.
  destruct (negb (str_eqb branch (lit "release"))) eqn:Hbranch.
  - eapply runAt_ext; [|apply runAt_single, fullInstall_step].
    unfold performIntelligentUpdateWith, bind.
    rewrite getInstalledClientVersion_eq, Hbranch. reflexivity.
  - destruct (negb (truthy (version_client w))) eqn:Hcurrent.
    + eapply runAt_ext; [|apply runAt_single, fullInstall_step].
      unfold performIntelligentUpdateWith, bind.
      rewrite getInstalledClientVersion_eq, Hbranch, Hcurrent. reflexivity.
    + eapply runAt_ext; [|apply applyPatches_run].
      unfold performIntelligentUpdateWith, bind.
      rewrite getInstalledClientVersion_eq, Hbranch, Hcurrent. reflexivity.
Qed.

End WithResolver.

End WithHost.

(** *** The choice between the full and the differential archive *)

Lemma canUseDifferentialUpdate_iff installed details :
  truthy installed = true ->
  canUseDifferentialUpdate installed (Some details) = true
  <-> differentialEligible installed details.
Proof.
  intros Hinst. unfold canUseDifferentialUpdate, differentialEligible.
  rewrite Hinst.
  destruct (truthy (differentialUrl details)); cbn [negb];
    [|split; [discriminate | intros [H _]; discriminate]].
  destruct (isDifferential details); cbn [negb];
    [|split; [discriminate | intros (_ & H & _); discriminate]].
  rewrite Z.eqb_eq. split.
  - intros H. auto.
  - intros (_ & _ & H). auto.
Qed.

Section Choice.
Variable h : Host.

Ltac log_leaf :=
  first [ apply logged_same; reflexivity
        | apply logged_event; exact I
        | apply logged_event; split; reflexivity ].

Lemma validateChecksum_files p expected :
  along (logged fileEvent) (validateChecksum h p expected).
Proof.
  unfold validateChecksum, computeFileChecksum, readFile.
  along_with (logged_refl fileEvent) (logged_trans fileEvent); try log_leaf.
  intros w. destruct (files w !! p); apply logged_refl.
Qed.

Lemma unlinkSync_files p : along (logged fileEvent) (unlinkSync p).
Proof.
  unfold unlinkSync.
  along_with (logged_refl fileEvent) (logged_trans fileEvent); log_leaf.
Qed.

(** An acquisition logs its call, then only file handling. *)
Lemma acquireGameArchive_log url path expected allowRetry w :
  exists tail,
    events (snd (acquireGameArchive h url path expected allowRetry w))
    = events w ++ EvAcquire url path expected :: tail
    /\ Forall fileEvent tail.
Proof.
  unfold acquireGameArchive, reuseCached, downloadAndValidate.
  match goal with
  | |- context [bind (emit ?e) ?k] =>
      assert (Hk : along (logged fileEvent) (k tt))
  end.
  { unfold writeFile, readFile.
    along_with (logged_refl fileEvent) (logged_trans fileEvent);
      try apply validateChecksum_files; try apply unlinkSync_files;
      try log_leaf.
    intros w'. destruct (files w' !! path); apply logged_refl. }
  unfold bind at 1. cbn [emit modify fst snd].
  destruct (Hk (addEvent (EvAcquire url path expected) w)) as (tail & Hev & Htail).
  exists tail. split; [|exact Htail].
  rewrite Hev. cbn [addEvent events]. rewrite <- app_assoc. reflexivity.
Qed.

Lemma deployGameArchive_only archivePath destinationDir toolsDir isDifferential :
  along (logged (deploysOnly archivePath isDifferential))
    (deployGameArchive h archivePath destinationDir toolsDir isDifferential).
Proof.
  unfold deployGameArchive, unlinkSync.
  along_with (logged_refl (deploysOnly archivePath isDifferential))
             (logged_trans (deploysOnly archivePath isDifferential));
    try log_leaf; intros w; apply logged_refl.
Qed.

Lemma saveVersionClient_only archivePath isDifferential version :
  along (logged (deploysOnly archivePath isDifferential))
    (Config.saveVersionClient h version).
Proof.
  intros w. pose proof (saveVersionClient_spec h version w) as H.
  destruct (fst (Config.saveVersionClient h version w)).
  - destruct H as [_ Hev]. exists [EvSaved version].
    split; [exact Hev | constructor; [exact I | constructor]].
  - destruct H as (_ & _ & Hev). apply logged_same. exact Hev.
Qed.

Lemma fileEvent_deploysOnly archivePath isDifferential e :
  fileEvent e -> deploysOnly archivePath isDifferential e.
Proof. destruct e; cbn; tauto. Qed.

End Choice.

Lemma applyPatch_eq (h : Host) resolve branch gameDir cacheDir toolsDir
  patchVersion w :
  applyPatch h resolve branch gameDir cacheDir toolsDir patchVersion w
  = bind
      (let versionDetails := resolve (Some patchVersion) branch in
       if negb (canUseDifferentialUpdate (version_client w) (Some versionDetails))
          || negb (truthy (differentialUrl versionDetails))
       then
         bind (acquireGameArchive h (fullUrl versionDetails)
                 (fullArchivePath h cacheDir branch versionDetails) None true)
           (fun _ => deployGameArchive h
                       (fullArchivePath h cacheDir branch versionDetails)
                       gameDir toolsDir false)
       else
         bind (acquireGameArchive h (default [] (differentialUrl versionDetails))
                 (patchArchivePath h cacheDir branch versionDetails)
                 (checksum versionDetails) true)
           (fun _ =>
              bind (deployGameArchive h
                      (patchArchivePath h cacheDir branch versionDetails)
                      gameDir toolsDir true)
                (fun _ =>
                   bind (existsSync
                           (patchArchivePath h cacheDir branch versionDetails))
                     (fun present =>
                        if present
                        then unlinkSync
                               (patchArchivePath h cacheDir branch versionDetails)
                        else ret tt))))
      (fun _ => Config.saveVersionClient h patchVersion) w.
Proof. reflexivity. Qed.

(** A deployment logs its call first; what follows is its own, and when
    it returns, it is the completion of that deployment. *)
Lemma deployGameArchive_called (h : Host) archivePath destinationDir toolsDir
  isDifferential w :
  exists more,
    events (snd (deployGameArchive h archivePath destinationDir toolsDir
                   isDifferential w))
    = events w ++ EvDeploy archivePath isDifferential :: more
    /\ Forall (deploysOnly archivePath isDifferential) more
    /\ (forall w', deployGameArchive h archivePath destinationDir toolsDir
                     isDifferential w = (Ok tt, w') ->
        more = [EvDeployed archivePath isDifferential]).
Proof.
  unfold deployGameArchive, bind, emit, modify, existsSync, ask, throw,
    unlinkSync, ret.
  cbn.
  destruct (negb (nonEmpty archivePath) || negb (bool_decide _)); cbn.
  { exists []. split; [reflexivity|]. split; [constructor | discriminate]. }
  match goal with
  | |- context [installButler h ?t ?d] => destruct (installButler h t d)
  end; cbn.
  2:{ exists []. split; [reflexivity|]. split; [constructor | discriminate]. }
  match goal with
  | |- context [execButler h ?t ?b ?a] => destruct (execButler h t b a)
  end; cbn.
  - exists [EvDeployed archivePath isDifferential].
    split; [rewrite <- app_assoc; reflexivity|].
    split; [constructor; [exact I | constructor] | reflexivity].
  - destruct (classifyDeployError errorText) as [message [|]]; cbn.
    + destruct (bool_decide _); cbn.
      * exists [EvUnlink archivePath].
        split; [rewrite <- app_assoc; reflexivity|].
        split; [constructor; [exact I | constructor] | discriminate].
      * exists []. split; [reflexivity|]. split; [constructor | discriminate].
    + exists []. split; [reflexivity|]. split; [constructor | discriminate].
Qed.

(** The events of a step that acquires the archive at [path], deploys it
    with the flag [flag], cleans up and saves the version. *)
Lemma step_acquires_and_deploys (h : Host) url path expected dest tools flag
  (cleanup : M unit) version w :
  along (logged (deploysOnly path flag)) cleanup ->
  let step :=
    bind (bind (acquireGameArchive h url path expected true)
            (fun _ => bind (deployGameArchive h path dest tools flag)
                        (fun _ => cleanup)))
      (fun _ => Config.saveVersionClient h version) in
  exists fetched rest,
    events (snd (step w)) = events w ++ EvAcquire url path expected :: fetched ++ rest
    /\ Forall fileEvent fetched
    /\ Forall (deploysOnly path flag) rest
    /\ match fst (acquireGameArchive h url path expected true w) with
       | Throw e => rest = [] /\ fst (step w) = Throw e
       | Ok _ =>
           exists more,
             rest = EvDeploy path flag :: more
             /\ (fst (step w) = Ok tt -> EvDeployed path flag ∈ more)
       end.
Proof.
  intros Hcleanup step. subst step.
  destruct (acquireGameArchive_log h url path expected true w)
    as (fetched & Hfetched & Hfiles).
  unfold bind.
  destruct (acquireGameArchive h url path expected true w) as [[p|e] w2];
    cbn [fst snd] in *.
  2:{ exists fetched, []. rewrite app_nil_r.
      split; [exact Hfetched|]. split; [exact Hfiles|].
      split; [constructor | split; reflexivity]. }
  destruct (deployGameArchive_called h path dest tools flag w2)
    as (more & Hdeploy & Hmore & Hdone).
  destruct (deployGameArchive h path dest tools flag w2) as [[[]|e] w3];
    cbn [fst snd] in *.
  2:{ exists fetched, (EvDeploy path flag :: more).
      split; [rewrite Hdeploy, Hfetched, <- app_assoc; reflexivity|].
      split; [exact Hfiles|].
      split; [constructor; [split; reflexivity | exact Hmore]|].
      exists more. split; [reflexivity | discriminate]. }
  specialize (Hdone w3 eq_refl). subst more.
  destruct (Hcleanup w3) as (cleaned & Hcleaned & Hquiet).
  destruct (cleanup w3) as [[[]|e] w4]; cbn [fst snd] in *.
  2:{ exists fetched,
        (EvDeploy path flag :: [EvDeployed path flag] ++ cleaned).
      split; [rewrite Hcleaned, Hdeploy, Hfetched, <- !app_assoc; reflexivity|].
      split; [exact Hfiles|].
      split.
      { constructor; [split; reflexivity|].
        apply Forall_app. split; [exact Hmore | exact Hquiet]. }
      eexists. split; [reflexivity|]. intros _.
      apply elem_of_app. left. apply list_elem_of_singleton. reflexivity. }
  destruct (saveVersionClient_only h path flag version w4)
    as (saved & Hsaved & Hsavedonly).
  exists fetched,
    (EvDeploy path flag :: [EvDeployed path flag] ++ cleaned ++ saved).
  split; [rewrite Hsaved, Hcleaned, Hdeploy, Hfetched, <- !app_assoc;
          reflexivity|].
  split; [exact Hfiles|].
  split.
  { constructor; [split; reflexivity|].
    apply Forall_app. split; [exact Hmore|].
    apply Forall_app. split; [exact Hquiet | exact Hsavedonly]. }
  eexists. split; [reflexivity|]. intros _.
  apply elem_of_app. left. apply list_elem_of_singleton. reflexivity.
Qed.

(** What a step logs, by eligibility of its differential. *)
Lemma applyPatch_deploys (h : Host) resolve branch gameDir cacheDir toolsDir
  patchVersion w :
  truthy (version_client w) = true ->
  let details := resolve (Some patchVersion) branch in
  let step := applyPatch h resolve branch gameDir cacheDir toolsDir patchVersion in
  (differentialEligible (version_client w) details ->
   exists fetched rest,
     events (snd (step w))
     = events w
       ++ EvAcquire (default [] (differentialUrl details))
            (patchArchivePath h cacheDir branch details) (checksum details)
          :: fetched ++ rest
     /\ Forall fileEvent fetched
     /\ Forall (deploysOnly (patchArchivePath h cacheDir branch details) true)
          rest
     /\ match fst (acquireGameArchive h (default [] (differentialUrl details))
                     (patchArchivePath h cacheDir branch details)
                     (checksum details) true w) with
        | Throw e => rest = [] /\ fst (step w) = Throw e
        | Ok _ =>
            exists more,
              rest = EvDeploy (patchArchivePath h cacheDir branch details) true
                     :: more
              /\ (fst (step w) = Ok tt ->
                  EvDeployed (patchArchivePath h cacheDir branch details) true
                    ∈ more)
        end)
  /\ (~ differentialEligible (version_client w) details ->
      exists fetched rest,
        events (snd (step w))
        = events w
          ++ EvAcquire (fullUrl details)
               (fullArchivePath h cacheDir branch details) None
             :: fetched ++ rest
        /\ Forall fileEvent fetched
        /\ Forall (deploysOnly (fullArchivePath h cacheDir branch details) false)
             rest
        /\ match fst (acquireGameArchive h (fullUrl details)
                        (fullArchivePath h cacheDir branch details) None
                        true w) with
           | Throw e => rest = [] /\ fst (step w) = Throw e
           | Ok _ =>
               exists more,
                 rest = EvDeploy (fullArchivePath h cacheDir branch details)
                          false :: more
                 /\ (fst (step w) = Ok tt ->
                     EvDeployed (fullArchivePath h cacheDir branch details)
                       false ∈ more)
           end).
Proof.
  intros Hinst details step. subst step.
  pose proof (canUseDifferentialUpdate_iff (version_client w) details Hinst)
    as Hiff.
  rewrite applyPatch_eq. cbv zeta. fold details.
  split.
  - intros Hel. pose proof (proj2 Hiff Hel) as Hcan.
    destruct Hel as (Hurl & _). rewrite Hcan, Hurl. cbn [negb orb].
    apply (step_acquires_and_deploys h).
    unfold unlinkSync.
    along_with
      (logged_refl (deploysOnly (patchArchivePath h cacheDir branch details) true))
      (logged_trans (deploysOnly (patchArchivePath h cacheDir branch details) true));
      try (apply logged_same; reflexivity);
      try (apply logged_event; exact I).
    intros w0. apply logged_refl.
  - intros Hnot.
    assert (Hcan : canUseDifferentialUpdate (version_client w) (Some details)
                   = false).
    { destruct (canUseDifferentialUpdate (version_client w) (Some details))
        eqn:E; [|reflexivity].
      exfalso. apply Hnot, Hiff. reflexivity. }
    rewrite Hcan. cbn [negb orb].
    assert (Hsame :
      bind (bind (acquireGameArchive h (fullUrl details)
                    (fullArchivePath h cacheDir branch details) None true)
              (fun _ => deployGameArchive h
                          (fullArchivePath h cacheDir branch details)
                          gameDir toolsDir false))
        (fun _ => Config.saveVersionClient h patchVersion) w
      = bind (bind (acquireGameArchive h (fullUrl details)
                      (fullArchivePath h cacheDir branch details) None true)
                (fun _ => bind (deployGameArchive h
                                  (fullArchivePath h cacheDir branch details)
                                  gameDir toolsDir false)
                            (fun _ => ret tt)))
          (fun _ => Config.saveVersionClient h patchVersion) w).
    { unfold bind, ret.
      destruct (acquireGameArchive _ _ _ _ _ w) as [[p|e] w2]; [|reflexivity].
      destruct (deployGameArchive _ _ _ _ _ w2) as [[[]|e] w3]; reflexivity. }
    rewrite Hsame.
    apply (step_acquires_and_deploys h).
    intros w0. apply logged_refl.
Qed.

(** The installed version a step of the plan finds is a version. *)
Lemma installed_before_step (h : Host) resolve branch gameDir cacheDir toolsDir
  currentVersion targetVersion done patchVersion rest w w1 :
  version_client w = currentVersion ->
  truthy currentVersion = true ->
  needsIntermediatePatches currentVersion (Some targetVersion)
  = done ++ patchVersion :: rest ->
  applyPatches h resolve branch gameDir cacheDir toolsDir done w = (Ok tt, w1) ->
  version_client w1 = recordAfter currentVersion done
  /\ truthy (version_client w1) = true.
Proof.
  intros Hw Htruthy Hplan Hrun.
  destruct (applyPatches_run h resolve branch gameDir cacheDir toolsDir done w)
    as (persisted & evs & partial & _ & _ & _ & Hrec & _ & Hres).
  rewrite Hrun in Hrec, Hres. cbn [fst snd] in Hrec, Hres.
  destruct Hres as [-> _]. rewrite Hw in Hrec.
  split; [exact Hrec|]. rewrite Hrec. unfold recordAfter.
  destruct (last done) as [v|] eqn:Hlast; [|exact Htruthy].
  pose proof (VersionFacts.plan_entries_nonempty currentVersion
                (Some targetVersion)) as Hne.
  rewrite Hplan in Hne. apply Forall_app in Hne. destruct Hne as [Hdone _].
  apply last_Some in Hlast. destruct Hlast as [front ->].
  apply Forall_app in Hdone. destruct Hdone as [_ Hv].
  inversion Hv as [|? ? Hvne _]; subst.
  destruct v; [congruence | reflexivity].
Qed.

(** C4. At every step of the plan the installed version read before the
    step is the version the previous step saved (the initial one for the
    first step).  If the step's details carry a differential URL, flagged
    as a true differential, whose source build is that of this installed
    version, the step acquires the differential archive with its checksum
    and, when the acquisition returns, calls the deployment of that
    archive, differentially; otherwise it acquires the full archive
    without checksum and, when the acquisition returns, calls the
    deployment of that archive, non-differentially.  A step whose
    acquisition throws stops there with that error, a step that returns
    has completed that deployment, and nothing else is acquired or
    deployed in the step. *)
Theorem differential_iff_eligible (h : Host)
  (resolve : option jsstring -> jsstring -> VersionDetails)
  (branch gameDir cacheDir toolsDir : jsstring)
  (currentVersion : option jsstring) (targetVersion : jsstring)
  (done : list jsstring) (patchVersion : jsstring) (rest : list jsstring)
  (w w1 : World) :
  version_client w = currentVersion ->
  truthy currentVersion = true ->
  needsIntermediatePatches currentVersion (Some targetVersion)
  = done ++ patchVersion :: rest ->
  applyPatches h resolve branch gameDir cacheDir toolsDir done w = (Ok tt, w1) ->
  let details := resolve (Some patchVersion) branch in
  let step := applyPatch h resolve branch gameDir cacheDir toolsDir patchVersion in
  version_client w1 = recordAfter currentVersion done
  /\ (differentialEligible (version_client w1) details ->
      exists fetched deployment,
        events (snd (step w1))
        = events w1
          ++ EvAcquire (default [] (differentialUrl details))
               (patchArchivePath h cacheDir branch details) (checksum details)
             :: fetched ++ deployment
        /\ Forall fileEvent fetched
        /\ Forall (deploysOnly (patchArchivePath h cacheDir branch details) true)
             deployment
        /\ match fst (acquireGameArchive h (default [] (differentialUrl details))
                        (patchArchivePath h cacheDir branch details)
                        (checksum details) true w1) with
           | Throw e => deployment = [] /\ fst (step w1) = Throw e
           | Ok _ =>
               exists more,
                 deployment
                 = EvDeploy (patchArchivePath h cacheDir branch details) true
                   :: more
                 /\ (fst (step w1) = Ok tt ->
                     EvDeployed (patchArchivePath h cacheDir branch details)
                       true ∈ more)
           end)
  /\ (~ differentialEligible (version_client w1) details ->
      exists fetched deployment,
        events (snd (step w1))
        = events w1
          ++ EvAcquire (fullUrl details)
               (fullArchivePath h cacheDir branch details) None
             :: fetched ++ deployment
        /\ Forall fileEvent fetched
        /\ Forall (deploysOnly (fullArchivePath h cacheDir branch details) false)
             deployment
        /\ match fst (acquireGameArchive h (fullUrl details)
                        (fullArchivePath h cacheDir branch details) None
                        true w1) with
           | Throw e => deployment = [] /\ fst (step w1) = Throw e
           | Ok _ =>
               exists more,
                 deployment
                 = EvDeploy (fullArchivePath h cacheDir branch details) false
                   :: more
                 /\ (fst (step w1) = Ok tt ->
                     EvDeployed (fullArchivePath h cacheDir branch details)
                       false ∈ more)
           end).
Proof.
  intros Hw Htruthy Hplan Hrun details step.
  destruct (installed_before_step h resolve branch gameDir cacheDir toolsDir
              currentVersion targetVersion done patchVersion rest w w1
              Hw Htruthy Hplan Hrun) as [Hrec Hinst].
  split; [exact Hrec|].
  apply applyPatch_deploys. exact Hinst.
Qed.

(** Two runs from build 5 to build 8: one in which every step succeeds,
    one in which the deployment of the second step fails. *)
Example run_5_to_8 :
  let run :=
    performIntelligentUpdate Samples.sampleHost (lit "8.pwr") (lit "release")
      (lit "game") (lit "cache") (lit "tools")
      (Samples.worldWith (Some (lit "5.pwr"))) in
  fst run = Ok tt
  /\ version_client (snd run) = Some (lit "8.pwr")
  /\ filter (fun e => bool_decide (isSaved e = true)) (events (snd run))
     = [EvSaved (lit "6.pwr"); EvSaved (lit "7.pwr"); EvSaved (lit "8.pwr")].
Proof. vm_compute. auto. Qed.

Example run_5_to_8_second_step_fails :
  let run :=
    performIntelligentUpdate Samples.secondStepFailsHost (lit "8.pwr")
      (lit "release") (lit "game") (lit "cache") (lit "tools")
      (Samples.worldWith (Some (lit "5.pwr"))) in
  fst run
  = Throw (DeploymentFailed
             (lit "Corrupted archive detected. Please retry download."))
  /\ version_client (snd run) = Some (lit "6.pwr")
  /\ filter (fun e => bool_decide (isSaved e = true)) (events (snd run))
     = [EvSaved (lit "6.pwr")].
Proof. vm_compute. auto. Qed.

(** C1. The events of a run are those of completed steps, each ending
    with the completion of the step's deployment followed (after clean-up
    only) by the save of the step's version, and then a remainder in which
    nothing is saved.  The record holds the version of the last completed
    step, or what it held before the run when there is none.  When the run
    stops on an error other than a failure to save, that is in acquisition
    or deployment, no deployment completed in the remainder: the record
    holds the version of the last successfully deployed step. *)
Theorem record_follows_deployment (h : Host)
  (resolve : option jsstring -> jsstring -> VersionDetails)
  (targetVersion branch gameDir cacheDir toolsDir : jsstring) (w : World) :
  exists persisted evs partial,
    events (snd (performIntelligentUpdateWith h resolve targetVersion branch
                   gameDir cacheDir toolsDir w))
    = events w ++ evs ++ partial
    /\ StepsDone (stepArchive h resolve cacheDir branch) persisted evs
    /\ Forall notSaved partial
    /\ version_client (snd (performIntelligentUpdateWith h resolve targetVersion
                              branch gameDir cacheDir toolsDir w))
       = recordAfter (version_client w) persisted
    /\ match fst (performIntelligentUpdateWith h resolve targetVersion branch
                    gameDir cacheDir toolsDir w) with
       | Ok _ => partial = []
       | Throw e => if isSaveFailure e then True else Forall quiet partial
       end.
Proof.
  destruct (performIntelligentUpdateWith_run h resolve branch gameDir cacheDir
              toolsDir targetVersion w)
    as (persisted & evs & partial & Hev & Hsteps & _ & Hrec & Hns & Hres).
  exists persisted, evs, partial.
  split; [exact Hev|]. split; [exact Hsteps|]. split; [exact Hns|].
  split; [exact Hrec|].
  destruct (fst (performIntelligentUpdateWith h resolve targetVersion branch
                   gameDir cacheDir toolsDir w)).
  - apply Hres.
  - exact Hres.
Qed.

(** C2 (amended). For a non-empty current version whose build number is
    below the target's, both within the exact integer range, the plan is
    the list of "N.pwr" for N from current + 1 to target: it has
    target - current entries, its i-th entry is for build current + 1 + i,
    and for a non-negative current build each entry reads back as its
    build number.  On the release branch the orchestrator completes the
    steps of a prefix of this plan in this order, and of the whole plan when
    it returns. *)
Theorem plan_is_the_range_of_builds (h : Host)
  (resolve : option jsstring -> jsstring -> VersionDetails)
  (gameDir cacheDir toolsDir : jsstring)
  (currentVersion : option jsstring) (targetVersion : jsstring) :
  truthy currentVersion = true ->
  - MAX_SAFE_INTEGER <= extractVersionNumber currentVersion ->
  extractVersionNumber (Some targetVersion) <= MAX_SAFE_INTEGER ->
  extractVersionNumber currentVersion < extractVersionNumber (Some targetVersion) ->
  needsIntermediatePatches currentVersion (Some targetVersion)
  = map pwr (seqZ (extractVersionNumber currentVersion + 1)
               (extractVersionNumber (Some targetVersion)
                - extractVersionNumber currentVersion))
  /\ Z.of_nat (length (needsIntermediatePatches currentVersion (Some targetVersion)))
     = extractVersionNumber (Some targetVersion)
       - extractVersionNumber currentVersion
  /\ (forall i : nat,
        Z.of_nat i < extractVersionNumber (Some targetVersion)
                     - extractVersionNumber currentVersion ->
        needsIntermediatePatches currentVersion (Some targetVersion) !! i
        = Some (pwr (extractVersionNumber currentVersion + 1 + Z.of_nat i)))
  /\ (0 <= extractVersionNumber currentVersion ->
      map (fun v => extractVersionNumber (Some v))
        (needsIntermediatePatches currentVersion (Some targetVersion))
      = seqZ (extractVersionNumber currentVersion + 1)
          (extractVersionNumber (Some targetVersion)
           - extractVersionNumber currentVersion))
  /\ (forall w : World,
        version_client w = currentVersion ->
        exists persisted evs partial,
          events (snd (performIntelligentUpdateWith h resolve targetVersion
                         (lit "release") gameDir cacheDir toolsDir w))
          = events w ++ evs ++ partial
          /\ StepsDone (stepArchive h resolve cacheDir (lit "release"))
               persisted evs
          /\ persisted `prefix_of`
               needsIntermediatePatches currentVersion (Some targetVersion)
          /\ Forall notSaved partial
          /\ match fst (performIntelligentUpdateWith h resolve targetVersion
                          (lit "release") gameDir cacheDir toolsDir w) with
             | Ok _ =>
                 persisted
                 = needsIntermediatePatches currentVersion (Some targetVersion)
                 /\ partial = []
             | Throw _ => True
             end).
Proof.
  intros Htruthy _ _ Hlt.
  pose proof (VersionFacts.needsIntermediatePatches_range currentVersion
                (Some targetVersion) Htruthy) as Hplan.
  set (current := extractVersionNumber currentVersion) in *.
  set (target := extractVersionNumber (Some targetVersion)) in *.
  split; [exact Hplan|].
  split; [rewrite Hplan, length_map, length_seqZ; lia|].
  split.
  { intros i Hi. rewrite Hplan, list_lookup_fmap, lookup_seqZ_lt by exact Hi.
    reflexivity. }
  split.
  { intros Hnn. rewrite Hplan, <- list_fmap_compose.
    rewrite <- (list_fmap_id (seqZ (current + 1) (target - current))) at 2.
    apply Forall_fmap_ext_1, Forall_seqZ. intros n Hn. cbn.
    apply VersionFacts.extractVersionNumber_pwr. lia. }
  intros w Hw.
  destruct (performIntelligentUpdateWith_run h resolve (lit "release") gameDir
              cacheDir toolsDir targetVersion w)
    as (persisted & evs & partial & Hev & Hsteps & Hpre & _ & Hns & Hres).
  assert (Hup : updatePlan (version_client w) targetVersion (lit "release")
                = needsIntermediatePatches currentVersion (Some targetVersion)).
  { unfold updatePlan. rewrite Hw, Htruthy. reflexivity. }
  rewrite Hup in Hpre, Hres.
  exists persisted, evs, partial.
  split; [exact Hev|]. split; [exact Hsteps|]. split; [exact Hpre|].
  split; [exact Hns|].
  destruct (fst (performIntelligentUpdateWith h resolve targetVersion
                   (lit "release") gameDir cacheDir toolsDir w)).
  - exact Hres.
  - exact I.
Qed.

Lemma plan_is_the_range_of_builds_witness :
  needsIntermediatePatches (Some (lit "5.pwr")) (Some (lit "8.pwr"))
  = [lit "6.pwr"; lit "7.pwr"; lit "8.pwr"].
Proof.
  assert (H1 : truthy (Some (lit "5.pwr")) = true) by reflexivity.
  assert (H2 : - MAX_SAFE_INTEGER <= extractVersionNumber (Some (lit "5.pwr")))
    by (vm_compute; discriminate).
  assert (H3 : extractVersionNumber (Some (lit "8.pwr")) <= MAX_SAFE_INTEGER)
    by (vm_compute; discriminate).
  assert (H4 : extractVersionNumber (Some (lit "5.pwr"))
               < extractVersionNumber (Some (lit "8.pwr")))
    by (vm_compute; reflexivity).
  exact (eq_trans
           (proj1 (plan_is_the_range_of_builds Samples.sampleHost
                     (extractVersionDetails Samples.sampleHost)
                     (lit "game") (lit "cache") (lit "tools")
                     (Some (lit "5.pwr")) (lit "8.pwr") H1 H2 H3 H4))
           eq_refl).
Defined.

(** C2 as stated fails for the empty string, which is not null but falsy:
    its build number is 0, below the target's 5, yet the plan is empty
    instead of 1.pwr ... 5.pwr. *)
Lemma empty_current_version_counterexample :
  Some [] <> (None : option jsstring)
  /\ extractVersionNumber (Some []) < extractVersionNumber (Some (lit "5.pwr"))
  /\ needsIntermediatePatches (Some []) (Some (lit "5.pwr")) = []
  /\ Z.of_nat (length (needsIntermediatePatches (Some []) (Some (lit "5.pwr"))))
     <> extractVersionNumber (Some (lit "5.pwr")) - extractVersionNumber (Some []).
Proof.
  split; [discriminate|]. split; [vm_compute; reflexivity|].
  split; [reflexivity|]. vm_compute. discriminate.
Qed.

Lemma differential_iff_eligible_witness :
  let w := Samples.worldWith (Some (lit "5.pwr")) in
  let w1 :=
    snd (applyPatches Samples.sampleHost Samples.diffResolver (lit "release")
           (lit "game") (lit "cache") (lit "tools") [lit "6.pwr"] w) in
  version_client w1 = Some (lit "6.pwr")
  /\ exists fetched deployment,
       events (snd (applyPatch Samples.sampleHost Samples.diffResolver
                      (lit "release") (lit "game") (lit "cache") (lit "tools")
                      (lit "7.pwr") w1))
       = events w1
         ++ EvAcquire (lit "https://game.authbp.xyz/dl/patch/6-7.pwr")
              (lit "cache/release_patch_https://game.authbp.xyz/dl/patch/6-7.pwr")
              (Some (lit "6"))
            :: fetched ++ deployment
       /\ Forall fileEvent fetched
       /\ Forall (deploysOnly
                    (lit "cache/release_patch_https://game.authbp.xyz/dl/patch/6-7.pwr")
                    true) deployment.
Proof.
  intros w w1.
  destruct (differential_iff_eligible Samples.sampleHost Samples.diffResolver
              (lit "release") (lit "game") (lit "cache") (lit "tools")
              (Some (lit "5.pwr")) (lit "8.pwr")
              [lit "6.pwr"] (lit "7.pwr") [lit "8.pwr"] w w1)
    as (Hrec & Hdiff & _).
  - reflexivity.
  - reflexivity.
  - vm_compute; reflexivity.
  - vm_compute; reflexivity.
  - split; [exact Hrec|].
    destruct Hdiff as (fetched & deployment & Hev & Hfiles & Honly & _).
    { vm_compute. repeat split; reflexivity. }
    exists fetched, deployment. split; [exact Hev|].
    split; [exact Hfiles | exact Honly].
Defined.

(** *** Checksums *)

Lemma validateChecksum_falsy (h : Host) filePath expected w :
  truthy expected = false ->
  validateChecksum h filePath expected w = (Ok true, w).
Proof.
  destruct expected as [[|c cs]|]; [reflexivity | discriminate | reflexivity].
Qed.

Lemma validateChecksum_supplied (h : Host) filePath c cs w content :
  files w !! filePath = Some content ->
  validateChecksum h filePath (Some (c :: cs)) w
  = (Ok (str_eqb (sha256_hex h content) (c :: cs)),
     addEvent (EvDigest filePath) w).
Proof.
  intros Hfile.
  unfold validateChecksum, computeFileChecksum, bind, emit, modify, readFile, ret.
  cbn [fst snd addEvent files]. rewrite Hfile. reflexivity.
Qed.

(** The cache check answers [cacheHit]; it makes no host call, and a hit
    leaves the files as they are. *)
Lemma reuseCached_supplied (h : Host) path c cs w :
  fst (reuseCached h path (Some (c :: cs)) w)
  = Ok (cacheHit h w path (c :: cs))
  /\ tick (snd (reuseCached h path (Some (c :: cs)) w)) = tick w
  /\ (cacheHit h w path (c :: cs) = true ->
      files (snd (reuseCached h path (Some (c :: cs)) w)) = files w).
Proof.
  unfold reuseCached, cacheHit, bind, get. cbn [fst snd].
  destruct (files w !! path) as [content|] eqn:Hfile; [|cbn; auto].
  destruct (1024 * 1024 <? fileSize content); [|cbn; auto].
  rewrite (validateChecksum_supplied h path c cs w content Hfile).
  cbn [andb].
  destruct (str_eqb (sha256_hex h content) (c :: cs)); cbn; auto.
  split; [reflexivity|]. split; [reflexivity|]. discriminate.
Qed.

(** A download that delivers [content]: kept when the digest is the
    expected one, deleted and reported corrupted otherwise. *)
Lemma downloadAndValidate_supplied (h : Host) url path c cs allowRetry w content :
  downloadOutcome h w url path allowRetry = Downloaded content ->
  exists w',
    downloadAndValidate h url path (Some (c :: cs)) allowRetry w
    = (if str_eqb (sha256_hex h content) (c :: cs)
       then Ok path else Throw CorruptedDownload, w')
    /\ if str_eqb (sha256_hex h content) (c :: cs)
       then files w' !! path = Some content
       else files w' !! path = None /\ EvUnlink path ∈ events w'.
Proof.
  unfold downloadOutcome. intros Hdl.
  unfold downloadAndValidate.
  erewrite bind_ok by reflexivity.
  erewrite bind_ok by reflexivity.
  cbn [tick addEvent]. rewrite Hdl.
  erewrite bind_ok by reflexivity.
  set (w1 := setFiles _ _).
  assert (Hfile : files w1 !! path = Some content)
    by (subst w1; cbn [setFiles files]; apply lookup_insert_eq).
  erewrite bind_ok by (unfold readFile; rewrite Hfile; reflexivity).
  erewrite bind_ok by (apply validateChecksum_supplied; exact Hfile).
  destruct (str_eqb (sha256_hex h content) (c :: cs)); cbn [negb].
  - eexists. split; [reflexivity | exact Hfile].
  - erewrite bind_ok by reflexivity.
    eexists. split; [reflexivity|]. split.
    + cbn [setFiles files addEvent]. apply lookup_delete_eq.
    + cbn [setFiles events addEvent]. set_solver.
Qed.

Lemma downloadAndValidate_error (h : Host) url path expected allowRetry w message :
  downloadOutcome h w url path allowRetry = DownloadError message ->
  fst (downloadAndValidate h url path expected allowRetry w)
  = Throw (DownloadFailed url path message).
Proof.
  unfold downloadOutcome. intros Hdl. unfold downloadAndValidate.
  erewrite bind_ok by reflexivity.
  erewrite bind_ok by reflexivity.
  cbn [tick addEvent]. rewrite Hdl. reflexivity.
Qed.

(** The three ways an acquisition with a supplied checksum can go once
    the platform is supported. *)
Lemma acquireGameArchive_supplied (h : Host) url path c cs allowRetry w :
  unsupportedPlatform h = false ->
  (cacheHit h w path (c :: cs) = true
   /\ fst (acquireGameArchive h url path (Some (c :: cs)) allowRetry w) = Ok path
   /\ files (snd (acquireGameArchive h url path (Some (c :: cs)) allowRetry w))
      = files w)
  \/ (cacheHit h w path (c :: cs) = false
      /\ exists message,
           downloadOutcome h w url path allowRetry = DownloadError message
           /\ fst (acquireGameArchive h url path (Some (c :: cs)) allowRetry w)
              = Throw (DownloadFailed url path message))
  \/ (cacheHit h w path (c :: cs) = false
      /\ exists content,
           downloadOutcome h w url path allowRetry = Downloaded content
           /\ fst (acquireGameArchive h url path (Some (c :: cs)) allowRetry w)
              = (if str_eqb (sha256_hex h content) (c :: cs)
                 then Ok path else Throw CorruptedDownload)
           /\ if str_eqb (sha256_hex h content) (c :: cs)
              then files (snd (acquireGameArchive h url path (Some (c :: cs))
                                 allowRetry w)) !! path = Some content
              else files (snd (acquireGameArchive h url path (Some (c :: cs))
                                 allowRetry w)) !! path = None
                   /\ EvUnlink path
                        ∈ events (snd (acquireGameArchive h url path
                                         (Some (c :: cs)) allowRetry w))).
Proof.
  intros Hplat. unfold acquireGameArchive.
  erewrite bind_ok by reflexivity. rewrite Hplat.
  set (w0 := addEvent (EvAcquire url path (Some (c :: cs))) w).
  assert (Hhit : cacheHit h w0 path (c :: cs) = cacheHit h w path (c :: cs))
    by reflexivity.
  destruct (reuseCached_supplied h path c cs w0) as (Hres & Htick & Hfiles).
  destruct (reuseCached h path (Some (c :: cs)) w0) as [r w2] eqn:Hcache.
  cbn [fst snd] in Hres, Htick, Hfiles. subst r. rewrite Hhit in *.
  erewrite bind_ok by exact Hcache.
  destruct (cacheHit h w path (c :: cs)) eqn:Hc.
  - left. split; [reflexivity|]. split; [reflexivity|].
    cbn [ret snd]. rewrite Hfiles by reflexivity. reflexivity.
  - right.
    assert (Hdl : downloadOutcome h w2 url path allowRetry
                  = downloadOutcome h w url path allowRetry)
      by (unfold downloadOutcome; rewrite Htick; reflexivity).
    destruct (downloadOutcome h w url path allowRetry) as [content|message]
      eqn:Hout.
    + right. split; [reflexivity|]. exists content. split; [reflexivity|].
      destruct (downloadAndValidate_supplied h url path c cs allowRetry w2
                  content Hdl) as (w' & Hrun & Hw').
      rewrite Hrun. cbn [fst snd]. split; [reflexivity | exact Hw'].
    + left. split; [reflexivity|]. exists message. split; [reflexivity|].
      apply downloadAndValidate_error. exact Hdl.
Qed.

(** C6. With a checksum supplied, an acquisition that returns leaves at
    the target path a file whose digest is the expected one; and when the
    download delivers content whose digest differs, the file is deleted
    and the acquisition throws the corrupted-download error. *)
Theorem mismatching_download_is_rejected (h : Host)
  (url path : jsstring) (c : Z) (cs : jsstring) (allowRetry : bool) (w : World) :
  (forall p,
     fst (acquireGameArchive h url path (Some (c :: cs)) allowRetry w) = Ok p ->
     p = path
     /\ exists content,
          files (snd (acquireGameArchive h url path (Some (c :: cs))
                        allowRetry w)) !! path = Some content
          /\ sha256_hex h content = c :: cs)
  /\ (forall content,
        unsupportedPlatform h = false ->
        cacheHit h w path (c :: cs) = false ->
        downloadOutcome h w url path allowRetry = Downloaded content ->
        sha256_hex h content <> c :: cs ->
        fst (acquireGameArchive h url path (Some (c :: cs)) allowRetry w)
        = Throw CorruptedDownload
        /\ files (snd (acquireGameArchive h url path (Some (c :: cs))
                         allowRetry w)) !! path = None
        /\ EvUnlink path
             ∈ events (snd (acquireGameArchive h url path (Some (c :: cs))
                              allowRetry w))).
Proof.
  split.
  - intros p Hok.
    destruct (unsupportedPlatform h) eqn:Hplat.
    { unfold acquireGameArchive in Hok.
      erewrite bind_ok in Hok by reflexivity.
      rewrite Hplat in Hok. discriminate. }
    destruct (acquireGameArchive_supplied h url path c cs allowRetry w Hplat)
      as [(Hhit & Hres & Hfiles)
         | [(_ & message & _ & Hres) | (_ & content & _ & Hres & Hfile)]].
    + rewrite Hres in Hok. injection Hok as <-. split; [reflexivity|].
      unfold cacheHit in Hhit. rewrite Hfiles.
      destruct (files w !! path) as [content|]; [|discriminate].
      exists content. split; [reflexivity|].
      apply andb_true_iff in Hhit. destruct Hhit as [_ Hd].
      apply bool_decide_eq_true in Hd. exact Hd.
    + rewrite Hres in Hok. discriminate.
    + rewrite Hres in Hok.
      destruct (str_eqb (sha256_hex h content) (c :: cs)) eqn:Hd;
        [|discriminate].
      injection Hok as <-. split; [reflexivity|].
      exists content. split; [exact Hfile|].
      apply bool_decide_eq_true in Hd. exact Hd.
  - intros content Hplat Hmiss Hdl Hbad.
    destruct (acquireGameArchive_supplied h url path c cs allowRetry w Hplat)
      as [(Hhit & _)
         | [(_ & message & Hout & _) | (_ & content' & Hout & Hres & Hfile)]].
    + congruence.
    + congruence.
    + assert (content' = content) by congruence. subst content'.
      assert (Hd : str_eqb (sha256_hex h content) (c :: cs) = false)
        by (apply bool_decide_eq_false; exact Hbad).
      rewrite Hd in Hres, Hfile. split; [exact Hres | exact Hfile].
Qed.

Lemma mismatching_download_is_rejected_witness :
  let w := Samples.worldWith None in
  fst (acquireGameArchive Samples.sampleHost (lit "https://host/7.pwr")
         (lit "cache/release_7.pwr") (Some [55]) true w)
  = Throw CorruptedDownload
  /\ files (snd (acquireGameArchive Samples.sampleHost (lit "https://host/7.pwr")
                   (lit "cache/release_7.pwr") (Some [55]) true w))
       !! lit "cache/release_7.pwr" = None.
Proof.
  intros w.
  destruct (proj2 (mismatching_download_is_rejected Samples.sampleHost
                     (lit "https://host/7.pwr") (lit "cache/release_7.pwr")
                     55 [] true w) [1; 2; 3])
    as (Hres & Hfile & _).
  - reflexivity.
  - reflexivity.
  - reflexivity.
  - vm_compute. discriminate.
  - split; [exact Hres | exact Hfile].
Defined.

(** *** Acquisitions without a checksum *)

Section Unchecked.
Variable h : Host.

Ltac unchecked_walk :=
  along_with (logged_refl unchecked) (logged_trans unchecked);
  try (apply logged_same; reflexivity);
  try (apply logged_event; first [exact I | reflexivity]).

Lemma existsSync_unchecked p : along (logged unchecked) (existsSync p).
Proof. intros w. apply logged_refl. Qed.

Lemma readFile_unchecked p : along (logged unchecked) (readFile p).
Proof. intros w. unfold readFile. destruct (files w !! p); apply logged_refl. Qed.

Lemma acquireGameArchive_unchecked url path allowRetry :
  along (logged unchecked) (acquireGameArchive h url path None allowRetry).
Proof.
  unfold acquireGameArchive, reuseCached, downloadAndValidate, unlinkSync,
    writeFile.
  change (validateChecksum h path None) with (@ret bool true).
  unchecked_walk; apply readFile_unchecked.
Qed.

Lemma deployGameArchive_unchecked archivePath destinationDir toolsDir isDifferential :
  along (logged unchecked)
    (deployGameArchive h archivePath destinationDir toolsDir isDifferential).
Proof.
  unfold deployGameArchive, unlinkSync.
  unchecked_walk; apply existsSync_unchecked.
Qed.

Lemma saveVersionClient_unchecked version :
  along (logged unchecked) (Config.saveVersionClient h version).
Proof.
  intros w. pose proof (saveVersionClient_spec h version w) as H.
  destruct (fst (Config.saveVersionClient h version w)).
  - destruct H as [_ Hev]. exists [EvSaved version].
    split; [exact Hev | constructor; [exact I | constructor]].
  - destruct H as (_ & _ & Hev). apply logged_same. exact Hev.
Qed.

Lemma getInstalledClientVersion_unchecked :
  along (logged unchecked) getInstalledClientVersion.
Proof. intros w. apply logged_refl. Qed.

Lemma fullInstall_unchecked targetVersion branch gameDir cacheDir toolsDir :
  along (logged unchecked)
    (fullInstall h (extractVersionDetails h) targetVersion branch gameDir
       cacheDir toolsDir).
Proof.
  unfold fullInstall.
  apply (along_bind _ (logged_trans unchecked));
    [apply acquireGameArchive_unchecked | intros _].
  apply (along_bind _ (logged_trans unchecked));
    [apply deployGameArchive_unchecked | intros _].
  apply saveVersionClient_unchecked.
Qed.

(** With the resolver of the source no step is differential. *)
Lemma applyPatch_unchecked branch gameDir cacheDir toolsDir patchVersion :
  along (logged unchecked)
    (applyPatch h (extractVersionDetails h) branch gameDir cacheDir toolsDir
       patchVersion).
Proof.
  unfold applyPatch.
  apply (along_bind _ (logged_trans unchecked));
    [apply getInstalledClientVersion_unchecked | intros installed].
  cbn [differentialUrl extractVersionDetails truthy negb].
  rewrite orb_true_r.
  apply (along_bind _ (logged_trans unchecked));
    [|intros _; apply saveVersionClient_unchecked].
  apply (along_bind _ (logged_trans unchecked));
    [apply acquireGameArchive_unchecked | intros _].
  apply deployGameArchive_unchecked.
Qed.

Lemma applyPatches_unchecked branch gameDir cacheDir toolsDir plan :
  along (logged unchecked)
    (applyPatches h (extractVersionDetails h) branch gameDir cacheDir toolsDir
       plan).
Proof.
  induction plan as [|v rest IH]; cbn [applyPatches].
  - apply (along_ret _ (logged_refl unchecked)).
  - apply (along_bind _ (logged_trans unchecked));
      [apply applyPatch_unchecked | intros _; exact IH].
Qed.

Lemma performIntelligentUpdate_unchecked targetVersion branch gameDir cacheDir
  toolsDir :
  along (logged unchecked)
    (performIntelligentUpdate h targetVersion branch gameDir cacheDir toolsDir).
Proof.
  unfold performIntelligentUpdate, performIntelligentUpdateWith.
  apply (along_bind _ (logged_trans unchecked));
    [apply getInstalledClientVersion_unchecked | intros currentVersion].
  destruct (negb (str_eqb branch (lit "release")));
    [apply fullInstall_unchecked|].
  destruct (negb (truthy currentVersion)); [apply fullInstall_unchecked|].
  apply applyPatches_unchecked.
Qed.

(** Without a checksum an acquisition fails only on the platform check or
    in the download itself. *)
Lemma acquireGameArchive_unchecked_result url path allowRetry w :
  match fst (acquireGameArchive h url path None allowRetry w) with
  | Ok p => p = path
  | Throw e =>
      e = UnsupportedPlatform \/ exists cause, e = DownloadFailed url path cause
  end.
Proof.
  unfold acquireGameArchive.
  erewrite bind_ok by reflexivity.
  destruct (unsupportedPlatform h); [cbn; auto|].
  set (w0 := addEvent _ w).
  assert (Hcache : exists b w2, reuseCached h path None w0 = (Ok b, w2)).
  { unfold reuseCached. erewrite bind_ok by reflexivity.
    destruct (files w0 !! path) as [content|]; [|eauto].
    destruct (1024 * 1024 <? fileSize content); [|eauto].
    cbn. eauto. }
  destruct Hcache as (b & w2 & Hcache).
  erewrite bind_ok by exact Hcache.
  destruct b; [reflexivity|].
  destruct (downloadOutcome h w2 url path allowRetry) as [content|message]
    eqn:Hout.
  - unfold downloadOutcome in Hout. unfold downloadAndValidate.
    erewrite bind_ok by reflexivity.
    erewrite bind_ok by reflexivity.
    cbn [tick addEvent]. rewrite Hout.
    erewrite bind_ok by reflexivity.
    set (w3 := setFiles _ _).
    assert (Hfile : files w3 !! path = Some content)
      by (subst w3; cbn [setFiles files]; apply lookup_insert_eq).
    erewrite bind_ok by (unfold readFile; rewrite Hfile; reflexivity).
    reflexivity.
  - rewrite (downloadAndValidate_error h url path None allowRetry w2 message Hout).
    right. eauto.
Qed.

End Unchecked.

(** C10. A null or empty expected checksum makes [validateChecksum]
    answer true at once, leaving the world untouched; in every run of
    [performIntelligentUpdate] each acquisition passes no checksum and no
    digest is computed; and an acquisition without a checksum returns the
    target path whatever was downloaded, failing only on the platform check
    or when the download itself fails. *)
Theorem full_archives_skip_validation (h : Host) :
  (forall (filePath : jsstring) (expectedChecksum : option jsstring) (w : World),
     truthy expectedChecksum = false ->
     validateChecksum h filePath expectedChecksum w = (Ok true, w))
  /\ (forall (targetVersion branch gameDir cacheDir toolsDir : jsstring)
        (w : World),
        logged unchecked w
          (snd (performIntelligentUpdate h targetVersion branch gameDir
                  cacheDir toolsDir w)))
  /\ (forall (url path : jsstring) (allowRetry : bool) (w : World),
        match fst (acquireGameArchive h url path None allowRetry w) with
        | Ok p => p = path
        | Throw e =>
            e = UnsupportedPlatform
            \/ exists cause, e = DownloadFailed url path cause
        end).
Proof.
  split; [intros; apply validateChecksum_falsy; assumption|].
  split; [intros; apply performIntelligentUpdate_unchecked|].
  intros. apply acquireGameArchive_unchecked_result.
Qed.

Lemma full_archives_skip_validation_witness :
  truthy (Some []) = false
  /\ validateChecksum Samples.sampleHost (lit "cache/release_7.pwr") (Some [])
       (Samples.worldWith None)
     = (Ok true, Samples.worldWith None).
Proof.
  split; [reflexivity|].
  apply (proj1 (full_archives_skip_validation Samples.sampleHost)).
  reflexivity.
Defined.

End UpdateFacts.

(** ** Fallbacks *)

Module FallbackFacts.

Import ClientPatcher.

Lemma infosFallback_total (h : Host) branch w :
  exists v w', infosFallback h branch w = (Ok v, w').
Proof.
  unfold infosFallback, catch, bind, ask. cbn [fst snd].
  destruct (axiosGetInfos h (tick w)) as [data|message]; [|cbn; eauto].
  cbv zeta.
  destruct (match data with
            | Some infos =>
                match infos (platformKey h) with
                | Some platformData => platformData branch
                | None => None
                end
            | None => None
            end) as [b|]; [|cbn; eauto].
  destruct (newestTruthy b); cbn; eauto.
Qed.

Lemma getLatestClientVersion_total (h : Host) branch w :
  exists v, fst (getLatestClientVersion h branch w) = Ok v.
Proof.
  unfold getLatestClientVersion, catch.
  destruct (getLatestVersionFromNewAPI h branch w) as [[v|e] w1].
  - exists v. reflexivity.
  - destruct (infosFallback_total h branch w1) as (v & w' & Hv).
    exists v. rewrite Hv. reflexivity.
Qed.

(** The [catch] block of [getLatestClientVersion] makes one request and
    answers with the newest build of the platform and branch when the
    response names one, and with "9.pwr" otherwise. *)
Lemma infosFallback_answers (h : Host) branch w :
  tick (snd (infosFallback h branch w)) = S (tick w)
  /\ (forall message,
        axiosGetInfos h (tick w) = AxiosError message ->
        fst (infosFallback h branch w) = Ok (lit "9.pwr"))
  /\ (forall data,
        axiosGetInfos h (tick w) = AxiosResponse data ->
        (forall infos platformData b n,
           data = Some infos -> infos (platformKey h) = Some platformData ->
           platformData branch = Some b -> newest b = Some n -> n <> 0 ->
           fst (infosFallback h branch w) = Ok (pwr n))
        /\ ((forall infos platformData b n,
               data = Some infos -> infos (platformKey h) = Some platformData ->
               platformData branch = Some b -> newest b = Some n -> n = 0) ->
            fst (infosFallback h branch w) = Ok (lit "9.pwr"))).
Proof.
  unfold infosFallback, catch, bind, ask. cbn [fst snd].
  destruct (axiosGetInfos h (tick w)) as [data|message] eqn:Hget.
  2:{ cbn. split; [reflexivity|]. split; [reflexivity|]. discriminate. }
  cbv zeta.
  assert (Hleft : forall P : Prop, (forall message : jsstring,
            AxiosResponse data = AxiosError message -> P))
    by (intros P message Hm; discriminate).
  destruct data as [infos|].
  2:{ cbn. split; [reflexivity|]. split; [apply Hleft|].
      intros data' [= <-]. split; [intros; discriminate | reflexivity]. }
  destruct (infos (platformKey h)) as [platformData|] eqn:Hplat.
  2:{ cbn. split; [reflexivity|]. split; [apply Hleft|].
      intros data' [= <-].
      split; [intros ? ? ? ? [= <-]; congruence | reflexivity]. }
  destruct (platformData branch) as [b|] eqn:Hbranch.
  2:{ cbn. split; [reflexivity|]. split; [apply Hleft|].
      intros data' [= <-]. split; [|reflexivity].
      intros ? ? ? ? [= <-] Hp. rewrite Hplat in Hp. injection Hp as <-.
      congruence. }
  unfold newestTruthy, newestPwr.
  destruct (newest b) as [n|] eqn:Hnewest.
  2:{ cbn. split; [reflexivity|]. split; [apply Hleft|].
      intros data' [= <-]. split; [|reflexivity].
      intros ? ? ? ? [= <-] Hp Hb. rewrite Hplat in Hp. injection Hp as <-.
      rewrite Hbranch in Hb. injection Hb as <-. congruence. }
  assert (Hsame : forall infos' platformData' b' n',
            Some infos = Some infos' ->
            infos' (platformKey h) = Some platformData' ->
            platformData' branch = Some b' -> newest b' = Some n' -> n' = n).
  { intros ? ? ? ? [= <-] Hp Hb Hn.
    rewrite Hplat in Hp. injection Hp as <-.
    rewrite Hbranch in Hb. injection Hb as <-.
    rewrite Hnewest in Hn. injection Hn as <-. reflexivity. }
  destruct (Z.eqb_spec n 0) as [->|Hn]; cbn.
  - split; [reflexivity|]. split; [apply Hleft|].
    intros data' [= <-]. split; [|reflexivity].
    intros infos' pd' b' n' Hi Hp Hb Hn' Hnz.
    rewrite (Hsame _ _ _ _ Hi Hp Hb Hn') in Hnz. congruence.
  - split; [reflexivity|]. split; [apply Hleft|].
    intros data' [= <-]. split.
    + intros infos' pd' b' n' Hi Hp Hb Hn' _.
      rewrite (Hsame _ _ _ _ Hi Hp Hb Hn'). reflexivity.
    + intros Hzero. exfalso. apply Hn.
      apply (Hzero infos platformData b n); auto.
Qed.

(** C5 (amended). [getLatestClientVersion] never throws. When the
    version-info fetch returns, it returns the same answer. When the fetch
    fails, whatever the failure, it asks [/infos] once more, directly: if
    that request fails, or answers without a usable newest build for the
    platform and branch (no data, no entry, no number, or zero), it
    returns the built-in "9.pwr"; otherwise it returns the name of that
    newest build. And [getTargetDomain] returns the built-in domain when
    the environment variable is unset and the configuration module
    throws. *)
Theorem failures_fall_back_to_defaults :
  (forall (h : Host) (branch : jsstring) (w : World),
     exists v, fst (getLatestClientVersion h branch w) = Ok v)
  /\ (forall (h : Host) (branch : jsstring) (w : World) v w1,
        fetchNewAPI h branch w = (Ok v, w1) ->
        getLatestClientVersion h branch w = (Ok v, w1))
  /\ (forall (h : Host) (branch : jsstring) (w : World) e w1,
        fetchNewAPI h branch w = (Throw e, w1) ->
        tick (snd (getLatestClientVersion h branch w)) = S (tick w1)
        /\ (forall message,
              axiosGetInfos h (tick w1) = AxiosError message ->
              fst (getLatestClientVersion h branch w) = Ok (lit "9.pwr"))
        /\ (forall data,
              axiosGetInfos h (tick w1) = AxiosResponse data ->
              (forall infos platformData b n,
                 data = Some infos ->
                 infos (platformKey h) = Some platformData ->
                 platformData branch = Some b ->
                 newest b = Some n -> n <> 0 ->
                 fst (getLatestClientVersion h branch w) = Ok (pwr n))
              /\ ((forall infos platformData b n,
                     data = Some infos ->
                     infos (platformKey h) = Some platformData ->
                     platformData branch = Some b ->
                     newest b = Some n -> n = 0) ->
                  fst (getLatestClientVersion h branch w)
                  = Ok (lit "9.pwr"))))
  /\ (forall host : PatcherHost,
        truthy (HYTALE_AUTH_DOMAIN host) = false ->
        getAuthDomain host = Throw ConfigUnavailable ->
        getTargetDomain host = lit "auth.sanasol.ws").
Proof.
  split; [exact getLatestClientVersion_total|].
  split; [|split].
  - intros h branch w v w1 Hfetch.
    unfold getLatestClientVersion, getLatestVersionFromNewAPI, catch.
    rewrite Hfetch. reflexivity.
  - intros h branch w e w1 Hfetch.
    assert (Hrun : getLatestClientVersion h branch w = infosFallback h branch w1).
    { unfold getLatestClientVersion, getLatestVersionFromNewAPI, catch.
      rewrite Hfetch. reflexivity. }
    rewrite Hrun. apply infosFallback_answers.
  - intros host Henv Hthrow. unfold getTargetDomain. rewrite Henv, Hthrow.
    reflexivity.
Qed.

Lemma failures_fall_back_to_defaults_witness :
  fst (getLatestClientVersion Samples.sampleHost (lit "release")
         (Samples.worldWith None)) = Ok (lit "9.pwr")
  /\ getTargetDomain Samples.failingConfigHost = lit "auth.sanasol.ws".
Proof.
  destruct failures_fall_back_to_defaults as (_ & _ & Hretry & Hdomain).
  split.
  - destruct (Hretry Samples.sampleHost (lit "release")
                (Samples.worldWith None) (RequestFailed (lit "ENOTFOUND"))
                (snd (fetchNewAPI Samples.sampleHost (lit "release")
                        (Samples.worldWith None))))
      as (_ & Hfails & _); [reflexivity|].
    apply (Hfails (lit "ENOTFOUND")). reflexivity.
  - apply Hdomain; reflexivity.
Defined.

(** C5 as stated fails: with the endpoint unreachable the fetch throws,
    and so does the retry, yet the call returns "9.pwr"; and with the
    configuration module throwing, the target domain is the default. *)
Lemma silent_fallback_counterexample :
  fst (fetchNewAPI Samples.sampleHost (lit "release") (Samples.worldWith None))
  = Throw (RequestFailed (lit "ENOTFOUND"))
  /\ fst (getLatestClientVersion Samples.sampleHost (lit "release")
            (Samples.worldWith None))
     = Ok (lit "9.pwr")
  /\ getAuthDomain Samples.failingConfigHost = Throw ConfigUnavailable
  /\ getTargetDomain Samples.failingConfigHost = DEFAULT_NEW_DOMAIN.
Proof. repeat split; reflexivity. Qed.

End FallbackFacts.

(** ** Searching and replacing in buffers *)

Module SearchFacts.

Import ClientPatcher PatcherFacts.

Lemma isPrefix_prefix_of (p : list Z) : forall s : list Z,
  isPrefix p s = true <-> p `prefix_of` s.
Proof.
  induction p as [|x p IH]; intros s; simpl.
  - split; [intros _; apply prefix_nil | reflexivity].
  - destruct s as [|y s].
    + split; [discriminate | intros H; apply prefix_nil_inv in H; discriminate].
    + rewrite andb_true_iff, Z.eqb_eq, IH. split.
      * intros [-> H]. apply prefix_cons. exact H.
      * intros H. split; [eapply prefix_cons_inv_1 | eapply prefix_cons_inv_2];
          exact H.
Qed.

Lemma filter_none {A} (P : A -> Prop) `{forall x, Decision (P x)} (l : list A) :
  Forall (fun x => ~ P x) l -> filter P l = [].
Proof.
  induction 1 as [|x l Hx _ IH]; [reflexivity|].
  rewrite filter_cons_False by exact Hx. exact IH.
Qed.

(** [indexOf] answers the first position at or after [pos] where the
    pattern lies, and [None] when there is none. *)
Lemma indexOfFrom_first (pattern : list Z) : forall (rest : list Z) pos,
  pattern <> [] \/ rest <> [] ->
  match indexOfFrom rest pattern pos with
  | Some index =>
      exists j, index = (pos + j)%nat /\ (j < length rest)%nat
                /\ pattern `prefix_of` drop j rest
                /\ forall k, (k < j)%nat -> ~ pattern `prefix_of` drop k rest
  | None => forall k, (k < length rest)%nat -> ~ pattern `prefix_of` drop k rest
  end.
Proof.
  induction rest as [|x rest IH]; intros pos Hne.
  - destruct Hne as [Hne|Hne]; [|congruence].
    destruct pattern; [congruence|]. simpl. intros k Hk. lia.
  - cbn [indexOfFrom].
    destruct (isPrefix pattern (x :: rest)) eqn:Hp.
    + exists 0%nat. rewrite Nat.add_0_r. cbn [length drop].
      split; [reflexivity|]. split; [lia|].
      split; [apply isPrefix_prefix_of; exact Hp | intros k Hk; lia].
    + assert (Hpat : pattern <> []) by (intros ->; discriminate).
      assert (Hno : ~ pattern `prefix_of` x :: rest).
      { rewrite <- isPrefix_prefix_of, Hp. discriminate. }
      specialize (IH (S pos) (or_introl Hpat)).
      destruct (indexOfFrom rest pattern (S pos)) as [index|].
      * destruct IH as (j & -> & Hj & Hat & Hbefore).
        exists (S j). cbn [length drop].
        split; [lia|]. split; [lia|]. split; [exact Hat|].
        intros [|k] Hk; [exact Hno | apply Hbefore; lia].
      * intros [|k] Hk; [exact Hno | cbn [length] in Hk; apply IH; lia].
Qed.

(** The loop of [findAllOccurrences] from [pos], with enough fuel. *)
Lemma findFrom_filter (buffer pattern : list Z) : forall fuel pos positions,
  (length buffer <= fuel + pos)%nat ->
  findFrom fuel buffer pattern pos positions
  = positions
    ++ filter (fun i => pattern `prefix_of` drop i buffer)
         (seq pos (length buffer - pos)).
Proof.
  induction fuel as [|fuel IH]; intros pos positions Hfuel.
  - replace (length buffer - pos)%nat with 0%nat by lia.
    simpl. rewrite app_nil_r. reflexivity.
  - cbn [findFrom].
    destruct (pos <? length buffer)%nat eqn:Hpos.
    + apply Nat.ltb_lt in Hpos.
      unfold indexOf.
      pose proof (indexOfFrom_first pattern (drop pos buffer) pos) as Hfirst.
      assert (Hrest : pattern <> [] \/ drop pos buffer <> []).
      { right. intros Hnil. apply (f_equal length) in Hnil.
        rewrite length_drop in Hnil. simpl in Hnil. lia. }
      specialize (Hfirst Hrest). rewrite length_drop in Hfirst.
      destruct (indexOfFrom (drop pos buffer) pattern pos) as [index|].
      * destruct Hfirst as (j & -> & Hj & Hat & Hbefore).
        rewrite IH by lia. rewrite <- app_assoc. f_equal.
        replace (length buffer - pos)%nat
          with (j + S (length buffer - (pos + j + 1)))%nat by lia.
        rewrite seq_app, filter_app. cbn [seq].
        rewrite (filter_none _ (seq pos j)).
        2:{ apply Forall_forall. intros i Hi. apply elem_of_seq in Hi.
            replace i with (pos + (i - pos))%nat by lia.
            rewrite <- drop_drop. apply Hbefore. lia. }
        rewrite filter_cons_True by (rewrite <- drop_drop; exact Hat).
        cbn [app]. f_equal. f_equal. f_equal. lia.
      * rewrite filter_none; [rewrite app_nil_r; reflexivity|].
        apply Forall_forall. intros i Hi. apply elem_of_seq in Hi.
        replace i with (pos + (i - pos))%nat by lia.
        rewrite <- drop_drop. apply Hfirst. lia.
    + apply Nat.ltb_ge in Hpos.
      replace (length buffer - pos)%nat with 0%nat by lia.
      simpl. rewrite app_nil_r. reflexivity.
Qed.

Lemma findAllOccurrences_filter (buffer pattern : list Z) :
  findAllOccurrences buffer pattern
  = filter (fun i => pattern `prefix_of` drop i buffer) (seq 0 (length buffer)).
Proof.
  unfold findAllOccurrences. rewrite findFrom_filter by lia.
  rewrite Nat.sub_0_r. reflexivity.
Qed.

Lemma sorted_filter_seq (P : nat -> Prop) `{forall i, Decision (P i)} n :
  forall start, StronglySorted lt (filter P (seq start n)).
Proof.
  induction n as [|n IH]; intros start; cbn [seq].
  - constructor.
  - assert (Hgt : Forall (lt start) (filter P (seq (S start) n))).
    { apply Forall_forall. intros i Hi.
      apply list_elem_of_filter in Hi as [_ Hi]. apply elem_of_seq in Hi. lia. }
    destruct (decide (P start)) as [Hp|Hp].
    + rewrite filter_cons_True by exact Hp. constructor; [apply IH | exact Hgt].
    + rewrite filter_cons_False by exact Hp. apply IH.
Qed.

(** X1. [findAllOccurrences(buffer, pattern)] lists, in ascending order
    and each once, exactly the positions of the buffer at which the
    pattern lies, overlapping occurrences included. *)
Theorem findAllOccurrences_all (buffer pattern : list Z) :
  findAllOccurrences buffer pattern
  = filter (fun i => pattern `prefix_of` drop i buffer) (seq 0 (length buffer))
  /\ StronglySorted lt (findAllOccurrences buffer pattern)
  /\ forall i,
       i ∈ findAllOccurrences buffer pattern
       <-> (i < length buffer)%nat /\ pattern `prefix_of` drop i buffer.
Proof.
  split; [apply findAllOccurrences_filter|].
  rewrite findAllOccurrences_filter.
  split; [apply sorted_filter_seq|].
  intros i. rewrite list_elem_of_filter, elem_of_seq. split.
  - intros [Hat Hi]. split; [lia | exact Hat].
  - intros [Hi Hat]. split; [exact Hat | lia].
Qed.

Lemma copy_lookup_outside (source : list Z) : forall (target : list Z) start j,
  ~ (start <= j < start + length source)%nat ->
  copy source target start !! j = target !! j.
Proof.
  induction source as [|b rest IH]; intros target start j Hout; cbn [copy].
  - reflexivity.
  - cbn [length] in Hout. rewrite IH by lia.
    apply list_lookup_insert_ne. lia.
Qed.

Lemma copy_lookup_inside (source : list Z) : forall (target : list Z) start j,
  (start <= j < start + length source)%nat ->
  (j < length target)%nat ->
  copy source target start !! j = source !! (j - start)%nat.
Proof.
  induction source as [|b rest IH]; intros target start j Hin Hj; cbn [copy].
  - cbn [length] in Hin. lia.
  - cbn [length] in Hin. destruct (decide (j = start)) as [->|Hne].
    + rewrite copy_lookup_outside by lia.
      rewrite Nat.sub_diag. cbn. apply list_lookup_insert_eq. exact Hj.
    + rewrite IH by (rewrite ?length_insert; lia).
      replace (j - start)%nat with (S (j - S start)) by lia. reflexivity.
Qed.

(** The replacement loop of [replaceBytes], over any list of positions. *)
Section Writes.
Variables (buffer newBytes : list Z).

Lemma writes_snoc positions p :
  fold_left (fun '(result, count) pos => (copy newBytes result pos, count + 1))
    (positions ++ [p]) (buffer, 0)
  = (copy newBytes
       (fst (fold_left
               (fun '(result, count) pos => (copy newBytes result pos, count + 1))
               positions (buffer, 0))) p,
     snd (fold_left
            (fun '(result, count) pos => (copy newBytes result pos, count + 1))
            positions (buffer, 0)) + 1).
Proof.
  rewrite fold_left_app. cbn [fold_left].
  destruct (fold_left _ positions (buffer, 0)). reflexivity.
Qed.

Lemma writes_count positions :
  snd (fold_left (fun '(result, count) pos => (copy newBytes result pos, count + 1))
         positions (buffer, 0))
  = Z.of_nat (length positions).
Proof.
  induction positions as [|p positions IH] using rev_ind; [reflexivity|].
  rewrite writes_snoc, length_app. cbn [snd length]. lia.
Qed.

Lemma writes_length positions :
  length (fst (fold_left
                 (fun '(result, count) pos => (copy newBytes result pos, count + 1))
                 positions (buffer, 0)))
  = length buffer.
Proof.
  induction positions as [|p positions IH] using rev_ind; [reflexivity|].
  rewrite writes_snoc. cbn [fst]. rewrite length_copy. exact IH.
Qed.

Lemma writes_outside positions j :
  (forall p, p ∈ positions -> ~ (p <= j < p + length newBytes)%nat) ->
  fst (fold_left (fun '(result, count) pos => (copy newBytes result pos, count + 1))
         positions (buffer, 0)) !! j
  = buffer !! j.
Proof.
  induction positions as [|p positions IH] using rev_ind; intros Hout.
  - reflexivity.
  - rewrite writes_snoc. cbn [fst].
    rewrite copy_lookup_outside
      by (apply Hout; apply elem_of_app; right; apply list_elem_of_singleton;
          reflexivity).
    apply IH. intros q Hq. apply Hout. apply elem_of_app. left. exact Hq.
Qed.

Lemma writes_inside positions p j :
  StronglySorted lt positions ->
  p ∈ positions ->
  (p <= j < p + length newBytes)%nat ->
  (j < length buffer)%nat ->
  (forall q, q ∈ positions -> (p < q)%nat ->
             ~ (q <= j < q + length newBytes)%nat) ->
  fst (fold_left (fun '(result, count) pos => (copy newBytes result pos, count + 1))
         positions (buffer, 0)) !! j
  = newBytes !! (j - p)%nat.
Proof.
  induction positions as [|q positions IH] using rev_ind;
    intros Hsorted Hp Hwin Hj Hlater.
  - apply elem_of_nil in Hp. contradiction.
  - rewrite writes_snoc. cbn [fst].
    apply StronglySorted_app in Hsorted as (Hlt & Hsorted & _).
    assert (Hq : q ∈ positions ++ [q])
      by (apply elem_of_app; right; apply list_elem_of_singleton; reflexivity).
    destruct (decide (p = q)) as [->|Hne].
    + apply copy_lookup_inside; [exact Hwin | rewrite writes_length; exact Hj].
    + assert (Hp' : p ∈ positions).
      { apply elem_of_app in Hp as [Hp|Hp]; [exact Hp|].
        apply list_elem_of_singleton in Hp. congruence. }
      assert (Hpq : (p < q)%nat)
        by (apply Hlt; [exact Hp' | apply list_elem_of_singleton; reflexivity]).
      rewrite copy_lookup_outside by (apply Hlater; [exact Hq | exact Hpq]).
      apply IH; [exact Hsorted | exact Hp' | exact Hwin | exact Hj |].
      intros r Hr. apply Hlater. apply elem_of_app. left. exact Hr.
Qed.

End Writes.

(** X2. When the new bytes are not longer than the old ones,
    [replaceBytes] counts every occurrence of the old bytes, leaves every
    byte outside the rewritten windows as it was, and leaves the new bytes
    at each occurrence that no later occurrence overlaps. *)
Theorem replaceBytes_writes (buffer oldBytes newBytes : list Z) :
  (length newBytes <= length oldBytes)%nat ->
  snd (replaceBytes buffer oldBytes newBytes)
  = Z.of_nat (length (findAllOccurrences buffer oldBytes))
  /\ (forall j,
        (forall p, p ∈ findAllOccurrences buffer oldBytes ->
                   ~ (p <= j < p + length newBytes)%nat) ->
        fst (replaceBytes buffer oldBytes newBytes) !! j = buffer !! j)
  /\ (forall p,
        p ∈ findAllOccurrences buffer oldBytes ->
        (forall q, q ∈ findAllOccurrences buffer oldBytes ->
                   (p < q)%nat -> (p + length newBytes <= q)%nat) ->
        take (length newBytes)
          (drop p (fst (replaceBytes buffer oldBytes newBytes)))
        = newBytes).
Proof.
  intros Hfit. unfold replaceBytes.
  destruct (length oldBytes <? length newBytes)%nat eqn:Hlen;
    [apply Nat.ltb_lt in Hlen; lia|].
  split; [apply writes_count|]. split; [intros j; apply writes_outside|].
  intros p Hp Hapart.
  assert (Hsorted : StronglySorted lt (findAllOccurrences buffer oldBytes)).
  { rewrite findAllOccurrences_filter. apply sorted_filter_seq. }
  assert (Hroom : (p + length oldBytes <= length buffer)%nat).
  { rewrite findAllOccurrences_filter in Hp.
    apply list_elem_of_filter in Hp as [Hat Hin]. apply elem_of_seq in Hin.
    apply prefix_length in Hat. rewrite length_drop in Hat. lia. }
  apply list_eq. intros i.
  destruct (decide (i < length newBytes)%nat) as [Hi|Hi].
  - rewrite lookup_take_lt by exact Hi. rewrite lookup_drop.
    rewrite (writes_inside buffer newBytes _ p); try assumption; try lia.
    + f_equal. lia.
    + intros q Hq Hpq. specialize (Hapart q Hq Hpq). lia.
  - rewrite lookup_take_ge by lia. symmetry. apply lookup_ge_None. lia.
Qed.

Lemma replaceBytes_writes_witness :
  (length [7; 8] <= length [1; 2; 3])%nat
  /\ snd (replaceBytes [0; 1; 2; 3; 0; 1; 2; 3] [1; 2; 3] [7; 8]) = 2
  /\ fst (replaceBytes [0; 1; 2; 3; 0; 1; 2; 3] [1; 2; 3] [7; 8]) !! 3%nat
     = Some 3.
Proof.
  assert (H : (length [7; 8] <= length [1; 2; 3])%nat) by (simpl; lia).
  split; [exact H|]. split.
  - exact (proj1 (replaceBytes_writes [0; 1; 2; 3; 0; 1; 2; 3] [1; 2; 3] [7; 8] H)).
  - apply (proj1 (proj2 (replaceBytes_writes [0; 1; 2; 3; 0; 1; 2; 3] [1; 2; 3]
                           [7; 8] H)) 3%nat).
    intros p Hp.
    assert (Hall : findAllOccurrences [0; 1; 2; 3; 0; 1; 2; 3] [1; 2; 3]
                   = [1; 5]%nat) by reflexivity.
    rewrite Hall in Hp. cbn [length].
    apply elem_of_cons in Hp as [->|Hp]; [lia|].
    apply elem_of_cons in Hp as [->|Hp]; [lia|].
    apply elem_of_nil in Hp. contradiction.
Defined.

Lemma fillUtf16LE_spec (chars : jsstring) : forall i (front hole back : list Z),
  length front = (i * 2)%nat ->
  length hole = (2 * length chars)%nat ->
  fillUtf16LE chars i (front ++ hole ++ back)
  = front ++ flat_map (fun c => [c mod 256; (c / 256) mod 256]) chars ++ back.
Proof.
  induction chars as [|c rest IH]; intros i front hole back Hfront Hhole.
  - destruct hole; [|discriminate]. reflexivity.
  - destruct hole as [|x [|y hole]]; try (cbn in Hhole; lia).
    cbn [fillUtf16LE flat_map]. unfold writeUInt16LE.
    rewrite <- Hfront. cbn [app].
    rewrite store_middle.
    replace (front ++ c mod 256 :: y :: hole ++ back)
      with ((front ++ [c mod 256]) ++ y :: hole ++ back)
      by (rewrite <- app_assoc; reflexivity).
    replace (S (length front)) with (length (front ++ [c mod 256]))
      by (rewrite length_app; simpl; lia).
    rewrite store_middle.
    replace ((front ++ [c mod 256]) ++ (c / 256) mod 256 :: hole ++ back)
      with ((front ++ [c mod 256; (c / 256) mod 256]) ++ hole ++ back)
      by (rewrite <- !app_assoc; reflexivity).
    rewrite IH.
    + rewrite <- !app_assoc. reflexivity.
    + rewrite length_app. simpl. lia.
    + cbn in Hhole. lia.
Qed.

(** X3. [stringToUtf16LE(str)] is the code units of the string in order,
    each as its low byte followed by its high byte; its length is twice
    that of the string. *)
Theorem stringToUtf16LE_pairs (s : jsstring) :
  stringToUtf16LE s = flat_map (fun c => [c mod 256; (c / 256) mod 256]) s
  /\ length (stringToUtf16LE s) = (2 * length s)%nat.
Proof.
  assert (Heq : stringToUtf16LE s
                = flat_map (fun c => [c mod 256; (c / 256) mod 256]) s).
  { unfold stringToUtf16LE, Buffer_alloc, strLength.
    pose proof (fillUtf16LE_spec s 0 []
                  (repeat 0 (Z.to_nat (Z.of_nat (length s) * 2))) []) as H.
    rewrite !app_nil_r in H. cbn [app] in H. apply H; [reflexivity|].
    rewrite repeat_length. lia. }
  split; [exact Heq|]. rewrite Heq. clear Heq.
  induction s as [|c s IH]; [reflexivity|].
  cbn [flat_map length app]. rewrite IH. lia.
Qed.

Lemma length_stringToLengthPrefixed (s : jsstring) :
  s <> [] -> length (stringToLengthPrefixed s) = (2 * length s + 3)%nat.
Proof.
  intros Hs. rewrite stringToLengthPrefixed_eq by exact Hs.
  rewrite length_app, length_interleaved.
  - rewrite length_map. cbn [length]. destruct s; [congruence|].
    cbn [length]. lia.
  - destruct s; [congruence | discriminate].
Qed.

Lemma getNewDomain_length (host : PatcherHost) :
  (4 <= length (getNewDomain host) <= 16)%nat.
Proof.
  unfold getNewDomain, strLength, MIN_DOMAIN_LENGTH, MAX_DOMAIN_LENGTH.
  destruct (Z.ltb_spec (Z.of_nat (length (getTargetDomain host))) 4);
    [vm_compute; lia|].
  destruct (Z.ltb_spec 16 (Z.of_nat (length (getTargetDomain host))));
    [vm_compute; lia|].
  lia.
Qed.

(** Replaces the length of a string literal by its value. *)
Ltac literal_lengths :=
  repeat match goal with
         | |- context [length (lit ?s)] =>
             let n := eval vm_compute in (length (lit s)) in
             change (length (lit s)) with n
         end.

(** X4. The domain [getNewDomain] returns has 4 to 16 characters, the
    prefix and the main domain of its strategy join to it, and every
    replacement [applyDomainPatches] makes for it (the Sentry address, the
    main domain, each subdomain prefix) is at most as long as what it
    replaces, so that [replaceBytes] refuses none of them. *)
Theorem configured_domain_fits (host : PatcherHost) :
  let domain := getNewDomain host in
  let strategy := getDomainStrategy domain in
  (4 <= length domain <= 16)%nat
  /\ subdomainPrefix strategy ++ mainDomain strategy = domain
  /\ (length (stringToLengthPrefixed (mainDomain strategy))
      <= length (stringToLengthPrefixed ORIGINAL_DOMAIN))%nat
  /\ Forall (fun sub =>
               (length (stringToLengthPrefixed
                          (lit "https://" ++ subdomainPrefix strategy))
                <= length (stringToLengthPrefixed sub))%nat) subdomains
  /\ (length (stringToLengthPrefixed
                (lit "https://" ++ lit "t@" ++ domain ++ lit "/2"))
      <= length (stringToLengthPrefixed oldSentry))%nat.
Proof.
  intros domain strategy.
  pose proof (getNewDomain_length host) as Hlen. fold domain in Hlen.
  assert (Hparts : subdomainPrefix strategy ++ mainDomain strategy = domain
                   /\ (1 <= length (mainDomain strategy) <= 10)%nat
                   /\ (length (subdomainPrefix strategy) <= 6)%nat).
  { unfold strategy, getDomainStrategy, strLength.
    destruct (Z.leb_spec (Z.of_nat (length domain)) 10); cbn.
    - repeat split; lia.
    - rewrite take_drop, length_drop, length_take. repeat split; lia. }
  destruct Hparts as (Hjoin & Hmain & Hprefix).
  split; [exact Hlen|]. split; [exact Hjoin|].
  assert (Hne : forall a b : jsstring, a <> [] -> a ++ b <> []).
  { intros [|x a] b Ha; [congruence | discriminate]. }
  split.
  { rewrite length_stringToLengthPrefixed
      by (intros E; rewrite E in Hmain; cbn in Hmain; lia).
    rewrite length_stringToLengthPrefixed by discriminate.
    change (length ORIGINAL_DOMAIN) with 10%nat. lia. }
  split.
  { assert (Hp : (length (stringToLengthPrefixed
                            (lit "https://" ++ subdomainPrefix strategy))
                  <= 31)%nat).
    { rewrite length_stringToLengthPrefixed by (apply Hne; discriminate).
      rewrite length_app. literal_lengths. lia. }
    unfold subdomains.
    repeat (constructor;
            [rewrite (length_stringToLengthPrefixed (lit _)) by discriminate;
             literal_lengths; lia|]).
    constructor. }
  rewrite length_stringToLengthPrefixed by (apply Hne; discriminate).
  rewrite length_stringToLengthPrefixed by discriminate.
  rewrite !length_app. unfold oldSentry. literal_lengths. lia.
Qed.

End SearchFacts.

(** ** Patching twice *)

Module IdempotenceFacts.

Import ClientPatcher PatcherFacts SearchFacts Regions.

Lemma prefix_of_lookups (pattern : list Z) : forall l : list Z,
  pattern `prefix_of` l
  <-> forall i b, pattern !! i = Some b -> l !! i = Some b.
Proof.
  induction pattern as [|x pattern IH]; intros l.
  - split; [intros _ i b Hi; discriminate | intros _; apply prefix_nil].
  - split.
    + intros H i b Hi. eapply prefix_lookup_Some; eassumption.
    + intros H. destruct l as [|y l]; [specialize (H 0%nat x eq_refl); discriminate|].
      pose proof (H 0%nat x eq_refl) as H0. cbn in H0. injection H0 as ->.
      apply prefix_cons. apply IH. intros i b Hi. exact (H (S i) b Hi).
Qed.

Lemma includes_spec (pattern : list Z) : forall s : list Z,
  includes s pattern = true <-> exists p, pattern `prefix_of` drop p s.
Proof.
  induction s as [|y s IH]; cbn [includes].
  - rewrite orb_false_r, isPrefix_prefix_of. split.
    + intros H. exists 0%nat. exact H.
    + intros [p H]. rewrite drop_nil in H. exact H.
  - rewrite orb_true_iff, isPrefix_prefix_of, IH. split.
    + intros [H|[p H]]; [exists 0%nat; exact H | exists (S p); exact H].
    + intros [[|p] H]; [left; exact H | right; exists p; exact H].
Qed.

Lemma fits_exactly (bytes : list Z) : fits (exactly bytes) bytes.
Proof.
  unfold fits, exactly. induction bytes as [|b bytes IH]; cbn [map].
  - constructor.
  - constructor; [apply Z.eqb_refl | exact IH].
Qed.

Lemma fits_lookup (shape : list (Z -> bool)) (bytes : list Z) :
  fits shape bytes ->
  length shape = length bytes
  /\ forall i test, shape !! i = Some test ->
       exists b, bytes !! i = Some b /\ test b = true.
Proof.
  unfold fits. intros H. split; [eapply Forall2_length; exact H|].
  intros i test Hi.
  destruct (Forall2_lookup_l _ _ _ _ _ H Hi) as (b & Hb & Ht). eauto.
Qed.

(** A pattern that lies where the bytes have the shape does not clash
    with it. *)
Lemma clash_sound (pattern : list Z) : forall (shape : list (Z -> bool)) (bytes : nat -> option Z),
  (forall i test, shape !! i = Some test ->
     exists b, bytes i = Some b /\ test b = true) ->
  (forall i b, pattern !! i = Some b -> (i < length shape)%nat ->
     bytes i = Some b) ->
  clash pattern shape = false.
Proof.
  induction pattern as [|x pattern IH]; intros shape bytes Hshape Hlies;
    [reflexivity|].
  destruct shape as [|test shape]; [reflexivity|]. cbn [clash].
  destruct (Hshape 0%nat test eq_refl) as (b & Hb & Ht).
  rewrite (Hlies 0%nat x eq_refl) in Hb by (cbn; lia). injection Hb as ->.
  rewrite Ht. cbn [negb orb].
  apply (IH shape (fun i => bytes (S i))).
  - intros i t Hi. exact (Hshape (S i) t Hi).
  - intros i c Hi Hlt. apply (Hlies (S i) c Hi). cbn [length]. lia.
Qed.

Lemma agree_sound {A} (new : list Z) : forall (old : list Z) (region : list A) i,
  agree new old region = true ->
  (i < length new)%nat -> (i < length region)%nat ->
  new !! i = old !! i.
Proof.
  induction new as [|n new IH]; intros old region i Hagree Hnew Hregion;
    [cbn in Hnew; lia|].
  destruct region as [|r region]; [cbn in Hregion; lia|].
  cbn [agree] in Hagree. destruct old as [|o old]; [discriminate|].
  apply andb_true_iff in Hagree as [Heq Hagree]. apply Z.eqb_eq in Heq as ->.
  destruct i as [|i]; [reflexivity|]. cbn [lookup list_lookup].
  cbn [length] in Hnew, Hregion.
  apply (IH old region i Hagree); lia.
Qed.

Section Kept.
Variables (buffer newBytes : list Z).

(** Every byte after the replacement loop is the one the buffer had or a
    byte of the new pattern, written from one of the positions. *)
Lemma writes_lookup positions j :
  fst (fold_left (fun '(result, count) pos => (copy newBytes result pos, count + 1))
         positions (buffer, 0)) !! j
  = buffer !! j
  \/ exists q, q ∈ positions /\ (q <= j < q + length newBytes)%nat
               /\ fst (fold_left
                         (fun '(result, count) pos =>
                            (copy newBytes result pos, count + 1))
                         positions (buffer, 0)) !! j
                  = newBytes !! (j - q)%nat.
Proof.
  induction positions as [|p positions IH] using rev_ind.
  - left. reflexivity.
  - rewrite writes_snoc. cbn [fst].
    destruct (decide (p <= j < p + length newBytes)%nat) as [Hin|Hout].
    + destruct (decide (j < length buffer)%nat) as [Hj|Hj].
      * right. exists p. split; [|split; [exact Hin|]].
        { apply elem_of_app. right. apply list_elem_of_singleton. reflexivity. }
        apply copy_lookup_inside; [exact Hin | rewrite writes_length; exact Hj].
      * left. rewrite (proj2 (lookup_ge_None buffer j)) by lia.
        apply lookup_ge_None. rewrite length_copy, writes_length. lia.
    + rewrite copy_lookup_outside by exact Hout.
      destruct IH as [IH|(q & Hq & Hwin & IH)]; [left; exact IH|].
      right. exists q. split; [|split; [exact Hwin | exact IH]].
      apply elem_of_app. left. exact Hq.
Qed.

(** The loop leaves a pattern of a settled shape where it lies. *)
Lemma writes_keep (oldBytes : list Z) (new : option (list Z)) (shape : list (Z -> bool))
    (pattern : list Z) positions p :
  (forall q, q ∈ positions -> oldBytes `prefix_of` drop q buffer) ->
  (length newBytes <= length oldBytes)%nat ->
  (forall bytes, new = Some bytes -> bytes = newBytes) ->
  settled oldBytes new shape = true ->
  fits shape pattern ->
  pattern `prefix_of` drop p buffer ->
  pattern
  `prefix_of` drop p
                (fst (fold_left
                        (fun '(result, count) pos =>
                           (copy newBytes result pos, count + 1))
                        positions (buffer, 0))).
Proof.
  intros Hocc Hlen Hnew Hsettled Hfits Hlies.
  apply fits_lookup in Hfits as [Hsize Hfits].
  rewrite prefix_of_lookups in Hlies. apply prefix_of_lookups.
  intros i b Hi. pose proof (Hlies i b Hi) as Hb.
  rewrite lookup_drop in Hb |- *. rewrite <- Hb.
  assert (Hishape : (i < length shape)%nat)
    by (rewrite Hsize; eapply lookup_lt_Some; exact Hi).
  assert (Hshape : forall k test, shape !! k = Some test ->
            exists c, buffer !! (p + k)%nat = Some c /\ test c = true).
  { intros k test Hk. destruct (Hfits k test Hk) as (c & Hc & Ht).
    exists c. split; [|exact Ht].
    specialize (Hlies k c Hc). rewrite lookup_drop in Hlies. exact Hlies. }
  destruct (writes_lookup positions (p + i)) as [Hsame|(q & Hq & Hwin & ->)];
    [exact Hsame|].
  specialize (Hocc q Hq). rewrite prefix_of_lookups in Hocc.
  assert (Hold : forall k c, oldBytes !! k = Some c ->
                   buffer !! (q + k)%nat = Some c).
  { intros k c Hk. specialize (Hocc k c Hk). rewrite lookup_drop in Hocc.
    exact Hocc. }
  apply andb_true_iff in Hsettled as [Hinside Hbefore].
  rewrite forallb_forall in Hinside, Hbefore.
  destruct (decide (p <= q)%nat) as [Hpq|Hpq].
  - (* the occurrence starts inside the region *)
    specialize (Hinside (q - p)%nat).
    rewrite in_seq in Hinside. specialize (Hinside ltac:(lia)).
    rewrite (clash_sound oldBytes (drop (q - p) shape)
               (fun k => buffer !! (q + k)%nat)) in Hinside.
    + destruct new as [bytes|]; [|discriminate].
      rewrite (Hnew bytes eq_refl) in Hinside. cbn [orb] in Hinside.
      rewrite (agree_sound _ _ _ (p + i - q) Hinside)
        by (rewrite ?length_drop; lia).
      destruct (oldBytes !! (p + i - q)%nat) as [c|] eqn:Hc.
      * rewrite <- (Hold _ _ Hc). f_equal. lia.
      * apply lookup_ge_None in Hc. lia.
    + intros k test Hk. rewrite lookup_drop in Hk.
      destruct (Hshape _ _ Hk) as (c & Hc & Ht). exists c.
      split; [|exact Ht]. rewrite <- Hc. f_equal. lia.
    + intros k c Hk _. exact (Hold k c Hk).
  - (* the occurrence starts before the region *)
    specialize (Hbefore (p - q)%nat).
    rewrite in_seq in Hbefore. specialize (Hbefore ltac:(lia)).
    rewrite (clash_sound (drop (p - q) oldBytes) shape
               (fun k => buffer !! (p + k)%nat)) in Hbefore.
    + destruct new as [bytes|]; [|discriminate].
      rewrite (Hnew bytes eq_refl) in Hbefore. cbn [orb] in Hbefore.
      pose proof (agree_sound _ _ _ i Hbefore) as Hagree.
      rewrite !lookup_drop, length_drop in Hagree.
      replace (p + i - q)%nat with (p - q + i)%nat by lia.
      rewrite Hagree by lia.
      destruct (oldBytes !! (p - q + i)%nat) as [c|] eqn:Hc.
      * rewrite <- (Hold _ _ Hc). f_equal. lia.
      * apply lookup_ge_None in Hc. lia.
    + exact Hshape.
    + intros k c Hk _. rewrite lookup_drop in Hk.
      rewrite <- (Hold _ _ Hk). f_equal. lia.
Qed.

End Kept.

Lemma occurrences_lie (buffer pattern : list Z) q :
  q ∈ findAllOccurrences buffer pattern -> pattern `prefix_of` drop q buffer.
Proof.
  rewrite findAllOccurrences_filter. intros H.
  apply list_elem_of_filter in H as [H _]. exact H.
Qed.

(** [replaceBytes] leaves a pattern of a settled shape where it lies. *)
Lemma replaceBytes_keeps (buffer oldBytes newBytes : list Z)
    (new : option (list Z)) (shape : list (Z -> bool)) (pattern : list Z) p :
  (forall bytes, new = Some bytes -> bytes = newBytes) ->
  settled oldBytes new shape = true ->
  fits shape pattern ->
  pattern `prefix_of` drop p buffer ->
  pattern `prefix_of` drop p (fst (replaceBytes buffer oldBytes newBytes)).
Proof.
  intros Hnew Hsettled Hfits Hlies. unfold replaceBytes.
  destruct (length oldBytes <? length newBytes)%nat eqn:Hlen; [exact Hlies|].
  apply Nat.ltb_ge in Hlen.
  apply (writes_keep buffer newBytes oldBytes new shape); try assumption.
  intros q. apply occurrences_lie.
Qed.

Lemma replaceBytes_count (buffer oldBytes newBytes : list Z) :
  0 <= snd (replaceBytes buffer oldBytes newBytes).
Proof.
  unfold replaceBytes.
  destruct (length oldBytes <? length newBytes)%nat; [cbn; lia|].
  rewrite writes_count. lia.
Qed.

(** [replaceBytes] puts the new bytes where the old ones lie, when no two
    occurrences of the old bytes can overlap. *)
Lemma replaceBytes_places (buffer oldBytes newBytes : list Z) p :
  oldBytes <> [] ->
  selfApart oldBytes = true ->
  (length newBytes <= length oldBytes)%nat ->
  oldBytes `prefix_of` drop p buffer ->
  newBytes `prefix_of` drop p (fst (replaceBytes buffer oldBytes newBytes))
  /\ 1 <= snd (replaceBytes buffer oldBytes newBytes).
Proof.
  intros Hne Hapart Hlen Hlies. unfold replaceBytes.
  destruct (length oldBytes <? length newBytes)%nat eqn:Hskip;
    [apply Nat.ltb_lt in Hskip; lia|].
  assert (Hroom : (p + length oldBytes <= length buffer)%nat).
  { pose proof (prefix_length _ _ Hlies) as H. rewrite length_drop in H.
    destruct oldBytes; [congruence|]. cbn [length] in *. lia. }
  assert (Hp : p ∈ findAllOccurrences buffer oldBytes).
  { rewrite findAllOccurrences_filter. apply list_elem_of_filter.
    split; [exact Hlies|]. apply elem_of_seq.
    destruct oldBytes; [congruence|]. cbn [length] in *. lia. }
  split.
  - apply prefix_of_lookups. intros i b Hi. rewrite lookup_drop.
    pose proof (lookup_lt_Some _ _ _ Hi) as Hlt.
    rewrite (writes_inside buffer newBytes _ p); try lia.
    + rewrite <- Hi. f_equal. lia.
    + rewrite findAllOccurrences_filter. apply sorted_filter_seq.
    + exact Hp.
    + intros q Hq Hpq Hwin. apply occurrences_lie in Hq.
      unfold selfApart in Hapart. rewrite forallb_forall in Hapart.
      specialize (Hapart (q - p)%nat). rewrite in_seq in Hapart.
      specialize (Hapart ltac:(lia)). apply negb_true_iff in Hapart.
      assert (Hover : isPrefix (drop (q - p) oldBytes) oldBytes = true);
        [|congruence].
      apply isPrefix_prefix_of. apply prefix_of_lookups. intros k c Hk.
      rewrite lookup_drop in Hk.
      rewrite prefix_of_lookups in Hlies. specialize (Hlies _ _ Hk).
      rewrite lookup_drop in Hlies.
      destruct (oldBytes !! k) as [c'|] eqn:Hc.
      * rewrite prefix_of_lookups in Hq. specialize (Hq _ _ Hc).
        rewrite lookup_drop in Hq. rewrite <- Hq, <- Hlies. f_equal. lia.
      * apply lookup_ge_None in Hc. apply lookup_lt_Some in Hk. lia.
  - rewrite writes_count.
    destruct (findAllOccurrences buffer oldBytes);
      [apply elem_of_nil in Hp; contradiction | cbn [length]; lia].
Qed.

(** *** The shapes of the patterns *)

Lemma fits_interleaved (char : Z -> bool) (bytes : list Z) :
  Forall (fun b => char b = true) bytes ->
  fits (interleavedShape char (length bytes)) (RecordFormat.interleaved bytes).
Proof.
  unfold fits. induction 1 as [|b rest Hb Hrest IH]; [constructor|].
  destruct rest as [|b' rest].
  - cbn. constructor; [exact Hb | constructor].
  - change (Forall2 (fun test c => test c = true)
              (char :: Z.eqb 0 :: interleavedShape char (length (b' :: rest)))
              (b :: 0 :: RecordFormat.interleaved (b' :: rest))).
    constructor; [exact Hb|]. constructor; [reflexivity | exact IH].
Qed.

Lemma domainByte_byte (b : Z) : domainByte b = true -> b mod 256 = b.
Proof.
  unfold domainByte. rewrite !andb_true_iff, !Z.leb_le.
  intros [[Hlow Hhigh] _]. apply Z.mod_small. lia.
Qed.

Lemma fits_lengthPrefixedShape (str : jsstring) :
  (1 <= length str <= 255)%nat ->
  forallb domainByte str = true ->
  fits (lengthPrefixedShape domainByte (length str)) (stringToLengthPrefixed str).
Proof.
  intros Hlen Hchars.
  rewrite stringToLengthPrefixed_eq by (intros ->; cbn in Hlen; lia).
  unfold lengthPrefixedShape, fits. apply Forall2_app.
  - unfold strLength. rewrite Z.mod_small by lia.
    repeat constructor. apply Z.eqb_refl.
  - rewrite <- (length_map (fun c => c mod 256) str).
    apply fits_interleaved. apply Forall_map, Forall_forall. intros c Hc.
    rewrite forallb_forall in Hchars. cbn.
    assert (Hd : domainByte c = true)
      by (apply Hchars, list_elem_of_In; exact Hc).
    rewrite (domainByte_byte c Hd). exact Hd.
Qed.

(** The Sentry address cannot overlap the length-prefixed domain. *)
Lemma sentry_settled :
  settled (stringToLengthPrefixed oldSentry) None
    (exactly (stringToLengthPrefixed ORIGINAL_DOMAIN)) = true.
Proof. vm_compute. reflexivity. Qed.

Lemma original_selfApart :
  selfApart (stringToLengthPrefixed ORIGINAL_DOMAIN) = true.
Proof. vm_compute. reflexivity. Qed.

(** No subdomain prefix and no Discord address can overlap the
    length-prefixed form of a domain of 4 to 10 printable characters
    without a slash, except where the rewrite leaves the bytes as they
    are. *)
Lemma subdomains_settled (n : nat) :
  (4 <= n <= 10)%nat ->
  Forall (fun sub =>
            settled (stringToLengthPrefixed sub) None
              (lengthPrefixedShape domainByte n) = true) subdomains.
Proof.
  intros Hn.
  assert (Hall : forallb
                   (fun n => forallb
                               (fun sub =>
                                  settled (stringToLengthPrefixed sub) None
                                    (lengthPrefixedShape domainByte n))
                               subdomains) (seq 4 7) = true)
    by (vm_compute; reflexivity).
  rewrite forallb_forall in Hall. specialize (Hall n).
  rewrite in_seq in Hall. specialize (Hall ltac:(lia)).
  rewrite forallb_forall in Hall.
  apply Forall_forall. intros sub Hsub. apply Hall, list_elem_of_In. exact Hsub.
Qed.

Lemma discord_settled (n : nat) :
  (4 <= n <= 10)%nat ->
  settled (stringToLengthPrefixed (lit ".gg/hytale")) None
    (lengthPrefixedShape domainByte n) = true
  /\ settled (stringToUtf16LE (lit ".gg/hytale"))
       (Some (stringToUtf16LE (lit ".gg/hf2pdc")))
       (lengthPrefixedShape domainByte n) = true.
Proof.
  intros Hn.
  assert (Hall : forallb
                   (fun n =>
                      settled (stringToLengthPrefixed (lit ".gg/hytale")) None
                        (lengthPrefixedShape domainByte n)
                      && settled (stringToUtf16LE (lit ".gg/hytale"))
                           (Some (stringToUtf16LE (lit ".gg/hf2pdc")))
                           (lengthPrefixedShape domainByte n))
                   (seq 4 7) = true)
    by (vm_compute; reflexivity).
  rewrite forallb_forall in Hall. specialize (Hall n).
  rewrite in_seq in Hall. specialize (Hall ltac:(lia)).
  apply andb_true_iff in Hall. exact Hall.
Qed.

Lemma mainDomain_chars (domain : jsstring) :
  (4 <= length domain <= 16)%nat ->
  forallb domainByte domain = true ->
  (4 <= length (mainDomain (getDomainStrategy domain)) <= 10)%nat
  /\ forallb domainByte (mainDomain (getDomainStrategy domain)) = true.
Proof.
  intros Hlen Hchars. unfold getDomainStrategy, strLength.
  destruct (Z.leb_spec (Z.of_nat (length domain)) 10); cbn [mainDomain].
  - split; [lia | exact Hchars].
  - rewrite length_drop. split; [lia|].
    rewrite <- (take_drop 6 domain), forallb_app in Hchars.
    apply andb_true_iff in Hchars. apply Hchars.
Qed.

(** *** The patch puts the main domain where the original one lies *)

Lemma subdomains_keep (newBytes : list Z) (shape : list (Z -> bool))
    (pattern : list Z) p : forall subs (result : list Z) (total : Z),
  Forall (fun sub => settled (stringToLengthPrefixed sub) None shape = true) subs ->
  fits shape pattern ->
  pattern `prefix_of` drop p result ->
  1 <= total ->
  pattern
  `prefix_of` drop p
                (fst (fold_left
                        (fun '(result, totalCount) sub =>
                           let subResult :=
                             replaceBytes result (stringToLengthPrefixed sub)
                               newBytes in
                           (fst subResult,
                            if 0 <? snd subResult
                            then totalCount + snd subResult else totalCount))
                        subs (result, total)))
  /\ 1 <= snd (fold_left
                 (fun '(result, totalCount) sub =>
                    let subResult :=
                      replaceBytes result (stringToLengthPrefixed sub)
                        newBytes in
                    (fst subResult,
                     if 0 <? snd subResult
                     then totalCount + snd subResult else totalCount))
                 subs (result, total)).
Proof.
  induction subs as [|sub subs IH]; intros result total Hsubs Hfits Hlies Htotal.
  - cbn [fold_left fst snd]. split; assumption.
  - apply Forall_cons in Hsubs as [Hsub Hsubs]. cbn [fold_left].
    apply IH; [exact Hsubs | exact Hfits | |].
    + apply (replaceBytes_keeps _ _ _ None shape); try assumption.
      intros bytes; discriminate.
    + pose proof (replaceBytes_count result (stringToLengthPrefixed sub) newBytes).
      destruct (0 <? _); lia.
Qed.

Lemma applyDomainPatches_places (data : list Z) (domain protocol : jsstring) p :
  (4 <= length domain <= 16)%nat ->
  forallb domainByte domain = true ->
  stringToLengthPrefixed ORIGINAL_DOMAIN `prefix_of` drop p data ->
  stringToLengthPrefixed (mainDomain (getDomainStrategy domain))
  `prefix_of` drop p (fst (applyDomainPatches data domain protocol))
  /\ 1 <= snd (applyDomainPatches data domain protocol).
Proof.
  intros Hlen Hchars Hlies.
  destruct (mainDomain_chars domain Hlen Hchars) as [Hmain Hmainchars].
  unfold applyDomainPatches. cbv zeta.
  set (main := mainDomain (getDomainStrategy domain)) in *.
  set (afterSentry := replaceBytes data _ _).
  set (afterDomain := replaceBytes (fst afterSentry) _ _).
  assert (Hsentry : stringToLengthPrefixed ORIGINAL_DOMAIN
                    `prefix_of` drop p (fst afterSentry)).
  { apply (replaceBytes_keeps _ _ _ None
             (exactly (stringToLengthPrefixed ORIGINAL_DOMAIN)));
      [intros bytes; discriminate | exact sentry_settled
       | apply fits_exactly | exact Hlies]. }
  assert (Hdomain : stringToLengthPrefixed main `prefix_of` drop p (fst afterDomain)
                    /\ 1 <= snd afterDomain).
  { apply replaceBytes_places;
      [discriminate | exact original_selfApart | | exact Hsentry].
    rewrite length_stringToLengthPrefixed
      by (intros E; rewrite E in Hmain; cbn in Hmain; lia).
    rewrite length_stringToLengthPrefixed by discriminate.
    change (length ORIGINAL_DOMAIN) with 10%nat. lia. }
  destruct Hdomain as [Hdomain Hcount].
  apply (subdomains_keep _ (lengthPrefixedShape domainByte (length main))).
  - apply subdomains_settled. exact Hmain.
  - apply fits_lengthPrefixedShape; [lia | exact Hmainchars].
  - exact Hdomain.
  - pose proof (replaceBytes_count data (stringToLengthPrefixed oldSentry)
                  (stringToLengthPrefixed
                     (protocol ++ lit "t@" ++ domain ++ lit "/2"))) as Hs.
    fold afterSentry in Hs.
    replace (0 <? snd afterDomain) with true by (symmetry; apply Z.ltb_lt; lia).
    destruct (0 <? snd afterSentry); lia.
Qed.

Lemma patchDiscordUrl_keeps (data : list Z) (main : jsstring) p :
  (4 <= length main <= 10)%nat ->
  forallb domainByte main = true ->
  stringToLengthPrefixed main `prefix_of` drop p data ->
  stringToLengthPrefixed main `prefix_of` drop p (fst (patchDiscordUrl data))
  /\ 0 <= snd (patchDiscordUrl data).
Proof.
  intros Hlen Hchars Hlies.
  destruct (discord_settled (length main) Hlen) as [Hlp Hutf].
  pose proof (fits_lengthPrefixedShape main ltac:(lia) Hchars) as Hfits.
  unfold patchDiscordUrl. cbv zeta.
  destruct (0 <? snd (replaceBytes data _ _)) eqn:Hfound.
  - split; [|apply replaceBytes_count].
    apply (replaceBytes_keeps _ _ _ None
             (lengthPrefixedShape domainByte (length main)));
      [intros bytes; discriminate | exact Hlp | exact Hfits | exact Hlies].
  - split; [|rewrite writes_count; lia].
    apply (writes_keep data _ (stringToUtf16LE (lit ".gg/hytale"))
             (Some (stringToUtf16LE (lit ".gg/hf2pdc")))
             (lengthPrefixedShape domainByte (length main)));
      [intros q; apply occurrences_lie | vm_compute; lia
       | intros bytes [= <-]; reflexivity | exact Hutf | exact Hfits
       | exact Hlies].
Qed.

(** A binary that holds the length-prefixed original domain is patched
    in the current format, and the patched bytes hold the length-prefixed
    main domain of the target. *)
Lemma patchBytes_places (host : PatcherHost) (data : list Z) :
  forallb domainByte (getNewDomain host) = true ->
  includes data (stringToLengthPrefixed ORIGINAL_DOMAIN) = true ->
  exists count bytes,
    patchBytes host data = Some (Patched count, bytes)
    /\ 1 <= count
    /\ includes bytes (mainPattern host) = true.
Proof.
  intros Hchars Hdata. apply includes_spec in Hdata as [p Hlies].
  pose proof (getNewDomain_length host) as Hlen.
  destruct (mainDomain_chars _ Hlen Hchars) as [Hmain Hmainchars].
  destruct (applyDomainPatches_places data (getNewDomain host) (lit "https://") p
              Hlen Hchars Hlies) as [Hpatched Hcount].
  unfold patchBytes.
  destruct (applyDomainPatches data (getNewDomain host) (lit "https://"))
    as [patchedData count].
  cbn [fst snd] in Hpatched, Hcount.
  destruct (patchDiscordUrl_keeps patchedData _ p Hmain Hmainchars Hpatched)
    as [Hfinal Hdiscord].
  destruct (patchDiscordUrl patchedData) as [finalData discordCount].
  cbn [fst snd] in Hfinal, Hdiscord.
  replace (count =? 0) with false by (symmetry; apply Z.eqb_neq; lia).
  cbn [andb]. exists (count + discordCount), finalData.
  split; [reflexivity|]. split; [lia|].
  apply includes_spec. exists p. exact Hfinal.
Qed.

Lemma getPatchStatus_patched (host : PatcherHost) (fs : Install) :
  patched (getPatchStatus host fs) = true ->
  includes (default [] (client fs)) (mainPattern host) = true.
Proof.
  unfold getPatchStatus, mainPattern.
  destruct (flagFile fs) as [[|flagData]|]; try discriminate.
  destruct (bool_decide _); [|discriminate].
  destruct (client fs) as [data|]; [|discriminate].
  destruct (includes data _) eqn:Hincl; [|discriminate].
  intros _. exact Hincl.
Qed.

Lemma patchBytes_result (host : PatcherHost) data result bytes :
  patchBytes host data = Some (result, bytes) ->
  (exists count, result = PatchedLegacy count)
  \/ (exists count, result = Patched count).
Proof.
  unfold patchBytes.
  destruct (applyDomainPatches _ _ _) as [patchedData count].
  destruct (patchDiscordUrl patchedData) as [finalData discordCount].
  destruct ((count =? 0) && (discordCount =? 0)).
  - destruct (0 <? snd (findAndReplaceDomainSmart _ _ _)); [|discriminate].
    intros [= <- <-]. left. eauto.
  - intros [= <- <-]. right. eauto.
Qed.

(** C3 (amended). Two calls of [patchClient] in a row for the same target,
    in three cases.  When the first call reports "already patched", so does
    the second, and it leaves every file as it is.  When the target domain
    is made of printable ASCII characters other than the slash, and the
    binary the first call reads (the backup it restores when the patch
    record names another domain, the binary itself otherwise) contains the
    length-prefixed form of the original domain, the first call reports
    "already patched" or a patch in the current format with a count of at
    least 1, the binary it leaves contains the length-prefixed main domain
    of the target, and the second call reports "already patched" and
    leaves every file as it is, without writing the binary.  When the
    first call reports that no occurrence was found, so does the second,
    and the bytes of the binary stay the same. *)
Theorem patchClient_twice (host : PatcherHost) (fs : Install) :
  (fst (patchClient host fs) = AlreadyPatched ->
   patchClient host (snd (patchClient host fs))
   = (AlreadyPatched, snd (patchClient host fs)))
  /\ (forallb domainByte (getNewDomain host) = true ->
      is_Some (client fs) ->
      includes (default [] (client (prepareClient host fs)))
        (stringToLengthPrefixed ORIGINAL_DOMAIN) = true ->
      (fst (patchClient host fs) = AlreadyPatched
       \/ exists count,
            1 <= count /\ fst (patchClient host fs) = Patched count)
      /\ includes (default [] (client (snd (patchClient host fs))))
           (mainPattern host) = true
      /\ patchClient host (snd (patchClient host fs))
         = (AlreadyPatched, snd (patchClient host fs)))
  /\ (fst (patchClient host fs) = NoOccurrences ->
      fst (patchClient host (snd (patchClient host fs))) = NoOccurrences
      /\ client (snd (patchClient host (snd (patchClient host fs))))
         = client (snd (patchClient host fs))).
Proof.
  split; [|split].
  - destruct (client fs) as [binary|] eqn:Hc;
      [|unfold patchClient; rewrite Hc; discriminate].
    destruct (patched (getPatchStatus host fs)) eqn:Hp.
    + rewrite (patchClient_already host fs (ex_intro _ binary Hc) Hp).
      intros _. cbn [snd].
      exact (patchClient_already host fs (ex_intro _ binary Hc) Hp).
    + rewrite (patchClient_unpatched host fs binary Hc Hp).
      destruct (patchBytes host _) as [[result bytes]|] eqn:Hscan;
        [|discriminate].
      cbn [fst]. intros ->.
      destruct (patchBytes_result _ _ _ _ Hscan) as [[n Hn]|[n Hn]];
        discriminate.
  - intros Hchars [binary Hc] Hdata.
    destruct (patched (getPatchStatus host fs)) eqn:Hp.
    + rewrite (patchClient_already host fs (ex_intro _ binary Hc) Hp).
      cbn [fst snd]. split; [left; reflexivity|]. split.
      * apply getPatchStatus_patched. exact Hp.
      * apply patchClient_already; [eauto | exact Hp].
    + rewrite (patchClient_unpatched host fs binary Hc Hp).
      destruct (patchBytes_places host _ Hchars Hdata)
        as (count & bytes & -> & Hcount & Hincl).
      cbn [fst snd]. split; [right; eauto|]. split; [exact Hincl|].
      apply patchClient_already; [eexists; reflexivity|].
      apply getPatchStatus_marked. exact Hincl.
  - destruct (client fs) as [binary|] eqn:Hc;
      [|unfold patchClient; rewrite Hc; discriminate].
    destruct (patched (getPatchStatus host fs)) eqn:Hp;
      [unfold patchClient; rewrite Hc, Hp; discriminate|].
    rewrite (patchClient_unpatched host fs binary Hc Hp).
    destruct (prepareClient_stable host fs binary Hc Hp)
      as ([binary2 Hc2] & Hp2 & Hsame).
    destruct (patchBytes host (default [] (client (prepareClient host fs))))
      as [[result bytes]|] eqn:Hscan.
    + cbn [fst]. intros ->. apply patchBytes_reports in Hscan. discriminate.
    + cbn [fst snd]. intros _.
      rewrite (patchClient_unpatched host _ binary2 Hc2 Hp2).
      rewrite Hsame, Hscan. cbn [fst snd]. split; [reflexivity | exact Hsame].
Qed.

Lemma patchClient_twice_witness :
  (patchClient Samples.defaultPatcherHost
     (snd (patchClient Samples.defaultPatcherHost
             (snd (patchClient Samples.defaultPatcherHost
                     (Samples.freshInstall Samples.modernBinary)))))
   = (AlreadyPatched,
      snd (patchClient Samples.defaultPatcherHost
             (snd (patchClient Samples.defaultPatcherHost
                     (Samples.freshInstall Samples.modernBinary))))))
  /\ (fst (patchClient Samples.defaultPatcherHost
             (Samples.freshInstall Samples.modernBinary)) = Patched 1
      /\ patchClient Samples.defaultPatcherHost
           (snd (patchClient Samples.defaultPatcherHost
                   (Samples.freshInstall Samples.modernBinary)))
         = (AlreadyPatched,
            snd (patchClient Samples.defaultPatcherHost
                   (Samples.freshInstall Samples.modernBinary))))
  /\ (fst (patchClient Samples.defaultPatcherHost
             (Samples.freshInstall Samples.plainBinary)) = NoOccurrences
      /\ fst (patchClient Samples.defaultPatcherHost
                (snd (patchClient Samples.defaultPatcherHost
                        (Samples.freshInstall Samples.plainBinary))))
         = NoOccurrences).
Proof.
  split; [|split].
  - apply (proj1 (patchClient_twice Samples.defaultPatcherHost
                    (snd (patchClient Samples.defaultPatcherHost
                            (Samples.freshInstall Samples.modernBinary))))).
    vm_compute. reflexivity.
  - split; [vm_compute; reflexivity|].
    apply (proj1 (proj2 (patchClient_twice Samples.defaultPatcherHost
                           (Samples.freshInstall Samples.modernBinary)))).
    + vm_compute. reflexivity.
    + eexists. reflexivity.
    + vm_compute. reflexivity.
  - split; [vm_compute; reflexivity|].
    apply (proj2 (proj2 (patchClient_twice Samples.defaultPatcherHost
                           (Samples.freshInstall Samples.plainBinary)))).
    vm_compute. reflexivity.
Defined.

(** C3 as stated fails.  A binary that holds the domain only as UTF-16LE
    text is patched by the first call, which writes it and its patch
    record; the second call looks for the length-prefixed form, does not
    find it, scans again and reports that no occurrence was found.  A
    binary that holds only the Sentry address is patched by the first
    call in the current format; what is left of the old address still
    reads as the original domain in UTF-16LE, so the second call patches
    again, in the legacy format, and the bytes differ.  And for a domain
    with unusual characters the legacy rewrite of the first call can leave
    a length-prefixed occurrence of the original domain behind, which the
    second call then rewrites. *)
Lemma patchClient_second_call_counterexample :
  (fst (patchClient Samples.defaultPatcherHost
          (Samples.freshInstall Samples.legacyBinary)) = PatchedLegacy 1
   /\ fst (patchClient Samples.defaultPatcherHost
             (snd (patchClient Samples.defaultPatcherHost
                     (Samples.freshInstall Samples.legacyBinary))))
      = NoOccurrences)
  /\ (fst (patchClient Samples.defaultPatcherHost
             (Samples.freshInstall Samples.sentryBinary)) = Patched 1
      /\ fst (patchClient Samples.defaultPatcherHost
                (snd (patchClient Samples.defaultPatcherHost
                        (Samples.freshInstall Samples.sentryBinary))))
         = PatchedLegacy 1
      /\ client (snd (patchClient Samples.defaultPatcherHost
                        (snd (patchClient Samples.defaultPatcherHost
                                (Samples.freshInstall Samples.sentryBinary)))))
         <> client (snd (patchClient Samples.defaultPatcherHost
                           (Samples.freshInstall Samples.sentryBinary))))
  /\ (fst (patchClient Samples.oddDomainHost
             (Samples.freshInstall Samples.oddBinary)) = PatchedLegacy 1
      /\ fst (patchClient Samples.oddDomainHost
                (snd (patchClient Samples.oddDomainHost
                        (Samples.freshInstall Samples.oddBinary))))
         = Patched 1
      /\ client (snd (patchClient Samples.oddDomainHost
                        (snd (patchClient Samples.oddDomainHost
                                (Samples.freshInstall Samples.oddBinary)))))
         <> client (snd (patchClient Samples.oddDomainHost
                           (Samples.freshInstall Samples.oddBinary)))).
Proof.
  vm_compute. repeat split; congruence.
Qed.

End IdempotenceFacts.

(** ** Backups of the client binary *)

Module BackupFacts.

Import ClientPatcher Agent.

Lemma backupClient_keeps (fs : Install) original :
  backup fs = Some original ->
  backup (snd (backupClient fs)) = Some original
  \/ last (archivedBackups (snd (backupClient fs))) = Some original.
Proof.
  intros Hb. unfold backupClient.
  destruct (client fs) as [current|]; [|left; exact Hb].
  rewrite Hb. case_bool_decide; [left; exact Hb|].
  right. cbn. apply last_snoc.
Qed.

(** X5. [patchClient] never loses a backup: the backup that was there
    before the call is afterwards still the backup, or it is the archive
    the call has just made of it. *)
Theorem patchClient_keeps_backup (host : PatcherHost) (fs : Install)
  (original : list Z) :
  backup fs = Some original ->
  backup (snd (patchClient host fs)) = Some original
  \/ last (archivedBackups (snd (patchClient host fs))) = Some original.
Proof.
  intros Hb. unfold patchClient.
  destruct (client fs) as [binary|] eqn:Hclient; [|left; exact Hb].
  destruct (patched (getPatchStatus host fs)); [left; exact Hb|].
  assert (Hprep : backup (prepareClient host fs) = Some original
                  \/ last (archivedBackups (prepareClient host fs))
                     = Some original).
  { unfold prepareClient.
    apply backupClient_keeps.
    destruct (needsRestore (getPatchStatus host fs)); [|exact Hb].
    unfold restoreFromBackup. rewrite Hb. reflexivity. }
  destruct (patchBytes host (default [] (client (prepareClient host fs))))
    as [[result bytes]|]; exact Hprep.
Qed.

Lemma patchClient_keeps_backup_witness :
  let fs :=
    {| client := Some (Samples.modernBinary ++ [0]); flagFile := None;
       backup := Some Samples.modernBinary; archivedBackups := [];
       clientWrites := 0 |} in
  backup fs = Some Samples.modernBinary
  /\ (backup (snd (patchClient Samples.defaultPatcherHost fs))
      = Some Samples.modernBinary
      \/ last (archivedBackups (snd (patchClient Samples.defaultPatcherHost fs)))
         = Some Samples.modernBinary).
Proof.
  intros fs. split; [reflexivity|].
  apply (patchClient_keeps_backup Samples.defaultPatcherHost fs).
  reflexivity.
Defined.

(** X6. When the patch record names another domain than the configured
    one and a backup exists, [patchClient] patches the bytes of the backup,
    not those of the binary in place: the result and the binary it leaves
    are those of patching the original, and the backup stays as it is. *)
Theorem retargeting_patches_the_backup (host : PatcherHost) (fs : Install)
  (flagData : PatchRecord) (current original : list Z) :
  client fs = Some current ->
  flagFile fs = Some (FlagJson flagData) ->
  targetDomain flagData <> Some (getNewDomain host) ->
  backup fs = Some original ->
  fst (patchClient host fs)
  = match patchBytes host original with
    | Some (result, _) => result
    | None => NoOccurrences
    end
  /\ client (snd (patchClient host fs))
     = Some match patchBytes host original with
            | Some (_, bytes) => bytes
            | None => original
            end
  /\ backup (snd (patchClient host fs)) = Some original
  /\ archivedBackups (snd (patchClient host fs)) = archivedBackups fs.
Proof.
  intros Hclient Hflag Hother Hbackup.
  assert (Hstatus : getPatchStatus host fs
                    = {| patched := false; currentDomain := targetDomain flagData;
                         needsRestore := true |}).
  { unfold getPatchStatus. rewrite Hflag.
    case_bool_decide; [congruence | reflexivity]. }
  assert (Hprep : prepareClient host fs
                  = {| client := Some original; flagFile := None;
                       backup := Some original;
                       archivedBackups := archivedBackups fs;
                       clientWrites := S (clientWrites fs) |}).
  { unfold prepareClient. rewrite Hstatus. cbn [needsRestore].
    unfold restoreFromBackup. rewrite Hbackup. cbn [snd].
    unfold backupClient. cbn [client backup].
    rewrite bool_decide_eq_true_2 by reflexivity. reflexivity. }
  unfold patchClient. rewrite Hclient, Hstatus. cbn [patched].
  rewrite Hprep. cbn [client default from_option id].
  destruct (patchBytes host original) as [[result bytes]|];
    cbn [fst snd client backup archivedBackups markAsPatched writeClient];
    repeat split; reflexivity.
Qed.

Lemma retargeting_patches_the_backup_witness :
  fst (patchClient Samples.defaultPatcherHost Fixtures.retargetedInstall)
  = Patched 1
  /\ client (snd (patchClient Samples.defaultPatcherHost
                    Fixtures.retargetedInstall))
     = client (snd (patchClient Samples.defaultPatcherHost
                      (Samples.freshInstall Samples.modernBinary))).
Proof.
  destruct (retargeting_patches_the_backup Samples.defaultPatcherHost
              Fixtures.retargetedInstall
              {| patchedAt := lit "2025-12-31T00:00:00.000Z";
                 originalDomain := ORIGINAL_DOMAIN;
                 targetDomain := Some (lit "other.example");
                 patchMode := split;
                 recordMainDomain := lit "example";
                 recordSubdomainPrefix := lit "other.";
                 patcherVersion := lit "2.1.0";
                 verified := lit "binary_contents" |}
              (fst (applyDomainPatches Samples.modernBinary
                      (lit "other.example") (lit "https://")))
              Samples.modernBinary)
    as (Hresult & Hbytes & _).
  - reflexivity.
  - reflexivity.
  - intros H. vm_compute in H. discriminate H.
  - reflexivity.
  - split.
    + rewrite Hresult. vm_compute. reflexivity.
    + rewrite Hbytes. vm_compute. reflexivity.
Defined.

(** X7. On an installation that has neither patch record nor backup,
    [restoreClient] after [patchClient] brings the original binary back,
    removes the patch record, and the binary no longer counts as
    patched. *)
Theorem restoreClient_undoes_patchClient (host : PatcherHost) (fs : Install)
  (binary : list Z) :
  client fs = Some binary ->
  flagFile fs = None ->
  backup fs = None ->
  client (snd (restoreClient (snd (patchClient host fs)))) = Some binary
  /\ flagFile (snd (restoreClient (snd (patchClient host fs)))) = None
  /\ isPatchedAlready host (snd (restoreClient (snd (patchClient host fs))))
     = false.
Proof.
  intros Hclient Hflag Hbackup.
  assert (Hstatus : getPatchStatus host fs = notPatched).
  { unfold getPatchStatus. rewrite Hflag. reflexivity. }
  assert (Hprep : prepareClient host fs
                  = {| client := Some binary; flagFile := None;
                       backup := Some binary;
                       archivedBackups := archivedBackups fs;
                       clientWrites := clientWrites fs |}).
  { unfold prepareClient. rewrite Hstatus. cbn [needsRestore notPatched].
    unfold backupClient. rewrite Hclient, Hbackup, Hflag. reflexivity. }
  assert (Hback : backup (snd (patchClient host fs)) = Some binary).
  { unfold patchClient. rewrite Hclient, Hstatus. cbn [patched notPatched].
    rewrite Hprep. cbn [client default from_option id].
    destruct (patchBytes host binary) as [[result bytes]|]; reflexivity. }
  unfold restoreClient, isPatchedAlready. rewrite Hback.
  cbn [snd client flagFile].
  split; [reflexivity|]. split; reflexivity.
Qed.

Lemma restoreClient_undoes_patchClient_witness :
  client (snd (patchClient Samples.defaultPatcherHost
                 (Samples.freshInstall Samples.modernBinary)))
  <> Some Samples.modernBinary
  /\ client (snd (restoreClient
                    (snd (patchClient Samples.defaultPatcherHost
                            (Samples.freshInstall Samples.modernBinary)))))
     = Some Samples.modernBinary.
Proof.
  split.
  - intros H. vm_compute in H. discriminate H.
  - apply (restoreClient_undoes_patchClient Samples.defaultPatcherHost
             (Samples.freshInstall Samples.modernBinary) Samples.modernBinary);
      reflexivity.
Defined.

End BackupFacts.

(** ** Version names and the plan *)

Module PlanFacts.

Import Trace EffectFacts VersionFacts UpdateManager UpdateFacts.

(** X8. A build number between 0 and the largest exact integer reads back
    from its archive name [N.pwr], and from any name that starts with [vN]
    followed by something that is not a digit, such as
    [v8-windows-amd64.pwr], where the number after [v] wins over the
    digits before [.pwr]. *)
Theorem version_names_read_back (n : Z) :
  0 <= n <= MAX_SAFE_INTEGER ->
  extractVersionNumber (Some (pwr n)) = n
  /\ forall rest : jsstring,
       (forall c, head rest = Some c -> isDigit c = false) ->
       extractVersionNumber (Some (lit "v" ++ numberToString n ++ rest)) = n.
Proof.
  intros [Hn _]. split; [apply extractVersionNumber_pwr; exact Hn|].
  intros rest Hrest.
  destruct (numberToString_value n Hn) as (Hall & Hne & Hval).
  assert (Htake : takeDigits (numberToString n ++ rest) = numberToString n).
  { apply takeDigits_app; [exact Hall|].
    destruct rest as [|c rest]; [reflexivity|].
    cbn [takeDigits]. rewrite (Hrest c) by reflexivity. reflexivity. }
  change (lit "v" ++ numberToString n ++ rest)
    with (118 :: (numberToString n ++ rest)).
  unfold extractVersionNumber. cbn [match_v_digits].
  rewrite Htake, Z.eqb_refl.
  destruct (numberToString n) as [|d ds] eqn:Hds; [congruence|].
  cbn [nonEmpty andb].
  rewrite (parseInt_digits (d :: ds) Hall Hne). exact Hval.
Qed.

Lemma version_names_read_back_witness :
  0 <= 8 <= MAX_SAFE_INTEGER
  /\ extractVersionNumber (Some (lit "8.pwr")) = 8
  /\ extractVersionNumber (Some (lit "v8-windows-amd64.pwr")) = 8.
Proof.
  assert (H : 0 <= 8 <= MAX_SAFE_INTEGER) by (vm_compute; split; discriminate).
  split; [exact H|]. split.
  - exact (proj1 (version_names_read_back 8 H)).
  - apply (proj2 (version_names_read_back 8 H) (lit "-windows-amd64.pwr")).
    intros c Hc. injection Hc as <-. reflexivity.
Defined.

Lemma map_seqZ_split (f : Z -> jsstring) :
  forall (done : list jsstring) start len v rest,
    map f (seqZ start len) = done ++ v :: rest ->
    v = f (start + Z.of_nat (length done))
    /\ rest = map f (seqZ (start + Z.of_nat (length done) + 1)
                       (len - Z.of_nat (length done) - 1)).
Proof.
  induction done as [|d done IH]; intros start len v rest Heq.
  - destruct (Z.le_gt_cases len 0) as [Hle|Hgt].
    { rewrite seqZ_nil in Heq by lia. discriminate. }
    rewrite seqZ_cons in Heq by lia. cbn in Heq. injection Heq as <- <-.
    cbn [length Z.of_nat]. rewrite Z.add_0_r.
    split; [reflexivity|]. f_equal. f_equal; lia.
  - destruct (Z.le_gt_cases len 0) as [Hle|Hgt].
    { rewrite seqZ_nil in Heq by lia. discriminate. }
    rewrite seqZ_cons in Heq by lia. cbn [map app] in Heq.
    injection Heq as <- Heq.
    destruct (IH _ _ _ _ Heq) as (Hv & Hrest).
    cbn [length]. rewrite Nat2Z.inj_succ.
    split.
    + rewrite Hv. f_equal. lia.
    + rewrite Hrest. f_equal. f_equal; lia.
Qed.

(** X9. The plan resumes where it stopped. For an installed build of at
    least -1 and a target build not above MAX_SAFE_INTEGER: if
    [patchVersion] is an entry of the plan towards the target, the plan
    computed from [patchVersion] as the installed version is the rest of
    the plan after that entry. *)
Theorem plan_resumes_after_a_step
  (currentVersion targetVersion : option jsstring)
  (done : list jsstring) (patchVersion : jsstring) (rest : list jsstring) :
  -1 <= extractVersionNumber currentVersion ->
  extractVersionNumber targetVersion <= MAX_SAFE_INTEGER ->
  needsIntermediatePatches currentVersion targetVersion
  = done ++ patchVersion :: rest ->
  needsIntermediatePatches (Some patchVersion) targetVersion = rest.
Proof.
  intros Hcur _ Hplan.
  assert (Htruthy : truthy currentVersion = true).
  { destruct (truthy currentVersion) eqn:Ht; [reflexivity|].
    unfold needsIntermediatePatches in Hplan. rewrite Ht in Hplan.
    destruct done; discriminate. }
  rewrite needsIntermediatePatches_range in Hplan by exact Htruthy.
  apply map_seqZ_split in Hplan as (Hv & Hrest).
  assert (Hbuild : extractVersionNumber (Some patchVersion)
                   = extractVersionNumber currentVersion + 1
                     + Z.of_nat (length done)).
  { rewrite Hv. apply extractVersionNumber_pwr. lia. }
  rewrite needsIntermediatePatches_range.
  - rewrite Hbuild, Hrest. f_equal. f_equal; lia.
  - rewrite Hv.
    pose proof (pwr_nonempty
                  (extractVersionNumber currentVersion + 1
                   + Z.of_nat (length done))) as Hne.
    destruct (pwr _); [congruence | reflexivity].
Qed.

Lemma plan_resumes_after_a_step_witness :
  needsIntermediatePatches (Some (lit "5.pwr")) (Some (lit "8.pwr"))
  = [lit "6.pwr"] ++ lit "7.pwr" :: [lit "8.pwr"]
  /\ needsIntermediatePatches (Some (lit "7.pwr")) (Some (lit "8.pwr"))
     = [lit "8.pwr"].
Proof.
  split; [reflexivity|].
  apply (plan_resumes_after_a_step (Some (lit "5.pwr")) (Some (lit "8.pwr"))
           [lit "6.pwr"] (lit "7.pwr") [lit "8.pwr"]).
  - vm_compute. discriminate.
  - vm_compute. discriminate.
  - reflexivity.
Defined.

(** On the release branch, with an installed version whose build is not
    below the target's, both within the exact integer range, the plan is
    empty and nothing is done. *)
Lemma performIntelligentUpdateWith_up_to_date (h : Host)
  (resolve : option jsstring -> jsstring -> VersionDetails)
  (targetVersion gameDir cacheDir toolsDir : jsstring) (w : World) :
  truthy (version_client w) = true ->
  - MAX_SAFE_INTEGER <= extractVersionNumber (Some targetVersion) ->
  extractVersionNumber (version_client w) <= MAX_SAFE_INTEGER ->
  extractVersionNumber (Some targetVersion)
  <= extractVersionNumber (version_client w) ->
  performIntelligentUpdateWith h resolve targetVersion (lit "release")
    gameDir cacheDir toolsDir w
  = (Ok tt, w).
Proof.
  intros Htruthy _ _ Hle.
  unfold performIntelligentUpdateWith, bind.
  rewrite getInstalledClientVersion_eq.
  rewrite Htruthy. unfold str_eqb.
  rewrite bool_decide_eq_true_2 by reflexivity. cbn [negb].
  rewrite needsIntermediatePatches_range by exact Htruthy.
  rewrite seqZ_nil by lia. reflexivity.
Qed.

(** X10. On the release branch, when the build of the installed version
    is not below that of the target, both builds being within the exact
    integer range (the target's not below -MAX_SAFE_INTEGER, the installed
    one not above MAX_SAFE_INTEGER), [performIntelligentUpdate] returns at
    once: nothing is downloaded, deployed or recorded, so a newer
    installation is never downgraded. *)
Theorem up_to_date_is_a_no_op (h : Host)
  (resolve : option jsstring -> jsstring -> VersionDetails)
  (targetVersion gameDir cacheDir toolsDir : jsstring) (w : World) :
  truthy (version_client w) = true ->
  - MAX_SAFE_INTEGER <= extractVersionNumber (Some targetVersion) ->
  extractVersionNumber (version_client w) <= MAX_SAFE_INTEGER ->
  extractVersionNumber (Some targetVersion)
  <= extractVersionNumber (version_client w) ->
  performIntelligentUpdateWith h resolve targetVersion (lit "release")
    gameDir cacheDir toolsDir w
  = (Ok tt, w)
  /\ performIntelligentUpdate h targetVersion (lit "release")
       gameDir cacheDir toolsDir w
     = (Ok tt, w).
Proof.
  intros Htruthy Hlow Hhigh Hle.
  split; apply performIntelligentUpdateWith_up_to_date; assumption.
Qed.

Lemma up_to_date_is_a_no_op_witness :
  performIntelligentUpdate Samples.sampleHost (lit "7.pwr") (lit "release")
    (lit "game") (lit "cache") (lit "tools")
    (Samples.worldWith (Some (lit "v9")))
  = (Ok tt, Samples.worldWith (Some (lit "v9"))).
Proof.
  apply (up_to_date_is_a_no_op Samples.sampleHost
           (extractVersionDetails Samples.sampleHost)).
  - reflexivity.
  - vm_compute. discriminate.
  - vm_compute. discriminate.
  - vm_compute. discriminate.
Defined.

Lemma acquireGameArchive_unsupported (h : Host) url path checksum allowRetry w :
  unsupportedPlatform h = true ->
  acquireGameArchive h url path checksum allowRetry w
  = (Throw UnsupportedPlatform, addEvent (EvAcquire url path checksum) w).
Proof.
  intros Hun. unfold acquireGameArchive. rewrite Hun. reflexivity.
Qed.

(** X11. On an Intel Mac, whenever [performIntelligentUpdate] has
    something to install (off the release branch, without an installed
    version, or with a non-empty plan between builds within the exact
    integer range) it throws the unsupported-platform error at the first
    acquisition: nothing is downloaded, deployed or recorded, and the
    world differs only by the logged acquisition attempt. *)
Theorem unsupported_platform_installs_nothing (h : Host)
  (targetVersion branch gameDir cacheDir toolsDir : jsstring) (w : World) :
  unsupportedPlatform h = true ->
  branch <> lit "release"
  \/ truthy (version_client w) = false
  \/ (- MAX_SAFE_INTEGER <= extractVersionNumber (version_client w)
      /\ extractVersionNumber (Some targetVersion) <= MAX_SAFE_INTEGER
      /\ needsIntermediatePatches (version_client w) (Some targetVersion)
         <> []) ->
  exists url path,
    performIntelligentUpdate h targetVersion branch gameDir cacheDir toolsDir w
    = (Throw UnsupportedPlatform, addEvent (EvAcquire url path None) w).
Proof.
  intros Hun Hwork.
  unfold performIntelligentUpdate, performIntelligentUpdateWith.
  unfold bind at 1. rewrite getInstalledClientVersion_eq.
  assert (Hfull : exists url path,
            fullInstall h (extractVersionDetails h) targetVersion branch gameDir
              cacheDir toolsDir w
            = (Throw UnsupportedPlatform, addEvent (EvAcquire url path None) w)).
  { unfold fullInstall. eexists _, _.
    erewrite bind_throw; [reflexivity|].
    apply acquireGameArchive_unsupported. exact Hun. }
  unfold str_eqb. case_bool_decide as Hbranch; cbn [negb]; [|exact Hfull].
  destruct (truthy (version_client w)) eqn:Htruthy; cbn [negb]; [|exact Hfull].
  destruct Hwork as [Hb|[Hf|(_ & _ & Hplan)]]; [congruence | congruence |].
  destruct (needsIntermediatePatches (version_client w) (Some targetVersion))
    as [|patchVersion rest]; [congruence|].
  cbn [applyPatches]. eexists _, _.
  erewrite bind_throw; [reflexivity|].
  rewrite applyPatch_eq.
  cbn [extractVersionDetails differentialUrl truthy negb orb].
  rewrite orb_true_r.
  erewrite bind_throw; [reflexivity|].
  erewrite bind_throw; [reflexivity|].
  apply acquireGameArchive_unsupported. exact Hun.
Qed.

Lemma unsupported_platform_installs_nothing_witness :
  unsupportedPlatform Fixtures.intelMacHost = true
  /\ fst (performIntelligentUpdate Fixtures.intelMacHost (lit "8.pwr")
            (lit "release") (lit "game") (lit "cache") (lit "tools")
            (Samples.worldWith (Some (lit "5.pwr"))))
     = Throw UnsupportedPlatform.
Proof.
  split; [reflexivity|].
  destruct (unsupported_platform_installs_nothing Fixtures.intelMacHost
              (lit "8.pwr") (lit "release") (lit "game") (lit "cache")
              (lit "tools") (Samples.worldWith (Some (lit "5.pwr"))))
    as (url & path & Hrun).
  - reflexivity.
  - right. right.
    split; [vm_compute; discriminate|].
    split; [vm_compute; discriminate|].
    vm_compute. discriminate.
  - rewrite Hrun. reflexivity.
Defined.

End PlanFacts.

(** ** The archive cache and failed deployments *)

Module ArchiveFacts.

Import Trace EffectFacts UpdateManager UpdateFacts.

(** Validation of a file that is there: it answers, and touches nothing
    but the log. *)
Lemma validateChecksum_present (h : Host) path checksum w content :
  files w !! path = Some content ->
  exists w',
    validateChecksum h path checksum w
    = (Ok (if truthy checksum
           then str_eqb (sha256_hex h content) (default [] checksum)
           else true), w')
    /\ files w' = files w /\ tick w' = tick w
    /\ exists evs, events w' = events w ++ evs.
Proof.
  intros Hfile. destruct checksum as [[|c cs]|].
  - exists w. cbn. repeat split; try reflexivity.
    exists []. rewrite app_nil_r. reflexivity.
  - rewrite (validateChecksum_supplied h path c cs w content Hfile).
    eexists. split; [reflexivity|]. cbn. repeat split; try reflexivity.
    exists [EvDigest path]. reflexivity.
  - exists w. cbn. repeat split; try reflexivity.
    exists []. rewrite app_nil_r. reflexivity.
Qed.

(** Once the cache is passed, the download is requested, once. *)
Lemma downloadAndValidate_asks (h : Host) url path checksum allowRetry w :
  EvDownload url path allowRetry
    ∈ events (snd (downloadAndValidate h url path checksum allowRetry w))
  /\ tick (snd (downloadAndValidate h url path checksum allowRetry w))
     = S (tick w).
Proof.
  unfold downloadAndValidate.
  erewrite bind_ok by reflexivity.
  erewrite bind_ok by reflexivity.
  cbn [tick addEvent].
  match goal with
  | |- context [match ?o with Downloaded _ => _ | DownloadError _ => _ end] =>
      destruct o as [content|message]
  end.
  - erewrite bind_ok by reflexivity.
    set (w1 := setFiles _ _).
    assert (Hfile : files w1 !! path = Some content)
      by (subst w1; cbn [setFiles files]; apply lookup_insert_eq).
    erewrite bind_ok by (unfold readFile; rewrite Hfile; reflexivity).
    destruct (validateChecksum_present h path checksum w1 content Hfile)
      as (w2 & Hrun & _ & Htick & evs & Hevs).
    erewrite bind_ok by exact Hrun.
    assert (Hin : EvDownload url path allowRetry ∈ events w2).
    { rewrite Hevs. subst w1. cbn [setFiles events nextTick addEvent].
      apply elem_of_app. left. apply elem_of_app. right.
      apply list_elem_of_singleton. reflexivity. }
    assert (Ht : tick w2 = S (tick w)) by (rewrite Htick; reflexivity).
    destruct (negb _).
    + erewrite bind_ok by reflexivity. cbn [snd throw]. split; [|exact Ht].
      cbn [setFiles events addEvent].
      apply elem_of_app. left. exact Hin.
    + cbn. split; [exact Hin | exact Ht].
  - cbn. split; [|reflexivity].
    apply elem_of_app. right. apply list_elem_of_singleton. reflexivity.
Qed.

(** X12. On a supported platform, a cached archive of more than one
    mebibyte that passes validation (its digest is the expected one, or no
    checksum is given) is returned without any download and without
    touching the files; a cached file of one mebibyte or less is never
    reused: the download is requested whatever its digest. *)
Theorem cached_archives_and_the_size_threshold (h : Host)
  (url path : jsstring) (checksum : option jsstring) (allowRetry : bool)
  (w : World) (content : list Z) :
  unsupportedPlatform h = false ->
  files w !! path = Some content ->
  (1024 * 1024 < fileSize content ->
   truthy checksum = false \/ checksum = Some (sha256_hex h content) ->
   exists w',
     acquireGameArchive h url path checksum allowRetry w = (Ok path, w')
     /\ files w' = files w /\ tick w' = tick w)
  /\ (fileSize content <= 1024 * 1024 ->
      EvDownload url path allowRetry
        ∈ events (snd (acquireGameArchive h url path checksum allowRetry w))
      /\ tick (snd (acquireGameArchive h url path checksum allowRetry w))
         = S (tick w)).
Proof.
  intros Hsupported Hfile.
  unfold acquireGameArchive.
  erewrite bind_ok by reflexivity. rewrite Hsupported.
  set (w0 := addEvent _ w).
  assert (Hfile0 : files w0 !! path = Some content) by exact Hfile.
  split.
  - intros Hbig Hvalid.
    destruct (validateChecksum_present h path checksum w0 content Hfile0)
      as (w1 & Hrun & Hfiles & Htick & _).
    assert (Hok : (if truthy checksum
                   then str_eqb (sha256_hex h content) (default [] checksum)
                   else true) = true).
    { destruct Hvalid as [Hfalsy | ->]; [rewrite Hfalsy; reflexivity|].
      destruct (truthy _); [|reflexivity].
      apply bool_decide_eq_true_2. reflexivity. }
    rewrite Hok in Hrun.
    assert (Hhit : reuseCached h path checksum w0 = (Ok true, w1)).
    { unfold reuseCached. erewrite bind_ok by reflexivity.
      rewrite Hfile0.
      replace (1024 * 1024 <? fileSize content) with true
        by (symmetry; apply Z.ltb_lt; exact Hbig).
      erewrite bind_ok by exact Hrun. reflexivity. }
    exists w1. split; [|split; [exact Hfiles | exact Htick]].
    erewrite bind_ok by exact Hhit. reflexivity.
  - intros Hsmall.
    assert (Hmiss : reuseCached h path checksum w0 = (Ok false, w0)).
    { unfold reuseCached. erewrite bind_ok by reflexivity.
      rewrite Hfile0.
      replace (1024 * 1024 <? fileSize content) with false
        by (symmetry; apply Z.ltb_ge; exact Hsmall).
      reflexivity. }
    erewrite bind_ok by exact Hmiss.
    apply (downloadAndValidate_asks h url path checksum allowRetry w0).
Qed.

Lemma cached_archives_and_the_size_threshold_witness :
  let w := Fixtures.worldWithFile None (lit "cache/release_7.pwr") [1; 2; 3] 0 in
  fileSize [1; 2; 3] <= 1024 * 1024
  /\ Samples.sampleDigest [1; 2; 3] = lit "6"
  /\ EvDownload (lit "https://host/7.pwr") (lit "cache/release_7.pwr") true
       ∈ events (snd (acquireGameArchive Samples.sampleHost
                        (lit "https://host/7.pwr") (lit "cache/release_7.pwr")
                        (Some (lit "6")) true w)).
Proof.
  intros w.
  assert (Hsmall : fileSize [1; 2; 3] <= 1024 * 1024)
    by (vm_compute; discriminate).
  split; [exact Hsmall|]. split; [reflexivity|].
  apply (proj2 (cached_archives_and_the_size_threshold Samples.sampleHost
                  (lit "https://host/7.pwr") (lit "cache/release_7.pwr")
                  (Some (lit "6")) true w [1; 2; 3] eq_refl eq_refl)).
  exact Hsmall.
Defined.

(** X13. When the deployment tool fails, [deployGameArchive] throws the
    message chosen from the tool's error text and never touches the
    installed-version record; the archive is deleted exactly when that
    text mentions an unexpected end of file, and kept otherwise. *)
Theorem truncated_archives_are_deleted (h : Host)
  (archivePath destinationDir toolsDir : jsstring) (isDifferential : bool)
  (w : World) (content butlerPath errorText : list Z) :
  files w !! archivePath = Some content ->
  archivePath <> [] ->
  installButler h (tick w) toolsDir = inl butlerPath ->
  execButler h (S (tick w)) butlerPath archivePath = ExecError errorText ->
  fst (deployGameArchive h archivePath destinationDir toolsDir isDifferential w)
  = Throw (DeploymentFailed (fst (classifyDeployError errorText)))
  /\ files (snd (deployGameArchive h archivePath destinationDir toolsDir
                   isDifferential w))
     = (if includes errorText (lit "unexpected eof")
        then delete archivePath (files w) else files w)
  /\ version_client (snd (deployGameArchive h archivePath destinationDir
                            toolsDir isDifferential w))
     = version_client w.
Proof.
  intros Hfile Hpath Hbutler Hexec.
  unfold deployGameArchive.
  erewrite bind_ok by reflexivity.
  set (w0 := addEvent _ w).
  assert (Hpresent : existsSync archivePath w0 = (Ok true, w0)).
  { unfold existsSync. subst w0. cbn [addEvent files]. rewrite Hfile.
    rewrite bool_decide_eq_true_2 by eauto. reflexivity. }
  erewrite bind_ok by exact Hpresent.
  destruct archivePath as [|c archivePath']; [congruence|].
  cbn [nonEmpty negb orb].
  erewrite bind_ok by reflexivity.
  subst w0. cbn [tick addEvent]. rewrite Hbutler.
  erewrite bind_ok by reflexivity.
  cbn [tick nextTick addEvent]. rewrite Hexec.
  unfold classifyDeployError.
  destruct (includes errorText (lit "unexpected eof")).
  - erewrite bind_ok.
    2:{ erewrite bind_ok.
        2:{ unfold existsSync. cbn [files nextTick addEvent]. rewrite Hfile.
            rewrite bool_decide_eq_true_2 by eauto. reflexivity. }
        reflexivity. }
    cbn. repeat split; reflexivity.
  - destruct (includes errorText (lit "permission denied"));
      [cbn; repeat split; reflexivity|].
    destruct (includes errorText (lit "no space left")
              || includes errorText (lit "device full"));
      cbn; repeat split; reflexivity.
Qed.

Lemma truncated_archives_are_deleted_witness :
  let w := Fixtures.worldWithFile (Some (lit "7.pwr"))
             (lit "cache/release_8.pwr") [1; 2; 3] 6 in
  fst (deployGameArchive Samples.secondStepFailsHost (lit "cache/release_8.pwr")
         (lit "game") (lit "tools") false w)
  = Throw (DeploymentFailed
             (lit "Corrupted archive detected. Please retry download."))
  /\ files (snd (deployGameArchive Samples.secondStepFailsHost
                   (lit "cache/release_8.pwr") (lit "game") (lit "tools")
                   false w))
       !! lit "cache/release_8.pwr" = None.
Proof.
  intros w.
  destruct (truncated_archives_are_deleted Samples.secondStepFailsHost
              (lit "cache/release_8.pwr") (lit "game") (lit "tools") false w
              [1; 2; 3] (lit "tools/butler") (lit "apply: unexpected eof"))
    as (Hresult & Hfiles & _).
  - reflexivity.
  - discriminate.
  - reflexivity.
  - reflexivity.
  - split; [exact Hresult|]. rewrite Hfiles. reflexivity.
Defined.

End ArchiveFacts.

(** ** The cache of the version-info document *)

Module InfosFacts.

Import EffectFacts Discovery.

Local Open Scope eff_scope.

Lemma fetchNewAPI_tail (h : Host) infos branch w :
  infosCache w = Some infos ->
  (let* w1 := get in
   match infosCache w1 with
   | None => throw (NoInfosData (platformKey h) branch)
   | Some infos =>
       match infos (platformKey h) with
       | None => throw (NoInfosData (platformKey h) branch)
       | Some platformData =>
           match platformData branch with
           | None => throw (NoInfosData (platformKey h) branch)
           | Some branchData => ret (newestPwr branchData)
           end
       end
   end) w
  = (branchAnswer h infos branch, w).
Proof.
  intros Hcache. unfold bind, get, branchAnswer. rewrite Hcache.
  destruct (infos (platformKey h)) as [platformData|]; [|reflexivity].
  destruct (platformData branch); reflexivity.
Qed.

(** X14. While the cached [/infos] document is younger than a minute,
    [fetchNewAPI] answers from it after reading the clock only, without
    any request; when it is older and the request fails or returns no
    object, the expired document still answers. In both cases the cache
    and its time stamp stay as they are. *)
Theorem cached_infos_answer (h : Host) (branch : jsstring) (w : World)
  (infos : Infos) :
  infosCache w = Some infos ->
  dateNow h (tick w) - infosCacheTime w < API_CACHE_DURATION
  \/ (exists message, axiosGetInfos h (S (tick w)) = AxiosError message)
  \/ axiosGetInfos h (S (tick w)) = AxiosResponse None ->
  exists w',
    fetchNewAPI h branch w = (branchAnswer h infos branch, w')
    /\ infosCache w' = Some infos
    /\ infosCacheTime w' = infosCacheTime w
    /\ (dateNow h (tick w) - infosCacheTime w < API_CACHE_DURATION ->
        tick w' = S (tick w)).
Proof.
  intros Hcache Hwhy.
  unfold fetchNewAPI.
  erewrite bind_ok by reflexivity.
  erewrite bind_ok by reflexivity.
  cbn [infosCache infosCacheTime nextTick]. rewrite Hcache.
  destruct (Z.ltb_spec (dateNow h (tick w) - infosCacheTime w)
              API_CACHE_DURATION) as [Hfresh|Hstale].
  - erewrite bind_ok by reflexivity.
    rewrite (fetchNewAPI_tail h infos branch) by exact Hcache.
    eexists. split; [reflexivity|].
    split; [exact Hcache|]. split; reflexivity.
  - destruct Hwhy as [Hfresh|Hfail]; [lia|].
    assert (Hkeep : catch
              (let* response := ask (axiosGetInfos h) in
               match response with
               | AxiosError message => throw (RequestFailed message)
               | AxiosResponse None => throw InvalidInfosResponse
               | AxiosResponse (Some data) =>
                   modify (setInfosCache (Some data) (dateNow h (tick w)))
               end)
              (fun error =>
                 let* w' := get in
                 match infosCache w' with
                 | None => throw error
                 | Some _ => ret tt
                 end) (nextTick w)
            = (Ok tt, nextTick (nextTick w))).
    { unfold catch, bind, ask, get. cbn [tick nextTick].
      destruct Hfail as [[message ->]| ->]; cbn; rewrite Hcache; reflexivity. }
    erewrite bind_ok by exact Hkeep.
    rewrite (fetchNewAPI_tail h infos branch) by exact Hcache.
    eexists. split; [reflexivity|].
    split; [exact Hcache|]. split; [reflexivity|]. lia.
Qed.

Lemma cached_infos_answer_witness :
  dateNow Samples.sampleHost 0 - infosCacheTime (Fixtures.worldWithCache (-100000))
  >= API_CACHE_DURATION
  /\ axiosGetInfos Samples.sampleHost 1 = AxiosError (lit "ENOTFOUND")
  /\ fst (fetchNewAPI Samples.sampleHost (lit "release")
            (Fixtures.worldWithCache (-100000)))
     = Ok (lit "9.pwr").
Proof.
  split; [vm_compute; discriminate|]. split; [reflexivity|].
  destruct (cached_infos_answer Samples.sampleHost (lit "release")
              (Fixtures.worldWithCache (-100000)) Fixtures.sampleInfos)
    as (w' & Hrun & _).
  - reflexivity.
  - right. left. exists (lit "ENOTFOUND"). reflexivity.
  - rewrite Hrun. reflexivity.
Defined.

(** X15. Without a cached document, or with one of a minute or more, a
    request that returns an object replaces the cache, stamps it with the
    time read at the start of the call, and the answer is read from the
    new document. *)
Theorem fetched_infos_are_cached (h : Host) (branch : jsstring) (w : World)
  (data : Infos) :
  infosCache w = None
  \/ API_CACHE_DURATION <= dateNow h (tick w) - infosCacheTime w ->
  axiosGetInfos h (S (tick w)) = AxiosResponse (Some data) ->
  exists w',
    fetchNewAPI h branch w = (branchAnswer h data branch, w')
    /\ infosCache w' = Some data
    /\ infosCacheTime w' = dateNow h (tick w)
    /\ tick w' = S (S (tick w)).
Proof.
  intros Hstale Hresponse.
  unfold fetchNewAPI.
  erewrite bind_ok by reflexivity.
  erewrite bind_ok by reflexivity.
  cbn [infosCache infosCacheTime nextTick].
  assert (Hnot : match infosCache w with
                 | Some _ =>
                     dateNow h (tick w) - infosCacheTime w <? API_CACHE_DURATION
                 | None => false
                 end = false).
  { destruct Hstale as [-> | Hold]; [reflexivity|].
    destruct (infosCache w); [apply Z.ltb_ge; exact Hold | reflexivity]. }
  rewrite Hnot.
  erewrite bind_ok.
  2:{ unfold catch, bind, ask. cbn [tick nextTick]. rewrite Hresponse.
      reflexivity. }
  rewrite (fetchNewAPI_tail h data branch) by reflexivity.
  eexists. split; [reflexivity|]. repeat split; reflexivity.
Qed.

Lemma fetched_infos_are_cached_witness :
  fst (fetchNewAPI (Fixtures.infosHost 5) (lit "release")
         (Samples.worldWith None))
  = Ok (lit "9.pwr")
  /\ infosCacheTime (snd (fetchNewAPI (Fixtures.infosHost 5) (lit "release")
                            (Samples.worldWith None)))
     = 5.
Proof.
  destruct (fetched_infos_are_cached (Fixtures.infosHost 5) (lit "release")
              (Samples.worldWith None) Fixtures.sampleInfos)
    as (w' & Hrun & _ & Htime & _).
  - left. reflexivity.
  - reflexivity.
  - rewrite Hrun. split; [reflexivity | exact Htime].
Defined.

End InfosFacts.

(** ** Probing for archives, and the installation check *)

Module DiscoveryFacts.

Import EffectFacts VersionFacts UpdateManager Discovery Launcher.

Lemma checkArchiveExists_eq (h : Host) axiosHead buildNumber branch w :
  checkArchiveExists h axiosHead buildNumber branch w
  = (Ok (answers200 h axiosHead branch (tick w) buildNumber), nextTick w).
Proof.
  unfold checkArchiveExists, answers200, catch, bind, ask.
  destruct (axiosHead (tick w) (buildArchiveUrl h buildNumber branch));
    reflexivity.
Qed.

(** The loop of [discoverAvailableVersions] from [i], with enough fuel. *)
Lemma probeFrom_eq (h : Host) axiosHead branch lowest :
  forall fuel i available w,
    i - lowest + 1 <= Z.of_nat fuel ->
    exists w',
      probeFrom h axiosHead fuel i lowest branch available w
      = (Ok (available
             ++ map (fun p => pwr (snd p))
                  (List.filter
                     (fun p => answers200 h axiosHead branch (fst p) (snd p))
                     (probes (Z.to_nat (i - lowest + 1)) (tick w) i))), w')
      /\ tick w' = (tick w + Z.to_nat (i - lowest + 1))%nat
      /\ files w' = files w /\ version_client w' = version_client w
      /\ events w' = events w.
Proof.
  induction fuel as [|fuel IH]; intros i available w Hfuel.
  - replace (Z.to_nat (i - lowest + 1)) with 0%nat by lia.
    exists w. cbn. rewrite app_nil_r. repeat split. lia.
  - cbn [probeFrom]. destruct (Z.leb_spec lowest i) as [Hle|Hgt].
    + erewrite bind_ok by apply checkArchiveExists_eq.
      destruct (IH (i - 1)
                  (if answers200 h axiosHead branch (tick w) i
                   then available ++ [pwr i] else available)
                  (nextTick w)) as (w' & Hrun & Htick & Hfiles & Hrec & Hev);
        [lia|].
      exists w'. rewrite Hrun.
      replace (Z.to_nat (i - lowest + 1))
        with (S (Z.to_nat (i - 1 - lowest + 1))) by lia.
      cbn [probes List.filter fst snd tick nextTick] in *.
      split.
      * f_equal. f_equal.
        destruct (answers200 h axiosHead branch (tick w) i).
        -- rewrite <- app_assoc. reflexivity.
        -- reflexivity.
      * repeat split; try assumption. lia.
    + replace (Z.to_nat (i - lowest + 1)) with 0%nat by lia.
      exists w. cbn. rewrite app_nil_r. repeat split. lia.
Qed.

Lemma probes_range count : forall t latest p,
  p ∈ probes count t latest ->
  latest - Z.of_nat count < snd p <= latest
  /\ fst p = (t + Z.to_nat (latest - snd p))%nat.
Proof.
  induction count as [|count IH]; intros t latest p Hp; cbn [probes] in Hp.
  - apply elem_of_nil in Hp. contradiction.
  - apply elem_of_cons in Hp as [->|Hp].
    + cbn. split; [lia|]. replace (latest - latest) with 0 by lia. cbn. lia.
    + apply IH in Hp as [Hr Ht]. split; [lia|]. rewrite Ht. lia.
Qed.

(** X16. For a latest known build not above MAX_SAFE_INTEGER and a
    [maxProbe] within the exact integer range,
    [discoverAvailableVersions] probes the builds from the latest known
    one downwards, one request each, never below build 1 and never more
    than [maxProbe] builds below the latest; it returns, in that
    descending order, the names [N.pwr] of exactly the builds whose probe
    was answered with status 200 (a rejected probe counts as absent), and
    changes nothing but the number of requests made. *)
Theorem discovered_versions (h : Host)
  (axiosHead : nat -> jsstring -> HeadOutcome)
  (latestKnown : option jsstring) (branch : jsstring) (maxProbe : Z)
  (w : World) :
  extractVersionNumber latestKnown <= MAX_SAFE_INTEGER ->
  - MAX_SAFE_INTEGER <= maxProbe <= MAX_SAFE_INTEGER ->
  let latest := extractVersionNumber latestKnown in
  let lowest := Z.max 1 (latest - maxProbe) in
  let count := Z.to_nat (latest - lowest + 1) in
  exists w',
    discoverAvailableVersions h axiosHead latestKnown branch maxProbe w
    = (Ok (map (fun p => pwr (snd p))
             (List.filter
                (fun p => answers200 h axiosHead branch (fst p) (snd p))
                (probes count (tick w) latest))), w')
    /\ (forall p, p ∈ probes count (tick w) latest ->
          1 <= snd p /\ latest - maxProbe <= snd p <= latest
          /\ fst p = (tick w + Z.to_nat (latest - snd p))%nat)
    /\ tick w' = (tick w + count)%nat
    /\ files w' = files w /\ version_client w' = version_client w
    /\ events w' = events w.
Proof.
  intros _ _ latest lowest count.
  destruct (probeFrom_eq h axiosHead branch lowest
              (Z.to_nat (latest - lowest + 1)) latest [] w)
    as (w' & Hrun & Htick & Hrest); [lia|].
  exists w'. split; [exact Hrun|].
  split; [|split; [exact Htick | exact Hrest]].
  intros p Hp. apply probes_range in Hp as [Hr Ht].
  subst count lowest. split; [lia|]. split; [lia | exact Ht].
Qed.

Lemma discovered_versions_witness :
  exists w',
    discoverAvailableVersions Samples.sampleHost
      (fun t _ => if Nat.even t then HeadResponse 200 else HeadResponse 404)
      (Some (lit "4.pwr")) (lit "release") 50 (Samples.worldWith None)
    = (Ok [lit "4.pwr"; lit "2.pwr"], w').
Proof.
  destruct (discovered_versions Samples.sampleHost
              (fun t _ => if Nat.even t then HeadResponse 200
                          else HeadResponse 404)
              (Some (lit "4.pwr")) (lit "release") 50 (Samples.worldWith None))
    as (w' & Hrun & _).
  - vm_compute. discriminate.
  - vm_compute. split; discriminate.
  - exists w'. rewrite Hrun. reflexivity.
Defined.

(** X17. When the installed-version record already names the target,
    [ensureGameInstalled] does nothing if the client binary is found, on
    any branch; on the release branch it does nothing either when the
    binary is not found, provided the target's build is within the exact
    integer range, because the plan from a version to itself is then
    empty. *)
Theorem recorded_target_is_not_reinstalled (h : Host)
  (findClientPath : World -> jsstring -> option jsstring)
  (targetVersion branch gameDir cacheDir toolsDir : jsstring) (w : World) :
  version_client w = Some targetVersion ->
  truthy (findClientPath w gameDir) = true
  \/ (branch = lit "release" /\ targetVersion <> []
      /\ - MAX_SAFE_INTEGER <= extractVersionNumber (Some targetVersion)
         <= MAX_SAFE_INTEGER) ->
  ensureGameInstalled h findClientPath targetVersion branch gameDir cacheDir
    toolsDir w
  = (Ok tt, w).
Proof.
  intros Hrecord Hwhy.
  unfold ensureGameInstalled.
  erewrite bind_ok by reflexivity.
  destruct (truthy (findClientPath w gameDir)) eqn:Hfound.
  - erewrite bind_ok.
    2:{ erewrite bind_ok by apply UpdateFacts.getInstalledClientVersion_eq.
        reflexivity. }
    rewrite bool_decide_eq_true_2 by exact Hrecord. reflexivity.
  - destruct Hwhy as [Hf|(-> & Hne & Hlow & Hhigh)]; [discriminate|].
    erewrite bind_ok by reflexivity.
    apply PlanFacts.performIntelligentUpdateWith_up_to_date.
    + rewrite Hrecord. destruct targetVersion; [congruence | reflexivity].
    + exact Hlow.
    + rewrite Hrecord. exact Hhigh.
    + rewrite Hrecord. lia.
Qed.

Lemma recorded_target_is_not_reinstalled_witness :
  ensureGameInstalled Samples.sampleHost (fun _ _ => None) (lit "8.pwr")
    (lit "release") (lit "game") (lit "cache") (lit "tools")
    (Samples.worldWith (Some (lit "8.pwr")))
  = (Ok tt, Samples.worldWith (Some (lit "8.pwr"))).
Proof.
  apply recorded_target_is_not_reinstalled.
  - reflexivity.
  - right. split; [reflexivity|]. split; [discriminate|].
    vm_compute. split; discriminate.
Defined.

End DiscoveryFacts.

(** ** The DualAuth agent *)

Module AgentFacts.

Import EffectFacts UpdateManager Agent.

Local Open Scope eff_scope.

Lemma tmp_differs (p : jsstring) : p ++ lit ".tmp" <> p.
Proof.
  intros H. apply (f_equal length) in H. rewrite length_app in H.
  cbn in H. lia.
Qed.

Section WithHost.
Variable h : Host.
Variable smartDownloadStream : nat -> jsstring -> StreamOutcome.

(** The check of [ensureAgentAvailable]: after it, either the agent is in
    place and large enough, or there is no agent file, a too small one
    having been deleted. *)
Lemma agent_check serverDir w :
  exists ready w1,
    (let* present := existsSync (getAgentPath h serverDir) in
     if present then
       catch
         (let* stats := readFile (getAgentPath h serverDir) in
          if 1024 <? fileSize stats then ret true
          else do unlinkSync (getAgentPath h serverDir) then ret false)
         (fun _ => ret false)
     else ret false) w = (Ok ready, w1)
    /\ tick w1 = tick w
    /\ version_client w1 = version_client w
    /\ if ready
       then w1 = w
            /\ exists content,
                 files w !! getAgentPath h serverDir = Some content
                 /\ 1024 < fileSize content
       else files w1 = delete (getAgentPath h serverDir) (files w)
            /\ (is_Some (files w !! getAgentPath h serverDir) ->
                EvUnlink (getAgentPath h serverDir) ∈ events w1).
Proof.
  unfold bind at 1, existsSync.
  destruct (files w !! getAgentPath h serverDir) as [content|] eqn:Hfile.
  - rewrite bool_decide_eq_true_2 by eauto.
    unfold catch.
    erewrite bind_ok by (unfold readFile; rewrite Hfile; reflexivity).
    destruct (Z.ltb_spec 1024 (fileSize content)).
    + exists true, w.
      split; [reflexivity|]. split; [reflexivity|]. split; [reflexivity|].
      split; [reflexivity|]. exists content. split; [reflexivity | assumption].
    + eexists false, _.
      split; [reflexivity|]. split; [reflexivity|]. split; [reflexivity|].
      split; [reflexivity|]. intros _.
      cbn [setFiles events addEvent].
      apply elem_of_app. right. apply list_elem_of_singleton. reflexivity.
  - rewrite bool_decide_eq_false_2 by (intros [? ?]; congruence).
    exists false, w.
    split; [reflexivity|]. split; [reflexivity|]. split; [reflexivity|].
    split.
    + symmetry. apply delete_id. exact Hfile.
    + intros [? ?]. congruence.
Qed.

(** The [catch] block of [ensureAgentAvailable]: the temporary file, if
    there is one, is removed. *)
Lemma agent_cleanup agentPath error w2 :
  files w2 !! agentPath = None ->
  exists w3,
    (let* left := existsSync (agentPath ++ lit ".tmp") in
     do (if left then unlinkSync (agentPath ++ lit ".tmp") else ret tt) then
     ret (AgentFailed (Caught error))) w2
    = (Ok (AgentFailed (Caught error)), w3)
    /\ version_client w3 = version_client w2
    /\ tick w3 = tick w2
    /\ (exists evs, events w3 = events w2 ++ evs)
    /\ files w3 !! agentPath = None
    /\ files w3 !! (agentPath ++ lit ".tmp") = None.
Proof.
  intros Hagent.
  pose proof (tmp_differs agentPath) as Hdiff.
  unfold bind at 1, existsSync.
  destruct (files w2 !! (agentPath ++ lit ".tmp")) as [part|] eqn:Htmp.
  - rewrite bool_decide_eq_true_2 by eauto.
    erewrite bind_ok by reflexivity.
    eexists. split; [reflexivity|].
    cbn [setFiles files addEvent version_client tick events].
    split; [reflexivity|]. split; [reflexivity|].
    split; [eexists; reflexivity|]. split.
    + rewrite lookup_delete_ne by exact Hdiff. exact Hagent.
    + apply lookup_delete_eq.
  - rewrite bool_decide_eq_false_2 by (intros [? ?]; congruence).
    erewrite bind_ok by reflexivity.
    eexists. split; [reflexivity|].
    split; [reflexivity|]. split; [reflexivity|].
    split; [exists []; rewrite app_nil_r; reflexivity|].
    split; [exact Hagent | exact Htmp].
Qed.

(** The [try] and [catch] blocks, with no agent in place: a finished
    download of at least 1024 bytes becomes the agent; in every other
    case no agent and no temporary file are there when the [catch] block
    or the size check is done. *)
Lemma installDownloaded_cases outcome agentPath w2 :
  files w2 !! agentPath = None ->
  exists result w3,
    installDownloaded outcome agentPath w2 = (Ok result, w3)
    /\ version_client w3 = version_client w2
    /\ tick w3 = tick w2
    /\ (exists evs, events w3 = events w2 ++ evs)
    /\ files w3 !! (agentPath ++ lit ".tmp") = None
    /\ match result with
       | AgentReady p alreadyExists =>
           p = agentPath /\ alreadyExists = false
           /\ exists content,
                outcome = StreamFinished content
                /\ files w3 !! agentPath = Some content
                /\ 1024 <= fileSize content
       | AgentFailed _ =>
           files w3 !! agentPath = None
           /\ forall content,
                outcome = StreamFinished content -> fileSize content < 1024
       end.
Proof.
  intros Hagent.
  pose proof (tmp_differs agentPath) as Hdiff.
  unfold installDownloaded, catch.
  destruct outcome as [content|written message].
  - erewrite bind_ok by reflexivity.
    set (w2' := setFiles _ _).
    assert (Htmp : files w2' !! (agentPath ++ lit ".tmp") = Some content)
      by (subst w2'; cbn [setFiles files]; apply lookup_insert_eq).
    assert (Hagent' : files w2' !! agentPath = None).
    { subst w2'. cbn [setFiles files].
      rewrite lookup_insert_ne by exact Hdiff. exact Hagent. }
    erewrite bind_ok by (unfold readFile; rewrite Htmp; reflexivity).
    destruct (Z.ltb_spec (fileSize content) 1024) as [Hsmall|Hbig].
    + erewrite bind_ok by reflexivity.
      eexists _, _. split; [reflexivity|].
      cbn [setFiles files addEvent version_client tick events].
      split; [reflexivity|]. split; [reflexivity|].
      split; [eexists; reflexivity|].
      split; [apply lookup_delete_eq|].
      split; [rewrite lookup_delete_ne by exact Hdiff; exact Hagent'|].
      intros content' [= <-]. exact Hsmall.
    + erewrite bind_ok.
      2:{ unfold existsSync. rewrite Hagent'.
          rewrite bool_decide_eq_false_2 by (intros [? ?]; congruence).
          reflexivity. }
      erewrite bind_ok by reflexivity.
      erewrite bind_ok.
      2:{ unfold renameSync.
          erewrite bind_ok by (unfold readFile; rewrite Htmp; reflexivity).
          reflexivity. }
      eexists _, _. split; [reflexivity|].
      cbn [setFiles files version_client tick events].
      split; [reflexivity|]. split; [reflexivity|].
      split; [exists []; rewrite app_nil_r; reflexivity|].
      split.
      { rewrite lookup_insert_ne by (intros E; apply Hdiff; symmetry; exact E).
        apply lookup_delete_eq. }
      split; [reflexivity|]. split; [reflexivity|].
      exists content. split; [reflexivity|].
      split; [apply lookup_insert_eq | exact Hbig].
  - destruct written as [part|]; erewrite bind_throw by reflexivity.
    + destruct (agent_cleanup agentPath (RequestFailed message)
                  (setFiles (<[agentPath ++ lit ".tmp" := part]> (files w2)) w2))
        as (w3 & Hrun & Hrec3 & Htick3 & Hev3 & Hfiles3 & Htmp3).
      { cbn [setFiles files].
        rewrite lookup_insert_ne by exact Hdiff. exact Hagent. }
      exists (AgentFailed (Caught (RequestFailed message))), w3.
      split; [exact Hrun|]. split; [exact Hrec3|]. split; [exact Htick3|].
      split; [exact Hev3|]. split; [exact Htmp3|].
      split; [exact Hfiles3 | discriminate].
    + destruct (agent_cleanup agentPath (RequestFailed message) w2 Hagent)
        as (w3 & Hrun & Hrec3 & Htick3 & Hev3 & Hfiles3 & Htmp3).
      exists (AgentFailed (Caught (RequestFailed message))), w3.
      split; [exact Hrun|]. split; [exact Hrec3|]. split; [exact Htick3|].
      split; [exact Hev3|]. split; [exact Htmp3|].
      split; [exact Hfiles3 | discriminate].
Qed.

(** Every way [ensureAgentAvailable] can go. *)
Lemma ensureAgentAvailable_cases serverDir w :
  exists result w',
    ensureAgentAvailable h smartDownloadStream serverDir w = (Ok result, w')
    /\ version_client w' = version_client w
    /\ match result with
       | AgentReady p true =>
           p = getAgentPath h serverDir /\ w' = w
           /\ exists content,
                files w !! getAgentPath h serverDir = Some content
                /\ 1024 < fileSize content
       | AgentReady p false =>
           p = getAgentPath h serverDir
           /\ (exists content,
                 smartDownloadStream (tick w) DUALAUTH_AGENT_URL
                 = StreamFinished content
                 /\ files w' !! getAgentPath h serverDir = Some content
                 /\ 1024 <= fileSize content)
           /\ files w' !! (getAgentPath h serverDir ++ lit ".tmp") = None
           /\ tick w' = S (tick w)
           /\ (is_Some (files w !! getAgentPath h serverDir) ->
               EvUnlink (getAgentPath h serverDir) ∈ events w')
       | AgentFailed _ =>
           (forall content,
              smartDownloadStream (tick w) DUALAUTH_AGENT_URL
              = StreamFinished content ->
              fileSize content < 1024)
           /\ files w' !! getAgentPath h serverDir = None
           /\ files w' !! (getAgentPath h serverDir ++ lit ".tmp")
              = match smartDownloadStream (tick w) DUALAUTH_AGENT_URL with
                | StreamFailed None _ => Some []
                | _ => None
                end
           /\ tick w' = S (tick w)
           /\ (is_Some (files w !! getAgentPath h serverDir) ->
               EvUnlink (getAgentPath h serverDir) ∈ events w')
       end.
Proof.
  pose proof (tmp_differs (getAgentPath h serverDir)) as Hdiff.
  destruct (agent_check serverDir w)
    as (ready & w1 & Hcheck & Htick & Hrec & Hready).
  unfold ensureAgentAvailable.
  rewrite <- bind_assoc.
  erewrite bind_ok by exact Hcheck.
  destruct ready.
  { destruct Hready as (-> & content & Hfile & Hbig).
    eexists _, _. split; [reflexivity|]. split; [reflexivity|].
    split; [reflexivity|]. split; [reflexivity|]. eauto. }
  destruct Hready as [Hgone Hunlinked].
  erewrite bind_ok by reflexivity.
  rewrite Htick.
  destruct (installDownloaded_cases
              (smartDownloadStream (tick w) DUALAUTH_AGENT_URL)
              (getAgentPath h serverDir) (nextTick w1))
    as (result & w3 & Hrun & Hrec3 & Htick3 & (evs & Hev3) & Htmp3 & Hresult).
  { cbn [files nextTick]. rewrite Hgone. apply lookup_delete_eq. }
  erewrite bind_ok by exact Hrun.
  assert (Hunlinked3 : is_Some (files w !! getAgentPath h serverDir) ->
                       EvUnlink (getAgentPath h serverDir) ∈ events w3).
  { intros Hsome. rewrite Hev3. apply elem_of_app. left.
    cbn [events nextTick]. apply Hunlinked. exact Hsome. }
  assert (Hticks : tick w3 = S (tick w))
    by (rewrite Htick3; cbn [tick nextTick]; rewrite Htick; reflexivity).
  assert (Hrecs : version_client w3 = version_client w)
    by (rewrite Hrec3; exact Hrec).
  destruct result as [p alreadyExists|error].
  - destruct Hresult as (-> & -> & content & Hstream & Hfile & Hbig).
    rewrite Hstream. erewrite bind_ok by reflexivity.
    exists (AgentReady (getAgentPath h serverDir) false), w3.
    split; [reflexivity|]. split; [exact Hrecs|]. split; [reflexivity|].
    split; [exists content; auto|].
    split; [exact Htmp3|]. split; [exact Hticks | exact Hunlinked3].
  - destruct Hresult as [Hnone Hwhy].
    destruct (smartDownloadStream (tick w) DUALAUTH_AGENT_URL)
      as [content|[part|] message];
      erewrite bind_ok by reflexivity.
    + exists (AgentFailed error), w3.
      split; [reflexivity|]. split; [exact Hrecs|]. split; [exact Hwhy|].
      split; [exact Hnone|].
      split; [exact Htmp3|]. split; [exact Hticks | exact Hunlinked3].
    + exists (AgentFailed error), w3.
      split; [reflexivity|]. split; [exact Hrecs|]. split; [exact Hwhy|].
      split; [exact Hnone|].
      split; [exact Htmp3|]. split; [exact Hticks | exact Hunlinked3].
    + eexists (AgentFailed error), _.
      split; [reflexivity|].
      cbn [setFiles files version_client tick events].
      split; [exact Hrecs|]. split; [exact Hwhy|].
      split; [rewrite lookup_insert_ne by exact Hdiff; exact Hnone|].
      split; [apply lookup_insert_eq|].
      split; [exact Hticks | exact Hunlinked3].
Qed.

End WithHost.

(** A finished download of at least 1024 bytes, with no agent in place,
    installs the agent. *)
Lemma agent_downloaded (h : Host) smartDownloadStream serverDir w content :
  files w !! getAgentPath h serverDir = None ->
  smartDownloadStream (tick w) DUALAUTH_AGENT_URL = StreamFinished content ->
  1024 <= fileSize content ->
  exists w',
    ensureAgentAvailable h smartDownloadStream serverDir w
    = (Ok (AgentReady (getAgentPath h serverDir) false), w')
    /\ files w' !! getAgentPath h serverDir = Some content.
Proof.
  intros Hnone Hstream Hsize.
  destruct (ensureAgentAvailable_cases h smartDownloadStream serverDir w)
    as (result & w' & Hrun & _ & Hcases).
  exists w'. rewrite Hstream in Hcases.
  destruct result as [p [|]|error].
  - destruct Hcases as (_ & _ & content' & Hfile & _). congruence.
  - destruct Hcases as (-> & (content' & [= <-] & Hfile & _) & _).
    split; [exact Hrun | exact Hfile].
  - destruct Hcases as (Hwhy & _). specialize (Hwhy content eq_refl). lia.
Qed.

(** X18. An agent file of more than 1024 bytes is reported as already
    there, and [ensureAgentAvailable] leaves the world exactly as it was:
    no request, no file touched. *)
Theorem valid_agent_is_kept (h : Host)
  (smartDownloadStream : nat -> jsstring -> StreamOutcome)
  (serverDir : jsstring) (w : World) (content : list Z) :
  files w !! getAgentPath h serverDir = Some content ->
  1024 < fileSize content ->
  ensureAgentAvailable h smartDownloadStream serverDir w
  = (Ok (AgentReady (getAgentPath h serverDir) true), w).
Proof.
  intros Hfile Hbig. unfold ensureAgentAvailable.
  erewrite bind_ok.
  2:{ unfold existsSync. rewrite Hfile.
      rewrite bool_decide_eq_true_2 by eauto. reflexivity. }
  erewrite bind_ok.
  2:{ unfold catch.
      erewrite bind_ok by (unfold readFile; rewrite Hfile; reflexivity).
      replace (1024 <? fileSize content) with true
        by (symmetry; apply Z.ltb_lt; exact Hbig).
      reflexivity. }
  reflexivity.
Qed.

Lemma valid_agent_is_kept_witness :
  let w := Fixtures.worldWithFile None (lit "game/Server/dualauth-agent.jar")
             (repeat 0 1025) 0 in
  1024 < fileSize (repeat 0 1025)
  /\ ensureAgentAvailable Samples.sampleHost (Fixtures.zeroStream 0)
       (lit "game/Server") w
     = (Ok (AgentReady (lit "game/Server/dualauth-agent.jar") true), w).
Proof.
  intros w.
  assert (Hbig : 1024 < fileSize (repeat 0 1025)) by (vm_compute; reflexivity).
  split; [exact Hbig|].
  apply (valid_agent_is_kept Samples.sampleHost (Fixtures.zeroStream 0)
           (lit "game/Server") w (repeat 0 1025)).
  - vm_compute. reflexivity.
  - exact Hbig.
Defined.

(** X19. [ensureAgentAvailable] never throws, never touches the
    installed-version record, and ends in one of three ways: the agent was
    already there, larger than 1024 bytes, and nothing changed; or one
    request was made, the agent file now holds the whole downloaded
    content, of at least 1024 bytes, and no temporary file is left; or it
    reports a failure after one request, which it does only when the
    download failed or has fewer than 1024 bytes, and then no agent file
    is left, and no temporary file either, except when the request was
    rejected before the temporary file was opened: the clean-up then
    comes too early and an empty temporary file stays behind. A too small
    agent found at the start is deleted in the last two cases. *)
Theorem agent_download_outcomes (h : Host)
  (smartDownloadStream : nat -> jsstring -> StreamOutcome)
  (serverDir : jsstring) (w : World) :
  exists result w',
    ensureAgentAvailable h smartDownloadStream serverDir w = (Ok result, w')
    /\ version_client w' = version_client w
    /\ match result with
       | AgentReady p true =>
           p = getAgentPath h serverDir /\ w' = w
           /\ exists content,
                files w !! getAgentPath h serverDir = Some content
                /\ 1024 < fileSize content
       | AgentReady p false =>
           p = getAgentPath h serverDir
           /\ (exists content,
                 smartDownloadStream (tick w) DUALAUTH_AGENT_URL
                 = StreamFinished content
                 /\ files w' !! getAgentPath h serverDir = Some content
                 /\ 1024 <= fileSize content)
           /\ files w' !! (getAgentPath h serverDir ++ lit ".tmp") = None
           /\ tick w' = S (tick w)
           /\ (is_Some (files w !! getAgentPath h serverDir) ->
               EvUnlink (getAgentPath h serverDir) ∈ events w')
       | AgentFailed _ =>
           (forall content,
              smartDownloadStream (tick w) DUALAUTH_AGENT_URL
              = StreamFinished content ->
              fileSize content < 1024)
           /\ files w' !! getAgentPath h serverDir = None
           /\ files w' !! (getAgentPath h serverDir ++ lit ".tmp")
              = match smartDownloadStream (tick w) DUALAUTH_AGENT_URL with
                | StreamFailed None _ => Some []
                | _ => None
                end
           /\ tick w' = S (tick w)
           /\ (is_Some (files w !! getAgentPath h serverDir) ->
               EvUnlink (getAgentPath h serverDir) ∈ events w')
       end.
Proof. apply ensureAgentAvailable_cases. Qed.

(** X20. The two size checks disagree at exactly 1024 bytes: a download
    of that size is accepted and installed as the agent, and the next call
    does not find it large enough, deletes it and requests the download
    again. *)
Theorem agent_of_exactly_1024_bytes (h : Host)
  (smartDownloadStream : nat -> jsstring -> StreamOutcome)
  (serverDir : jsstring) (w : World) (content : list Z) :
  files w !! getAgentPath h serverDir = None ->
  smartDownloadStream (tick w) DUALAUTH_AGENT_URL = StreamFinished content ->
  fileSize content = 1024 ->
  exists w1,
    ensureAgentAvailable h smartDownloadStream serverDir w
    = (Ok (AgentReady (getAgentPath h serverDir) false), w1)
    /\ files w1 !! getAgentPath h serverDir = Some content
    /\ exists result w2,
         ensureAgentAvailable h smartDownloadStream serverDir w1
         = (Ok result, w2)
         /\ result <> AgentReady (getAgentPath h serverDir) true
         /\ EvUnlink (getAgentPath h serverDir) ∈ events w2
         /\ tick w2 = S (tick w1).
Proof.
  intros Hnone Hstream Hsize.
  destruct (agent_downloaded h smartDownloadStream serverDir w content
              Hnone Hstream) as (w1 & Hrun & Hfile); [lia|].
  exists w1. split; [exact Hrun|]. split; [exact Hfile|].
  destruct (ensureAgentAvailable_cases h smartDownloadStream serverDir w1)
    as (result & w2 & Hrun2 & _ & Hcases).
  exists result, w2. split; [exact Hrun2|].
  destruct result as [p [|]|error].
  - destruct Hcases as (_ & _ & content' & Hfile' & Hbig).
    rewrite Hfile in Hfile'. injection Hfile' as <-. lia.
  - destruct Hcases as (_ & _ & _ & Htick & Hunlink).
    split; [discriminate|]. split; [apply Hunlink; eauto | exact Htick].
  - destruct Hcases as (_ & _ & _ & Htick & Hunlink).
    split; [discriminate|]. split; [apply Hunlink; eauto | exact Htick].
Qed.

Lemma agent_of_exactly_1024_bytes_witness :
  fileSize (repeat 0 1024) = 1024
  /\ exists w1,
       ensureAgentAvailable Samples.sampleHost (Fixtures.zeroStream 1024)
         (lit "game/Server") (Samples.worldWith None)
       = (Ok (AgentReady (lit "game/Server/dualauth-agent.jar") false), w1)
       /\ exists result w2,
            ensureAgentAvailable Samples.sampleHost (Fixtures.zeroStream 1024)
              (lit "game/Server") w1
            = (Ok result, w2)
            /\ result <> AgentReady (lit "game/Server/dualauth-agent.jar") true.
Proof.
  assert (Hsize : fileSize (repeat 0 1024) = 1024) by (vm_compute; reflexivity).
  split; [exact Hsize|].
  destruct (agent_of_exactly_1024_bytes Samples.sampleHost
              (Fixtures.zeroStream 1024) (lit "game/Server")
              (Samples.worldWith None) (repeat 0 1024))
    as (w1 & Hrun & _ & result & w2 & Hrun2 & Hnot & _).
  - reflexivity.
  - reflexivity.
  - exact Hsize.
  - exists w1. split; [exact Hrun|]. exists result, w2.
    split; [exact Hrun2 | exact Hnot].
Defined.

End AgentFacts.

(** ** core/config: loading and saving *)

Module ConfigFacts.

Import ConfigStore.

Local Open Scope store_scope.

Lemma cfg_bind_returns {A B} (m : Cfg A) (k : A -> Cfg B) st a st1 :
  m st = (Returns a, st1) -> bind m k st = k a st1.
Proof. intros H. unfold bind. rewrite H. reflexivity. Qed.

Lemma cfg_bind_throws {A B} (m : Cfg A) (k : A -> Cfg B) st message st1 :
  m st = (Throws message, st1) -> bind m k st = (Throws message, st1).
Proof. intros H. unfold bind. rewrite H. reflexivity. Qed.


Lemma validateConfig_empty : validateConfig (Object emptyConfig) = true.
Proof. reflexivity. Qed.

Lemma loadConfig_eq st : loadConfig st = (Returns (loaded st), healed st).
Proof.
  unfold loaded, healed, loadConfig.
  destruct (readConfig (CONFIG_FILE st)); [reflexivity|].
  destruct (readConfig (CONFIG_BACKUP st)); reflexivity.
Qed.


(** What [loadConfig] returns and leaves depends on the two files only. *)
Lemma loaded_files st st' :
  CONFIG_FILE st' = CONFIG_FILE st -> CONFIG_BACKUP st' = CONFIG_BACKUP st ->
  loaded st' = loaded st
  /\ CONFIG_FILE (healed st') = CONFIG_FILE (healed st)
  /\ CONFIG_BACKUP (healed st') = CONFIG_BACKUP (healed st)
  /\ CONFIG_TEMP (healed st') = CONFIG_TEMP st'
  /\ calls (healed st') = calls st'.
Proof.
  intros Hp Hb. unfold loaded, healed, loadConfig. rewrite Hp, Hb.
  destruct (readConfig (CONFIG_FILE st)); [cbn; auto|].
  destruct (readConfig (CONFIG_BACKUP st)); cbn; auto.
Qed.

Lemma healed_backup st : CONFIG_BACKUP (healed st) = CONFIG_BACKUP st.
Proof.
  unfold healed, loadConfig.
  destruct (readConfig (CONFIG_FILE st)); [reflexivity|].
  destruct (readConfig (CONFIG_BACKUP st)); reflexivity.
Qed.


Lemma healed_calls st : calls (healed st) = calls st.
Proof.
  unfold healed, loadConfig.
  destruct (readConfig (CONFIG_FILE st)); [reflexivity|].
  destruct (readConfig (CONFIG_BACKUP st)); reflexivity.
Qed.

(** After [loadConfig], the primary file is readable whenever one of the
    two files was, and another [loadConfig] changes nothing. *)
Lemma healed_healed st :
  healed (healed st) = healed st /\ loaded (healed st) = loaded st.
Proof.
  unfold healed, loaded, loadConfig.
  destruct (readConfig (CONFIG_FILE st)) as [c|] eqn:Hp.
  - cbn [fst snd]. rewrite Hp. auto.
  - destruct (readConfig (CONFIG_BACKUP st)) as [c|] eqn:Hb.
    + cbn [fst snd setConfigFile CONFIG_FILE CONFIG_BACKUP]. rewrite Hb. auto.
    + cbn [fst snd]. rewrite Hp, Hb. auto.
Qed.



Lemma backedUp_unusable current backup :
  readConfig current = None -> readConfig backup = None ->
  readConfig (backedUp current backup) = None.
Proof. intros Hc Hb. destruct current as [[| |v]|]; assumption. Qed.

Lemma backedUp_again current backup :
  backedUp current (backedUp current backup) = backedUp current backup.
Proof. destruct current as [[| |v]|]; reflexivity. Qed.

Lemma retrying_refl st : retrying st st.
Proof. split; [reflexivity|]. split; [reflexivity|]. left. reflexivity. Qed.

(** A store with the primary file as [loadConfig] left it in [st], and
    with the backup of [st] or a copy of that primary file, reads as [st]
    does. *)
Lemma retrying_settled st s :
  CONFIG_FILE s = CONFIG_FILE (healed st) ->
  CONFIG_BACKUP s = CONFIG_BACKUP st
  \/ CONFIG_BACKUP s = backedUp (CONFIG_FILE (healed st)) (CONFIG_BACKUP st) ->
  retrying st s /\ CONFIG_FILE (healed s) = CONFIG_FILE s.
Proof.
  intros Hfile Hbackup.
  assert (Hgoal : loaded s = loaded st /\ CONFIG_FILE (healed s) = CONFIG_FILE s).
  { revert Hfile Hbackup. unfold loaded, healed, loadConfig.
    destruct (readConfig (CONFIG_FILE st)) as [c|] eqn:Hp.
    - cbn [fst snd]. intros Hf _. rewrite Hf, Hp. cbn [fst snd]. auto.
    - destruct (readConfig (CONFIG_BACKUP st)) as [c|] eqn:Hb.
      + cbn [fst snd setConfigFile CONFIG_FILE]. intros Hf _. rewrite Hf, Hb.
        cbn [fst snd]. auto.
      + cbn [fst snd]. intros Hf Hbk. rewrite Hf, Hp.
        assert (Hnone : readConfig (CONFIG_BACKUP s) = None).
        { destruct Hbk as [->| ->]; [exact Hb|].
          apply backedUp_unusable; assumption. }
        rewrite Hnone. cbn [fst snd]. auto. }
  destruct Hgoal as [Hloaded Hhealed].
  split; [|exact Hhealed]. split; [exact Hloaded|].
  split; [rewrite Hhealed; exact Hfile | exact Hbackup].
Qed.

Section Saving.
Variable host : ConfigHost.
Variable update : Update.

(** One attempt of [saveConfig]: the write of the temporary file fails, or
    the merged configuration is rejected, or the rename fails after the
    copy to the backup, or the files are replaced. *)
Lemma saveAttempt_cases sk :
  match writeFileError host (calls sk) with
  | Some message =>
      saveAttempt host (calls sk) update sk
      = (Throws message, nextCall (healed sk))
  | None =>
      if validateConfig (Object (merge (loaded sk) update))
      then
        match renameError host (calls sk) with
        | Some message =>
            saveAttempt host (calls sk) update sk
            = (Throws message,
               {| CONFIG_FILE := CONFIG_FILE (healed sk);
                  CONFIG_BACKUP :=
                    if backupCopyFails host (calls sk) then CONFIG_BACKUP sk
                    else backedUp (CONFIG_FILE (healed sk)) (CONFIG_BACKUP sk);
                  CONFIG_TEMP := Some (Json (Object (merge (loaded sk) update)));
                  calls := S (calls sk) |})
        | None =>
            saveAttempt host (calls sk) update sk
            = (Returns tt,
               {| CONFIG_FILE := Some (Json (Object (merge (loaded sk) update)));
                  CONFIG_BACKUP :=
                    if backupCopyFails host (calls sk) then CONFIG_BACKUP sk
                    else backedUp (CONFIG_FILE (healed sk)) (CONFIG_BACKUP sk);
                  CONFIG_TEMP := None;
                  calls := S (calls sk) |})
        end
      else
        saveAttempt host (calls sk) update sk
        = (Throws (lit "Config validation failed after write"),
           setConfigTemp (Some (Json (Object (merge (loaded sk) update))))
             (nextCall (healed sk)))
  end.
Proof.
  assert (Hask : forall st0 : Store,
            ask (writeFileError host) (healed st0)
            = (Returns (writeFileError host (calls st0)), nextCall (healed st0))).
  { intros st0. unfold ask. rewrite healed_calls. reflexivity. }
  unfold saveAttempt.
  rewrite (cfg_bind_returns _ _ _ _ _ (loadConfig_eq sk)).
  rewrite (cfg_bind_returns _ _ _ _ _ (Hask sk)).
  destruct (writeFileError host (calls sk)) as [message|]; [reflexivity|].
  destruct (validateConfig (Object (merge (loaded sk) update))); cbn [negb];
    [|reflexivity].
  pose proof (healed_backup sk) as Hb. pose proof (healed_calls sk) as Hc.
  unfold bind, modify, backupCurrent, ret, throw.
  cbn [setConfigTemp nextCall CONFIG_FILE CONFIG_BACKUP CONFIG_TEMP calls].
  destruct (healed sk) as [file backup temp n].
  cbn [CONFIG_FILE CONFIG_BACKUP CONFIG_TEMP calls] in *. subst backup n.
  destruct (backupCopyFails host (calls sk));
    destruct (renameError host (calls sk)) as [message|];
    try reflexivity;
    destruct file as [[| |v]|]; reflexivity.
Qed.

(** One round of the retry loop, started in a store of the kind the loop
    goes through: it returns, or goes on with the next round from another
    store of that kind. *)
Lemma saveConfigFrom_round st sk remaining lastError :
  retrying st sk ->
  (exists st',
     saveConfigFrom host (S remaining) lastError update sk = (Returns tt, st')
     /\ writeFileError host (calls sk) = None
     /\ validateConfig (Object (merge (loaded st) update)) = true
     /\ renameError host (calls sk) = None
     /\ CONFIG_FILE st' = Some (Json (Object (merge (loaded st) update)))
     /\ CONFIG_BACKUP st'
        = (if backupCopyFails host (calls sk) then CONFIG_BACKUP sk
           else backedUp (CONFIG_FILE (healed st)) (CONFIG_BACKUP sk))
     /\ CONFIG_TEMP st' = None
     /\ calls st' = S (calls sk))
  \/ (exists message sk',
        saveConfigFrom host (S remaining) lastError update sk
        = saveConfigFrom host remaining message update sk'
        /\ (writeFileError host (calls sk) = Some message
            \/ (writeFileError host (calls sk) = None
                /\ validateConfig (Object (merge (loaded st) update)) = false
                /\ message = lit "Config validation failed after write")
            \/ (writeFileError host (calls sk) = None
                /\ validateConfig (Object (merge (loaded st) update)) = true
                /\ renameError host (calls sk) = Some message))
        /\ retrying st sk'
        /\ CONFIG_FILE sk' = CONFIG_FILE (healed st)
        /\ calls sk' = S (calls sk)
        /\ (unlinkFails host (calls sk) = false -> CONFIG_TEMP sk' = None)
        /\ (renameError host (calls sk) = None
            \/ writeFileError host (calls sk) <> None
            \/ validateConfig (Object (merge (loaded st) update)) = false ->
            CONFIG_BACKUP sk' = CONFIG_BACKUP sk)).
Proof.
  intros (Hloaded & Hfile & Hbackup).
  pose proof (saveAttempt_cases sk) as Hcases.
  rewrite Hloaded, Hfile in Hcases.
  cbn [saveConfigFrom].
  rewrite (cfg_bind_returns called _ sk (calls sk) sk eq_refl).
  unfold catch.
  assert (Hnext : forall message s1,
            CONFIG_FILE s1 = CONFIG_FILE (healed st) ->
            (CONFIG_BACKUP s1 = CONFIG_BACKUP sk
             \/ CONFIG_BACKUP s1
                = backedUp (CONFIG_FILE (healed st)) (CONFIG_BACKUP sk)) ->
            calls s1 = S (calls sk) ->
            exists sk',
              (do cleanTemp host (calls sk) then
               saveConfigFrom host remaining message update) s1
              = saveConfigFrom host remaining message update sk'
              /\ retrying st sk'
              /\ CONFIG_FILE sk' = CONFIG_FILE (healed st)
              /\ calls sk' = S (calls sk)
              /\ (unlinkFails host (calls sk) = false -> CONFIG_TEMP sk' = None)
              /\ CONFIG_BACKUP sk' = CONFIG_BACKUP s1).
  { intros message s1 Hf1 Hb1 Hc1.
    exists (if unlinkFails host (calls sk) then s1 else setConfigTemp None s1).
    split; [reflexivity|].
    assert (Hb1' : CONFIG_BACKUP s1 = CONFIG_BACKUP st
                   \/ CONFIG_BACKUP s1
                      = backedUp (CONFIG_FILE (healed st)) (CONFIG_BACKUP st)).
    { destruct Hb1 as [->| ->]; [exact Hbackup|].
      destruct Hbackup as [->| ->]; [right; reflexivity|].
      right. apply backedUp_again. }
    destruct (unlinkFails host (calls sk)).
    - split; [apply (retrying_settled st s1 Hf1 Hb1')|].
      split; [exact Hf1|].
      split; [exact Hc1|]. split; [discriminate | reflexivity].
    - split; [apply (retrying_settled st (setConfigTemp None s1) Hf1 Hb1')|].
      split; [exact Hf1|].
      split; [exact Hc1|]. split; reflexivity. }
  destruct (writeFileError host (calls sk)) as [message|] eqn:Hwrite.
  { right. rewrite Hcases.
    destruct (Hnext message (nextCall (healed sk)))
      as (sk' & Hrun & Hretry & Hsettled & Hcalls & Htemp & Hbk).
    - exact Hfile.
    - left. apply healed_backup.
    - cbn. rewrite healed_calls. reflexivity.
    - exists message, sk'. split; [exact Hrun|]. split; [left; reflexivity|].
      split; [exact Hretry|]. split; [exact Hsettled|].
      split; [exact Hcalls|]. split; [exact Htemp|].
      intros _. rewrite Hbk. apply healed_backup. }
  destruct (validateConfig (Object (merge (loaded st) update))) eqn:Hvalid.
  2:{ right. rewrite Hcases.
      destruct (Hnext (lit "Config validation failed after write")
                  (setConfigTemp
                     (Some (Json (Object (merge (loaded st) update))))
                     (nextCall (healed sk))))
        as (sk' & Hrun & Hretry & Hsettled & Hcalls & Htemp & Hbk).
      - exact Hfile.
      - left. apply healed_backup.
      - cbn. rewrite healed_calls. reflexivity.
      - exists (lit "Config validation failed after write"), sk'.
        split; [exact Hrun|]. split; [right; left; auto|].
        split; [exact Hretry|]. split; [exact Hsettled|].
        split; [exact Hcalls|]. split; [exact Htemp|].
        intros _. rewrite Hbk. apply healed_backup. }
  destruct (renameError host (calls sk)) as [message|] eqn:Hrename.
  - right. rewrite Hcases.
    match goal with
    | |- context [cleanTemp host (calls sk)] =>
        match goal with
        | |- exists _ _, bind _ _ ?s1 = _ /\ _ =>
            destruct (Hnext message s1)
              as (sk' & Hrun & Hretry & Hsettled & Hcalls & Htemp & Hbk)
        end
    end.
    + reflexivity.
    + cbn [CONFIG_BACKUP].
      destruct (backupCopyFails host (calls sk)); [left | right]; reflexivity.
    + reflexivity.
    + exists message, sk'. split; [exact Hrun|].
      split; [right; right; auto|].
      split; [exact Hretry|]. split; [exact Hsettled|].
      split; [exact Hcalls|]. split; [exact Htemp|].
      intros [Hn|[Hn|Hn]]; congruence.
  - left. rewrite Hcases. eexists. split; [reflexivity|].
    cbn [CONFIG_FILE CONFIG_BACKUP CONFIG_TEMP calls]. auto 10.
Qed.

(** The retry loop, whatever fails and when: it returns with the merged
    configuration in the primary file, or throws with the primary file as
    [loadConfig] left it. *)
Lemma saveConfigFrom_outcome st : forall attempts lastError sk,
  retrying st sk ->
  (exists st',
     saveConfigFrom host attempts lastError update sk = (Returns tt, st')
     /\ validateConfig (Object (merge (loaded st) update)) = true
     /\ CONFIG_FILE st' = Some (Json (Object (merge (loaded st) update)))
     /\ (CONFIG_BACKUP st' = CONFIG_BACKUP st
         \/ CONFIG_BACKUP st'
            = backedUp (CONFIG_FILE (healed st)) (CONFIG_BACKUP st))
     /\ CONFIG_TEMP st' = None
     /\ (calls sk < calls st' <= calls sk + attempts)%nat)
  \/ (exists message st',
        saveConfigFrom host attempts lastError update sk = (Throws message, st')
        /\ retrying st st'
        /\ calls st' = (calls sk + attempts)%nat
        /\ (forall n, attempts = S n ->
              CONFIG_FILE st' = CONFIG_FILE (healed st)
              /\ (unlinkFails host (calls sk + n) = false ->
                  CONFIG_TEMP st' = None))).
Proof.
  induction attempts as [|n IH]; intros lastError sk Hretry.
  - right. eexists _, sk. split; [reflexivity|]. split; [exact Hretry|].
    split; [lia | discriminate].
  - destruct (saveConfigFrom_round st sk n lastError Hretry)
      as [(st' & Hrun & _ & Hvalid & _ & Hfile & Hbackup & Htemp & Hcalls)
         |(message & sk' & Hrun & _ & Hretry' & Hsettled & Hcalls & Htemp & _)].
    + left. exists st'. split; [exact Hrun|]. split; [exact Hvalid|].
      split; [exact Hfile|]. split; [|split; [exact Htemp | lia]].
      rewrite Hbackup. destruct Hretry as (_ & _ & [->| ->]).
      * destruct (backupCopyFails host (calls sk)); auto.
      * rewrite backedUp_again.
        destruct (backupCopyFails host (calls sk)); auto.
    + rewrite Hrun.
      destruct (IH message sk' Hretry')
        as [(st' & Hrun' & Hvalid & Hfile & Hbackup & Htemp' & Hcalls')
           |(message' & st' & Hrun' & Hretry'' & Hcalls' & Hlast)].
      * left. exists st'. split; [exact Hrun'|]. split; [exact Hvalid|].
        split; [exact Hfile|]. split; [exact Hbackup|].
        split; [exact Htemp' | lia].
      * right. exists message', st'. split; [exact Hrun'|].
        split; [exact Hretry''|]. split; [lia|].
        intros n' [= <-]. destruct n as [|n].
        -- cbn [saveConfigFrom] in Hrun'. injection Hrun' as _ <-.
           rewrite Nat.add_0_r.
           split; [exact Hsettled | exact Htemp].
        -- destruct (Hlast n eq_refl) as [Hf Ht]. split; [exact Hf|].
           replace (calls sk + S n)%nat with (calls sk' + n)%nat by lia.
           exact Ht.
Qed.

(** The loop when every attempt fails at the write of the temporary file
    or at the validation. *)
Lemma saveConfigFrom_fails st : forall attempts lastError sk,
  retrying st sk ->
  (forall i, (i < attempts)%nat ->
     writeFileError host (calls sk + i) <> None
     \/ validateConfig (Object (merge (loaded st) update)) = false) ->
  exists st',
    saveConfigFrom host attempts lastError update sk
    = (Throws (lit "Failed to save config: "
               ++ match attempts with
                  | O => lastError
                  | S n =>
                      default (lit "Config validation failed after write")
                        (writeFileError host (calls sk + n))
                  end), st')
    /\ calls st' = (calls sk + attempts)%nat.
Proof.
  induction attempts as [|n IH]; intros lastError sk Hretry Hfail.
  - exists sk. split; [reflexivity | lia].
  - assert (H0 : writeFileError host (calls sk) <> None
                 \/ validateConfig (Object (merge (loaded st) update)) = false).
    { replace (calls sk) with (calls sk + 0)%nat by lia. apply Hfail. lia. }
    destruct (saveConfigFrom_round st sk n lastError Hretry)
      as [(st' & _ & Hwrite & Hvalid & _)
         |(message & sk' & Hrun & Hwhy & Hretry' & _ & Hcalls & _)].
    { destruct H0; congruence. }
    assert (Hmessage : message
                       = default (lit "Config validation failed after write")
                           (writeFileError host (calls sk))).
    { destruct Hwhy as [Hw|[(Hw & _ & ->)|(Hw & Hv & _)]].
      - rewrite Hw. reflexivity.
      - rewrite Hw. reflexivity.
      - destruct H0; congruence. }
    rewrite Hrun.
    destruct (IH message sk' Hretry') as (st' & Hrest & Hcalls').
    { intros i Hi.
      replace (calls sk' + i)%nat with (calls sk + S i)%nat by lia.
      apply Hfail. lia. }
    exists st'. split; [|lia].
    rewrite Hrest.
    destruct n as [|n]; [rewrite Nat.add_0_r, <- Hmessage; reflexivity|].
    replace (calls sk' + n)%nat with (calls sk + S n)%nat by lia.
    reflexivity.
Qed.

(** The loop when the attempts before attempt [i] fail at the write of
    the temporary file and attempt [i] goes through. *)
Lemma saveConfigFrom_succeeds st : forall attempts lastError sk i,
  retrying st sk ->
  (i < attempts)%nat ->
  (forall j, (j < i)%nat -> writeFileError host (calls sk + j) <> None) ->
  writeFileError host (calls sk + i) = None ->
  renameError host (calls sk + i) = None ->
  validateConfig (Object (merge (loaded st) update)) = true ->
  exists st',
    saveConfigFrom host attempts lastError update sk = (Returns tt, st')
    /\ CONFIG_FILE st' = Some (Json (Object (merge (loaded st) update)))
    /\ CONFIG_BACKUP st'
       = (if backupCopyFails host (calls sk + i) then CONFIG_BACKUP sk
          else backedUp (CONFIG_FILE (healed st)) (CONFIG_BACKUP sk))
    /\ CONFIG_TEMP st' = None
    /\ calls st' = S (calls sk + i).
Proof.
  induction attempts as [|n IH];
    intros lastError sk i Hretry Hi Hbefore Hok Hrename Hvalid; [lia|].
  destruct (saveConfigFrom_round st sk n lastError Hretry)
    as [(st' & Hrun & Hwrite & _ & _ & Hfile & Hbackup & Htemp & Hcalls)
       |(message & sk' & Hrun & Hwhy & Hretry' & _ & Hcalls & _ & Hkept)].
  - destruct i as [|i].
    + exists st'. rewrite Nat.add_0_r. auto.
    + exfalso. apply (Hbefore 0%nat); [lia|].
      rewrite Nat.add_0_r. exact Hwrite.
  - destruct i as [|i].
    + exfalso. rewrite Nat.add_0_r in Hok, Hrename.
      destruct Hwhy as [Hw|[(_ & Hv & _)|(_ & _ & Hr)]]; congruence.
    + assert (Hw0 : writeFileError host (calls sk) <> None).
      { replace (calls sk) with (calls sk + 0)%nat by lia.
        apply Hbefore. lia. }
      rewrite Hrun.
      destruct (IH message sk' i Hretry') as (st' & Hrest & Hfields);
        try assumption.
      * lia.
      * intros j Hj.
        replace (calls sk' + j)%nat with (calls sk + S j)%nat by lia.
        apply Hbefore. lia.
      * replace (calls sk' + i)%nat with (calls sk + S i)%nat by lia.
        exact Hok.
      * replace (calls sk' + i)%nat with (calls sk + S i)%nat by lia.
        exact Hrename.
      * exists st'. split; [exact Hrest|].
        replace (calls sk + S i)%nat with (calls sk' + i)%nat by lia.
        rewrite <- (Hkept (or_intror (or_introl Hw0))). exact Hfields.
Qed.

End Saving.

(** A store whose primary file holds a valid configuration reads it. *)
Lemma loadConfig_saved st c :
  CONFIG_FILE st = Some (Json (Object c)) ->
  validateConfig (Object c) = true ->
  loadConfig st = (Returns c, st).
Proof.
  intros Hfile Hvalid. unfold loadConfig, readConfig.
  rewrite Hfile, Hvalid. reflexivity.
Qed.

(** When [saveConfig] returns, the next [loadConfig] returns the merged
    configuration and changes nothing. *)
Lemma saveConfig_returns host update st st' :
  saveConfig host update st = (Returns tt, st') ->
  validateConfig (Object (merge (loaded st) update)) = true
  /\ CONFIG_FILE st' = Some (Json (Object (merge (loaded st) update)))
  /\ loadConfig st' = (Returns (merge (loaded st) update), st')
  /\ loaded st' = merge (loaded st) update
  /\ healed st' = st'.
Proof.
  intros Hrun.
  destruct (saveConfigFrom_outcome host update st 3 [] st (retrying_refl st))
    as [(st1 & Hrun1 & Hvalid & Hfile & _)|(message & st1 & Hrun1 & _)];
    unfold saveConfig in Hrun; rewrite Hrun in Hrun1; [|discriminate].
  injection Hrun1 as <-.
  pose proof (loadConfig_saved st' _ Hfile Hvalid) as Hload.
  split; [exact Hvalid|]. split; [exact Hfile|]. split; [exact Hload|].
  unfold loaded, healed. rewrite Hload. split; reflexivity.
Qed.

(** A [saveConfig] that returns has made at least one host call. *)
Lemma saveConfig_counts host update st st' :
  saveConfig host update st = (Returns tt, st') ->
  (calls st < calls st' <= calls st + 3)%nat.
Proof.
  intros Hrun.
  destruct (saveConfigFrom_outcome host update st 3 [] st (retrying_refl st))
    as [(st1 & Hrun1 & _ & _ & _ & _ & Hcalls)|(message & st1 & Hrun1 & _)];
    unfold saveConfig in Hrun; rewrite Hrun in Hrun1; [|discriminate].
  injection Hrun1 as <-. exact Hcalls.
Qed.

(** X22. When the merged configuration passes [validateConfig] and, the
    attempts before it failing at the write of the temporary file, one of
    the three attempts of [saveConfig] can write the temporary file and
    rename it, [saveConfig] returns after that attempt: the primary file
    holds the merged configuration; the backup holds the text the primary
    file had (unless that was missing or blank) if the copy to the backup
    went through in that attempt, and is as it was otherwise; no temporary
    file is left; and the next [loadConfig] returns the merged
    configuration. *)
Theorem saveConfig_replaces_the_file (host : ConfigHost) (update : Update)
  (st : Store) (i : nat) :
  validateConfig (Object (merge (loaded st) update)) = true ->
  (i < 3)%nat ->
  (forall j, (j < i)%nat -> writeFileError host (calls st + j) <> None) ->
  writeFileError host (calls st + i) = None ->
  renameError host (calls st + i) = None ->
  exists st',
    saveConfig host update st = (Returns tt, st')
    /\ CONFIG_FILE st' = Some (Json (Object (merge (loaded st) update)))
    /\ CONFIG_BACKUP st'
       = (if backupCopyFails host (calls st + i) then CONFIG_BACKUP st
          else match CONFIG_FILE (healed st) with
               | Some Blank | None => CONFIG_BACKUP st
               | Some currentData => Some currentData
               end)
    /\ CONFIG_TEMP st' = None
    /\ calls st' = S (calls st + i)
    /\ loadConfig st' = (Returns (merge (loaded st) update), st').
Proof.
  intros Hvalid Hi Hbefore Hok Hrename.
  destruct (saveConfigFrom_succeeds host update st 3 [] st i
              (retrying_refl st) Hi Hbefore Hok Hrename Hvalid)
    as (st' & Hrun & Hfile & Hbackup & Htemp & Hcalls).
  exists st'. split; [exact Hrun|]. split; [exact Hfile|].
  split; [exact Hbackup|]. split; [exact Htemp|]. split; [exact Hcalls|].
  apply loadConfig_saved; [exact Hfile | exact Hvalid].
Qed.

Lemma saveConfig_replaces_the_file_witness :
  exists st',
    saveConfig sampleConfigHost
      {| set_username := None; set_userUuids := None;
         set_version_client := Some (Some (Some (lit "8.pwr")));
         set_version_branch := None |}
      (storeWith (Some (Json (Object sampleConfig))))
    = (Returns tt, st')
    /\ CONFIG_BACKUP st' = Some (Json (Object sampleConfig))
    /\ CONFIG_TEMP st' = None.
Proof.
  destruct (saveConfig_replaces_the_file sampleConfigHost
              {| set_username := None; set_userUuids := None;
                 set_version_client := Some (Some (Some (lit "8.pwr")));
                 set_version_branch := None |}
              (storeWith (Some (Json (Object sampleConfig)))) 0)
    as (st' & Hrun & _ & Hbackup & Htemp & _).
  - reflexivity.
  - lia.
  - intros j Hj. lia.
  - reflexivity.
  - reflexivity.
  - exists st'. split; [exact Hrun|]. split; [exact Hbackup | exact Htemp].
Defined.


(** X24. [saveConfig] gives up after exactly three failed attempts, an
    attempt failing when the temporary file cannot be written or when the
    merged configuration does not pass [validateConfig]; the error it
    throws carries the message of the third failure. *)
Theorem saveConfig_gives_up (host : ConfigHost) (update : Update) (st : Store) :
  (forall i, (i < 3)%nat ->
     writeFileError host (calls st + i) <> None
     \/ validateConfig (Object (merge (loaded st) update)) = false) ->
  fst (saveConfig host update st)
  = Throws (lit "Failed to save config: "
            ++ default (lit "Config validation failed after write")
                 (writeFileError host (calls st + 2)))
  /\ calls (snd (saveConfig host update st)) = (calls st + 3)%nat.
Proof.
  intros Hfail.
  destruct (saveConfigFrom_fails host update st 3 [] st (retrying_refl st)
              Hfail) as (st' & Hrun & Hcalls).
  unfold saveConfig. rewrite Hrun. split; [reflexivity | exact Hcalls].
Qed.

Lemma saveConfig_gives_up_witness :
  fst (saveConfig readOnlyConfigHost noUpdate (storeWith None))
  = Throws (lit "Failed to save config: EACCES: permission denied")
  /\ calls (snd (saveConfig readOnlyConfigHost noUpdate (storeWith None)))
     = 3%nat.
Proof.
  apply (saveConfig_gives_up readOnlyConfigHost noUpdate (storeWith None)).
  intros i Hi. left. discriminate.
Defined.

Lemma skipWhile_suffix (f : Z -> bool) (s : jsstring) :
  exists dropped, s = dropped ++ skipWhile f s.
Proof.
  induction s as [|c s IH]; [exists []; reflexivity|].
  cbn [skipWhile]. destruct (f c).
  - destruct IH as [dropped IH]. exists (c :: dropped). cbn. f_equal. exact IH.
  - exists []. reflexivity.
Qed.

Lemma skipWhile_head (f : Z -> bool) (s : jsstring) c :
  head (skipWhile f s) = Some c -> f c = false.
Proof.
  induction s as [|x s IH]; [discriminate|].
  cbn [skipWhile]. destruct (f x) eqn:Hx; [exact IH|].
  cbn. intros [= <-]. exact Hx.
Qed.

Lemma skipWhile_fixed (f : Z -> bool) (s : jsstring) :
  (forall c, head s = Some c -> f c = false) -> skipWhile f s = s.
Proof.
  destruct s as [|c s]; [reflexivity|]. intros H.
  cbn [skipWhile]. rewrite (H c) by reflexivity. reflexivity.
Qed.

(** Trimming a trimmed string changes nothing. *)
Lemma trim_trim (s : jsstring) : trim (trim s) = trim s.
Proof.
  unfold trim.
  set (a := skipWhile isWhiteSpace s).
  set (r := skipWhile isWhiteSpace (reverse a)).
  assert (Hr : forall c, head r = Some c -> isWhiteSpace c = false)
    by (intros c; apply skipWhile_head).
  assert (Ht : forall c, head (reverse r) = Some c -> isWhiteSpace c = false).
  { intros c Hc.
    destruct (skipWhile_suffix isWhiteSpace (reverse a)) as [dropped Hd].
    fold r in Hd. apply (f_equal reverse) in Hd.
    rewrite reverse_involutive, reverse_app in Hd.
    apply (skipWhile_head isWhiteSpace s). fold a. rewrite Hd.
    destruct (reverse r); [discriminate | exact Hc]. }
  rewrite (skipWhile_fixed _ (reverse r) Ht).
  rewrite reverse_involutive.
  rewrite (skipWhile_fixed _ r Hr). reflexivity.
Qed.

(** X25. After [saveVersionBranch] has returned, [loadVersionBranch]
    answers "pre-release" if that was the argument and "release" for every
    other argument, [null] and unknown branch names included. *)
Theorem saved_branch_is_normalised (host : ConfigHost)
  (versionBranch : option jsstring) (st st' : Store) :
  saveVersionBranch host versionBranch st = (Returns tt, st') ->
  loadVersionBranch st'
  = (Returns (if bool_decide (versionBranch = Some (lit "pre-release"))
              then lit "pre-release" else lit "release"), st').
Proof.
  unfold saveVersionBranch, loadVersionBranch. intros Hsave.
  assert (Hgen : forall branch,
            branch <> [] ->
            saveConfig host
              {| set_username := None; set_userUuids := None;
                 set_version_client := None;
                 set_version_branch := Some (Some branch) |} st
            = (Returns tt, st') ->
            bind loadConfig
              (fun config =>
                 ret (if truthy (version_branch config)
                      then default [] (version_branch config)
                      else lit "release")) st'
            = (Returns branch, st')).
  { intros branch Hne Hrun.
    apply saveConfig_returns in Hrun as (_ & _ & Hload & _).
    rewrite (cfg_bind_returns _ _ _ _ _ Hload).
    cbn [merge version_branch set_version_branch default from_option id].
    destruct branch; [congruence | reflexivity]. }
  destruct versionBranch as [[|c more]|]; cbn [truthy] in Hsave.
  - rewrite bool_decide_eq_false_2 by discriminate.
    apply Hgen; [discriminate | exact Hsave].
  - cbn [default from_option id] in Hsave.
    unfold str_eqb in Hsave.
    case_bool_decide as Hrel; cbn [negb andb] in Hsave.
    + rewrite Hrel. rewrite bool_decide_eq_false_2 by discriminate.
      rewrite Hrel in Hsave. apply Hgen; [discriminate | exact Hsave].
    + case_bool_decide as Hpre; cbn [negb] in Hsave.
      * rewrite Hpre. rewrite bool_decide_eq_true_2 by reflexivity.
        rewrite Hpre in Hsave. apply Hgen; [discriminate | exact Hsave].
      * rewrite bool_decide_eq_false_2 by congruence.
        apply Hgen; [discriminate | exact Hsave].
  - rewrite bool_decide_eq_false_2 by discriminate.
    apply Hgen; [discriminate | exact Hsave].
Qed.

Lemma saved_branch_is_normalised_witness :
  exists st',
    saveVersionBranch sampleConfigHost (Some (lit "beta"))
      (storeWith (Some (Json (Object sampleConfig))))
    = (Returns tt, st')
    /\ loadVersionBranch st' = (Returns (lit "release"), st').
Proof.
  eexists. split; [reflexivity|].
  apply (saved_branch_is_normalised sampleConfigHost (Some (lit "beta"))
           (storeWith (Some (Json (Object sampleConfig))))).
  reflexivity.
Defined.

(** X26. [saveUsername] throws, leaving the store untouched, for an
    argument that is not a string, that is empty or only white space, or
    that has more than 16 characters once trimmed; and when it returns,
    it returns the trimmed name, of 1 to 16 characters, which
    [loadUsername] then reads back. *)
Theorem saveUsername_validates (host : ConfigHost) (username : option jsstring)
  (st : Store) :
  (truthy username = false
   \/ trim (default [] username) = []
   \/ (16 < length (trim (default [] username)))%nat ->
   exists message, saveUsername host username st = (Throws message, st))
  /\ (forall newName st',
        saveUsername host username st = (Returns newName, st') ->
        newName = trim (default [] username)
        /\ (1 <= length newName <= 16)%nat
        /\ loadUsername st' = (Returns (Some newName), st')).
Proof.
  unfold saveUsername. split.
  - intros Hbad.
    destruct (truthy username); cbn [negb]; [|eexists; reflexivity].
    destruct Hbad as [Hf|[He|Hlong]]; [discriminate| |].
    + rewrite He. cbn [nonEmpty negb]. eexists. reflexivity.
    + destruct (trim (default [] username)) as [|c more] eqn:Htrim;
        [cbn in Hlong; lia|].
      cbn [nonEmpty negb].
      replace (16 <? Z.of_nat (length (c :: more))) with true
        by (symmetry; apply Z.ltb_lt; lia).
      eexists. reflexivity.
  - intros newName st' Hrun.
    destruct (truthy username); cbn [negb] in Hrun; [|discriminate].
    pose proof (trim_trim (default [] username)) as Hidem.
    destruct (trim (default [] username)) as [|c more] eqn:Htrim;
      cbn [nonEmpty negb] in Hrun; [discriminate|].
    destruct (Z.ltb_spec 16 (Z.of_nat (length (c :: more)))) as [Hlong|Hfits];
      [discriminate|].
    rewrite (cfg_bind_returns _ _ _ _ _ (loadConfig_eq st)) in Hrun.
    unfold bind at 1 in Hrun.
    match type of Hrun with
    | context [saveConfig host ?u (healed st)] =>
        destruct (saveConfig host u (healed st)) as [[[]|message] st1] eqn:Hsave;
          [|discriminate]
    end.
    injection Hrun as <- <-.
    apply saveConfig_returns in Hsave as (_ & _ & Hload & _).
    split; [reflexivity|]. split; [cbn [length] in *; lia|].
    unfold loadUsername.
    rewrite (cfg_bind_returns _ _ _ _ _ Hload).
    cbn [merge ConfigStore.username set_username default from_option id].
    rewrite Hidem. reflexivity.
Qed.

Lemma saveUsername_validates_witness :
  (16 < length (trim (default [] (Some (lit "  a-very-long-user-name  ")))))%nat
  /\ (exists message,
        saveUsername sampleConfigHost (Some (lit "  a-very-long-user-name  "))
          (storeWith None)
        = (Throws message, storeWith None))
  /\ exists st',
       saveUsername sampleConfigHost (Some (lit "  Alex ")) (storeWith None)
       = (Returns (lit "Alex"), st')
       /\ loadUsername st' = (Returns (Some (lit "Alex")), st').
Proof.
  assert (Hlong : (16 < length (trim (default []
                                        (Some (lit "  a-very-long-user-name  ")))))%nat)
    by (vm_compute; lia).
  split; [exact Hlong|]. split.
  - apply (proj1 (saveUsername_validates sampleConfigHost
                    (Some (lit "  a-very-long-user-name  ")) (storeWith None))).
    right. right. exact Hlong.
  - exists (snd (saveUsername sampleConfigHost (Some (lit "  Alex "))
                   (storeWith None))).
    assert (Hrun : saveUsername sampleConfigHost (Some (lit "  Alex "))
                     (storeWith None)
                   = (Returns (lit "Alex"),
                      snd (saveUsername sampleConfigHost (Some (lit "  Alex "))
                             (storeWith None))))
      by (vm_compute; reflexivity).
    split; [exact Hrun|].
    apply (proj2 (saveUsername_validates sampleConfigHost
                    (Some (lit "  Alex ")) (storeWith None)) (lit "Alex")).
    exact Hrun.
Defined.

End ConfigFacts.

(** ** core/config: the map of UUIDs *)

Module UuidFacts.

Import ConfigStore ConfigFacts.

Local Open Scope store_scope.

Lemma elem_of_List_filter {A} (P : A -> bool) (l : list A) x :
  x ∈ List.filter P l <-> x ∈ l /\ P x = true.
Proof. rewrite !list_elem_of_In. apply filter_In. Qed.

Lemma insertIndex_elem i key sorted p :
  p ∈ insertIndex i key sorted <-> p = (i, key) \/ p ∈ sorted.
Proof.
  induction sorted as [|[j k] more IH]; cbn [insertIndex].
  - rewrite list_elem_of_singleton, elem_of_nil. tauto.
  - destruct (i <? j).
    + rewrite elem_of_cons. tauto.
    + rewrite !elem_of_cons, IH. tauto.
Qed.

Lemma indexKeys_elem (keys : list jsstring) k :
  k ∈ map snd
        (foldr (fun key sorted =>
                  match arrayIndex key with
                  | Some i => insertIndex i key sorted
                  | None => sorted
                  end) [] keys)
  <-> k ∈ keys /\ is_Some (arrayIndex k).
Proof.
  induction keys as [|key keys IH]; cbn [foldr].
  - cbn. rewrite !elem_of_nil. tauto.
  - rewrite elem_of_cons.
    destruct (arrayIndex key) as [i|] eqn:Hkey.
    + rewrite list_elem_of_fmap. split.
      * intros ([j k'] & -> & Hin). cbn.
        apply insertIndex_elem in Hin as [[= -> ->]|Hin].
        -- split; [left; reflexivity | rewrite Hkey; eauto].
        -- assert (Hk : k' ∈ map snd
                     (foldr (fun key sorted =>
                               match arrayIndex key with
                               | Some i => insertIndex i key sorted
                               | None => sorted
                               end) [] keys))
             by (apply list_elem_of_fmap; exists (j, k'); auto).
           apply IH in Hk. tauto.
      * intros [[->|Hin] Hsome].
        -- exists (i, key). split; [reflexivity|].
           apply insertIndex_elem. left. reflexivity.
        -- assert (Hk : k ∈ keys /\ is_Some (arrayIndex k)) by auto.
           apply IH in Hk. apply list_elem_of_fmap in Hk as (p & -> & Hp).
           exists p. split; [reflexivity|].
           apply insertIndex_elem. right. exact Hp.
    + rewrite IH. split.
      * intros [Hin Hsome]. auto.
      * intros [[->|Hin] Hsome]; [|auto].
        rewrite Hkey in Hsome. destruct Hsome. discriminate.
Qed.

(** [Object.keys] lists the keys of the map, each of them. *)
Lemma ownKeys_elem (entries : list (jsstring * jsstring)) k :
  k ∈ ownKeys entries <-> k ∈ map fst entries.
Proof.
  unfold ownKeys. rewrite elem_of_app, indexKeys_elem.
  rewrite elem_of_List_filter, negb_true_iff, bool_decide_eq_false.
  destruct (decide (is_Some (arrayIndex k))); tauto.
Qed.

Lemma find_unique {A} (P : A -> bool) (l : list A) x :
  x ∈ l -> P x = true -> (forall y, y ∈ l -> P y = true -> y = x) ->
  List.find P l = Some x.
Proof.
  induction l as [|a l IH]; intros Hin Hx Huniq.
  - apply elem_of_nil in Hin. contradiction.
  - cbn [List.find]. destruct (P a) eqn:Ha.
    + f_equal. apply Huniq; [left | exact Ha].
    + apply IH; [|exact Hx|].
      * apply elem_of_cons in Hin as [->|Hin]; [congruence | exact Hin].
      * intros y Hy. apply Huniq. right. exact Hy.
Qed.

Lemma find_absent {A} (P : A -> bool) (l : list A) :
  (forall y, y ∈ l -> P y = false) -> List.find P l = None.
Proof.
  induction l as [|a l IH]; intros Hnone; [reflexivity|].
  cbn [List.find]. rewrite (Hnone a) by left.
  apply IH. intros y Hy. apply Hnone. right. exact Hy.
Qed.

Section WithHost.
Variable host : ConfigHost.

Lemma caseDistinct_inj entries e1 e2 :
  caseDistinct host entries -> e1 ∈ entries -> e2 ∈ entries ->
  toLowerCase host (fst e1) = toLowerCase host (fst e2) -> e1 = e2.
Proof.
  unfold caseDistinct.
  induction entries as [|e entries IH]; intros Hnd H1 H2 Heq.
  - apply elem_of_nil in H1. contradiction.
  - cbn [map] in Hnd. apply NoDup_cons in Hnd as [Hnotin Hnd].
    assert (Hin : forall x, x ∈ entries ->
              toLowerCase host (fst x)
                ∈ map (fun e => toLowerCase host (fst e)) entries).
    { intros x Hx. apply list_elem_of_fmap. exists x. auto. }
    apply elem_of_cons in H1 as [->|H1]; apply elem_of_cons in H2 as [->|H2].
    + reflexivity.
    + exfalso. apply Hnotin. rewrite Heq. apply Hin. exact H2.
    + exfalso. apply Hnotin. rewrite <- Heq. apply Hin. exact H1.
    + apply IH; assumption.
Qed.

Lemma findKey_unique entries key normalized :
  key ∈ map fst entries -> toLowerCase host key = normalized ->
  (forall k, k ∈ map fst entries -> toLowerCase host k = normalized -> k = key) ->
  findKey host entries normalized = Some key.
Proof.
  intros Hin Hlower Honly. unfold findKey. apply find_unique.
  - apply ownKeys_elem. exact Hin.
  - unfold str_eqb. apply bool_decide_eq_true_2. exact Hlower.
  - intros y Hy Hmatch. apply ownKeys_elem in Hy.
    unfold str_eqb in Hmatch. apply bool_decide_eq_true_1 in Hmatch. auto.
Qed.

Lemma objGet_unique entries key value :
  (key, value) ∈ entries ->
  (forall v, (key, v) ∈ entries -> v = value) ->
  objGet entries key = Some value.
Proof.
  intros Hin Honly. unfold objGet.
  rewrite (find_unique _ entries (key, value)); [reflexivity | exact Hin | |].
  - unfold str_eqb. apply bool_decide_eq_true_2. reflexivity.
  - intros [k' v'] Hy Hmatch.
    unfold str_eqb in Hmatch. apply bool_decide_eq_true_1 in Hmatch.
    cbn [fst] in Hmatch. subst k'. f_equal. auto.
Qed.

Lemma findKey_found entries key uuid normalized :
  caseDistinct host entries -> (key, uuid) ∈ entries ->
  toLowerCase host key = normalized ->
  findKey host entries normalized = Some key.
Proof.
  intros Hcd Hin Hlower. unfold findKey. apply find_unique.
  - apply ownKeys_elem. apply list_elem_of_fmap. exists (key, uuid). auto.
  - unfold str_eqb. apply bool_decide_eq_true_2. exact Hlower.
  - intros y Hy Hmatch. apply ownKeys_elem in Hy.
    apply list_elem_of_fmap in Hy as ([k' u'] & -> & Hy).
    unfold str_eqb in Hmatch. apply bool_decide_eq_true_1 in Hmatch.
    cbn [fst] in Hmatch |- *.
    assert (E : (k', u') = (key, uuid)).
    { apply (caseDistinct_inj entries); auto. cbn [fst].
      rewrite Hmatch, Hlower. reflexivity. }
    injection E as -> _. reflexivity.
Qed.

Lemma findKey_absent entries normalized :
  (forall k, k ∈ map fst entries -> toLowerCase host k <> normalized) ->
  findKey host entries normalized = None.
Proof.
  intros Hnone. unfold findKey. apply find_absent.
  intros y Hy. apply ownKeys_elem in Hy.
  unfold str_eqb. apply bool_decide_eq_false_2. apply Hnone. exact Hy.
Qed.

(** A key that [findKey] answers is a key of the map and matches. *)
Lemma findKey_some entries normalized key :
  findKey host entries normalized = Some key ->
  key ∈ map fst entries /\ toLowerCase host key = normalized.
Proof.
  unfold findKey. intros Hfind. apply find_some in Hfind as [Hin Hmatch].
  apply list_elem_of_In, ownKeys_elem in Hin.
  unfold str_eqb in Hmatch. apply bool_decide_eq_true_1 in Hmatch. auto.
Qed.

Lemma findKey_none entries normalized k :
  findKey host entries normalized = None ->
  k ∈ map fst entries -> toLowerCase host k <> normalized.
Proof.
  unfold findKey. intros Hfind Hin.
  apply ownKeys_elem, list_elem_of_In in Hin.
  pose proof (find_none _ _ Hfind k Hin) as Hno.
  unfold str_eqb in Hno. apply bool_decide_eq_false_1 in Hno. exact Hno.
Qed.

Lemma objGet_found entries key uuid :
  caseDistinct host entries -> (key, uuid) ∈ entries ->
  objGet entries key = Some uuid.
Proof.
  intros Hcd Hin. unfold objGet.
  rewrite (find_unique _ entries (key, uuid)); [reflexivity | exact Hin | |].
  - unfold str_eqb. apply bool_decide_eq_true_2. reflexivity.
  - intros [k' u'] Hy Hmatch.
    unfold str_eqb in Hmatch. apply bool_decide_eq_true_1 in Hmatch.
    cbn in Hmatch. subst k'.
    apply (caseDistinct_inj entries); auto.
Qed.

Lemma objDelete_elem entries key e :
  e ∈ objDelete entries key <-> e ∈ entries /\ fst e <> key.
Proof.
  unfold objDelete. rewrite elem_of_List_filter.
  unfold str_eqb. rewrite negb_true_iff, bool_decide_eq_false. tauto.
Qed.

Lemma caseDistinct_objDelete entries key :
  caseDistinct host entries -> caseDistinct host (objDelete entries key).
Proof.
  unfold caseDistinct, objDelete.
  induction entries as [|e entries IH]; intros Hnd; [constructor|].
  cbn [map] in Hnd. apply NoDup_cons in Hnd as [Hnotin Hnd].
  cbn [List.filter]. destruct (negb (str_eqb (fst e) key)); [|auto].
  cbn [map]. apply NoDup_cons. split; [|auto].
  intros Hin. apply Hnotin.
  apply list_elem_of_fmap in Hin as (x & Hx & Hin).
  apply elem_of_List_filter in Hin as [Hin _].
  apply list_elem_of_fmap. exists x. auto.
Qed.

Lemma objSet_new entries key value :
  key ∉ map fst entries -> key <> lit "__proto__" ->
  objSet entries key value = entries ++ [(key, value)].
Proof.
  intros Hnew Hproto. unfold objSet.
  replace (existsb (fun e => str_eqb (fst e) key) entries) with false.
  - unfold str_eqb. rewrite bool_decide_eq_false_2 by exact Hproto. reflexivity.
  - symmetry. apply not_true_is_false. intros Hex.
    apply existsb_exists in Hex as (e & Hin & Hmatch).
    unfold str_eqb in Hmatch. apply bool_decide_eq_true_1 in Hmatch.
    apply Hnew. apply list_elem_of_fmap. exists e.
    split; [symmetry; exact Hmatch | apply list_elem_of_In; exact Hin].
Qed.

Lemma caseDistinct_snoc entries key value :
  caseDistinct host entries ->
  (forall k, k ∈ map fst entries -> toLowerCase host k <> toLowerCase host key) ->
  caseDistinct host (entries ++ [(key, value)]).
Proof.
  unfold caseDistinct. intros Hnd Hnew.
  rewrite map_app. apply NoDup_app. split; [exact Hnd|]. split.
  - intros x Hx Hx'. cbn in Hx'. apply list_elem_of_singleton in Hx'. subst x.
    apply list_elem_of_fmap in Hx as (e & He & Hin).
    apply (Hnew (fst e)); [|symmetry; exact He].
    apply list_elem_of_fmap. exists e. auto.
  - cbn. apply NoDup_singleton.
Qed.

(** Writing [key] after deleting the only name that matches it up to case
    appends the entry and keeps the names distinct up to case. *)
Lemma objSet_after_delete entries old key value :
  caseDistinct host entries -> key <> lit "__proto__" ->
  (forall k, k ∈ map fst entries ->
     toLowerCase host k = toLowerCase host key -> k = old) ->
  objSet (objDelete entries old) key value
  = objDelete entries old ++ [(key, value)]
  /\ caseDistinct host (objDelete entries old ++ [(key, value)]).
Proof.
  intros Hcd Hproto Honly.
  assert (Hnone : forall k, k ∈ map fst (objDelete entries old) ->
                    toLowerCase host k <> toLowerCase host key).
  { intros k Hk Hmatch.
    apply list_elem_of_fmap in Hk as (e & -> & He).
    apply objDelete_elem in He as [He Hne]. apply Hne.
    apply Honly; [|exact Hmatch].
    apply list_elem_of_fmap. exists e. auto. }
  split.
  - apply objSet_new; [|exact Hproto].
    intros Hin. apply (Hnone key Hin). reflexivity.
  - apply caseDistinct_snoc; [|exact Hnone].
    apply caseDistinct_objDelete. exact Hcd.
Qed.

Lemma objSet_fresh entries key value :
  caseDistinct host entries -> key <> lit "__proto__" ->
  (forall k, k ∈ map fst entries ->
     toLowerCase host k <> toLowerCase host key) ->
  objSet entries key value = entries ++ [(key, value)]
  /\ caseDistinct host (entries ++ [(key, value)]).
Proof.
  intros Hcd Hproto Hnone. split.
  - apply objSet_new; [|exact Hproto].
    intros Hin. apply (Hnone key Hin). reflexivity.
  - apply caseDistinct_snoc; assumption.
Qed.

(** The key that matches a name up to case is the only one. *)
Lemma caseDistinct_only entries key uuid name :
  caseDistinct host entries -> (key, uuid) ∈ entries ->
  toLowerCase host key = toLowerCase host name ->
  forall k, k ∈ map fst entries ->
    toLowerCase host k = toLowerCase host name -> k = key.
Proof.
  intros Hcd Hin Hkey k Hk Hmatch.
  apply list_elem_of_fmap in Hk as ([k' u'] & -> & Hk). cbn [fst] in *.
  assert (E : (k', u') = (key, uuid)).
  { apply (caseDistinct_inj entries); auto. cbn [fst]. congruence. }
  injection E as -> _. reflexivity.
Qed.

Lemma loaded_nextCall st : loaded (nextCall st) = loaded st.
Proof. apply (loaded_files st (nextCall st)); reflexivity. Qed.

Lemma saveUuids_returns entries st st' :
  saveUuids host entries st = (Returns tt, st') ->
  uuidsOf (loaded st') = entries
  /\ ConfigStore.username (loaded st') = ConfigStore.username (loaded st)
  /\ healed st' = st'.
Proof.
  intros Hrun. unfold saveUuids in Hrun.
  apply saveConfig_returns in Hrun as (_ & _ & _ & Hloaded & Hhealed).
  rewrite Hloaded. split; [reflexivity|]. split; [reflexivity | exact Hhealed].
Qed.

(** [getUuidForUser] past its guard and its [loadConfig]. *)
Lemma getUuidForUser_eq name st :
  trim name <> [] ->
  getUuidForUser host (Some name) st
  = match findKey host (uuidsOf (loaded st)) (toLowerCase host (trim name)) with
    | Some (c :: more) =>
        (do (if negb (str_eqb (c :: more) (trim name))
             then saveUuids host
                    (objSet (objDelete (uuidsOf (loaded st)) (c :: more))
                       (trim name)
                       (default [] (objGet (uuidsOf (loaded st)) (c :: more))))
             else ret tt) then
         ret (default [] (objGet (uuidsOf (loaded st)) (c :: more))))
          (healed st)
    | _ =>
        (let* newUuid := ask (uuidv4 host) in
         do saveUuids host (objSet (uuidsOf (loaded st)) (trim name) newUuid) then
         ret newUuid) (healed st)
    end.
Proof.
  intros Hname. unfold getUuidForUser.
  destruct name as [|c0 name0]; [exfalso; apply Hname; reflexivity|].
  cbn [truthy negb orb default from_option id].
  destruct (trim (c0 :: name0)) as [|d more] eqn:Htrim; [contradiction|].
  cbn [nonEmpty negb].
  rewrite (cfg_bind_returns _ _ _ _ _ (loadConfig_eq st)).
  destruct (findKey host (uuidsOf (loaded st)) (toLowerCase host (d :: more)))
    as [[|c more']|]; reflexivity.
Qed.

(** A name whose entry is in the map under that very spelling, and under
    no other, is answered without a write. *)
Lemma getUuidForUser_only name uuid st :
  trim name <> [] ->
  (trim name, uuid) ∈ uuidsOf (loaded st) ->
  (forall k, k ∈ map fst (uuidsOf (loaded st)) ->
     toLowerCase host k = toLowerCase host (trim name) -> k = trim name) ->
  (forall v, (trim name, v) ∈ uuidsOf (loaded st) -> v = uuid) ->
  healed st = st ->
  getUuidForUser host (Some name) st = (Returns uuid, st).
Proof.
  intros Hname Hin Hkey Hvalue Hhealed.
  rewrite (getUuidForUser_eq name st Hname).
  rewrite (findKey_unique _ (trim name) _) by
    (auto; apply list_elem_of_fmap; exists (trim name, uuid); auto).
  destruct (trim name) as [|d more]; [contradiction|].
  rewrite (objGet_unique _ _ _ Hin Hvalue).
  unfold str_eqb. rewrite bool_decide_eq_true_2 by reflexivity.
  rewrite Hhealed. reflexivity.
Qed.

End WithHost.

Lemma getUuidForUser_distinct host name uuid st :
  trim name <> [] ->
  caseDistinct host (uuidsOf (loaded st)) ->
  (trim name, uuid) ∈ uuidsOf (loaded st) ->
  healed st = st ->
  getUuidForUser host (Some name) st = (Returns uuid, st).
Proof.
  intros Hname Hcd Hin Hhealed.
  apply getUuidForUser_only; [exact Hname | exact Hin | | | exact Hhealed].
  - apply (caseDistinct_only host _ _ uuid _ Hcd Hin eq_refl).
  - intros v Hv.
    assert (E : (trim name, v) = (trim name, uuid))
      by (apply (caseDistinct_inj host _ _ _ Hcd Hv Hin); reflexivity).
    injection E as ->. reflexivity.
Qed.

(** X27. In a map whose names are distinct up to case, a name that, once
    trimmed, is not empty, is not [__proto__], and matches up to case the
    name, not empty, of an entry, is not given a new UUID:
    [getUuidForUser], when it returns, returns the UUID of that entry; the
    entry is then recorded under the name as typed, every other entry is
    kept, the names stay distinct up to case, and asking again returns the
    same UUID and writes nothing. *)
Theorem known_user_keeps_the_uuid (host : ConfigHost) (name key uuid : jsstring)
  (st : Store) (v : jsstring) (st' : Store) :
  caseDistinct host (uuidsOf (loaded st)) ->
  (key, uuid) ∈ uuidsOf (loaded st) ->
  key <> [] ->
  toLowerCase host key = toLowerCase host (trim name) ->
  trim name <> [] ->
  trim name <> lit "__proto__" ->
  getUuidForUser host (Some name) st = (Returns v, st') ->
  v = uuid
  /\ (forall e, e ∈ uuidsOf (loaded st')
                <-> (e ∈ uuidsOf (loaded st) /\ fst e <> key)
                    \/ e = (trim name, uuid))
  /\ caseDistinct host (uuidsOf (loaded st'))
  /\ getUuidForUser host (Some name) st' = (Returns uuid, st').
Proof.
  intros Hcd Hin Hkey Hlower Hname Hproto Hrun.
  rewrite (getUuidForUser_eq host name st Hname) in Hrun.
  rewrite (findKey_found host _ key uuid _ Hcd Hin Hlower) in Hrun.
  destruct key as [|c more]; [contradiction|].
  rewrite (objGet_found host _ _ _ Hcd Hin) in Hrun.
  cbn [default from_option id] in Hrun. unfold str_eqb in Hrun.
  destruct (healed_healed st) as [Hhh Hlh].
  destruct (decide (c :: more = trim name)) as [Heq|Hne].
  - rewrite bool_decide_eq_true_2 in Hrun by exact Heq.
    injection Hrun as <- <-. rewrite Hlh. rewrite <- Heq in *.
    split; [reflexivity|]. split; [|split; [exact Hcd|]].
    + intros e. split; [|intros [[He _]| ->]; auto].
      intros He. destruct (decide (fst e = c :: more)) as [Hfst|Hfst]; [|auto].
      right. apply (caseDistinct_inj host _ _ _ Hcd He Hin).
      cbn [fst]. rewrite Hfst. reflexivity.
    + apply getUuidForUser_distinct; rewrite <- ?Heq, ?Hlh; auto.
  - rewrite bool_decide_eq_false_2 in Hrun by exact Hne. cbn [negb] in Hrun.
    unfold bind at 1 in Hrun.
    match type of Hrun with
    | context [saveUuids host ?es (healed st)] =>
        destruct (saveUuids host es (healed st)) as [[[]|message] st1] eqn:Hsave;
          [|discriminate]
    end.
    injection Hrun as <- <-.
    apply saveUuids_returns in Hsave as (Huuids & _ & Hhealed).
    destruct (objSet_after_delete host (uuidsOf (loaded st)) (c :: more)
                (trim name) uuid Hcd Hproto
                (caseDistinct_only host _ _ uuid _ Hcd Hin Hlower))
      as [Hset Hcd'].
    rewrite Hset in Huuids. rewrite Huuids.
    split; [reflexivity|]. split; [|split; [exact Hcd'|]].
    + intros e. rewrite elem_of_app, list_elem_of_singleton, objDelete_elem.
      reflexivity.
    + apply getUuidForUser_distinct; rewrite ?Huuids; auto.
      apply elem_of_app. right. apply list_elem_of_singleton. reflexivity.
Qed.

Lemma known_user_keeps_the_uuid_witness :
  getUuidForUser sampleConfigHost (Some (lit " STEVE "))
    (snd (getUuidForUser sampleConfigHost (Some (lit " STEVE "))
            (storeWith (Some (Json (Object sampleConfig))))))
  = (Returns (lit "11111111-1111-4111-8111-111111111111"),
     snd (getUuidForUser sampleConfigHost (Some (lit " STEVE "))
            (storeWith (Some (Json (Object sampleConfig)))))).
Proof.
  apply (known_user_keeps_the_uuid sampleConfigHost (lit " STEVE ")
           (lit "Steve") (lit "11111111-1111-4111-8111-111111111111")
           (storeWith (Some (Json (Object sampleConfig))))
           (lit "11111111-1111-4111-8111-111111111111")).
  - vm_compute. apply NoDup_singleton.
  - vm_compute. apply list_elem_of_singleton. reflexivity.
  - discriminate.
  - vm_compute. reflexivity.
  - vm_compute. discriminate.
  - vm_compute. discriminate.
  - vm_compute. reflexivity.
Defined.

(** [__proto__] is not a name an assignment adds to the map. *)
Lemma objSet_proto entries value :
  lit "__proto__" ∉ map fst entries ->
  objSet entries (lit "__proto__") value = entries.
Proof.
  intros Hnew. unfold objSet.
  replace (existsb (fun e => str_eqb (fst e) (lit "__proto__")) entries)
    with false; [reflexivity|].
  symmetry. apply not_true_is_false. intros Hex.
  apply existsb_exists in Hex as (e & Hin & Hmatch).
  unfold str_eqb in Hmatch. apply bool_decide_eq_true_1 in Hmatch.
  apply Hnew. apply list_elem_of_fmap. exists e.
  split; [symmetry; exact Hmatch | apply list_elem_of_In; exact Hin].
Qed.

(** X28. For a name that, once trimmed, is not empty and matches no name
    of the map up to case, [getUuidForUser], when it returns, returns the
    UUID the generator gives. If the name is not [__proto__], that UUID
    is recorded under the name as typed beside the entries there were,
    names distinct up to case stay so, and asking again returns the same
    UUID and writes nothing. If the name is [__proto__], nothing is
    recorded: the map is as it was, and asking again generates another
    UUID. *)
Theorem new_user_gets_one_uuid (host : ConfigHost) (name : jsstring)
  (st : Store) (v : jsstring) (st' : Store) :
  (forall k, k ∈ map fst (uuidsOf (loaded st)) ->
     toLowerCase host k <> toLowerCase host (trim name)) ->
  trim name <> [] ->
  getUuidForUser host (Some name) st = (Returns v, st') ->
  v = uuidv4 host (calls st)
  /\ (trim name <> lit "__proto__" ->
      (forall e, e ∈ uuidsOf (loaded st')
                 <-> e ∈ uuidsOf (loaded st) \/ e = (trim name, v))
      /\ (caseDistinct host (uuidsOf (loaded st)) ->
          caseDistinct host (uuidsOf (loaded st')))
      /\ getUuidForUser host (Some name) st' = (Returns v, st'))
  /\ (trim name = lit "__proto__" ->
      uuidsOf (loaded st') = uuidsOf (loaded st)
      /\ (calls st < calls st')%nat
      /\ forall v2 st2,
           getUuidForUser host (Some name) st' = (Returns v2, st2) ->
           v2 = uuidv4 host (calls st')).
Proof.
  intros Hnone Hname Hrun.
  assert (Hfirst : forall s r s',
            (forall k, k ∈ map fst (uuidsOf (loaded s)) ->
               toLowerCase host k <> toLowerCase host (trim name)) ->
            getUuidForUser host (Some name) s = (Returns r, s') ->
            r = uuidv4 host (calls s)
            /\ uuidsOf (loaded s')
               = objSet (uuidsOf (loaded s)) (trim name) r
            /\ healed s' = s'
            /\ (calls s < calls s')%nat).
  { intros s r s' Hno Hcall.
    rewrite (getUuidForUser_eq host name s Hname) in Hcall.
    rewrite (findKey_absent host _ _ Hno) in Hcall.
    unfold bind at 1, ask in Hcall. rewrite healed_calls in Hcall.
    unfold bind at 1 in Hcall.
    match type of Hcall with
    | context [saveUuids host ?es ?s0] =>
        destruct (saveUuids host es s0) as [[[]|message] s1] eqn:Hsave;
          [|discriminate]
    end.
    injection Hcall as <- <-.
    pose proof (saveConfig_counts _ _ _ _ Hsave) as Hcalls.
    apply saveUuids_returns in Hsave as (Huuids & _ & Hhealed).
    split; [reflexivity|]. split; [exact Huuids|]. split; [exact Hhealed|].
    cbn [calls nextCall] in Hcalls. rewrite healed_calls in Hcalls. lia. }
  destruct (Hfirst st v st' Hnone Hrun) as (Hv & Huuids & Hhealed & Hcalls).
  assert (Hfresh : trim name ∉ map fst (uuidsOf (loaded st)))
    by (intros Hin; apply (Hnone _ Hin); reflexivity).
  split; [exact Hv|]. split.
  - intros Hproto.
    rewrite (objSet_new _ _ _ Hfresh Hproto) in Huuids. rewrite Huuids.
    split; [|split].
    + intros e. rewrite elem_of_app, list_elem_of_singleton. reflexivity.
    + intros Hcd. apply caseDistinct_snoc; assumption.
    + apply getUuidForUser_only; rewrite ?Huuids; auto.
      * apply elem_of_app. right. apply list_elem_of_singleton. reflexivity.
      * intros k Hk Hmatch. rewrite map_app in Hk.
        apply elem_of_app in Hk as [Hk|Hk]; [destruct (Hnone k Hk Hmatch)|].
        cbn in Hk. apply list_elem_of_singleton in Hk. exact Hk.
      * intros u Hu. apply elem_of_app in Hu as [Hu|Hu].
        -- exfalso. apply Hfresh. apply list_elem_of_fmap.
           exists (trim name, u). auto.
        -- apply list_elem_of_singleton in Hu. injection Hu as ->. reflexivity.
  - intros Hproto. rewrite Hproto in Huuids, Hfresh.
    rewrite (objSet_proto _ _ Hfresh) in Huuids.
    split; [exact Huuids|]. split; [exact Hcalls|].
    intros v2 st2 Hagain.
    apply (Hfirst st' v2 st2); [|exact Hagain].
    rewrite Huuids. exact Hnone.
Qed.

Lemma new_user_gets_one_uuid_witness :
  getUuidForUser sampleConfigHost (Some (lit "Alex"))
    (snd (getUuidForUser sampleConfigHost (Some (lit "Alex"))
            (storeWith (Some (Json (Object sampleConfig))))))
  = (Returns (lit "00000000-0000-4000-8000-000000000000"),
     snd (getUuidForUser sampleConfigHost (Some (lit "Alex"))
            (storeWith (Some (Json (Object sampleConfig))))))
  /\ fst (getUuidForUser sampleConfigHost (Some (lit "__proto__"))
            (snd (getUuidForUser sampleConfigHost (Some (lit "__proto__"))
                    (storeWith (Some (Json (Object sampleConfig)))))))
     = Returns (lit "00000000-0000-4000-8000-000000000002").
Proof.
  assert (Hkeys : map fst (uuidsOf (loaded (storeWith
                                      (Some (Json (Object sampleConfig))))))
                  = [lit "Steve"]) by reflexivity.
  split.
  - apply (new_user_gets_one_uuid sampleConfigHost (lit "Alex")
             (storeWith (Some (Json (Object sampleConfig))))
             (lit "00000000-0000-4000-8000-000000000000")).
    + intros k Hk. rewrite Hkeys in Hk. apply list_elem_of_singleton in Hk.
      subst k. vm_compute. discriminate.
    + vm_compute. discriminate.
    + vm_compute. reflexivity.
    + vm_compute. discriminate.
  - vm_compute. reflexivity.
Defined.

(** X29. Renaming keeps the identity. Suppose the names of the map are
    distinct up to case, the configured user name, not empty once
    trimmed, matches up to case the name, not empty, of an entry with a
    UUID that is not empty, and [saveUsername] is given a name that
    differs from the configured one by more than case, matches no name of
    the map up to case and is not [__proto__]. Then, when [saveUsername]
    returns, the UUID has moved to the new name, the other entries are
    kept, the names stay distinct up to case, and [getUuidForUser] of the
    new name returns that UUID. *)
Theorem renaming_moves_the_uuid (host : ConfigHost)
  (newUsername current key uuid : jsstring) (st : Store)
  (newName : jsstring) (st' : Store) :
  ConfigStore.username (loaded st) = NameString current ->
  trim current <> [] ->
  caseDistinct host (uuidsOf (loaded st)) ->
  (key, uuid) ∈ uuidsOf (loaded st) ->
  key <> [] -> uuid <> [] ->
  toLowerCase host key = toLowerCase host (trim current) ->
  toLowerCase host (trim current) <> toLowerCase host (trim newUsername) ->
  (forall k, k ∈ map fst (uuidsOf (loaded st)) ->
     toLowerCase host k <> toLowerCase host (trim newUsername)) ->
  trim newUsername <> lit "__proto__" ->
  saveUsername host (Some newUsername) st = (Returns newName, st') ->
  (forall e, e ∈ uuidsOf (loaded st')
             <-> (e ∈ uuidsOf (loaded st) /\ fst e <> key)
                 \/ e = (newName, uuid))
  /\ caseDistinct host (uuidsOf (loaded st'))
  /\ getUuidForUser host (Some newUsername) st' = (Returns uuid, st').
Proof.
  intros Hname Hcurrent Hcd Hin Hkey Huuid Hlower Hrename Hnone Hproto Hrun.
  unfold saveUsername in Hrun.
  destruct (truthy (Some newUsername)); cbn [negb] in Hrun; [|discriminate].
  cbn [default from_option id] in Hrun.
  destruct (nonEmpty (trim newUsername)) eqn:Hnonempty;
    cbn [negb] in Hrun; [|discriminate].
  assert (Hnew : trim newUsername <> [])
    by (intros E; rewrite E in Hnonempty; discriminate).
  destruct (16 <? Z.of_nat (length (trim newUsername))); [discriminate|].
  rewrite (cfg_bind_returns _ _ _ _ _ (loadConfig_eq st)) in Hrun.
  assert (Hmoved : renamedUuids host (uuidsOf (loaded st))
                     (currentNameOf (loaded st)) (trim newUsername)
                   = objSet (objDelete (uuidsOf (loaded st)) key)
                       (trim newUsername) uuid).
  { unfold currentNameOf. rewrite Hname.
    destruct current as [|c0 current0]; [exfalso; apply Hcurrent; reflexivity|].
    unfold renamedUuids. cbn [default from_option id].
    destruct (trim (c0 :: current0)) as [|t more] eqn:Htrim; [contradiction|].
    cbn [truthy andb]. unfold str_eqb at 1.
    rewrite bool_decide_eq_false_2 by exact Hrename. cbn [negb].
    rewrite (findKey_found host _ key uuid _ Hcd Hin Hlower).
    rewrite (objGet_found host _ _ _ Hcd Hin).
    destruct key as [|k0 key0]; [contradiction|].
    destruct uuid as [|u0 uuid0]; [contradiction|].
    cbn [nonEmpty truthy andb default from_option id].
    rewrite (findKey_absent host _ _ Hnone). reflexivity. }
  rewrite Hmoved in Hrun.
  destruct (objSet_after_delete host (uuidsOf (loaded st)) key
              (trim newUsername) uuid Hcd Hproto) as [Hset Hcd'].
  { intros k Hk Hmatch. destruct (Hnone k Hk Hmatch). }
  rewrite Hset in Hrun.
  unfold bind at 1 in Hrun.
  match type of Hrun with
  | context [saveConfig host ?u (healed st)] =>
      destruct (saveConfig host u (healed st)) as [[[]|message] st1] eqn:Hsave;
        [|discriminate]
  end.
  injection Hrun as <- <-.
  apply saveConfig_returns in Hsave as (_ & _ & _ & Hloaded & Hhealed).
  assert (Huuids : uuidsOf (loaded st1)
                   = objDelete (uuidsOf (loaded st)) key
                     ++ [(trim newUsername, uuid)])
    by (rewrite Hloaded; reflexivity).
  rewrite Huuids. split; [|split; [exact Hcd'|]].
  - intros e. rewrite elem_of_app, list_elem_of_singleton, objDelete_elem.
    reflexivity.
  - apply getUuidForUser_distinct; rewrite ?Huuids; auto.
    apply elem_of_app. right. apply list_elem_of_singleton. reflexivity.
Qed.

Lemma renaming_moves_the_uuid_witness :
  getUuidForUser sampleConfigHost (Some (lit "Alex"))
    (snd (saveUsername sampleConfigHost (Some (lit "Alex"))
            (storeWith (Some (Json (Object sampleConfig))))))
  = (Returns (lit "11111111-1111-4111-8111-111111111111"),
     snd (saveUsername sampleConfigHost (Some (lit "Alex"))
            (storeWith (Some (Json (Object sampleConfig)))))).
Proof.
  assert (Hkeys : map fst (uuidsOf (loaded (storeWith
                                      (Some (Json (Object sampleConfig))))))
                  = [lit "Steve"]) by reflexivity.
  apply (renaming_moves_the_uuid sampleConfigHost (lit "Alex") (lit "Steve")
           (lit "Steve") (lit "11111111-1111-4111-8111-111111111111")
           (storeWith (Some (Json (Object sampleConfig)))) (lit "Alex")).
  - reflexivity.
  - vm_compute. discriminate.
  - vm_compute. apply NoDup_singleton.
  - vm_compute. apply list_elem_of_singleton. reflexivity.
  - discriminate.
  - discriminate.
  - vm_compute. reflexivity.
  - vm_compute. discriminate.
  - intros k Hk. rewrite Hkeys in Hk. apply list_elem_of_singleton in Hk.
    subst k. vm_compute. discriminate.
  - vm_compute. discriminate.
  - vm_compute. reflexivity.
Defined.

(** What the map is without the key that [findKey] answers, when no name
    is empty and the names are distinct up to case: the entries whose name
    does not match. *)
Lemma without_match host entries normalized e :
  caseDistinct host entries -> [] ∉ map fst entries ->
  e ∈ match findKey host entries normalized with
      | Some (c :: more) => objDelete entries (c :: more)
      | _ => entries
      end
  <-> e ∈ entries /\ toLowerCase host (fst e) <> normalized.
Proof.
  intros Hcd Hempty.
  destruct (findKey host entries normalized) as [key|] eqn:Hfind.
  - apply findKey_some in Hfind as [Hin Hlower].
    destruct key as [|c more]; [contradiction|].
    rewrite objDelete_elem.
    apply list_elem_of_fmap in Hin as ([k u] & Hk & Hin).
    cbn [fst] in Hk. subst k. subst normalized.
    split; intros [He Hne]; (split; [exact He|]).
    + intros Hmatch. apply Hne.
      rewrite (caseDistinct_inj host _ _ _ Hcd He Hin Hmatch). reflexivity.
    + intros Hfst. apply Hne. rewrite Hfst. reflexivity.
  - split; [|tauto]. intros He. split; [exact He|].
    apply (findKey_none host _ _ _ Hfind).
    apply list_elem_of_fmap. exists e. auto.
Qed.

(** X30. [setUuidForUser] and [deleteUuidForUser] act on every spelling of
    the name. When the names of the map are distinct up to case and none
    is empty: after [setUuidForUser] has returned for a name that, once
    trimmed, is not [__proto__], the UUID is one that [validateUuid]
    accepts, the map holds it under the name as typed beside the entries
    whose name does not match, and [getUuidForUser] returns it; after
    [deleteUuidForUser] has returned, the map holds the entries whose name
    does not match, and the answer tells whether one did. *)
Theorem set_and_delete_by_name (host : ConfigHost) (name uuid : jsstring)
  (st : Store) :
  caseDistinct host (uuidsOf (loaded st)) ->
  [] ∉ map fst (uuidsOf (loaded st)) ->
  (forall result st',
     trim name <> lit "__proto__" ->
     setUuidForUser host (Some name) uuid st = (Returns result, st') ->
     result = uuid
     /\ validateUuid host uuid = true
     /\ (forall e, e ∈ uuidsOf (loaded st')
                   <-> (e ∈ uuidsOf (loaded st)
                        /\ toLowerCase host (fst e)
                           <> toLowerCase host (trim name))
                       \/ e = (trim name, uuid))
     /\ caseDistinct host (uuidsOf (loaded st'))
     /\ getUuidForUser host (Some name) st' = (Returns uuid, st'))
  /\ (forall deleted st',
        deleteUuidForUser host (Some name) st = (Returns deleted, st') ->
        (forall e, e ∈ uuidsOf (loaded st')
                   <-> e ∈ uuidsOf (loaded st)
                       /\ toLowerCase host (fst e)
                          <> toLowerCase host (trim name))
        /\ (deleted = true
            <-> exists k, k ∈ map fst (uuidsOf (loaded st))
                          /\ toLowerCase host k = toLowerCase host (trim name))).
Proof.
  intros Hcd Hempty. split.
  - intros result st' Hproto Hrun. unfold setUuidForUser in Hrun.
    destruct (truthy (Some name)); cbn [negb orb] in Hrun; [|discriminate].
    cbn [default from_option id] in Hrun.
    destruct (nonEmpty (trim name)) eqn:Hnonempty;
      cbn [negb] in Hrun; [|discriminate].
    assert (Hname : trim name <> [])
      by (intros E; rewrite E in Hnonempty; discriminate).
    destruct (validateUuid host uuid) eqn:Hvalid;
      cbn [negb] in Hrun; [|discriminate].
    rewrite (cfg_bind_returns _ _ _ _ _ (loadConfig_eq st)) in Hrun.
    pose proof (fun e => without_match host (uuidsOf (loaded st))
                           (toLowerCase host (trim name)) e Hcd Hempty)
      as Hkept.
    set (kept := match findKey host (uuidsOf (loaded st))
                         (toLowerCase host (trim name)) with
                 | Some (c :: more) => objDelete (uuidsOf (loaded st)) (c :: more)
                 | _ => uuidsOf (loaded st)
                 end) in *.
    assert (Hcd1 : caseDistinct host kept).
    { subst kept.
      destruct (findKey host (uuidsOf (loaded st))
                  (toLowerCase host (trim name))) as [[|c more]|]; auto.
      apply caseDistinct_objDelete. exact Hcd. }
    destruct (objSet_fresh host kept (trim name) uuid Hcd1 Hproto)
      as [Hset Hcd'].
    { intros k Hk Hmatch.
      apply list_elem_of_fmap in Hk as (e & -> & He).
      apply Hkept in He as [_ Hne]. contradiction. }
    rewrite Hset in Hrun. unfold bind at 1 in Hrun.
    match type of Hrun with
    | context [saveUuids host ?es (healed st)] =>
        destruct (saveUuids host es (healed st)) as [[[]|message] st1] eqn:Hsave;
          [|discriminate]
    end.
    injection Hrun as <- <-.
    apply saveUuids_returns in Hsave as (Huuids & _ & Hhealed).
    rewrite Huuids.
    split; [reflexivity|]. split; [reflexivity|].
    split; [|split; [exact Hcd'|]].
    + intros e. rewrite elem_of_app, list_elem_of_singleton, Hkept.
      reflexivity.
    + apply getUuidForUser_distinct; rewrite ?Huuids; auto.
      apply elem_of_app. right. apply list_elem_of_singleton. reflexivity.
  - intros deleted st' Hrun. unfold deleteUuidForUser in Hrun.
    destruct (truthy (Some name)); cbn [negb] in Hrun; [|discriminate].
    cbn [default from_option id] in Hrun.
    rewrite (cfg_bind_returns _ _ _ _ _ (loadConfig_eq st)) in Hrun.
    pose proof (fun e => without_match host (uuidsOf (loaded st))
                           (toLowerCase host (trim name)) e Hcd Hempty)
      as Hkept.
    destruct (findKey host (uuidsOf (loaded st))
                (toLowerCase host (trim name))) as [key|] eqn:Hfind.
    + pose proof (findKey_some host _ _ _ Hfind) as [Hin Hlower].
      destruct key as [|c more]; [contradiction|].
      unfold bind at 1 in Hrun.
      match type of Hrun with
      | context [saveUuids host ?es (healed st)] =>
          destruct (saveUuids host es (healed st)) as [[[]|message] st1] eqn:Hsave;
            [|discriminate]
      end.
      injection Hrun as <- <-.
      apply saveUuids_returns in Hsave as (Huuids & _ & _).
      rewrite Huuids. split; [exact Hkept|].
      split; [intros _; exists (c :: more); auto | reflexivity].
    + injection Hrun as <- <-.
      destruct (healed_healed st) as [_ ->]. split; [exact Hkept|].
      split; [discriminate|].
      intros (k & Hk & Hmatch).
      destruct (findKey_none host _ _ _ Hfind Hk Hmatch).
Qed.

Lemma set_and_delete_by_name_witness :
  getUuidForUser sampleConfigHost (Some (lit "steve"))
    (snd (setUuidForUser sampleConfigHost (Some (lit "steve"))
            (lit "22222222-2222-4222-8222-222222222222")
            (storeWith (Some (Json (Object sampleConfig))))))
  = (Returns (lit "22222222-2222-4222-8222-222222222222"),
     snd (setUuidForUser sampleConfigHost (Some (lit "steve"))
            (lit "22222222-2222-4222-8222-222222222222")
            (storeWith (Some (Json (Object sampleConfig)))))).
Proof.
  assert (Hkeys : map fst (uuidsOf (loaded (storeWith
                                      (Some (Json (Object sampleConfig))))))
                  = [lit "Steve"]) by reflexivity.
  assert (Hcd : caseDistinct sampleConfigHost
                  (uuidsOf (loaded (storeWith
                                      (Some (Json (Object sampleConfig)))))))
    by (vm_compute; apply NoDup_singleton).
  assert (Hempty : [] ∉ map fst (uuidsOf (loaded (storeWith
                                     (Some (Json (Object sampleConfig)))))))
    by (rewrite Hkeys; intros Hin; apply list_elem_of_singleton in Hin;
        discriminate).
  apply (proj1 (set_and_delete_by_name sampleConfigHost (lit "steve")
                  (lit "22222222-2222-4222-8222-222222222222")
                  (storeWith (Some (Json (Object sampleConfig))))
                  Hcd Hempty)
           (lit "22222222-2222-4222-8222-222222222222")).
  - vm_compute. discriminate.
  - vm_compute. reflexivity.
Defined.

End UuidFacts.
